(** * cuSZ: dual-output Lorenzo predictor and default-path orchestrator

    A shallow embedding of the kernels of [lorenzo.cuh] and of
    [DefaultPathCompressor] ([default_path.cuh]).

    Numeric conventions.
    - [Data] (C++ [float]/[double]) is modelled by exact rationals [Q]:
      rounding error of machine floating point is outside the model.
    - [ErrCtrl] (C++ [uint8_t]/[uint16_t]/[uint32_t]) is a [Z] reduced modulo
      [2 ^ ErrCtrl_bits]; [int] quantities such as [radius] are [Z].
    - [uint32_t] header arithmetic wraps modulo [2 ^ 32].
    - thread, block and element indices are [nat].

    Execution conventions.  A kernel is a sequence of barrier-delimited
    phases.  Inside a phase the threads of a block touch pairwise distinct
    locations, so a phase is run as a loop over [threadIdx]; thread blocks
    touch disjoint parts of global memory, so a grid is run as a loop over
    [blockIdx].  The 2D kernels and the 3D inverse kernels exchange
    registers inside a warp: their threads run in lock step, so a
    statement acts on the registers of all lanes at once. *)

From Stdlib Require Import ZArith QArith Qabs Qround List Lia Lqa Bool Arith.
From Stdlib Require Import Morphisms Setoid.
Import ListNotations.

Set Implicit Arguments.

Local Open Scope Z_scope.
Local Open Scope Q_scope.
Local Open Scope nat_scope.

(* ================================================================== *)
(** ** Memories and loops *)

Definition mem (A : Type) : Type := nat -> A.

Definition store {A : Type} (m : mem A) (k : nat) (v : A) : mem A :=
  fun k' => if Nat.eqb k' k then v else m k'.

(** A three-dimensional shared array [a[z][y][x]]. *)
Definition shmem3 : Type := nat -> nat -> nat -> Q.

Definition store3 (m : shmem3) (z y x : nat) (v : Q) : shmem3 :=
  fun z' y' x' =>
    if (z' =? z) && (y' =? y) && (x' =? x) then v else m z' y' x'.

(** [for (auto i = lo; i < hi; i++) body] *)
Definition for_loop {S : Type} (lo hi : nat) (body : nat -> S -> S) (s : S) : S :=
  fold_left (fun acc i => body i acc) (seq lo (hi - lo)) s.

(** [for (auto d = lo; d < hi; d *= 2) body], which makes at most [fuel]
    rounds. *)
Fixpoint for_doubling {S : Type} (fuel : nat) (lo hi : nat)
    (body : nat -> S -> S) (s : S) : S :=
  match fuel with
  | O => s
  | Datatypes.S fuel' =>
      if lo <? hi then for_doubling fuel' (lo * 2) hi body (body lo s) else s
  end.

(** Device pointers to [Data] buffers: a pointer names an allocation, and
    two parameters holding the same pointer alias. *)
Definition ptr : Type := nat.
Definition dmem : Type := ptr -> mem Q.

Definition dstore (g : dmem) (p : ptr) (k : nat) (v : Q) : dmem :=
  fun p' => if Nat.eqb p' p then store (g p') k v else g p'.

(** Global memory seen by the Lorenzo kernels: the [Data] buffers and the
    quant-code buffer. *)
Record Global : Type := mkGlobal { g_data : dmem; g_quant : mem Z }.

(* ================================================================== *)
(** ** Scalar operations *)

(** C [round]: nearest integer, halfway cases away from zero. *)
Definition round_half_away (x : Q) : Z :=
  if Qle_bool 0 x then Qfloor (x + (1 # 2))%Q else Qceiling (x - (1 # 2))%Q.

Definition c_round (x : Q) : Q := inject_Z (round_half_away x).

(** Floating to integer conversion truncates toward zero. *)
Definition Qtrunc (x : Q) : Z :=
  if Qle_bool 0 x then Qfloor x else Qceiling x.

Definition Qlt_bool (x y : Q) : bool := negb (Qle_bool y x).

(** ** Warps

    The 2D kernels run [16 x 2] threads per block, which is one warp:
    thread ([TIX], [TIY]) is lane [TIX + 16 * TIY].  A thread-private
    array is indexed by the lane that owns it. *)
Definition regfile : Type := nat -> mem Q.

Definition lane_TIX (lane : nat) : nat := lane mod 16.
Definition lane_TIY (lane : nat) : nat := lane / 16.

(** [__shfl_up_sync(0xffffffff, var, delta, width)]: the value of [var]
    held by the lane [delta] below, within segments of [width] lanes; a
    lane without such a source gets its own value back. *)
Definition shfl_up_sync (var : nat -> Q) (delta width : nat) (lane : nat) : Q :=
  if lane mod width <? delta then var lane else var (lane - delta).

(** [load2d_prequant]: each lane loads its column of [YSEQ] rows into
    [center[1..YSEQ]]; the lanes of the lower half then take the last row
    of the upper half as [center[0]]. *)
Definition load2d_prequant (data : mem Q) (dimx dimy stridey : nat)
    (ebx2_r : Q) (gix giy_base : nat -> nat) (center : regfile) : regfile :=
  let YSEQ := 8 in
  let get_gid lane i := (giy_base lane + i) * stridey + gix lane in
  let center1 : regfile := fun lane =>
    for_loop 0 YSEQ (fun i c =>
      if (gix lane <? dimx) && (giy_base lane + i <? dimy)
      then store c (i + 1) (c_round (data (get_gid lane i) * ebx2_r))
      else c) (center lane) in
  let tmp := shfl_up_sync (fun lane => center1 lane YSEQ) 16 32 in
  fun lane =>
    if lane_TIY lane =? 1 then store (center1 lane) 0 (tmp lane)
    else center1 lane.

(** [pred2d]: for [i = YSEQ] down to [1], the difference along y, then
    the difference along x against the west lane. *)
Definition pred2d (center : regfile) : regfile :=
  let YSEQ := 8 in
  for_loop 0 YSEQ (fun k center =>
    let i := YSEQ - k in
    let center1 : regfile := fun lane =>
      store (center lane) i (center lane i - center lane (i - 1)%nat)%Q in
    let west := shfl_up_sync (fun lane => center1 lane i) 1 16 in
    fun lane =>
      if 0 <? lane_TIX lane
      then store (center1 lane) i (center1 lane i - west lane)%Q
      else center1 lane) center.

Section ErrCtrlType.

(** Width in bits of the [ErrCtrl] template parameter. *)
Variable ErrCtrl_bits : Z.

Definition to_ErrCtrl (z : Z) : Z := (z mod 2 ^ ErrCtrl_bits)%Z.

(** [static_cast<ErrCtrl>(x)] for a [Data] value [x]. *)
Definition static_cast_ErrCtrl (x : Q) : Z := to_ErrCtrl (Qtrunc x).

(** The post-quantization statements shared by [pred1d_postquant],
    [postquant_write2d] and the 3D kernel:
<<
    bool quantizable = fabs(delta) < radius;
    Data candidate   = delta + radius;
    outlier          = (1 - quantizable) * candidate;
    quant            = quantizable * static_cast<ErrCtrl>(candidate);
>> *)
Definition quantizable (radius : Z) (delta : Q) : bool :=
  Qlt_bool (Qabs delta) (inject_Z radius).

Definition candidate (radius : Z) (delta : Q) : Q :=
  (delta + inject_Z radius)%Q.

Definition postquant_outlier (radius : Z) (delta : Q) : Q :=
  (inject_Z (1 - Z.b2z (quantizable radius delta)) * candidate radius delta)%Q.

Definition postquant_quant (radius : Z) (delta : Q) : Z :=
  to_ErrCtrl (Z.b2z (quantizable radius delta)
              * static_cast_ErrCtrl (candidate radius delta))%Z.

Definition postquant (radius : Z) (delta : Q) : Q * Z :=
  (postquant_outlier radius delta, postquant_quant radius delta).

(* ================================================================== *)
(** ** Compress-time 1D kernel, [cusz::c_lorenzo_1d1l] *)

Section Kernel1D.

(** Template parameters [BLOCK] and [SEQ]. *)
Variables BLOCK SEQ : nat.

Definition NTHREAD : nat := BLOCK / SEQ.

(** Contents of [__shared__] memory at kernel entry are unspecified. *)
Variable shmem_data0 : mem Q.
Variable shmem_quant0 : mem Z.

(** [load1d], first loop: striped load from DRAM with prequantization. *)
Definition load1d (data : mem Q) (dimx id_base : nat) (ebx2_r : Q)
    (TIX : nat) (shmem_data : mem Q) : mem Q :=
  for_loop 0 SEQ (fun i sh =>
    let id := id_base + TIX + i * NTHREAD in
    if id <? dimx
    then store sh (TIX + i * NTHREAD) (c_round (data id * ebx2_r))
    else sh) shmem_data.

(** [load1d], after the barrier: the thread-private strip and the last
    element of the previous strip. *)
Definition load1d_thread_scope (shmem_data : mem Q) (TIX : nat) : mem Q :=
  fun i => shmem_data (TIX * SEQ + i).

Definition load1d_from_last_stripe (shmem_data : mem Q) (TIX : nat) : Q :=
  if 0 <? TIX then shmem_data (TIX * SEQ - 1) else 0%Q.

(** [pred1d_postquant<Data, ErrCtrl, SEQ, FIRST_POINT>] run by thread
    [TIX] on the pair ([shmem_data], [shmem_quant]). *)
Definition pred1d_postquant (FIRST_POINT : bool) (thread_scope : mem Q)
    (radius : Z) (from_last_stripe : Q) (TIX : nat)
    (sh : mem Q * mem Z) : mem Q * mem Z :=
  if FIRST_POINT then
    let delta := (thread_scope 0%nat - from_last_stripe)%Q in
    (store (fst sh) (0 + TIX * SEQ) (postquant_outlier radius delta),
     store (snd sh) (0 + TIX * SEQ) (postquant_quant radius delta))
  else
    for_loop 1 SEQ (fun i sh =>
      let delta := (thread_scope i - thread_scope (i - 1)%nat)%Q in
      (store (fst sh) (i + TIX * SEQ) (postquant_outlier radius delta),
       store (snd sh) (i + TIX * SEQ) (postquant_quant radius delta))) sh.

(** [write1d<..., DELAY_POSTQUANT = false>]: striped store to DRAM. *)
Definition write1d (shmem_data : mem Q) (shmem_quant : mem Z)
    (data : ptr) (dimx id_base : nat) (TIX : nat) (g : Global) : Global :=
  for_loop 0 SEQ (fun i g =>
    let id := id_base + TIX + i * NTHREAD in
    if id <? dimx
    then mkGlobal (dstore (g_data g) data id (shmem_data (TIX + i * NTHREAD)))
                  (store (g_quant g) id (shmem_quant (TIX + i * NTHREAD)))
    else g) g.

(** One thread block of [c_lorenzo_1d1l] ([DELAY_POSTQUANT = false]). *)
Definition c_lorenzo_1d1l_block (data outlier : ptr) (dimx : nat)
    (radius : Z) (ebx2_r : Q) (BIX : nat) (g : Global) : Global :=
  let id_base := BIX * BLOCK in
  (* load1d up to its first barrier *)
  let sh1 := for_loop 0 NTHREAD
               (load1d (g_data g data) dimx id_base ebx2_r) shmem_data0 in
  let thread_scope := load1d_thread_scope sh1 in
  let from_last_stripe := load1d_from_last_stripe sh1 in
  (* the two pred1d_postquant calls, up to the barrier of the second *)
  let sh2 := for_loop 0 NTHREAD (fun TIX sh =>
               pred1d_postquant false (thread_scope TIX) radius 0%Q TIX
                 (pred1d_postquant true (thread_scope TIX) radius
                    (from_last_stripe TIX) TIX sh))
               (sh1, shmem_quant0) in
  for_loop 0 NTHREAD (write1d (fst sh2) (snd sh2) outlier dimx id_base) g.

(** The grid. *)
Definition c_lorenzo_1d1l (gridDim : nat) (data outlier : ptr) (dimx : nat)
    (radius : Z) (ebx2_r : Q) (g : Global) : Global :=
  for_loop 0 gridDim (c_lorenzo_1d1l_block data outlier dimx radius ebx2_r) g.

End Kernel1D.

(* ================================================================== *)
(** ** Compress-time 3D kernel,
       [cusz::c_lorenzo_3d1l_32x8x8data_mapto32x1x8] *)

Section Kernel3D.

(** [__shared__ Data shmem[8][8][32]], unspecified at kernel entry. *)
Variable shmem3_0 : shmem3.

(** A thread block has [32 x 1 x 8] threads.  First part of the kernel,
    up to the barrier: thread ([TIX], [TIZ]) loads its column with
    prequantization. *)
Definition c_lorenzo_3d1l_load (data : mem Q) (dimx dimy dimz : nat)
    (stridey stridez : nat) (ebx2_r : Q) (BIX BIY BIZ : nat)
    (TIX TIZ : nat) (shmem : shmem3) : shmem3 :=
  let BLOCK := 8 in
  let z := TIZ in
  let gix := BIX * (BLOCK * 4) + TIX in
  let giy_base := BIY * BLOCK in
  let giz := BIZ * BLOCK + z in
  let base_id := gix + giy_base * stridey + giz * stridez in
  if (gix <? dimx) && (giz <? dimz) then
    for_loop 0 BLOCK (fun y sh =>
      if giy_base + y <? dimy
      then store3 sh z y TIX (c_round (data (base_id + y * stridey) * ebx2_r))
      else sh) shmem
  else shmem.

(** The prediction of the loop body: [delta] for row [y] of thread
    ([TIX], [z]), with [x = TIX % 8]. *)
Definition c_lorenzo_3d1l_delta (shmem : shmem3) (z y TIX : nat) : Q :=
  let x := TIX mod 8 in
  let center := shmem z y TIX in
  let dist3 := if (0 <? z) && (0 <? y) && (0 <? x)
               then shmem (z - 1) (y - 1) (TIX - 1) else 0%Q in
  let dist2_yx := if (0 <? y) && (0 <? x)
                  then shmem z (y - 1) (TIX - 1) else 0%Q in
  let dist2_zx := if (0 <? z) && (0 <? x)
                  then shmem (z - 1) y (TIX - 1) else 0%Q in
  let dist2_zy := if (0 <? z) && (0 <? y)
                  then shmem (z - 1) (y - 1) TIX else 0%Q in
  let dist1_x := if 0 <? x then shmem z y (TIX - 1) else 0%Q in
  let dist1_y := if 0 <? y then shmem z (y - 1) TIX else 0%Q in
  let dist1_z := if 0 <? z then shmem (z - 1) y TIX else 0%Q in
  (center - (dist3 - dist2_yx - dist2_zx - dist2_zy
             + dist1_x + dist1_y + dist1_z))%Q.

(** Second part: prediction, post-quantization and store, row by row
    ([DELAY_POSTQUANT = false]). *)
Definition c_lorenzo_3d1l_write (shmem : shmem3) (outlier : ptr)
    (dimx dimy dimz : nat) (stridey stridez : nat) (radius : Z)
    (BIX BIY BIZ : nat) (TIX TIZ : nat) (g : Global) : Global :=
  let BLOCK := 8 in
  let z := TIZ in
  let gix := BIX * (BLOCK * 4) + TIX in
  let giy_base := BIY * BLOCK in
  let giz := BIZ * BLOCK + z in
  let base_id := gix + giy_base * stridey + giz * stridez in
  for_loop 0 BLOCK (fun y g =>
    let delta := c_lorenzo_3d1l_delta shmem z y TIX in
    let id := base_id + y * stridey in
    if (gix <? dimx) && (giy_base + y <? dimy) && (giz <? dimz)
    then mkGlobal (dstore (g_data g) outlier id (postquant_outlier radius delta))
                  (store (g_quant g) id (postquant_quant radius delta))
    else g) g.

(** All threads of a block, as [TIZ]-major loops. *)
Definition for_threads_3d (S : Type) (body : nat -> nat -> S -> S) (s : S) : S :=
  for_loop 0 8 (fun TIZ s => for_loop 0 32 (fun TIX s => body TIX TIZ s) s) s.

Definition c_lorenzo_3d1l_block (data outlier : ptr) (dimx dimy dimz : nat)
    (stridey stridez : nat) (radius : Z) (ebx2_r : Q) (BIX BIY BIZ : nat)
    (g : Global) : Global :=
  let shmem := for_threads_3d
                 (c_lorenzo_3d1l_load (g_data g data) dimx dimy dimz stridey
                    stridez ebx2_r BIX BIY BIZ) shmem3_0 in
  for_threads_3d
    (c_lorenzo_3d1l_write shmem outlier dimx dimy dimz stridey stridez radius
       BIX BIY BIZ) g.

(** The grid, as [BIZ]-major loops. *)
Definition c_lorenzo_3d1l (gridDim_x gridDim_y gridDim_z : nat)
    (data outlier : ptr) (dimx dimy dimz : nat) (stridey stridez : nat)
    (radius : Z) (ebx2_r : Q) (g : Global) : Global :=
  for_loop 0 gridDim_z (fun BIZ g =>
    for_loop 0 gridDim_y (fun BIY g =>
      for_loop 0 gridDim_x (fun BIX g =>
        c_lorenzo_3d1l_block data outlier dimx dimy dimz stridey stridez
          radius ebx2_r BIX BIY BIZ g) g) g) g.

End Kernel3D.

(* ================================================================== *)
(** ** Compress-time 2D kernel,
       [cusz::c_lorenzo_2d1l_16x16data_mapto16x2] *)

Section Kernel2D.

(** [postquant_write2d] of one thread ([DELAY_POSTQUANT = false]). *)
Definition postquant_write2d (center : mem Q) (outlier : ptr)
    (dimx dimy stridey : nat) (radius : Z) (gix giy_base : nat)
    (g : Global) : Global :=
  let YSEQ := 8 in
  let get_gid i := (giy_base + i) * stridey + gix in
  for_loop 1 (YSEQ + 1) (fun i g =>
    let gid := get_gid (i - 1) in
    if (gix <? dimx) && (giy_base + i - 1 <? dimy)
    then mkGlobal
           (dstore (g_data g) outlier gid (postquant_outlier radius (center i)))
           (store (g_quant g) gid (postquant_quant radius (center i)))
    else g) g.

(** One thread block: the three steps in lock step, then the stores of
    the 32 lanes. *)
Definition c_lorenzo_2d1l_block (data outlier : ptr) (dimx dimy stridey : nat)
    (radius : Z) (ebx2_r : Q) (BIX BIY : nat) (g : Global) : Global :=
  let BLOCK := 16 in
  let YSEQ := 8 in
  let BDX := 16 in
  let gix lane := BIX * BDX + lane_TIX lane in
  let giy_base lane := BIY * BLOCK + lane_TIY lane * YSEQ in
  let center0 : regfile := fun _ _ => 0%Q in
  let center :=
    pred2d (load2d_prequant (g_data g data) dimx dimy stridey ebx2_r
              gix giy_base center0) in
  for_loop 0 32 (fun lane g =>
    postquant_write2d (center lane) outlier dimx dimy stridey radius
      (gix lane) (giy_base lane) g) g.

(** The grid, as [BIY]-major loops. *)
Definition c_lorenzo_2d1l (gridDim_x gridDim_y : nat) (data outlier : ptr)
    (dimx dimy stridey : nat) (radius : Z) (ebx2_r : Q) (g : Global) : Global :=
  for_loop 0 gridDim_y (fun BIY g =>
    for_loop 0 gridDim_x (fun BIX g =>
      c_lorenzo_2d1l_block data outlier dimx dimy stridey radius ebx2_r
        BIX BIY g) g) g.

End Kernel2D.

End ErrCtrlType.

(* ================================================================== *)
(** ** Compress-time kernels with [DELAY_POSTQUANT = true]

    The residual is stored as it is, in the [outlier] buffer; the 1D and
    2D kernels then neither read [radius] nor write [quant]. *)

Section Kernel1DDelay.

Variables BLOCK SEQ : nat.

(** [shmem.space.data] at kernel entry. *)
Variable shmem_data0 : mem Q.

(** [pred1d_delay_postquant<Data, SEQ, FIRST_POINT>] run by thread
    [TIX]. *)
Definition pred1d_delay_postquant (FIRST_POINT : bool) (thread_scope : mem Q)
    (from_last_stripe : Q) (TIX : nat) (shmem_data : mem Q) : mem Q :=
  if FIRST_POINT then
    let delta := (thread_scope 0%nat - from_last_stripe)%Q in
    store shmem_data (0 + TIX * SEQ) delta
  else
    for_loop 1 SEQ (fun i sh =>
      let delta := (thread_scope i - thread_scope (i - 1)%nat)%Q in
      store sh (i + TIX * SEQ) delta) shmem_data.

(** [write1d<..., DELAY_POSTQUANT = true>]: striped store to DRAM. *)
Definition write1d_delay (shmem_data : mem Q) (data : ptr)
    (dimx id_base : nat) (TIX : nat) (g : Global) : Global :=
  for_loop 0 SEQ (fun i g =>
    let id := id_base + TIX + i * NTHREAD BLOCK SEQ in
    if id <? dimx
    then mkGlobal (dstore (g_data g) data id
                     (shmem_data (TIX + i * NTHREAD BLOCK SEQ)))
                  (g_quant g)
    else g) g.

(** One thread block of [c_lorenzo_1d1l] ([DELAY_POSTQUANT = true]). *)
Definition c_lorenzo_1d1l_delay_block (data outlier : ptr) (dimx : nat)
    (radius : Z) (ebx2_r : Q) (BIX : nat) (g : Global) : Global :=
  let id_base := BIX * BLOCK in
  let sh1 := for_loop 0 (NTHREAD BLOCK SEQ)
               (load1d BLOCK SEQ (g_data g data) dimx id_base ebx2_r)
               shmem_data0 in
  let thread_scope := load1d_thread_scope SEQ sh1 in
  let from_last_stripe := load1d_from_last_stripe SEQ sh1 in
  let sh2 := for_loop 0 (NTHREAD BLOCK SEQ) (fun TIX sh =>
               pred1d_delay_postquant false (thread_scope TIX) 0%Q TIX
                 (pred1d_delay_postquant true (thread_scope TIX)
                    (from_last_stripe TIX) TIX sh)) sh1 in
  for_loop 0 (NTHREAD BLOCK SEQ) (write1d_delay sh2 outlier dimx id_base) g.

Definition c_lorenzo_1d1l_delay (gridDim : nat) (data outlier : ptr)
    (dimx : nat) (radius : Z) (ebx2_r : Q) (g : Global) : Global :=
  for_loop 0 gridDim
    (c_lorenzo_1d1l_delay_block data outlier dimx radius ebx2_r) g.

End Kernel1DDelay.

(** [postquant_write2d<..., DELAY_POSTQUANT = true>] of one thread. *)
Definition postquant_write2d_delay (center : mem Q) (outlier : ptr)
    (dimx dimy stridey : nat) (radius : Z) (gix giy_base : nat)
    (g : Global) : Global :=
  let YSEQ := 8 in
  let get_gid i := (giy_base + i) * stridey + gix in
  for_loop 1 (YSEQ + 1) (fun i g =>
    let gid := get_gid (i - 1) in
    if (gix <? dimx) && (giy_base + i - 1 <? dimy)
    then mkGlobal (dstore (g_data g) outlier gid (center i)) (g_quant g)
    else g) g.

Definition c_lorenzo_2d1l_delay_block (data outlier : ptr)
    (dimx dimy stridey : nat) (radius : Z) (ebx2_r : Q) (BIX BIY : nat)
    (g : Global) : Global :=
  let BLOCK := 16 in
  let YSEQ := 8 in
  let BDX := 16 in
  let gix lane := BIX * BDX + lane_TIX lane in
  let giy_base lane := BIY * BLOCK + lane_TIY lane * YSEQ in
  let center0 : regfile := fun _ _ => 0%Q in
  let center :=
    pred2d (load2d_prequant (g_data g data) dimx dimy stridey ebx2_r
              gix giy_base center0) in
  for_loop 0 32 (fun lane g =>
    postquant_write2d_delay (center lane) outlier dimx dimy stridey radius
      (gix lane) (giy_base lane) g) g.

Definition c_lorenzo_2d1l_delay (gridDim_x gridDim_y : nat)
    (data outlier : ptr) (dimx dimy stridey : nat) (radius : Z) (ebx2_r : Q)
    (g : Global) : Global :=
  for_loop 0 gridDim_y (fun BIY g =>
    for_loop 0 gridDim_x (fun BIX g =>
      c_lorenzo_2d1l_delay_block data outlier dimx dimy stridey radius ebx2_r
        BIX BIY g) g) g.

(* ================================================================== *)
(** ** Decompress-time 1D kernel, [cusz::x_lorenzo_1d1l] *)

(** Running sum [f 0 + ... + f k]. *)
Fixpoint prefix_sum (f : mem Q) (k : nat) : Q :=
  match k with
  | O => f O
  | S k' => (prefix_sum f k' + f k)%Q
  end.

Section KernelX1D.

Variables BLOCK SEQ : nat.

(** [block_dim = BLOCK / SEQ], which is also [blockDim.x]. *)
Definition block_dim : nat := BLOCK / SEQ.

(** The [cub] block primitives, by their documented meaning on a blocked
    arrangement: thread [TIX] owns the [SEQ] consecutive items starting at
    [TIX * SEQ] of the tile.  A thread-private array is a function of its
    index. *)
Definition BlockLoad (A : Type) (src : mem A) (TIX : nat) : mem A :=
  fun i => src (TIX * SEQ + i).

Definition InclusiveSum (items : nat -> mem Q) (TIX : nat) : mem Q :=
  fun i => prefix_sum (fun k => items (k / SEQ) (k mod SEQ)) (TIX * SEQ + i).

Definition BlockStore (items : mem Q) (dst : ptr) (tile : nat) (TIX : nat)
    (g : dmem) : dmem :=
  for_loop 0 SEQ (fun i g => dstore g dst (tile + TIX * SEQ + i) (items i)) g.

(** One thread block of [x_lorenzo_1d1l] ([DELAY_POSTQUANT = false]). *)
Definition x_lorenzo_1d1l_block (outlier : ptr) (xdata : ptr) (dimx : nat)
    (radius : Z) (ebx2 : Q) (BIX : nat) (g : Global) : Global :=
  let BDX := block_dim in
  let tile := (BIX * BDX) * SEQ in
  let thread_scope_quant :=
    BlockLoad (fun k => g_quant g (tile + k)) in
  let thread_scope_outlier :=
    BlockLoad (fun k => g_data g outlier (tile + k)) in
  (* fuse outlier and quant code *)
  let fused := fun TIX i =>
    let id := (BIX * BDX + TIX) * SEQ + i in
    if id <? dimx
    then (thread_scope_outlier TIX i + inject_Z (thread_scope_quant TIX i)
          - inject_Z radius)%Q
    else 0%Q in
  (* partial sum over the tile *)
  let scanned := InclusiveSum fused in
  (* scale by ebx2 and write to DRAM *)
  let scaled := fun TIX i => (scanned TIX i * ebx2)%Q in
  mkGlobal
    (for_loop 0 BDX (fun TIX gd => BlockStore (scaled TIX) xdata tile TIX gd)
       (g_data g))
    (g_quant g).

Definition x_lorenzo_1d1l (gridDim : nat) (outlier : ptr) (xdata : ptr)
    (dimx : nat) (radius : Z) (ebx2 : Q) (g : Global) : Global :=
  for_loop 0 gridDim (x_lorenzo_1d1l_block outlier xdata dimx radius ebx2) g.

End KernelX1D.

(* ================================================================== *)
(** ** Decompress-time 2D kernel,
       [cusz::x_lorenzo_2d1l_16x16data_mapto16x2] *)

Section KernelX2D.

(** [__shared__ Data intermediate[BLOCK]] and the thread-private
    [Data thread_scope[YSEQ]] start out unspecified. *)
Variable intermediate0 : mem Q.
Variable thread_scope0 : regfile.

(** One round of the in-warp sum of row [i]:
<<
    Data n = __shfl_up_sync(0xffffffff, i, d, 16);
    if (TIX >= d) i += n;
>> *)
Definition x_lorenzo_2d1l_round (i d : nat) (thread_scope : regfile) : regfile :=
  let n := shfl_up_sync (fun lane => thread_scope lane i) d 16 in
  fun lane =>
    if d <=? lane_TIX lane
    then store (thread_scope lane) i (thread_scope lane i + n lane)%Q
    else thread_scope lane.

(** The kernel body, phase by phase ([DELAY_POSTQUANT = false]); [gix]
    and [giy_base] give the coordinates of each lane.  First the fusion
    of outlier and quant code. *)
Definition x_lorenzo_2d1l_fuse (YSEQ : nat) (g : Global) (outlier : ptr)
    (dimx dimy stridey : nat) (radius : Z) (gix giy_base : nat -> nat)
    : regfile :=
  let get_gid lane i := (giy_base lane + i) * stridey + gix lane in
  fun lane =>
    for_loop 0 YSEQ (fun i ts =>
      let gid := get_gid lane i in
      if (gix lane <? dimx) && (giy_base lane + i <? dimy)
      then store ts i (g_data g outlier gid + inject_Z (g_quant g gid)
                       - inject_Z radius)%Q
      else store ts i 0%Q) (thread_scope0 lane).

(** Partial sum along the y axis, sequentially. *)
Definition x_lorenzo_2d1l_sum_y (YSEQ : nat) (thread_scope : regfile)
    : regfile :=
  fun lane =>
    for_loop 1 YSEQ (fun i ts => store ts i (ts i + ts (i - 1)%nat)%Q)
      (thread_scope lane).

(** Two-pass update across the two halves of the tile: the upper half
    stores its last row, the lower half adds it after the barrier. *)
Definition x_lorenzo_2d1l_two_pass (YSEQ : nat) (thread_scope : regfile)
    : regfile :=
  let intermediate :=
    for_loop 0 32 (fun lane sh =>
      if lane_TIY lane =? 0
      then store sh (lane_TIX lane) (thread_scope lane (YSEQ - 1))
      else sh) intermediate0 in
  fun lane =>
    if lane_TIY lane =? 1
    then let tmp := intermediate (lane_TIX lane) in
         for_loop 0 YSEQ (fun i ts => store ts i (ts i + tmp)%Q)
           (thread_scope lane)
    else thread_scope lane.

(** In-warp partial sum along the x axis, then the scaling. *)
Definition x_lorenzo_2d1l_sum_x (BLOCK YSEQ : nat) (ebx2 : Q)
    (thread_scope : regfile) : regfile :=
  for_loop 0 YSEQ (fun i ts =>
    let ts' := for_doubling BLOCK 1 BLOCK (x_lorenzo_2d1l_round i) ts in
    fun lane => store (ts' lane) i (ts' lane i * ebx2)%Q) thread_scope.

(** Write to DRAM. *)
Definition x_lorenzo_2d1l_write (YSEQ : nat) (xdata : ptr)
    (dimx dimy stridey : nat) (gix giy_base : nat -> nat)
    (thread_scope : regfile) (gd : dmem) : dmem :=
  let get_gid lane i := (giy_base lane + i) * stridey + gix lane in
  for_loop 0 32 (fun lane gd =>
    for_loop 0 YSEQ (fun i gd =>
      let gid := get_gid lane i in
      if (gix lane <? dimx) && (giy_base lane + i <? dimy)
      then dstore gd xdata gid (thread_scope lane i)
      else gd) gd) gd.

(** One thread block. *)
Definition x_lorenzo_2d1l_block (outlier xdata : ptr) (dimx dimy stridey : nat)
    (radius : Z) (ebx2 : Q) (BIX BIY : nat) (g : Global) : Global :=
  let BLOCK := 16 in
  let YSEQ := BLOCK / 2 in
  let gix lane := BIX * BLOCK + lane_TIX lane in
  let giy_base lane := BIY * BLOCK + lane_TIY lane * YSEQ in
  let fused :=
    x_lorenzo_2d1l_fuse YSEQ g outlier dimx dimy stridey radius gix giy_base in
  let summed := x_lorenzo_2d1l_two_pass YSEQ (x_lorenzo_2d1l_sum_y YSEQ fused) in
  let scanned := x_lorenzo_2d1l_sum_x BLOCK YSEQ ebx2 summed in
  mkGlobal
    (x_lorenzo_2d1l_write YSEQ xdata dimx dimy stridey gix giy_base scanned
       (g_data g))
    (g_quant g).

(** The grid, as [BIY]-major loops. *)
Definition x_lorenzo_2d1l (gridDim_x gridDim_y : nat) (outlier xdata : ptr)
    (dimx dimy stridey : nat) (radius : Z) (ebx2 : Q) (g : Global) : Global :=
  for_loop 0 gridDim_y (fun BIY g =>
    for_loop 0 gridDim_x (fun BIX g =>
      x_lorenzo_2d1l_block outlier xdata dimx dimy stridey radius ebx2
        BIX BIY g) g) g.

End KernelX2D.

(* ================================================================== *)
(** ** Decompress-time 3D kernels,
       [cusz::x_lorenzo_3d1l_32x8x8data_mapto32x1x8] and its variant *)

(** A thread block has [32 x 1 x 8] threads: thread ([TIX], [TIZ]) is lane
    [TIX] of warp [TIZ].  A thread-private array is indexed by the thread
    that owns it, a thread-private scalar likewise. *)
Definition regfile3 : Type := nat -> nat -> mem Q.
Definition regs3 : Type := nat -> nat -> Q.

(** One round of the in-warp sum over segments of 8 lanes:
<<
    addend = __shfl_up_sync(0xffffffff, val, dist, 8);
    if (seg_tix >= dist) val += addend;
>> *)
Definition x_lorenzo_3d1l_round (dist : nat) (val : regs3) : regs3 :=
  fun TIZ TIX =>
    let seg_tix := TIX mod 8 in
    let addend := shfl_up_sync (val TIZ) dist 8 TIX in
    if dist <=? seg_tix then (val TIZ TIX + addend)%Q else val TIZ TIX.

(** [for (dist = 1; dist < BLOCK; dist *= 2)] of such rounds. *)
Definition x_lorenzo_3d1l_scan (BLOCK : nat) (val : regs3) : regs3 :=
  for_doubling BLOCK 1 BLOCK x_lorenzo_3d1l_round val.

(** The x-z transpose through shared memory:
<<
    intermediate[TIZ][seg_id][seg_tix] = val;
    __syncthreads();
    val = intermediate[seg_tix][seg_id][TIZ];
    __syncthreads();
>> *)
Definition x_lorenzo_3d1l_transpose (st : shmem3 * regs3) : shmem3 * regs3 :=
  let intermediate :=
    for_threads_3d
      (fun TIX TIZ sh => store3 sh TIZ (TIX / 8) (TIX mod 8) (snd st TIZ TIX))
      (fst st) in
  (intermediate, fun TIZ TIX => intermediate (TIX mod 8) (TIX / 8) TIZ).

(** The partial sums along x and z of one value per thread. *)
Definition x_lorenzo_3d1l_sum_xz (BLOCK : nat) (st : shmem3 * regs3)
    : shmem3 * regs3 :=
  let st := (fst st, x_lorenzo_3d1l_scan BLOCK (snd st)) in
  let st := x_lorenzo_3d1l_transpose st in
  let st := (fst st, x_lorenzo_3d1l_scan BLOCK (snd st)) in
  x_lorenzo_3d1l_transpose st.

Section KernelX3D.

(** [__shared__ Data intermediate[BLOCK][4][8]] and the thread-private
    [Data thread_scope[YSEQ]] start out unspecified. *)
Variable intermediate3_0 : shmem3.
Variable thread_scope3_0 : regfile3.

(** The kernel body, phase by phase ([DELAY_POSTQUANT = false]).  First
    the fusion of outlier and quant code. *)
Definition x_lorenzo_3d1l_fuse (YSEQ : nat) (g : Global) (outlier : ptr)
    (dimx dimy dimz stridey stridez : nat) (radius : Z)
    (gix : nat -> nat) (giy_base : nat) (giz : nat -> nat) : regfile3 :=
  let get_gid TIZ TIX y :=
    giz TIZ * stridez + (giy_base + y) * stridey + gix TIX in
  fun TIZ TIX =>
    for_loop 0 YSEQ (fun y ts =>
      let gid := get_gid TIZ TIX y in
      if (gix TIX <? dimx) && (giy_base + y <? dimy) && (giz TIZ <? dimz)
      then store ts y (g_data g outlier gid + inject_Z (g_quant g gid)
                       - inject_Z radius)%Q
      else store ts y 0%Q) (thread_scope3_0 TIZ TIX).

(** Partial sum along the y axis, sequentially. *)
Definition x_lorenzo_3d1l_sum_y (YSEQ : nat) (thread_scope : regfile3)
    : regfile3 :=
  fun TIZ TIX =>
    for_loop 1 YSEQ (fun y ts => store ts y (ts y + ts (y - 1)%nat)%Q)
      (thread_scope TIZ TIX).

(** Partial sums along the x and z axes, row by row. *)
Definition x_lorenzo_3d1l_rows (BLOCK : nat) (thread_scope : regfile3)
    : shmem3 * regfile3 :=
  for_loop 0 BLOCK (fun i st =>
    let thread_scope := snd st in
    let val : regs3 := fun TIZ TIX => thread_scope TIZ TIX i in
    let st' := x_lorenzo_3d1l_sum_xz BLOCK (fst st, val) in
    (fst st', fun TIZ TIX => store (thread_scope TIZ TIX) i (snd st' TIZ TIX)))
    (intermediate3_0, thread_scope).

(** Write to DRAM. *)
Definition x_lorenzo_3d1l_write (YSEQ : nat) (xdata : ptr)
    (dimx dimy dimz stridey stridez : nat) (ebx2 : Q)
    (gix : nat -> nat) (giy_base : nat) (giz : nat -> nat)
    (thread_scope : regfile3) (gd : dmem) : dmem :=
  let get_gid TIZ TIX y :=
    giz TIZ * stridez + (giy_base + y) * stridey + gix TIX in
  for_threads_3d (fun TIX TIZ gd =>
    for_loop 0 YSEQ (fun y gd =>
      if (gix TIX <? dimx) && (giy_base + y <? dimy) && (giz TIZ <? dimz)
      then dstore gd xdata (get_gid TIZ TIX y) (thread_scope TIZ TIX y * ebx2)%Q
      else gd) gd) gd.

(** One thread block. *)
Definition x_lorenzo_3d1l_block (outlier xdata : ptr)
    (dimx dimy dimz stridey stridez : nat) (radius : Z) (ebx2 : Q)
    (BIX BIY BIZ : nat) (g : Global) : Global :=
  let BLOCK := 8 in
  let YSEQ := BLOCK in
  let gix TIX := BIX * (4 * BLOCK) + TIX in
  let giy_base := BIY * BLOCK in
  let giz TIZ := BIZ * BLOCK + TIZ in
  let fused :=
    x_lorenzo_3d1l_fuse YSEQ g outlier dimx dimy dimz stridey stridez radius
      gix giy_base giz in
  let summed := x_lorenzo_3d1l_sum_y YSEQ fused in
  let scanned := snd (x_lorenzo_3d1l_rows BLOCK summed) in
  mkGlobal
    (x_lorenzo_3d1l_write YSEQ xdata dimx dimy dimz stridey stridez ebx2
       gix giy_base giz scanned (g_data g))
    (g_quant g).

(** The grid, as [BIZ]-major loops. *)
Definition x_lorenzo_3d1l (gridDim_x gridDim_y gridDim_z : nat)
    (outlier xdata : ptr) (dimx dimy dimz stridey stridez : nat)
    (radius : Z) (ebx2 : Q) (g : Global) : Global :=
  for_loop 0 gridDim_z (fun BIZ g =>
    for_loop 0 gridDim_y (fun BIY g =>
      for_loop 0 gridDim_x (fun BIX g =>
        x_lorenzo_3d1l_block outlier xdata dimx dimy dimz stridey stridez
          radius ebx2 BIX BIY BIZ g) g) g) g.

(** The variant: one row per round of the [y] loop, the sum along y kept
    in a scalar that starts at zero, the row written at the end of its
    round. *)
Definition x_lorenzo_3d1lvar_block (outlier xdata : ptr)
    (dimx dimy dimz stridey stridez : nat) (radius : Z) (ebx2 : Q)
    (BIX BIY BIZ : nat) (g : Global) : Global :=
  let BLOCK := 8 in
  let YSEQ := BLOCK in
  let gix TIX := BIX * (4 * BLOCK) + TIX in
  let giy_base := BIY * BLOCK in
  let giz TIZ := BIZ * BLOCK + TIZ in
  let get_gid TIZ TIX y :=
    giz TIZ * stridez + (giy_base + y) * stridey + gix TIX in
  let thread_scope0 : regs3 := fun _ _ => 0%Q in
  snd (for_loop 0 YSEQ (fun y st =>
    let intermediate := fst (fst st) in
    let thread_scope := snd (fst st) in
    let g := snd st in
    let thread_scope : regs3 := fun TIZ TIX =>
      let gid := get_gid TIZ TIX y in
      if (gix TIX <? dimx) && (giy_base + y <? dimy) && (giz TIZ <? dimz)
      then (thread_scope TIZ TIX
            + (g_data g outlier gid + inject_Z (g_quant g gid)
               - inject_Z radius))%Q
      else thread_scope TIZ TIX in
    let st' := x_lorenzo_3d1l_sum_xz BLOCK (intermediate, thread_scope) in
    let val := snd st' in
    let gd :=
      for_threads_3d (fun TIX TIZ gd =>
        if (gix TIX <? dimx) && (giy_base + y <? dimy) && (giz TIZ <? dimz)
        then dstore gd xdata (get_gid TIZ TIX y) (val TIZ TIX * ebx2)%Q
        else gd) (g_data g) in
    (fst st', thread_scope, mkGlobal gd (g_quant g)))
    (intermediate3_0, thread_scope0, g)).

Definition x_lorenzo_3d1lvar (gridDim_x gridDim_y gridDim_z : nat)
    (outlier xdata : ptr) (dimx dimy dimz stridey stridez : nat)
    (radius : Z) (ebx2 : Q) (g : Global) : Global :=
  for_loop 0 gridDim_z (fun BIZ g =>
    for_loop 0 gridDim_y (fun BIY g =>
      for_loop 0 gridDim_x (fun BIX g =>
        x_lorenzo_3d1lvar_block outlier xdata dimx dimy dimz stridey stridez
          radius ebx2 BIX BIY BIZ g) g) g) g.

End KernelX3D.

(** Residual the inverse kernel restores at global index [id]: the sum
    [outlier + quant - radius]. *)
Definition fuse (O : mem Q) (Qc : mem Z) (radius : Z) (id : nat) : Q :=
  (O id + inject_Z (Qc id) - inject_Z radius)%Q.

(** Inclusive running sum of [f] inside the [BLOCK]-wide tile of [id]. *)
Definition tile_prefix_sum (BLOCK : nat) (f : mem Q) (id : nat) : Q :=
  prefix_sum (fun k => f (id / BLOCK * BLOCK + k)) (id mod BLOCK).

(** Inclusive running sum of [f] along both axes inside the [16 x 16]
    tile of ([x], [y]). *)
Definition tile_prefix_sum2 (f : nat -> nat -> Q) (x y : nat) : Q :=
  prefix_sum
    (fun i => prefix_sum (fun j => f (x / 16 * 16 + i) (y / 16 * 16 + j))
                (y mod 16))
    (x mod 16).

(** Inclusive running sum of [f] along the three axes inside the
    [8 x 8 x 8] tile of ([x], [y], [z]). *)
Definition tile_prefix_sum3 (f : nat -> nat -> nat -> Q) (x y z : nat) : Q :=
  prefix_sum
    (fun k =>
       prefix_sum
         (fun i =>
            prefix_sum
              (fun j => f (x / 8 * 8 + i) (y / 8 * 8 + j) (z / 8 * 8 + k))
              (y mod 8))
         (x mod 8))
    (z mod 8).

(** Guarded residual: threads past [dimx] contribute zero. *)
Definition fuse_guarded (O : mem Q) (Qc : mem Z) (radius : Z) (dimx : nat)
    (id : nat) : Q :=
  if id <? dimx then fuse O Qc radius id else 0%Q.

(* ================================================================== *)
(** ** The predictor wrapper *)

(** Modelled from the spec: [PredictorLorenzo::construct] and
    [PredictorLorenzo::reconstruct] are not part of the sources.  They
    launch the kernels above over [ceil(dimx / BLOCK)] blocks, with
    [ebx2_r = 1 / (eb * 2)] and [ebx2 = eb * 2] (the documented meaning of
    the kernel parameters).  [construct] has no separate outlier argument:
    [DefaultPathCompressor::compress] hands the pointer [uncompressed] to
    [construct] as input and then to [gather] as the dense outlier array,
    so the kernel runs with [outlier] aliased to [data].  [reconstruct]
    likewise receives one buffer, [out_decompressed], that holds the
    scattered outliers and receives the result. *)
Definition PredictorLorenzo_construct (ErrCtrl_bits : Z) (BLOCK SEQ : nat)
    (shmem_data0 : mem Q) (shmem_quant0 : mem Z)
    (in_data : ptr) (dimx : nat) (eb : Q) (radius : Z) (g : Global) : Global :=
  c_lorenzo_1d1l ErrCtrl_bits BLOCK SEQ shmem_data0 shmem_quant0
    ((dimx + BLOCK - 1) / BLOCK) in_data in_data dimx radius
    (1 / (eb * 2))%Q g.

Definition PredictorLorenzo_reconstruct (BLOCK SEQ : nat)
    (xdata : ptr) (dimx : nat) (eb : Q) (radius : Z) (g : Global) : Global :=
  x_lorenzo_1d1l BLOCK SEQ ((dimx + BLOCK - 1) / BLOCK) xdata xdata dimx
    radius (eb * 2)%Q g.

(* ================================================================== *)
(** ** The default-path orchestrator, [DefaultPathCompressor] *)

Definition uint32 (z : Z) : Z := (z mod 2 ^ 32)%Z.

(** Modelled from the spec: [header.hh] is not part of the sources.  The
    header has the fields listed in the archive layout, [sizeof(HEADER)] is
    128, the subfile slots are [HEADER = 0], [ANCHOR = 1], [VLE = 2],
    [SPFMT = 3], [END = 4], and [file_size()] is [entry[END]]. *)
Record cuszHEADER : Type := mkHEADER {
  h_x : Z; h_y : Z; h_z : Z;
  h_radius : Z;
  h_vle_pardeg : Z;
  h_eb : Q;
  h_byte_vle : Z;
  h_codecs_in_use : Z;
  h_nz_density_factor : Z;
  h_header_nbyte : Z;
  h_entry : mem Z
}.

Definition sizeof_HEADER : Z := 128.
Definition HEADER_HEADER : nat := 0.
Definition HEADER_ANCHOR : nat := 1.
Definition HEADER_VLE : nat := 2.
Definition HEADER_SPFMT : nat := 3.
Definition HEADER_END : nat := 4.

Definition file_size (h : cuszHEADER) : Z := h_entry h HEADER_END.

(** Modelled from the spec: [Reinterpret1DTo2D::get_square_size] is not
    part of the sources; it is [m = ceil(sqrt(N))], the expression the
    driver program also uses to size the input buffer. *)
Definition get_square_size (len : Z) : Z :=
  let r := Z.sqrt len in if (r * r =? len)%Z then r else (r + 1)%Z.

(** Modelled from the spec: [ConfigHelper::get_npart] is not part of the
    sources; it is the rounded-up quotient ([sublen = ceil(N / pardeg)]). *)
Definition get_npart (size subsize : Z) : Z :=
  ((size + subsize - 1) / subsize)%Z.

(** Exceptions: [std::runtime_error] (what the [catch] clause of
    [compress] names) and anything else. *)
Inductive exn : Type := runtime_error | other_exception.

Inductive result (A : Type) : Type :=
| Ok (a : A)
| Throw (e : exn).
Arguments Ok {A} a.
Arguments Throw {A} e.

(** The components bound by [BINDING].  Their code is not part of the
    sources, so they are interfaces: a component is any implementation of
    its signature.  A device blob is named by what produced it. *)
Record Predictor : Type := mkPredictor {
  get_data_len : Z;
  get_quant_len : Z;
  get_anchor_len : Z;
  (* construct(in_data, eb, radius, out_anchor, out_errctrl, stream) *)
  construct : ptr -> Q -> Z -> Global -> Global;
  (* reconstruct(anchor, errctrl, eb, radius, xdata, stream) *)
  reconstruct : ptr -> Q -> Z -> Global -> Global
}.

Record SpReducer (Blob : Type) : Type := mkSpReducer {
  (* gather(in, in_len, out, out_len, stream): reads in[0 .. in_len) *)
  gather : mem Q -> Z -> result (Blob * Z);
  (* scatter(in, out, stream): updates the buffer at [out] *)
  scatter : Blob -> mem Q -> mem Q
}.

Record Codec (Blob : Type) : Type := mkCodec {
  (* encode(in, in_len, booklen, sublen, pardeg, out, out_len, stream) *)
  encode : mem Z -> Z -> Z -> Z -> Z -> result (Blob * Z);
  (* decode(in, out): updates the buffer at [out] *)
  decode : Blob -> mem Z -> mem Z
}.

(** Calls into the components and writes to the reserved output buffer,
    in issue order. *)
Inductive event : Type :=
| EvConstruct (buf : ptr) (len : Z)
| EvGather (buf : ptr) (len : Z)
| EvEncode (nbyte : Z) (input : mem Z) (in_len booklen sublen pardeg : Z)
    (ok : bool)
| EvAllocFallback (in_len booklen pardeg : Z)
| EvWriteReserved (offset len : Z)
| EvScatter
| EvDecode (nbyte : Z)
| EvReconstruct.

(** Mutable members of the compressor object. *)
Record Compressor : Type := mkCompressor {
  use_fallback_codec : bool;
  fallback_codec_allocated : bool;
  header : cuszHEADER;
  reserved_nbyte : Z
}.

Definition empty_HEADER : cuszHEADER :=
  mkHEADER 0 0 0 0 0 0 0 0 0 0 (fun _ => 0%Z).

(** [DefaultPathCompressor(dim3 xyz)] *)
Definition new_Compressor : Compressor :=
  mkCompressor false false empty_HEADER 0.

Section DefaultPath.

Variable Blob : Type.
Variable predictor : Predictor.
Variable spreducer : SpReducer Blob.
Variable codec : Codec Blob.
Variable fb_codec : Codec Blob.
(** [data_size] and [sizeof(T)]. *)
Variables (data_size_x data_size_y data_size_z : Z).
Variable sizeof_T : Z.

(** [allocate_workspace]: the codec selection and the reserved buffer. *)
Definition allocate_workspace (c : Compressor) (codec_config : Z)
    : result Compressor :=
  if (codec_config =? 0)%Z then Throw runtime_error
  else
    let allocated :=
      if (Z.land codec_config 2 =? 0)%Z then fallback_codec_allocated c
      else true in
    Ok (mkCompressor (use_fallback_codec c) allocated (header c)
          (get_data_len predictor * sizeof_T / 2)).

(** [encode_with_fallback_codec] *)
Definition encode_with_fallback_codec (c : Compressor) (tr : list event)
    (d_errctrl : mem Z) (errctrl_len radius sublen pardeg : Z)
    : Compressor * list event * result (Blob * Z) :=
  let c := mkCompressor true (fallback_codec_allocated c) (header c)
             (reserved_nbyte c) in
  let '(c, tr) :=
    if negb (fallback_codec_allocated c)
    then (mkCompressor (use_fallback_codec c) true (header c) (reserved_nbyte c),
          tr ++ [EvAllocFallback errctrl_len (radius * 2) pardeg])
    else (c, tr) in
  let r := encode fb_codec d_errctrl errctrl_len (radius * 2) sublen pardeg in
  (c,
   tr ++ [EvEncode 8 d_errctrl errctrl_len (radius * 2) sublen pardeg
            (match r with Ok _ => true | Throw _ => false end)],
   r).

(** [codec_do_with_exception] of [compress] *)
Definition codec_do_with_exception (c : Compressor) (tr : list event)
    (codec_force_fallback : bool)
    (d_errctrl : mem Z) (errctrl_len radius sublen pardeg : Z)
    : Compressor * list event * result (Blob * Z) :=
  if negb codec_force_fallback then
    match encode codec d_errctrl errctrl_len (radius * 2) sublen pardeg with
    | Ok out =>
        (c, tr ++ [EvEncode 4 d_errctrl errctrl_len (radius * 2) sublen pardeg
                     true], Ok out)
    | Throw runtime_error =>
        encode_with_fallback_codec c
          (tr ++ [EvEncode 4 d_errctrl errctrl_len (radius * 2) sublen pardeg
                    false])
          d_errctrl errctrl_len radius sublen pardeg
    | Throw e =>
        (c, tr ++ [EvEncode 4 d_errctrl errctrl_len (radius * 2) sublen pardeg
                     false], Throw e)
    end
  else
    encode_with_fallback_codec c tr d_errctrl errctrl_len radius sublen pardeg.

(** [update_header] *)
Definition update_header (c : Compressor) (radius pardeg : Z) (eb : Q)
    : Compressor :=
  let h := header c in
  mkCompressor (use_fallback_codec c) (fallback_codec_allocated c)
    (mkHEADER data_size_x data_size_y data_size_z radius pardeg eb
       (if use_fallback_codec c then 8 else 4)
       (h_codecs_in_use h) (h_nz_density_factor h) (h_header_nbyte h)
       (h_entry h))
    (reserved_nbyte c).

(** [subfile_collect], the table: [nbyte] and the two loops over
    [header.entry], in [uint32_t]. *)
Definition subfile_nbyte (codec_out_len spfmt_out_len : Z) : mem Z :=
  let nbyte := fun _ : nat => 0%Z in
  let nbyte := store nbyte HEADER_HEADER (uint32 128) in
  let nbyte := store nbyte HEADER_ANCHOR
                 (uint32 (sizeof_T * get_anchor_len predictor)) in
  let nbyte := store nbyte HEADER_VLE (uint32 (1 * codec_out_len)) in
  store nbyte HEADER_SPFMT (uint32 (1 * spfmt_out_len)).

Definition subfile_entry (nbyte : mem Z) (entry : mem Z) : mem Z :=
  let entry := store entry 0 0%Z in
  let entry := for_loop 1 (HEADER_END + 1)
                 (fun i e => store e i (nbyte (i - 1))) entry in
  for_loop 1 (HEADER_END + 1)
    (fun i e => store e i (uint32 (e i + e (i - 1)))) entry.

(** [subfile_collect]: the header copy and the three [D2D_CPY]. *)
Definition subfile_collect (c : Compressor) (tr : list event)
    (codec_out_len spfmt_out_len : Z) : Compressor * list event :=
  let h := header c in
  let nbyte := subfile_nbyte codec_out_len spfmt_out_len in
  let entry := subfile_entry nbyte (h_entry h) in
  let h := mkHEADER (h_x h) (h_y h) (h_z h) (h_radius h) (h_vle_pardeg h)
             (h_eb h) (h_byte_vle h) (h_codecs_in_use h)
             (h_nz_density_factor h) sizeof_HEADER entry in
  (mkCompressor (use_fallback_codec c) (fallback_codec_allocated c) h
     (reserved_nbyte c),
   tr ++ [EvWriteReserved 0 sizeof_HEADER;
          EvWriteReserved (entry HEADER_ANCHOR) (nbyte HEADER_ANCHOR);
          EvWriteReserved (entry HEADER_VLE) (nbyte HEADER_VLE);
          EvWriteReserved (entry HEADER_SPFMT) (nbyte HEADER_SPFMT)]).

(** The archive in the reserved buffer, by content: the header at the
    front and the subfiles that the [D2D_CPY]s of [compress] place, and the
    accessors of [decompress] find, at [entry[VLE]] and [entry[SPFMT]] (the
    anchor subfile is empty in this path). *)
Record Archive : Type := mkArchive {
  ar_header : cuszHEADER;
  ar_vle : Blob;
  ar_spfmt : Blob
}.

(** What a call leaves behind: the object, device memory, the trace, and
    either the returned values or the exception that escaped. *)
Record Outcome (A : Type) : Type := mkOutcome {
  o_self : Compressor;
  o_mem : Global;
  o_trace : list event;
  o_ret : result A
}.

Definition set_codecs (c : Compressor) (codecs_in_use nz_density_factor : Z)
    : Compressor :=
  let h := header c in
  mkCompressor (use_fallback_codec c) (fallback_codec_allocated c)
    (mkHEADER (h_x h) (h_y h) (h_z h) (h_radius h) (h_vle_pardeg h) (h_eb h)
       (h_byte_vle h) codecs_in_use nz_density_factor (h_header_nbyte h)
       (h_entry h))
    (reserved_nbyte c).

Definition clear_use_fallback (c : Compressor) : Compressor :=
  mkCompressor false (fallback_codec_allocated c) (header c) (reserved_nbyte c).

(** [compress(uncompressed, eb, radius, pardeg, codecs_in_use,
    nz_density_factor, compressed, compressed_len, codec_force_fallback,
    ...)] *)
Definition compress (c : Compressor) (g : Global) (uncompressed : ptr)
    (eb : Q) (radius pardeg codecs_in_use nz_density_factor : Z)
    (codec_force_fallback : bool) : Outcome (Archive * Z) :=
  let c := set_codecs c codecs_in_use nz_density_factor in
  let data_len := get_data_len predictor in
  let m := get_square_size data_len in
  let errctrl_len := get_quant_len predictor in
  let sublen := get_npart data_len pardeg in
  (* predictor_do *)
  let g := construct predictor uncompressed eb radius g in
  let tr := [EvConstruct uncompressed data_len] in
  (* spreducer_do *)
  let tr := tr ++ [EvGather uncompressed (m * m)] in
  match gather spreducer (g_data g uncompressed) (m * m) with
  | Throw e => mkOutcome c g tr (Throw e)
  | Ok (d_spfmt, spfmt_out_len) =>
    (* codec_do_with_exception *)
    match codec_do_with_exception c tr codec_force_fallback
            (g_quant g) errctrl_len radius sublen pardeg with
    | (c, tr, Throw e) => mkOutcome c g tr (Throw e)
    | (c, tr, Ok (d_codec_out, codec_out_len)) =>
      let c := update_header c radius pardeg eb in
      let '(c, tr) := subfile_collect c tr codec_out_len spfmt_out_len in
      let compressed_len := file_size (header c) in
      let compressed := mkArchive (header c) d_codec_out d_spfmt in
      mkOutcome (clear_use_fallback c) g tr (Ok (compressed, compressed_len))
    end
  end.

(** [decompress(in_compressed, header, out_decompressed, ...)] *)
Definition decompress (c : Compressor) (g : Global) (in_compressed : Archive)
    (header_arg : option cuszHEADER) (out_decompressed : ptr)
    : Outcome unit :=
  let hdr := match header_arg with
             | Some h => h
             | None => ar_header in_compressed
             end in
  let c := mkCompressor (h_byte_vle hdr =? 8)%Z (fallback_codec_allocated c)
             (header c) (reserved_nbyte c) in
  let eb := h_eb hdr in
  let radius := h_radius hdr in
  let vle_pardeg := h_vle_pardeg hdr in
  (* spreducer_do *)
  let g := mkGlobal
             (fun p => if p =? out_decompressed
                       then scatter spreducer (ar_spfmt in_compressed)
                              (g_data g p)
                       else g_data g p)
             (g_quant g) in
  let tr := [EvScatter] in
  (* codec_do_with_exception *)
  let '(c, tr, d_errctrl) :=
    if negb (use_fallback_codec c)
    then (c, tr ++ [EvDecode 4],
          decode codec (ar_vle in_compressed) (g_quant g))
    else
      let '(c, tr) :=
        if negb (fallback_codec_allocated c)
        then (mkCompressor (use_fallback_codec c) true (header c)
                (reserved_nbyte c),
              tr ++ [EvAllocFallback (get_quant_len predictor) (radius * 2)
                       vle_pardeg])
        else (c, tr) in
      (c, tr ++ [EvDecode 8],
       decode fb_codec (ar_vle in_compressed) (g_quant g)) in
  (* predictor_do *)
  let g := reconstruct predictor out_decompressed eb radius
             (mkGlobal (g_data g) d_errctrl) in
  mkOutcome (clear_use_fallback c) g (tr ++ [EvReconstruct]) (Ok tt).

End DefaultPath.

(** The component objects that a compressor owns, by address; address
    [0] is [nullptr]. *)
Definition addr : Type := nat.

Record Members : Type := mkMembers {
  m_predictor : addr;
  m_spreducer : addr;
  m_codec : addr;
  m_fb_codec : addr
}.

(** [~DefaultPathCompressor()]: the addresses handed to [delete], in
    order. *)
Definition destructor (m : Members) : list addr :=
  (if m_spreducer m =? 0 then [] else [m_spreducer m])
  ++ (if m_codec m =? 0 then [] else [m_codec m])
  ++ (if m_fb_codec m =? 0 then [] else [m_codec m])
  ++ (if m_predictor m =? 0 then [] else [m_predictor m]).

(** The 1D Lorenzo predictor as a [Predictor]. *)
Definition PredictorLorenzo (ErrCtrl_bits : Z) (BLOCK SEQ_c SEQ_x : nat)
    (shmem_data0 : mem Q) (shmem_quant0 : mem Z) (dimx : nat) : Predictor :=
  mkPredictor (Z.of_nat dimx) (Z.of_nat dimx) 0
    (fun in_data eb radius g =>
       PredictorLorenzo_construct ErrCtrl_bits BLOCK SEQ_c shmem_data0
         shmem_quant0 in_data dimx eb radius g)
    (fun xdata eb radius g =>
       PredictorLorenzo_reconstruct BLOCK SEQ_x xdata dimx eb radius g).

(* ================================================================== *)
(** ** Inputs and reference components for concrete executions *)

Definition mem_of_list (A : Type) (d : A) (l : list A) : mem A :=
  fun k => nth k l d.

(** Device memory holding [l] in buffer [0], zeros elsewhere. *)
Definition global_of (l : list Q) : Global :=
  mkGlobal (fun p => if p =? 0 then mem_of_list 0%Q l else fun _ => 0%Q)
           (fun _ => 0%Z).

Definition zero_shmem_data : mem Q := fun _ => 0%Q.
Definition zero_shmem_quant : mem Z := fun _ => 0%Z.

(** Two lossless stand-ins for the components that are not part of the
    sources: a gatherer that keeps the dense array, and a codec that
    keeps the symbols, [W] bytes each. *)
Inductive SampleBlob : Type :=
| SpBlob (vals : list Q)
| VleBlob (codes : list Z).

Definition dense_spreducer : SpReducer SampleBlob :=
  mkSpReducer
    (fun src len =>
       Ok (SpBlob (map src (seq 0 (Z.to_nat len))), (8 * len)%Z))
    (fun b out =>
       match b with
       | SpBlob l => fun k => nth k l (out k)
       | VleBlob _ => out
       end).

Definition plain_codec (W : Z) : Codec SampleBlob :=
  mkCodec
    (fun src len _ _ _ =>
       Ok (VleBlob (map src (seq 0 (Z.to_nat len))), (W * len)%Z))
    (fun b out =>
       match b with
       | VleBlob l => fun k => nth k l (out k)
       | SpBlob _ => out
       end).

(** A codec whose code book does not fit its width, and one that reports
    a given output size. *)
Definition overflowing_codec : Codec SampleBlob :=
  mkCodec (fun _ _ _ _ _ => Throw runtime_error) (fun _ out => out).

Definition sized_codec (out_len : Z) : Codec SampleBlob :=
  mkCodec (fun _ _ _ _ _ => Ok (VleBlob [], out_len)) (fun _ out => out).

(** A codec that keeps the symbols, [W] bytes each, and whose code book
    holds at most [max_booklen] entries. *)
Definition bounded_codec (W max_booklen : Z) : Codec SampleBlob :=
  mkCodec
    (fun src len booklen _ _ =>
       if (booklen <=? max_booklen)%Z
       then Ok (VleBlob (map src (seq 0 (Z.to_nat len))), (W * len)%Z)
       else Throw runtime_error)
    (fun b out =>
       match b with
       | VleBlob l => fun k => nth k l (out k)
       | SpBlob _ => out
       end).

(** A gatherer that reports a given size, and a predictor of [N] samples
    whose kernels are not run: for executions in which only the sizes
    matter. *)
Definition sized_spreducer (out_len : Z) : SpReducer SampleBlob :=
  mkSpReducer (fun _ _ => Ok (SpBlob [], out_len)) (fun _ out => out).

Definition idle_predictor (N : Z) : Predictor :=
  mkPredictor N N 0 (fun _ _ _ g => g) (fun _ _ _ g => g).

(** The second end-to-end scenario: one spike among zeros. *)
Definition scenario_spike : list Q := [0; 0; 10000; 0; 0]%Q.

(** The default path on a 1D input held in buffer [0]: tiles of 256,
    [SEQ = 4] at compress time and [SEQ = 8] at decompress time, [float]
    data, [pardeg = 1], the 4-byte codec pre-allocated, density factor 4;
    the decompressor writes to buffer [1]. *)
Definition run_lorenzo (bits : Z) (dimx : nat) : Predictor :=
  PredictorLorenzo bits 256 4 8 zero_shmem_data zero_shmem_quant dimx.

Definition run_compress (bits : Z) (cdc fb : Codec SampleBlob)
    (c : Compressor) (input : list Q) (eb : Q) (radius : Z) (force : bool)
    : Outcome (Archive SampleBlob * Z) :=
  compress (run_lorenzo bits (length input)) dense_spreducer cdc fb
    (Z.of_nat (length input)) 1 1 4 c (global_of input) 0 eb radius 1 1 4
    force.


Definition ok_or (A : Type) (d : A) (r : result A) : A :=
  match r with
  | Ok a => a
  | Throw _ => d
  end.

(** The archive and the length a call returned (an empty archive and [-1]
    if it threw). *)
Definition returned (o : Outcome (Archive SampleBlob * Z))
    : Archive SampleBlob * Z :=
  match o_ret o with
  | Ok r => r
  | Throw _ => (mkArchive empty_HEADER (VleBlob []) (SpBlob []), (-1)%Z)
  end.

(** The result of the encode step of [compress], apart from its effects
    on the object and the trace. *)
Definition encoded (Blob : Type) (codec fb_codec : Codec Blob)
    (codec_force_fallback : bool) (d_errctrl : mem Z)
    (errctrl_len radius sublen pardeg : Z) : result (Blob * Z) :=
  snd (codec_do_with_exception codec fb_codec new_Compressor []
         codec_force_fallback d_errctrl errctrl_len radius sublen pardeg).


(** Reads of the input buffer [buf] that a trace holds, and whether they
    stay inside an allocation of [alloc_len] elements. *)
Definition read_in_bounds (buf : ptr) (alloc_len : Z) (e : event) : Prop :=
  match e with
  | EvConstruct p len | EvGather p len => p = buf -> (len <= alloc_len)%Z
  | _ => True
  end.

Definition is_codec_event (e : event) : bool :=
  match e with
  | EvEncode _ _ _ _ _ _ _ | EvAllocFallback _ _ _ | EvDecode _ => true
  | _ => false
  end.

(** Writes to the reserved buffer, and lazy allocations of the fallback
    codec, among the events of a trace. *)
Definition is_reserved_write (e : event) : bool :=
  match e with
  | EvWriteReserved _ _ => true
  | _ => false
  end.

Definition is_fallback_alloc (e : event) : bool :=
  match e with
  | EvAllocFallback _ _ _ => true
  | _ => false
  end.

(** The spike scenario through [compress]: 16-bit codes, [eb = 1/10],
    [radius = 8]; and what the predictor leaves in device memory, the
    gatherer's output and the 4-byte codec's output. *)
Definition spike_compress (cdc : Codec SampleBlob)
    : Outcome (Archive SampleBlob * Z) :=
  run_compress 16 cdc (plain_codec 8) new_Compressor scenario_spike (1 # 10)
    8 false.

Definition spike_predicted : Global :=
  construct (run_lorenzo 16 5) 0 (1 # 10) 8 (global_of scenario_spike).

Definition spike_gathered : SampleBlob * Z :=
  ok_or (SpBlob [], 0%Z)
    (gather dense_spreducer (g_data spike_predicted 0)
       (get_square_size 5 * get_square_size 5)).

Definition spike_encoded (cdc : Codec SampleBlob) : SampleBlob * Z :=
  ok_or (VleBlob [], 0%Z)
    (encoded cdc (plain_codec 8) false (g_quant spike_predicted) 5 8
       (get_npart 5 1) 1).

(** A [3 x 3] grid, row by row, with a jump in the last row. *)
Definition scenario_grid : list Q := [1; 2; 4; 3; 5; 9; 20; 2; 7]%Q.

Definition zero_shmem3 : shmem3 := fun _ _ _ => 0%Q.
Definition zero_thread_scope : regfile := fun _ _ => 0%Q.
Definition zero_regfile3 : regfile3 := fun _ _ _ => 0%Q.

(** "Exactly one of [A] and [B]". *)
Definition exactly_one (A B : Prop) : Prop := (A /\ ~ B) \/ (~ A /\ B).

(** The residual as the specification words it:
    [delta = (Q == 0 ? O : Q - radius)]. *)
Definition spec_restored_delta (O : mem Q) (Qc : mem Z) (radius : Z)
    (id : nat) : Q :=
  if (Qc id =? 0)%Z then O id else (inject_Z (Qc id) - inject_Z radius)%Q.

(* ================================================================== *)
(** ** Quantities the statements are phrased with *)

(** Prequantized value of global index [id]: [round(data[id] * ebx2_r)]. *)
Definition prequant (data : mem Q) (ebx2_r : Q) (id : nat) : Q :=
  c_round (data id * ebx2_r).

(** 1D Lorenzo residual of tile-local index [k]: the first sample of a
    tile is predicted from zero. *)
Definition delta1d (sh : mem Q) (k : nat) : Q :=
  (sh k - (if k =? 0 then 0 else sh (k - 1)%nat))%Q.

(** The same residual for global index [id], tiles being [BLOCK] wide. *)
Definition lorenzo_delta1d (BLOCK : nat) (s' : mem Q) (id : nat) : Q :=
  (s' id - (if id mod BLOCK =? 0 then 0 else s' (id - 1)%nat))%Q.

(** Prequantized sample at grid point ([x], [y], [z]). *)
Definition prequant3 (data : mem Q) (stridey stridez : nat) (ebx2_r : Q)
    (x y z : nat) : Q :=
  c_round (data (x + y * stridey + z * stridez) * ebx2_r).

(** 3D Lorenzo residual over the prequantized samples [p]: the sample
    minus (corner - three edges + three faces), a neighbour counting as
    zero when it lies across the boundary of the [8 x 8 x 8] tile. *)
Definition lorenzo_delta3d (p : nat -> nat -> nat -> Q) (x y z : nat) : Q :=
  let ix := 0 <? x mod 8 in
  let iy := 0 <? y mod 8 in
  let iz := 0 <? z mod 8 in
  let corner := if iz && iy && ix then p (x - 1) (y - 1) (z - 1) else 0%Q in
  let edge_yx := if iy && ix then p (x - 1) (y - 1) z else 0%Q in
  let edge_zx := if iz && ix then p (x - 1) y (z - 1) else 0%Q in
  let edge_zy := if iz && iy then p x (y - 1) (z - 1) else 0%Q in
  let face_x := if ix then p (x - 1) y z else 0%Q in
  let face_y := if iy then p x (y - 1) z else 0%Q in
  let face_z := if iz then p x y (z - 1) else 0%Q in
  (p x y z - (corner - edge_yx - edge_zx - edge_zy
              + face_x + face_y + face_z))%Q.

(** Prequantized sample at grid point ([x], [y]) and the 2D Lorenzo
    residual over the prequantized samples [p]: the difference along y,
    then along x, a neighbour counting as zero when it lies across the
    boundary of the [16 x 16] tile. *)
Definition prequant2 (data : mem Q) (stridey : nat) (ebx2_r : Q)
    (x y : nat) : Q :=
  c_round (data (y * stridey + x) * ebx2_r).

Definition lorenzo_delta2d (p : nat -> nat -> Q) (x y : nat) : Q :=
  let along_y c :=
    (p c y - (if 0 <? y mod 16 then p c (y - 1)%nat else 0))%Q in
  if 0 <? x mod 16 then (along_y x - along_y (x - 1)%nat)%Q else along_y x.


(** Row-major index of grid point ([x], [y]) of a dense 2D array, and the
    in-range points of the tile of block ([BIX], [BIY]). *)
Definition lin2 (dimx : nat) (x y : nat) : nat := y * dimx + x.

Definition in_block2 (dimx dimy : nat) (BIX BIY : nat) (x y : nat) : Prop :=
  (BIX * 16 <= x < BIX * 16 + 16 /\ BIY * 16 <= y < BIY * 16 + 16) /\
  (x < dimx /\ y < dimy).

(** Row-major index of grid point ([x], [y], [z]) of a dense array, and
    the in-range points of the tile of block ([BIX], [BIY], [BIZ]). *)
Definition lin3 (dimx dimy : nat) (x y z : nat) : nat :=
  x + y * dimx + z * (dimx * dimy).

Definition in_block3 (dimx dimy dimz : nat) (BIX BIY BIZ : nat)
    (x y z : nat) : Prop :=
  (BIX * 32 <= x < BIX * 32 + 32 /\ BIY * 8 <= y < BIY * 8 + 8 /\
   BIZ * 8 <= z < BIZ * 8 + 8) /\
  (x < dimx /\ y < dimy /\ z < dimz).

(** A real value that is a whole number. *)
Definition integral (q : Q) : Prop := exists d : Z, (q == inject_Z d)%Q.


(** What holds of the zeros of the two outputs of one sample: one of them
    is zero; both are when [delta = -radius]; and only then, when the
    alphabet [2 * radius] fits a code of [bits] bits. *)
Definition zero_slot_rule (bits radius : Z) (delta : Q) (code : Z) (slot : Q)
    : Prop :=
  (code = 0%Z \/ (slot == 0)%Q) /\
  ((delta == - inject_Z radius)%Q -> code = 0%Z /\ (slot == 0)%Q) /\
  ((2 * radius <= 2 ^ bits)%Z -> code = 0%Z -> (slot == 0)%Q ->
     (delta == - inject_Z radius)%Q).



(** A step that keeps an invariant and leaves an observation alone. *)
Definition preserving (S V : Type) (get : S -> V) (Inv : S -> Prop)
    (f : S -> S) : Prop :=
  forall acc, (Inv acc -> Inv (f acc)) /\ get (f acc) = get acc.

(** Observations: the two shared arrays at [k]; the outlier and quant
    buffers at [id]. *)
Definition at_ (k : nat) (sh : mem Q * mem Z) : Q * Z := (fst sh k, snd sh k).

Definition out_at (outlier : ptr) (id : nat) (g : Global) : Q * Z :=
  (g_data g outlier id, g_quant g id).

(* ================================================================== *)
(** * Properties *)

(** ** Loops *)

Lemma for_loop_nil (S : Type) (lo hi : nat) (body : nat -> S -> S) (s : S) :
  hi <= lo -> for_loop lo hi body s = s.
Proof.
  intros H. unfold for_loop.
  replace (hi - lo) with 0 by lia. reflexivity.
Qed.

Lemma for_loop_S (S : Type) (lo hi : nat) (body : nat -> S -> S) (s : S) :
  lo <= hi ->
  for_loop lo (Datatypes.S hi) body s = body hi (for_loop lo hi body s).
Proof.
  intros H. unfold for_loop.
  replace (Datatypes.S hi - lo) with (Datatypes.S (hi - lo)) by lia.
  rewrite seq_S, fold_left_app. simpl.
  replace (lo + (hi - lo)) with hi by lia. reflexivity.
Qed.

(** Invariant rule for a counted loop. *)
Lemma for_loop_ind (S : Type) (P : nat -> S -> Prop) (lo hi : nat)
    (body : nat -> S -> S) (s : S) :
  lo <= hi ->
  P lo s ->
  (forall i acc, lo <= i < hi -> P i acc -> P (Datatypes.S i) (body i acc)) ->
  P hi (for_loop lo hi body s).
Proof.
  intros Hle H0 Hstep.
  induction hi as [|hi IH].
  - assert (lo = 0) by lia. subst lo. rewrite for_loop_nil by lia. exact H0.
  - destruct (Nat.eq_dec lo (Datatypes.S hi)) as [->|Hne].
    + rewrite for_loop_nil by lia. exact H0.
    + rewrite for_loop_S by lia.
      apply Hstep; [lia|].
      apply IH; [lia|].
      intros i acc Hi. apply Hstep. lia.
Qed.

Section Observations.

Variables (S V : Type) (get : S -> V).
Variables (lo hi : nat) (body : nat -> S -> S).

(** A loop none of whose iterations changes an observation leaves it. *)
Lemma loop_preserves (s : S) :
  (forall i acc, lo <= i < hi -> get (body i acc) = get acc) ->
  get (for_loop lo hi body s) = get s.
Proof.
  intros H.
  destruct (le_lt_dec lo hi) as [Hle|Hlt].
  - apply (for_loop_ind (fun _ acc => get acc = get s)); auto.
    intros i acc Hi Hacc. rewrite H; auto.
  - rewrite for_loop_nil by lia. reflexivity.
Qed.

(** Iterations that either set the observation to [v] or leave it. *)
Lemma loop_writes_only (v : V) (s : S) :
  (forall i acc, lo <= i < hi ->
     get (body i acc) = v \/ get (body i acc) = get acc) ->
  get (for_loop lo hi body s) = v \/ get (for_loop lo hi body s) = get s.
Proof.
  intros H.
  destruct (le_lt_dec lo hi) as [Hle|Hlt].
  - apply (for_loop_ind (fun _ acc => get acc = v \/ get acc = get s)); auto.
    intros i acc Hi [Hacc|Hacc]; destruct (H i acc Hi) as [E|E]; auto;
      rewrite E; auto.
  - rewrite for_loop_nil by lia. auto.
Qed.

(** ... one of which does set it. *)
Lemma loop_writes (v : V) (s : S) (i0 : nat) :
  lo <= i0 < hi ->
  (forall acc, get (body i0 acc) = v) ->
  (forall i acc, lo <= i < hi ->
     get (body i acc) = v \/ get (body i acc) = get acc) ->
  get (for_loop lo hi body s) = v.
Proof.
  intros Hi0 Hw H.
  assert (Hinv : hi <= i0 \/ get (for_loop lo hi body s) = v).
  { apply (for_loop_ind (fun i acc => i <= i0 \/ get acc = v)); [lia|lia|].
    intros i acc Hi [Hlt|Hacc].
    - destruct (Nat.eq_dec i i0) as [->|Hne]; [right; apply Hw|left; lia].
    - right. destruct (H i acc Hi) as [E|E]; congruence. }
  destruct Hinv; [lia|assumption].
Qed.

End Observations.

(** Loops over a grid of independent thread blocks: every block but one
    keeps an invariant and an observation, and that one, run under the
    invariant, sets the observation. *)
Section Grids.

Variables (S V : Type) (get : S -> V) (Inv : S -> Prop).

Lemma loop_preserving (lo hi : nat) (body : nat -> S -> S) :
  (forall i, lo <= i < hi -> preserving get Inv (body i)) ->
  preserving get Inv (for_loop lo hi body).
Proof.
  intros H acc.
  destruct (le_lt_dec lo hi) as [Hle|Hlt].
  - apply (for_loop_ind (fun _ a => (Inv acc -> Inv a) /\ get a = get acc));
      auto.
    intros i a Hi [Ha Hg]. destruct (H i Hi a) as [Ha' Hg'].
    split; [auto|congruence].
  - rewrite for_loop_nil by lia. auto.
Qed.

Lemma loop_writes_at (lo hi : nat) (body : nat -> S -> S) (v : V) (s : S)
    (i0 : nat) :
  lo <= i0 < hi -> Inv s ->
  (forall i, lo <= i < hi -> i <> i0 -> preserving get Inv (body i)) ->
  (forall acc, Inv acc -> get (body i0 acc) = v) ->
  get (for_loop lo hi body s) = v.
Proof.
  intros Hi0 Hs Hother Hthis.
  assert (Hinv : (hi <= i0 -> Inv (for_loop lo hi body s)) /\
                 (i0 < hi -> get (for_loop lo hi body s) = v)).
  { apply (for_loop_ind (fun i a => (i <= i0 -> Inv a) /\ (i0 < i -> get a = v)));
      [lia|split; [auto|lia]|].
    intros i a Hi [Ha Hg]. split.
    - intros Hle. apply Hother; [lia|lia|]. apply Ha. lia.
    - intros Hlt. destruct (Nat.eq_dec i i0) as [->|Hne].
      + apply Hthis. apply Ha. lia.
      + destruct (Hother i ltac:(lia) Hne a) as [_ E]. rewrite E.
        apply Hg. lia. }
  destruct Hinv as [_ H]. apply H. lia.
Qed.

Lemma nest2_writes_at (gx gy : nat) (body : nat -> nat -> S -> S)
    (bx by_ : nat) (v : V) (s : S) :
  bx < gx -> by_ < gy -> Inv s ->
  (forall i j, i <> bx \/ j <> by_ -> preserving get Inv (body i j)) ->
  (forall acc, Inv acc -> get (body bx by_ acc) = v) ->
  get (for_loop 0 gy (fun j s =>
         for_loop 0 gx (fun i s => body i j s) s) s) = v.
Proof.
  intros Hbx Hby Hs Hother Hthis.
  apply loop_writes_at with (i0 := by_); [lia|exact Hs| |].
  - intros j _ Hj. apply loop_preserving. intros i _. apply Hother. auto.
  - intros acc Hacc.
    apply loop_writes_at with (i0 := bx); [lia|exact Hacc| |].
    + intros i _ Hi. apply Hother. auto.
    + exact Hthis.
Qed.

Lemma loop_sets_at (lo hi : nat) (body : nat -> S -> S) (Pv : V -> Prop)
    (s : S) (i0 : nat) :
  lo <= i0 < hi -> Inv s ->
  (forall i, lo <= i < hi -> i <> i0 -> preserving get Inv (body i)) ->
  (forall acc, Inv acc -> Pv (get (body i0 acc))) ->
  Pv (get (for_loop lo hi body s)).
Proof.
  intros Hi0 Hs Hother Hthis.
  assert (Hinv : (hi <= i0 -> Inv (for_loop lo hi body s)) /\
                 (i0 < hi -> Pv (get (for_loop lo hi body s)))).
  { apply (for_loop_ind (fun i a => (i <= i0 -> Inv a) /\ (i0 < i -> Pv (get a))));
      [lia|split; [auto|lia]|].
    intros i a Hi [Ha Hg]. split.
    - intros Hle. apply Hother; [lia|lia|]. apply Ha. lia.
    - intros Hlt. destruct (Nat.eq_dec i i0) as [->|Hne].
      + apply Hthis. apply Ha. lia.
      + destruct (Hother i ltac:(lia) Hne a) as [_ E]. rewrite E.
        apply Hg. lia. }
  destruct Hinv as [_ H]. apply H. lia.
Qed.

Lemma nest2_sets_at (gx gy : nat) (body : nat -> nat -> S -> S)
    (bx by_ : nat) (Pv : V -> Prop) (s : S) :
  bx < gx -> by_ < gy -> Inv s ->
  (forall i j, i <> bx \/ j <> by_ -> preserving get Inv (body i j)) ->
  (forall acc, Inv acc -> Pv (get (body bx by_ acc))) ->
  Pv (get (for_loop 0 gy (fun j s =>
             for_loop 0 gx (fun i s => body i j s) s) s)).
Proof.
  intros Hbx Hby Hs Hother Hthis.
  apply loop_sets_at with (i0 := by_); [lia|exact Hs| |].
  - intros j _ Hj. apply loop_preserving. intros i _. apply Hother. auto.
  - intros acc Hacc.
    apply loop_sets_at with (i0 := bx); [lia|exact Hacc| |].
    + intros i _ Hi. apply Hother. auto.
    + exact Hthis.
Qed.

Lemma nest3_preserving (gx gy gz : nat) (body : nat -> nat -> nat -> S -> S) :
  (forall i j k, preserving get Inv (body i j k)) ->
  preserving get Inv
    (for_loop 0 gz (fun k s =>
       for_loop 0 gy (fun j s =>
         for_loop 0 gx (fun i s => body i j k s) s) s)).
Proof.
  intros H. apply loop_preserving. intros k _.
  apply loop_preserving. intros j _.
  apply loop_preserving. intros i _. apply H.
Qed.

Lemma nest3_writes_at (gx gy gz : nat) (body : nat -> nat -> nat -> S -> S)
    (bx by_ bz : nat) (v : V) (s : S) :
  bx < gx -> by_ < gy -> bz < gz -> Inv s ->
  (forall i j k, i <> bx \/ j <> by_ \/ k <> bz ->
     preserving get Inv (body i j k)) ->
  (forall acc, Inv acc -> get (body bx by_ bz acc) = v) ->
  get (for_loop 0 gz (fun k s =>
         for_loop 0 gy (fun j s =>
           for_loop 0 gx (fun i s => body i j k s) s) s) s) = v.
Proof.
  intros Hbx Hby Hbz Hs Hother Hthis.
  apply loop_writes_at with (i0 := bz); [lia|exact Hs| |].
  - intros k _ Hk. apply loop_preserving. intros j _.
    apply loop_preserving. intros i _. apply Hother. auto.
  - intros acc Hacc.
    apply loop_writes_at with (i0 := by_); [lia|exact Hacc| |].
    + intros j _ Hj. apply loop_preserving. intros i _. apply Hother. auto.
    + intros acc' Hacc'.
      apply loop_writes_at with (i0 := bx); [lia|exact Hacc'| |].
      * intros i _ Hi. apply Hother. auto.
      * exact Hthis.
Qed.

End Grids.

Lemma store_eq (A : Type) (m : mem A) (k : nat) (v : A) : store m k v k = v.
Proof. unfold store. rewrite Nat.eqb_refl. reflexivity. Qed.

Lemma store_neq (A : Type) (m : mem A) (k k' : nat) (v : A) :
  k' <> k -> store m k v k' = m k'.
Proof.
  intros H. unfold store.
  destruct (Nat.eqb_spec k' k); [contradiction|reflexivity].
Qed.

Lemma dstore_eq (g : dmem) (p : ptr) (k : nat) (v : Q) :
  dstore g p k v p k = v.
Proof. unfold dstore. rewrite Nat.eqb_refl. apply store_eq. Qed.

Lemma dstore_neq (g : dmem) (p p' : ptr) (k k' : nat) (v : Q) :
  p' <> p \/ k' <> k -> dstore g p k v p' k' = g p' k'.
Proof.
  intros H. unfold dstore.
  destruct (Nat.eqb_spec p' p); [|reflexivity].
  apply store_neq. destruct H; congruence.
Qed.

(* ================================================================== *)
(** ** The compress-time 1D kernel, phase by phase *)

Section Kernel1DFacts.

Variable bits : Z.
Variables BLOCK SEQ : nat.
Hypothesis SEQ_pos : 0 < SEQ.
Hypothesis BLOCK_pos : 0 < BLOCK.
Hypothesis SEQ_divides : BLOCK mod SEQ = 0.

Local Abbreviation NT := (NTHREAD BLOCK SEQ).

Lemma BLOCK_eq : BLOCK = NT * SEQ.
Proof.
  unfold NTHREAD.
  pose proof (Nat.div_mod_eq BLOCK SEQ) as E. rewrite SEQ_divides in E. lia.
Qed.

Lemma NTHREAD_pos : 0 < NT.
Proof. pose proof BLOCK_eq. destruct NT; lia. Qed.

Lemma split_striped (k : nat) :
  k < BLOCK -> k mod NT < NT /\ k / NT < SEQ /\ k mod NT + k / NT * NT = k.
Proof.
  intros Hk. pose proof NTHREAD_pos as Hn. pose proof BLOCK_eq as HB.
  split; [apply Nat.mod_upper_bound; lia|]. split.
  - apply Nat.Div0.div_lt_upper_bound. lia.
  - pose proof (Nat.div_mod_eq k NT). lia.
Qed.

Lemma split_blocked (k : nat) :
  k < BLOCK -> k / SEQ < NT /\ k mod SEQ < SEQ /\ k / SEQ * SEQ + k mod SEQ = k.
Proof.
  intros Hk. pose proof BLOCK_eq as HB.
  split; [|split].
  - apply Nat.Div0.div_lt_upper_bound. lia.
  - apply Nat.mod_upper_bound. lia.
  - pose proof (Nat.div_mod_eq k SEQ). lia.
Qed.

(** After the first barrier of [load1d] the tile holds the prequantized
    samples in natural order. *)
Lemma load1d_phase (data : mem Q) (dimx id_base : nat) (ebx2_r : Q)
    (sh0 : mem Q) (k : nat) :
  k < BLOCK -> id_base + k < dimx ->
  for_loop 0 NT (load1d BLOCK SEQ data dimx id_base ebx2_r) sh0 k
  = prequant data ebx2_r (id_base + k).
Proof.
  intros Hk Hd.
  destruct (split_striped Hk) as (Ht & Hi & Hsum).
  assert (Hstep : forall t i (acc : mem Q),
    (if id_base + t + i * NT <? dimx
     then store acc (t + i * NT) (c_round (data (id_base + t + i * NT) * ebx2_r))
     else acc) k = prequant data ebx2_r (id_base + k) \/
    (if id_base + t + i * NT <? dimx
     then store acc (t + i * NT) (c_round (data (id_base + t + i * NT) * ebx2_r))
     else acc) k = acc k).
  { intros t i acc. destruct (id_base + t + i * NT <? dimx); [|now right].
    destruct (Nat.eq_dec k (t + i * NT)) as [->|Hne].
    - left. rewrite store_eq. unfold prequant. f_equal. f_equal. f_equal. lia.
    - right. now apply store_neq. }
  apply (loop_writes (fun m : mem Q => m k)) with (i0 := k mod NT).
  - lia.
  - intros acc. unfold load1d.
    apply (loop_writes (fun m : mem Q => m k)) with (i0 := k / NT).
    + lia.
    + intros acc'.
      replace (id_base + k mod NT + k / NT * NT) with (id_base + k) by lia.
      destruct (Nat.ltb_spec (id_base + k) dimx); [|lia].
      rewrite Hsum. now rewrite store_eq.
    + intros i acc' _. apply Hstep.
  - intros t acc _. unfold load1d.
    apply (loop_writes_only (fun m : mem Q => m k)).
    intros i acc' _. apply Hstep.
Qed.

Lemma pred1d_first_at (ts : mem Q) (radius : Z) (fls : Q) (t : nat)
    (sh : mem Q * mem Z) (k : nat) :
  at_ k (pred1d_postquant bits SEQ true ts radius fls t sh)
  = if k =? t * SEQ then postquant bits radius (ts 0%nat - fls) else at_ k sh.
Proof.
  unfold pred1d_postquant, postquant, at_. cbn [fst snd].
  destruct (Nat.eqb_spec k (t * SEQ)) as [->|Hne].
  - now rewrite !store_eq.
  - now rewrite !store_neq by lia.
Qed.

Lemma pred1d_rest_at (ts : mem Q) (radius : Z) (fls : Q) (t : nat)
    (sh : mem Q * mem Z) (k : nat) :
  at_ k (pred1d_postquant bits SEQ false ts radius fls t sh)
  = if (t * SEQ <? k) && (k <? t * SEQ + SEQ)
    then postquant bits radius (ts (k - t * SEQ)%nat - ts (k - t * SEQ - 1)%nat)
    else at_ k sh.
Proof.
  unfold pred1d_postquant.
  destruct (Nat.ltb_spec (t * SEQ) k) as [H1|H1];
    [destruct (Nat.ltb_spec k (t * SEQ + SEQ)) as [H2|H2]|]; cbn [andb].
  - apply (loop_writes (at_ k)) with (i0 := k - t * SEQ).
    + lia.
    + intros acc. unfold at_, postquant. cbn [fst snd].
      replace (k - t * SEQ + t * SEQ) with k by lia. now rewrite !store_eq.
    + intros i acc Hi. unfold at_, postquant. cbn [fst snd].
      destruct (Nat.eq_dec k (i + t * SEQ)) as [->|Hne].
      * left. rewrite !store_eq.
        now replace (i + t * SEQ - t * SEQ) with i by lia.
      * right. now rewrite !store_neq by lia.
  - apply (loop_preserves (at_ k)). intros i acc Hi. unfold at_. cbn [fst snd].
    now rewrite !store_neq by lia.
  - apply (loop_preserves (at_ k)). intros i acc Hi. unfold at_. cbn [fst snd].
    now rewrite !store_neq by lia.
Qed.

(** What one thread leaves at tile-local index [k] after both
    [pred1d_postquant] calls. *)
Lemma pred1d_thread_at (sh1 : mem Q) (radius : Z) (t : nat)
    (sh : mem Q * mem Z) (k : nat) :
  at_ k (pred1d_postquant bits SEQ false (load1d_thread_scope SEQ sh1 t) radius 0%Q t
           (pred1d_postquant bits SEQ true (load1d_thread_scope SEQ sh1 t) radius
              (load1d_from_last_stripe SEQ sh1 t) t sh))
  = if (t * SEQ <=? k) && (k <? t * SEQ + SEQ)
    then postquant bits radius (delta1d sh1 k) else at_ k sh.
Proof.
  rewrite pred1d_rest_at, pred1d_first_at.
  unfold load1d_thread_scope, load1d_from_last_stripe, delta1d.
  destruct (Nat.ltb_spec (t * SEQ) k) as [H1|H1];
    destruct (Nat.ltb_spec k (t * SEQ + SEQ)) as [H2|H2];
    destruct (Nat.leb_spec (t * SEQ) k) as [H3|H3];
    destruct (Nat.eqb_spec k (t * SEQ)) as [H4|H4];
    cbn [andb]; try lia; try reflexivity.
  - destruct (Nat.eqb_spec k 0) as [H5|H5]; [lia|].
    replace (t * SEQ + (k - t * SEQ)) with k by lia.
    replace (t * SEQ + (k - t * SEQ - 1)) with (k - 1) by lia. reflexivity.
  - subst k. rewrite Nat.add_0_r.
    destruct (Nat.ltb_spec 0 t) as [H5|H5];
      destruct (Nat.eqb_spec (t * SEQ) 0) as [H6|H6]; try reflexivity; try nia.
Qed.

Lemma pred1d_phase (sh1 : mem Q) (shq0 : mem Z) (radius : Z) (k : nat) :
  k < BLOCK ->
  at_ k (for_loop 0 NT (fun TIX sh =>
           pred1d_postquant bits SEQ false (load1d_thread_scope SEQ sh1 TIX) radius 0%Q TIX
             (pred1d_postquant bits SEQ true (load1d_thread_scope SEQ sh1 TIX) radius
                (load1d_from_last_stripe SEQ sh1 TIX) TIX sh)) (sh1, shq0))
  = postquant bits radius (delta1d sh1 k).
Proof.
  intros Hk. destruct (split_blocked Hk) as (Ht & Hi & Hsum).
  apply (loop_writes (at_ k)) with (i0 := k / SEQ).
  - lia.
  - intros acc. rewrite pred1d_thread_at.
    destruct (Nat.leb_spec (k / SEQ * SEQ) k); [|lia].
    destruct (Nat.ltb_spec k (k / SEQ * SEQ + SEQ)); [|lia]. reflexivity.
  - intros t acc _. rewrite pred1d_thread_at.
    destruct ((t * SEQ <=? k) && (k <? t * SEQ + SEQ)); auto.
Qed.

Lemma write1d_step_bound (t i : nat) : t < NT -> i < SEQ -> t + i * NT < BLOCK.
Proof. intros Ht Hi. pose proof BLOCK_eq. nia. Qed.

Lemma write1d_phase (shd : mem Q) (shq : mem Z) (outlier : ptr)
    (dimx id_base : nat) (g : Global) (id : nat) :
  id_base <= id < id_base + BLOCK -> id < dimx ->
  out_at outlier id
    (for_loop 0 NT (write1d BLOCK SEQ shd shq outlier dimx id_base) g)
  = (shd (id - id_base), shq (id - id_base)).
Proof.
  intros Hid Hd.
  assert (Hk : id - id_base < BLOCK) by lia.
  destruct (split_striped Hk) as (Ht & Hi & Hsum).
  set (v := (shd (id - id_base), shq (id - id_base))).
  assert (Hstep : forall t i (acc : Global),
    out_at outlier id
      (if id_base + t + i * NT <? dimx
       then mkGlobal (dstore (g_data acc) outlier (id_base + t + i * NT)
                        (shd (t + i * NT)))
                     (store (g_quant acc) (id_base + t + i * NT) (shq (t + i * NT)))
       else acc) = v \/
    out_at outlier id
      (if id_base + t + i * NT <? dimx
       then mkGlobal (dstore (g_data acc) outlier (id_base + t + i * NT)
                        (shd (t + i * NT)))
                     (store (g_quant acc) (id_base + t + i * NT) (shq (t + i * NT)))
       else acc) = out_at outlier id acc).
  { intros t i acc. destruct (id_base + t + i * NT <? dimx); [|now right].
    unfold out_at. cbn [g_data g_quant].
    destruct (Nat.eq_dec id (id_base + t + i * NT)) as [E|Hne].
    - left. rewrite E, dstore_eq, store_eq. unfold v.
      now replace (id - id_base) with (t + i * NT) by lia.
    - right. rewrite dstore_neq, store_neq by auto. reflexivity. }
  apply (loop_writes (out_at outlier id)) with (i0 := (id - id_base) mod NT).
  - lia.
  - intros acc. unfold write1d.
    apply (loop_writes (out_at outlier id)) with (i0 := (id - id_base) / NT).
    + lia.
    + intros acc'.
      replace (id_base + (id - id_base) mod NT + (id - id_base) / NT * NT)
        with id by lia.
      destruct (Nat.ltb_spec id dimx); [|lia].
      unfold out_at. cbn [g_data g_quant].
      rewrite dstore_eq, store_eq, Hsum. reflexivity.
    + intros i acc' _. apply Hstep.
  - intros t acc _. unfold write1d.
    apply (loop_writes_only (out_at outlier id)). intros i acc' _. apply Hstep.
Qed.

Lemma write1d_frame (shd : mem Q) (shq : mem Z) (outlier : ptr)
    (dimx id_base : nat) (g : Global) (p : ptr) (id : nat) :
  p <> outlier \/ id < id_base \/ id_base + BLOCK <= id \/ dimx <= id ->
  (let g' := for_loop 0 NT (write1d BLOCK SEQ shd shq outlier dimx id_base) g in
   g_data g' p id = g_data g p id /\
   (p <> outlier \/ g_quant g' id = g_quant g id)).
Proof.
  intros Hout. cbv zeta.
  set (obs := fun g : Global =>
                (g_data g p id, if Nat.eqb p outlier then g_quant g id else 0%Z)).
  assert (H : obs (for_loop 0 NT (write1d BLOCK SEQ shd shq outlier dimx id_base) g)
              = obs g).
  { apply (loop_preserves obs). intros t acc Ht. unfold write1d.
    apply (loop_preserves obs). intros i acc' Hi.
    pose proof (@write1d_step_bound t i) as Hb.
    destruct (Nat.ltb_spec (id_base + t + i * NT) dimx) as [Hlt|Hge]; [|reflexivity].
    unfold obs. cbn [g_data g_quant].
    rewrite dstore_neq by lia.
    destruct (Nat.eqb_spec p outlier) as [E|E]; [|reflexivity].
    rewrite store_neq by lia. reflexivity. }
  unfold obs in H. injection H as H1 H2. split; [exact H1|].
  destruct (Nat.eqb_spec p outlier); [right; exact H2|now left].
Qed.

Variables (shmem_data0 : mem Q) (shmem_quant0 : mem Z).

(** One thread block. *)
Lemma c_lorenzo_1d1l_block_spec (data outlier : ptr) (dimx : nat)
    (radius : Z) (ebx2_r : Q) (BIX : nat) (g : Global) (s : mem Q) :
  (forall id, BIX * BLOCK <= id < BIX * BLOCK + BLOCK -> id < dimx ->
     g_data g data id = s id) ->
  let g' := c_lorenzo_1d1l_block bits BLOCK SEQ shmem_data0 shmem_quant0
              data outlier dimx radius ebx2_r BIX g in
  (forall id, BIX * BLOCK <= id < BIX * BLOCK + BLOCK -> id < dimx ->
     out_at outlier id g'
     = postquant bits radius (lorenzo_delta1d BLOCK (prequant s ebx2_r) id)) /\
  (forall p id,
     p <> outlier \/ id < BIX * BLOCK \/ BIX * BLOCK + BLOCK <= id \/ dimx <= id ->
     g_data g' p id = g_data g p id /\
     (p <> outlier \/ g_quant g' id = g_quant g id)).
Proof.
  intros Hs g'. subst g'. unfold c_lorenzo_1d1l_block. cbv zeta. split.
  - intros id Hid Hd.
    rewrite write1d_phase by assumption.
    set (sh1 := for_loop 0 NT _ shmem_data0).
    assert (Hk : id - BIX * BLOCK < BLOCK) by lia.
    pose proof (pred1d_phase sh1 shmem_quant0 radius Hk) as Hp.
    unfold at_ in Hp. etransitivity; [exact Hp|]. f_equal.
    assert (Hsh : forall k, k < BLOCK -> BIX * BLOCK + k < dimx ->
                    sh1 k = prequant s ebx2_r (BIX * BLOCK + k)).
    { intros k Hk' Hd'. unfold sh1. rewrite load1d_phase by assumption.
      unfold prequant. rewrite Hs by lia. reflexivity. }
    unfold delta1d, lorenzo_delta1d.
    rewrite Hsh by lia.
    replace (BIX * BLOCK + (id - BIX * BLOCK)) with id by lia.
    replace (id mod BLOCK) with (id - BIX * BLOCK).
    2:{ apply Nat.mod_unique with (q := BIX); lia. }
    destruct (Nat.eqb_spec (id - BIX * BLOCK) 0) as [E|E]; [reflexivity|].
    rewrite Hsh by lia.
    replace (BIX * BLOCK + (id - BIX * BLOCK - 1)) with (id - 1) by lia.
    reflexivity.
  - intros p id Hout. now apply write1d_frame.
Qed.

(** The whole grid: every in-range sample covered by the grid receives
    the post-quantization of its residual; nothing else is written. *)
Lemma c_lorenzo_1d1l_spec (gridDim : nat) (data outlier : ptr) (dimx : nat)
    (radius : Z) (ebx2_r : Q) (g : Global) :
  let s := g_data g data in
  let g' := c_lorenzo_1d1l bits BLOCK SEQ shmem_data0 shmem_quant0
              gridDim data outlier dimx radius ebx2_r g in
  (forall id, id < gridDim * BLOCK -> id < dimx ->
     out_at outlier id g'
     = postquant bits radius (lorenzo_delta1d BLOCK (prequant s ebx2_r) id)) /\
  (forall p id, p <> outlier \/ gridDim * BLOCK <= id \/ dimx <= id ->
     g_data g' p id = g_data g p id /\
     (p <> outlier \/ g_quant g' id = g_quant g id)).
Proof.
  intros s g'. subst g'. unfold c_lorenzo_1d1l.
  apply (for_loop_ind (fun b acc =>
    (forall id, id < b * BLOCK -> id < dimx ->
       out_at outlier id acc
       = postquant bits radius (lorenzo_delta1d BLOCK (prequant s ebx2_r) id)) /\
    (forall p id, p <> outlier \/ b * BLOCK <= id \/ dimx <= id ->
       g_data acc p id = g_data g p id /\
       (p <> outlier \/ g_quant acc id = g_quant g id)))).
  - lia.
  - split; [intros; lia|]. intros p id _. split; [reflexivity|now right].
  - intros b acc Hb [Hdone Hrest].
    assert (Hin : forall id, b * BLOCK <= id < b * BLOCK + BLOCK -> id < dimx ->
                    g_data acc data id = s id).
    { intros id Hid Hd. apply Hrest. lia. }
    destruct (@c_lorenzo_1d1l_block_spec data outlier dimx radius ebx2_r b acc s Hin)
      as [Hnew Hframe].
    split.
    + intros id Hid Hd.
      destruct (le_lt_dec (b * BLOCK) id) as [Hge|Hlt].
      * apply Hnew; lia.
      * destruct (Hframe outlier id) as [F1 F2]; [lia|].
        destruct F2 as [F2|F2]; [congruence|].
        unfold out_at. rewrite F1, F2. apply Hdone; lia.
    + intros p id Hout.
      destruct (Hframe p id) as [F1 F2]; [lia|].
      destruct (Hrest p id) as [R1 R2]; [lia|].
      split; [congruence|].
      destruct F2 as [F2|F2]; [now left|].
      destruct R2 as [R2|R2]; [now left|right; congruence].
Qed.

End Kernel1DFacts.

(* ================================================================== *)
(** ** The decompress-time 1D kernel *)

Lemma prefix_sum_ext (f g : mem Q) (k : nat) :
  (forall j, j <= k -> f j = g j) -> prefix_sum f k = prefix_sum g k.
Proof.
  induction k as [|k IH]; intros H; cbn [prefix_sum].
  - apply H. lia.
  - rewrite IH by (intros; apply H; lia). rewrite H by lia. reflexivity.
Qed.

Section KernelX1DFacts.

Variables BLOCK SEQ : nat.
Hypothesis SEQ_pos : 0 < SEQ.
Hypothesis BLOCK_pos : 0 < BLOCK.
Hypothesis SEQ_divides : BLOCK mod SEQ = 0.

Local Abbreviation BD := (block_dim BLOCK SEQ).

Lemma BlockStore_at (items : mem Q) (dst : ptr) (tile t : nat) (g : dmem)
    (p : ptr) (id : nat) :
  BlockStore SEQ items dst tile t g p id
  = if (p =? dst) && (tile + t * SEQ <=? id) && (id <? tile + t * SEQ + SEQ)
    then items (id - (tile + t * SEQ)) else g p id.
Proof.
  unfold BlockStore.
  destruct (Nat.eqb_spec p dst) as [->|Hp]; cbn [andb].
  - destruct (Nat.leb_spec (tile + t * SEQ) id) as [H1|H1]; cbn [andb];
      [destruct (Nat.ltb_spec id (tile + t * SEQ + SEQ)) as [H2|H2]|].
    + apply (loop_writes (fun g : dmem => g dst id))
        with (i0 := id - (tile + t * SEQ)).
      * lia.
      * intros acc.
        replace (tile + t * SEQ + (id - (tile + t * SEQ))) with id by lia.
        apply dstore_eq.
      * intros i acc _.
        destruct (Nat.eq_dec id (tile + t * SEQ + i)) as [E|E].
        -- left. rewrite E, dstore_eq. f_equal. lia.
        -- right. now rewrite dstore_neq by auto.
    + apply (loop_preserves (fun g : dmem => g dst id)).
      intros i acc Hi. rewrite dstore_neq by lia. reflexivity.
    + apply (loop_preserves (fun g : dmem => g dst id)).
      intros i acc Hi. rewrite dstore_neq by lia. reflexivity.
  - apply (loop_preserves (fun g : dmem => g p id)).
    intros i acc Hi. rewrite dstore_neq by auto. reflexivity.
Qed.

(** One thread block: the whole tile is stored, the rest is untouched. *)
Lemma x_lorenzo_1d1l_block_spec (outlier xdata : ptr) (dimx : nat)
    (radius : Z) (ebx2 : Q) (BIX : nat) (g : Global) (O : mem Q) :
  (forall id, BIX * BLOCK <= id < BIX * BLOCK + BLOCK ->
     g_data g outlier id = O id) ->
  let g' := x_lorenzo_1d1l_block BLOCK SEQ outlier xdata dimx radius ebx2 BIX g in
  g_quant g' = g_quant g /\
  (forall id, BIX * BLOCK <= id < BIX * BLOCK + BLOCK ->
     g_data g' xdata id
     = (tile_prefix_sum BLOCK (fuse_guarded O (g_quant g) radius dimx) id
        * ebx2)%Q) /\
  (forall p id,
     p <> xdata \/ id < BIX * BLOCK \/ BIX * BLOCK + BLOCK <= id ->
     g_data g' p id = g_data g p id).
Proof.
  intros HO g'. subst g'. unfold x_lorenzo_1d1l_block. cbv zeta.
  cbn [g_data g_quant].
  pose proof (BLOCK_eq SEQ_pos BLOCK_pos SEQ_divides) as HB.
  pose proof (NTHREAD_pos SEQ_pos BLOCK_pos SEQ_divides) as HN.
  change (NTHREAD BLOCK SEQ) with BD in HB, HN.
  replace (BIX * BD * SEQ) with (BIX * BLOCK) by nia.
  split; [reflexivity|]. split.
  - intros id Hid.
    assert (Hk : id - BIX * BLOCK < BLOCK) by lia.
    destruct (split_blocked SEQ_pos BLOCK_pos SEQ_divides Hk) as (Ht & Hi & Hsum).
    change (NTHREAD BLOCK SEQ) with BD in Ht.
    set (k := id - BIX * BLOCK) in *.
    apply (loop_writes (fun gd : dmem => gd xdata id)) with (i0 := k / SEQ).
    + lia.
    + intros acc. rewrite BlockStore_at. rewrite Nat.eqb_refl.
      destruct (Nat.leb_spec (BIX * BLOCK + k / SEQ * SEQ) id); [|lia].
      destruct (Nat.ltb_spec id (BIX * BLOCK + k / SEQ * SEQ + SEQ)); [|lia].
      cbn [andb]. f_equal.
      unfold InclusiveSum, tile_prefix_sum.
      replace (id mod BLOCK) with k
        by (apply Nat.mod_unique with (q := BIX); lia).
      replace (id / BLOCK) with BIX
        by (apply Nat.div_unique with (r := k); lia).
      replace (k / SEQ * SEQ + (id - (BIX * BLOCK + k / SEQ * SEQ))) with k by lia.
      apply prefix_sum_ext. intros j Hj.
      assert (Hj' : j < BLOCK) by lia.
      destruct (split_blocked SEQ_pos BLOCK_pos SEQ_divides Hj') as (_ & _ & Hjs).
      unfold fuse_guarded, fuse, BlockLoad.
      replace ((BIX * BD + j / SEQ) * SEQ + j mod SEQ) with (BIX * BLOCK + j) by nia.
      replace (BIX * BLOCK + (j / SEQ * SEQ + j mod SEQ)) with (BIX * BLOCK + j) by lia.
      rewrite HO by lia. reflexivity.
    + intros t acc _. rewrite BlockStore_at. rewrite Nat.eqb_refl. cbn [andb].
      destruct ((BIX * BLOCK + t * SEQ <=? id) && (id <? BIX * BLOCK + t * SEQ + SEQ))
        eqn:E; [|now right].
      apply andb_prop in E. destruct E as [E1 E2].
      apply Nat.leb_le in E1. apply Nat.ltb_lt in E2.
      assert (t = k / SEQ).
      { apply Nat.div_unique with (r := k - t * SEQ); unfold k; lia. }
      subst t. left.
      f_equal.
      unfold InclusiveSum, tile_prefix_sum.
      replace (id mod BLOCK) with k
        by (apply Nat.mod_unique with (q := BIX); lia).
      replace (id / BLOCK) with BIX
        by (apply Nat.div_unique with (r := k); lia).
      replace (k / SEQ * SEQ + (id - (BIX * BLOCK + k / SEQ * SEQ))) with k by lia.
      apply prefix_sum_ext. intros j Hj.
      assert (Hj' : j < BLOCK) by lia.
      destruct (split_blocked SEQ_pos BLOCK_pos SEQ_divides Hj') as (_ & _ & Hjs).
      unfold fuse_guarded, fuse, BlockLoad.
      replace ((BIX * BD + j / SEQ) * SEQ + j mod SEQ) with (BIX * BLOCK + j) by nia.
      replace (BIX * BLOCK + (j / SEQ * SEQ + j mod SEQ)) with (BIX * BLOCK + j) by lia.
      rewrite HO by lia. reflexivity.
  - intros p id Hout.
    apply (loop_preserves (fun gd : dmem => gd p id)).
    intros t acc Ht. rewrite BlockStore_at.
    destruct (Nat.eqb_spec p xdata) as [->|Hp]; [|reflexivity]. cbn [andb].
    destruct (Nat.leb_spec (BIX * BLOCK + t * SEQ) id); [|reflexivity].
    destruct (Nat.ltb_spec id (BIX * BLOCK + t * SEQ + SEQ)); [|reflexivity].
    exfalso. nia.
Qed.

(** The whole grid. *)
Lemma x_lorenzo_1d1l_spec (gridDim : nat) (outlier xdata : ptr) (dimx : nat)
    (radius : Z) (ebx2 : Q) (g : Global) :
  let g' := x_lorenzo_1d1l BLOCK SEQ gridDim outlier xdata dimx radius ebx2 g in
  g_quant g' = g_quant g /\
  (forall id, id < gridDim * BLOCK ->
     g_data g' xdata id
     = (tile_prefix_sum BLOCK
          (fuse_guarded (g_data g outlier) (g_quant g) radius dimx) id
        * ebx2)%Q) /\
  (forall p id, p <> xdata \/ gridDim * BLOCK <= id ->
     g_data g' p id = g_data g p id).
Proof.
  intros g'. subst g'. unfold x_lorenzo_1d1l.
  apply (for_loop_ind (fun b acc =>
    g_quant acc = g_quant g /\
    (forall id, id < b * BLOCK ->
       g_data acc xdata id
       = (tile_prefix_sum BLOCK
            (fuse_guarded (g_data g outlier) (g_quant g) radius dimx) id
          * ebx2)%Q) /\
    (forall p id, p <> xdata \/ b * BLOCK <= id ->
       g_data acc p id = g_data g p id))).
  - lia.
  - split; [reflexivity|]. split; [intros; lia|reflexivity].
  - intros b acc Hb (Hq & Hdone & Hrest).
    assert (Hin : forall id, b * BLOCK <= id < b * BLOCK + BLOCK ->
                    g_data acc outlier id = g_data g outlier id).
    { intros id Hid. apply Hrest. lia. }
    destruct (@x_lorenzo_1d1l_block_spec outlier xdata dimx radius ebx2 b acc
                (g_data g outlier) Hin) as (Nq & Nnew & Nframe).
    split; [congruence|]. split.
    + intros id Hid.
      destruct (le_lt_dec (b * BLOCK) id) as [Hge|Hlt].
      * rewrite Nnew by lia. now rewrite Hq.
      * rewrite Nframe by lia. apply Hdone. lia.
    + intros p id Hout. rewrite Nframe by lia. apply Hrest. lia.
Qed.

End KernelX1DFacts.

(* ================================================================== *)
(** ** Scalar facts: rounding, truncation, post-quantization *)


Lemma Qtrunc_comp (x y : Q) : (x == y)%Q -> Qtrunc x = Qtrunc y.
Proof.
  intros E. unfold Qtrunc.
  rewrite (Qleb_comp 0%Q 0%Q (Qeq_refl 0%Q) x y E).
  destruct (Qle_bool 0 y); [now apply Qfloor_comp|now apply Qceiling_comp].
Qed.

Lemma Qtrunc_inject_Z (z : Z) : Qtrunc (inject_Z z) = z.
Proof.
  unfold Qtrunc. destruct (Qle_bool 0 (inject_Z z));
    [apply Qfloor_Z|apply Qceiling_Z].
Qed.

Lemma Qlt_bool_iff (x y : Q) : Qlt_bool x y = true <-> (x < y)%Q.
Proof.
  unfold Qlt_bool. rewrite negb_true_iff.
  split; intros H.
  - apply Qnot_le_lt. intros Hle. apply Qle_bool_iff in Hle. congruence.
  - destruct (Qle_bool y x) eqn:E; [|reflexivity].
    apply Qle_bool_iff in E. apply Qle_not_lt in E. contradiction.
Qed.

Lemma quantizable_iff (radius : Z) (delta : Q) :
  quantizable radius delta = true <-> (Qabs delta < inject_Z radius)%Q.
Proof. apply Qlt_bool_iff. Qed.

Section PostquantFacts.

Variable bits : Z.
Variable radius : Z.

(** A residual that is not quantizable: the code is zero and the outlier
    slot carries [delta + radius]. *)
Lemma postquant_outlier_case (delta : Q) :
  ~ (Qabs delta < inject_Z radius)%Q ->
  postquant_quant bits radius delta = 0%Z /\
  (postquant_outlier radius delta == delta + inject_Z radius)%Q.
Proof.
  intros H. unfold postquant_quant, postquant_outlier, candidate.
  destruct (quantizable radius delta) eqn:E.
  - apply quantizable_iff in E. contradiction.
  - cbn [Z.b2z]. split.
    + unfold to_ErrCtrl at 1. rewrite Z.mul_0_l. apply Zmod_0_l.
    + change (inject_Z (1 - 0)) with 1%Q. ring.
Qed.

(** A quantizable residual leaves a zero outlier slot; the code is the
    integer [delta + radius] reduced to the width of [ErrCtrl]. *)
Lemma postquant_quantizable_case (delta : Q) (d : Z) :
  (delta == inject_Z d)%Q ->
  (Qabs delta < inject_Z radius)%Q ->
  postquant_quant bits radius delta = ((d + radius) mod 2 ^ bits)%Z /\
  (postquant_outlier radius delta == 0)%Q.
Proof.
  intros Hd H. unfold postquant_quant, postquant_outlier.
  apply quantizable_iff in H. rewrite H. cbn [Z.b2z]. split.
  - unfold static_cast_ErrCtrl, to_ErrCtrl, candidate.
    rewrite Z.mul_1_l, Zmod_mod. f_equal.
    rewrite <- (Qtrunc_inject_Z (d + radius)). apply Qtrunc_comp.
    rewrite Hd, inject_Z_plus. reflexivity.
  - change (inject_Z (1 - 1)) with 0%Q. ring.
Qed.

Lemma quantizable_range (delta : Q) (d : Z) :
  (delta == inject_Z d)%Q ->
  (Qabs delta < inject_Z radius)%Q ->
  (0 < d + radius < 2 * radius)%Z.
Proof.
  intros Hd H. rewrite Hd in H. apply Qabs_Qlt_condition in H.
  rewrite <- inject_Z_opp, <- !Zlt_Qlt in H. lia.
Qed.

(** When the alphabet [2 * radius] fits the code type the code is
    [delta + radius] itself, and it is not zero. *)
Lemma postquant_quantizable_fit (delta : Q) (d : Z) :
  (2 * radius <= 2 ^ bits)%Z ->
  (delta == inject_Z d)%Q ->
  (Qabs delta < inject_Z radius)%Q ->
  postquant_quant bits radius delta = (d + radius)%Z /\
  (postquant_outlier radius delta == 0)%Q.
Proof.
  intros Hfit Hd H.
  destruct (postquant_quantizable_case Hd H) as [E1 E2].
  pose proof (quantizable_range Hd H) as Hr.
  split; [|exact E2]. rewrite E1. apply Z.mod_small. lia.
Qed.


End PostquantFacts.

(** The residuals of prequantized data are integers. *)
Lemma lorenzo_delta1d_integral (BLOCK : nat) (s : mem Q) (ebx2_r : Q) (id : nat) :
  exists d : Z, (lorenzo_delta1d BLOCK (prequant s ebx2_r) id == inject_Z d)%Q.
Proof.
  unfold lorenzo_delta1d, prequant, c_round.
  destruct (id mod BLOCK =? 0).
  - exists (round_half_away (s id * ebx2_r)). ring.
  - exists (Z.sub (round_half_away (s id * ebx2_r))
                  (round_half_away (s (id - 1) * ebx2_r))).
    unfold Z.sub. rewrite inject_Z_plus, inject_Z_opp. ring.
Qed.

(* ================================================================== *)
(** ** The compress-time 2D kernel *)

Lemma lin2_inj (dimx x y x' y' : nat) :
  x < dimx -> x' < dimx -> lin2 dimx x y = lin2 dimx x' y' -> x = x' /\ y = y'.
Proof.
  unfold lin2. intros Hx Hx' E.
  assert (E1 : dimx * y + x = dimx * y' + x') by nia.
  destruct (Nat.div_mod_unique dimx _ _ _ _ Hx Hx' E1). auto.
Qed.

Lemma in_block2_disjoint (dimx dimy i j i' j' x y x' y' : nat) :
  in_block2 dimx dimy i j x y -> in_block2 dimx dimy i' j' x' y' ->
  i <> i' \/ j <> j' -> lin2 dimx x y <> lin2 dimx x' y'.
Proof.
  intros [(Bx & By) (Rx & Ry)] [(Bx' & By') (Rx' & Ry')] Hne E.
  destruct (@lin2_inj dimx x y x' y' Rx Rx' E). lia.
Qed.

(** The loading loop of one lane. *)
Lemma load2d_column (guard : nat -> bool) (v : nat -> Q) (c0 : mem Q) (j : nat) :
  for_loop 0 8 (fun i c => if guard i then store c (i + 1) (v i) else c) c0 j
  = if (1 <=? j) && (j <=? 8) && guard (j - 1) then v (j - 1) else c0 j.
Proof.
  set (body := fun i c => if guard i then store c (i + 1) (v i) else c).
  assert (H : forall n, n <= 8 ->
            for_loop 0 n body c0 j
            = if (1 <=? j) && (j <=? n) && guard (j - 1) then v (j - 1)
              else c0 j).
  { induction n as [|n IH]; intros Hn.
    - rewrite for_loop_nil by lia.
      destruct (Nat.leb_spec 1 j), (Nat.leb_spec j 0); cbn [andb];
        try reflexivity; lia.
    - rewrite for_loop_S by lia. unfold body at 1.
      specialize (IH ltac:(lia)).
      destruct (Nat.eq_dec j (n + 1)) as [->|Hj].
      + replace (n + 1 - 1) with n by lia.
        destruct (Nat.leb_spec 1 (n + 1)); [|lia].
        destruct (Nat.leb_spec (n + 1) (S n)); [|lia]. cbn [andb].
        destruct (guard n) eqn:G.
        * now rewrite store_eq.
        * rewrite IH. destruct (Nat.leb_spec (n + 1) n); [lia|].
          now rewrite andb_false_r.
      + assert (E : (if guard n then store (for_loop 0 n body c0) (n + 1) (v n)
                     else for_loop 0 n body c0) j = for_loop 0 n body c0 j).
        { destruct (guard n); [now rewrite store_neq|reflexivity]. }
        rewrite E, IH.
        destruct (Nat.leb_spec j n), (Nat.leb_spec j (S n)); try reflexivity; lia. }
  now apply H.
Qed.

Section Kernel2DFacts.

Variable bits : Z.
Variables dimx dimy : nat.
Local Abbreviation stridey := dimx.
Variables (data outlier : ptr) (radius : Z) (ebx2_r : Q).
Variables BIX BIY : nat.
Variable s : mem Q.

Local Abbreviation gix lane := (BIX * 16 + lane_TIX lane).
Local Abbreviation giy_base lane := (BIY * 16 + lane_TIY lane * 8).
Local Abbreviation p := (prequant2 s stridey ebx2_r).

(** The registers after [load2d_prequant]. *)
Local Abbreviation loaded :=
  (load2d_prequant s dimx dimy stridey ebx2_r (fun lane => gix lane)
     (fun lane => giy_base lane) (fun _ _ => 0%Q)).

Lemma load2d_prequant_rows (lane j : nat) :
  1 <= j <= 8 -> gix lane < dimx -> giy_base lane + j - 1 < dimy ->
  loaded lane j = p (gix lane) (giy_base lane + j - 1).
Proof.
  intros Hj Hx Hy. unfold load2d_prequant. cbv beta zeta.
  destruct (lane_TIY lane =? 1); [rewrite store_neq by lia|];
  rewrite (load2d_column
             (fun i => (gix lane <? dimx) && (giy_base lane + i <? dimy))
             (fun i => c_round (s ((giy_base lane + i) * stridey + gix lane)
                                * ebx2_r)));
  (destruct (Nat.leb_spec 1 j); [|lia]); (destruct (Nat.leb_spec j 8); [|lia]);
  (destruct (Nat.ltb_spec (gix lane) dimx); [|lia]);
  (destruct (Nat.ltb_spec (giy_base lane + (j - 1)) dimy); [|lia]);
  cbn [andb]; unfold prequant2;
  replace (giy_base lane + (j - 1)) with (giy_base lane + j - 1) by lia;
  reflexivity.
Qed.

Lemma load2d_prequant_row0_upper (lane : nat) :
  lane_TIY lane = 0 -> loaded lane 0 = 0%Q.
Proof.
  intros H. unfold load2d_prequant. cbv beta zeta.
  replace (lane_TIY lane =? 1) with false by (now rewrite H).
  rewrite (load2d_column
             (fun i => (gix lane <? dimx) && (giy_base lane + i <? dimy))
             (fun i => c_round (s ((giy_base lane + i) * stridey + gix lane)
                                * ebx2_r))).
  reflexivity.
Qed.

Lemma load2d_prequant_row0_lower (lane : nat) :
  lane_TIY lane = 1 -> gix lane < dimx -> giy_base lane < dimy ->
  loaded lane 0 = p (gix lane) (giy_base lane - 1).
Proof.
  intros H Hx Hy. unfold load2d_prequant. cbv beta zeta.
  replace (lane_TIY lane =? 1) with true by (now rewrite H).
  rewrite store_eq.
  unfold lane_TIX, lane_TIY in *. unfold shfl_up_sync.
  assert (Hl : 16 <= lane < 32).
  { pose proof (Nat.div_mod_eq lane 16).
    pose proof (Nat.mod_upper_bound lane 16). lia. }
  destruct (Nat.ltb_spec (lane mod 32) 16) as [Hm|Hm].
  { rewrite Nat.mod_small in Hm by lia. lia. }
  rewrite (load2d_column
             (fun i => (BIX * 16 + (lane - 16) mod 16 <? dimx)
                       && (BIY * 16 + (lane - 16) / 16 * 8 + i <? dimy))
             (fun i => c_round
                         (s ((BIY * 16 + (lane - 16) / 16 * 8 + i) * stridey
                             + (BIX * 16 + (lane - 16) mod 16)) * ebx2_r))).
  cbn [Nat.leb andb Nat.sub].
  assert (E1 : (lane - 16) mod 16 = lane mod 16).
  { rewrite !Nat.mod_small with (b := 16) by lia.
    replace lane with (lane - 16 + 1 * 16) at 2 by lia.
    rewrite Nat.Div0.mod_add. symmetry. apply Nat.mod_small. lia. }
  assert (E2 : (lane - 16) / 16 = 0) by (apply Nat.div_small; lia).
  rewrite E1, E2.
  destruct (Nat.ltb_spec (BIX * 16 + lane mod 16) dimx); [|lia].
  destruct (Nat.ltb_spec (BIY * 16 + 0 * 8 + 7) dimy); [|lia].
  cbn [andb]. unfold prequant2.
  rewrite H.
  replace (BIY * 16 + 1 * 8 - 1) with (BIY * 16 + 0 * 8 + 7) by lia.
  reflexivity.
Qed.

(** [pred2d] on registers [C]: row [j] of each lane becomes the difference
    along y, less that of the west lane unless the lane is the first of
    its row. *)
Lemma pred2d_rows (C : regfile) (lane j : nat) :
  1 <= j <= 8 ->
  pred2d C lane j
  = if 0 <? lane_TIX lane
    then (C lane j - C lane (j - 1)%nat
          - (C (lane - 1)%nat j - C (lane - 1)%nat (j - 1)%nat))%Q
    else (C lane j - C lane (j - 1)%nat)%Q.
Proof.
  intros Hj.
  set (F := fun l jj =>
    if 0 <? lane_TIX l
    then (C l jj - C l (jj - 1)%nat
          - (C (l - 1)%nat jj - C (l - 1)%nat (jj - 1)%nat))%Q
    else (C l jj - C l (jj - 1)%nat)%Q).
  change (pred2d C lane j = F lane j).
  unfold pred2d. cbv zeta.
  set (P := fun k (c : regfile) =>
              forall l jj,
                (jj <= 8 - k -> c l jj = C l jj) /\
                (8 - k < jj <= 8 -> c l jj = F l jj)).
  match goal with
  | |- for_loop 0 8 ?body C lane j = _ =>
      assert (H : P 8 (for_loop 0 8 body C))
  end.
  { apply (@for_loop_ind _ P); [lia| |].
    - intros l jj. split; [reflexivity|lia].
    - intros k c Hk IH l jj. set (i := 8 - k).
      assert (Hc1 : forall l',
                store (c l') i (c l' i - c l' (i - 1)%nat)%Q i
                = (C l' i - C l' (i - 1)%nat)%Q).
      { intros l'. rewrite store_eq.
        rewrite (proj1 (IH l' i)) by (unfold i; lia).
        rewrite (proj1 (IH l' (i - 1))) by (unfold i; lia). reflexivity. }
      destruct (Nat.eq_dec jj i) as [->|Hne].
      + split; [unfold i; lia|]. intros _. unfold F.
        destruct (0 <? lane_TIX l) eqn:Hw.
        * rewrite store_eq, Hc1. unfold shfl_up_sync.
          apply Nat.ltb_lt in Hw. unfold lane_TIX in Hw.
          destruct (Nat.ltb_spec (l mod 16) 1); [lia|].
          rewrite Hc1. reflexivity.
        * apply Hc1.
      + destruct (0 <? lane_TIX l); rewrite ?store_neq by assumption;
          (split; intros Hjj; apply IH; unfold i in Hne; lia). }
  apply H. lia.
Qed.

Lemma lane_TIX_of (TIX TIY : nat) : TIX < 16 -> lane_TIX (TIX + 16 * TIY) = TIX.
Proof.
  intros H. unfold lane_TIX. symmetry.
  apply Nat.mod_unique with (q := TIY); lia.
Qed.

Lemma lane_TIY_of (TIX TIY : nat) : TIX < 16 -> lane_TIY (TIX + 16 * TIY) = TIY.
Proof.
  intros H. unfold lane_TIY. symmetry.
  apply Nat.div_unique with (r := TIX); lia.
Qed.

Lemma tile16_mod (B t : nat) : t < 16 -> (B * 16 + t) mod 16 = t.
Proof. intros H. symmetry. apply Nat.mod_unique with (q := B); lia. Qed.

(** The difference along y that thread ([TIX], [TIY]) holds in row [j]
    once its column is loaded. *)
Lemma load2d_prequant_along_y (TIX TIY j : nat) :
  TIX < 16 -> TIY < 2 -> 1 <= j <= 8 ->
  BIX * 16 + TIX < dimx -> BIY * 16 + TIY * 8 + j - 1 < dimy ->
  let lane := TIX + 16 * TIY in
  let x := BIX * 16 + TIX in
  let y := BIY * 16 + TIY * 8 + j - 1 in
  (loaded lane j - loaded lane (j - 1)%nat)%Q
  = (p x y - (if 0 <? y mod 16 then p x (y - 1)%nat else 0))%Q.
Proof.
  intros HX HY Hj Hx Hy. cbv zeta.
  pose proof (lane_TIX_of TIY HX) as EX. pose proof (lane_TIY_of TIY HX) as EY.
  assert (Em : (BIY * 16 + TIY * 8 + j - 1) mod 16 = TIY * 8 + j - 1).
  { replace (BIY * 16 + TIY * 8 + j - 1)
      with (BIY * 16 + (TIY * 8 + j - 1)) by lia.
    apply tile16_mod. lia. }
  rewrite Em.
  rewrite load2d_prequant_rows by (rewrite ?EX, ?EY; lia).
  rewrite EX, EY. f_equal.
  destruct (Nat.eq_dec j 1) as [->|Hj1].
  - change (1 - 1) with 0. destruct (Nat.eq_dec TIY 0) as [->|HY0].
    + destruct (Nat.ltb_spec 0 (0 * 8 + 1 - 1)); [lia|].
      apply load2d_prequant_row0_upper. exact EY.
    + assert (TIY = 1) by lia. subst TIY.
      destruct (Nat.ltb_spec 0 (1 * 8 + 1 - 1)); [|lia].
      rewrite load2d_prequant_row0_lower by (rewrite ?EX, ?EY; lia).
      rewrite EX, EY. f_equal. lia.
  - destruct (Nat.ltb_spec 0 (TIY * 8 + j - 1)); [|lia].
    rewrite load2d_prequant_rows by (rewrite ?EX, ?EY; lia).
    rewrite EX, EY. f_equal. lia.
Qed.

(** What a thread holds in row [j] after [pred2d]: the residual of its
    grid point. *)
Lemma c_lorenzo_2d1l_center (TIX TIY j : nat) :
  TIX < 16 -> TIY < 2 -> 1 <= j <= 8 ->
  BIX * 16 + TIX < dimx -> BIY * 16 + TIY * 8 + j - 1 < dimy ->
  pred2d loaded (TIX + 16 * TIY) j
  = lorenzo_delta2d p (BIX * 16 + TIX) (BIY * 16 + TIY * 8 + j - 1).
Proof.
  intros HX HY Hj Hx Hy.
  rewrite pred2d_rows by assumption. rewrite lane_TIX_of by assumption.
  unfold lorenzo_delta2d. cbv zeta beta. rewrite tile16_mod by assumption.
  rewrite (load2d_prequant_along_y HX HY Hj Hx Hy). cbv zeta.
  destruct (Nat.ltb_spec 0 TIX) as [Hw|Hw]; [|reflexivity].
  replace (TIX + 16 * TIY - 1) with (TIX - 1 + 16 * TIY) by lia.
  rewrite (@load2d_prequant_along_y (TIX - 1) TIY j) by lia. cbv zeta.
  replace (BIX * 16 + (TIX - 1)) with (BIX * 16 + TIX - 1) by lia.
  reflexivity.
Qed.

End Kernel2DFacts.


Lemma lorenzo_delta2d_ext (dimx dimy BIX BIY : nat) (p p' : nat -> nat -> Q)
    (x y : nat) :
  (forall x' y', in_block2 dimx dimy BIX BIY x' y' -> p x' y' = p' x' y') ->
  in_block2 dimx dimy BIX BIY x y ->
  lorenzo_delta2d p x y = lorenzo_delta2d p' x y.
Proof.
  intros H [(Bx & By) (Rx & Ry)]. unfold lorenzo_delta2d. cbv zeta beta.
  assert (Hx : 0 < x mod 16 -> BIX * 16 <= x - 1).
  { intros Hm. pose proof (Nat.div_mod_eq x 16).
    assert (x / 16 = BIX) by (symmetry; apply Nat.div_unique with (r := x - BIX * 16); lia).
    lia. }
  assert (Hy : 0 < y mod 16 -> BIY * 16 <= y - 1).
  { intros Hm. pose proof (Nat.div_mod_eq y 16).
    assert (y / 16 = BIY) by (symmetry; apply Nat.div_unique with (r := y - BIY * 16); lia).
    lia. }
  destruct (Nat.ltb_spec 0 (x mod 16)); destruct (Nat.ltb_spec 0 (y mod 16));
    rewrite ?(H x y), ?(H x (y - 1)), ?(H (x - 1) y), ?(H (x - 1) (y - 1))
      by (unfold in_block2; lia);
    reflexivity.
Qed.

Section Kernel2DBlock.

Variable bits : Z.
Variables dimx dimy : nat.
Local Abbreviation stridey := dimx.
Variables (data outlier : ptr) (radius : Z) (ebx2_r : Q).
Variables BIX BIY : nat.

Local Abbreviation gix lane := (BIX * 16 + lane_TIX lane).
Local Abbreviation giy_base lane := (BIY * 16 + lane_TIY lane * 8).
Local Abbreviation in_block := (in_block2 dimx dimy BIX BIY).
Local Abbreviation lin := (lin2 dimx).

Lemma postquant_write2d_phase (center : regfile) (g : Global) (x y : nat) :
  in_block x y ->
  out_at outlier (lin x y)
    (for_loop 0 32 (fun lane g =>
       postquant_write2d bits (center lane) outlier dimx dimy stridey radius
         (gix lane) (giy_base lane) g) g)
  = postquant bits radius
      (center (x - BIX * 16 + 16 * ((y - BIY * 16) / 8))
              ((y - BIY * 16) mod 8 + 1)).
Proof.
  intros [(Bx & By) (Rx & Ry)].
  set (lane0 := x - BIX * 16 + 16 * ((y - BIY * 16) / 8)).
  set (j0 := (y - BIY * 16) mod 8 + 1).
  set (v := postquant bits radius (center lane0 j0)).
  set (obs := out_at outlier (lin x y)).
  assert (Hq : (y - BIY * 16) / 8 < 2) by (apply Nat.Div0.div_lt_upper_bound; lia).
  pose proof (Nat.div_mod_eq (y - BIY * 16) 8) as Hdm.
  pose proof (Nat.mod_upper_bound (y - BIY * 16) 8 ltac:(lia)) as Hmb.
  assert (EX : lane_TIX lane0 = x - BIX * 16) by (apply lane_TIX_of; lia).
  assert (EY : lane_TIY lane0 = (y - BIY * 16) / 8) by (apply lane_TIY_of; lia).
  assert (Hstep : forall lane i (acc : Global),
    1 <= i <= 8 ->
    let gid := (giy_base lane + (i - 1)) * stridey + gix lane in
    let acc' :=
      if (gix lane <? dimx) && (giy_base lane + i - 1 <? dimy)
      then mkGlobal (dstore (g_data acc) outlier gid
                       (postquant_outlier radius (center lane i)))
                    (store (g_quant acc) gid
                       (postquant_quant bits radius (center lane i)))
      else acc in
    obs acc' = v \/ obs acc' = obs acc).
  { intros lane i acc Hi. cbv zeta.
    destruct (Nat.ltb_spec (gix lane) dimx) as [Gx|Gx]; [|now right].
    destruct (Nat.ltb_spec (giy_base lane + i - 1) dimy) as [Gy|Gy];
      [|now right].
    cbn [andb]. unfold obs, out_at. cbn [g_data g_quant].
    destruct (Nat.eq_dec (lin x y)
                ((giy_base lane + (i - 1)) * stridey + gix lane)) as [E|Hne].
    - left. rewrite E, dstore_eq, store_eq.
      destruct (@lin2_inj dimx x y (gix lane) (giy_base lane + (i - 1)) Rx Gx E)
        as (Ex & Ey).
      unfold lane_TIX, lane_TIY in Ex, Ey.
      pose proof (Nat.div_mod_eq lane 16).
      pose proof (Nat.mod_upper_bound lane 16 ltac:(lia)).
      assert (El : lane = lane0) by (unfold lane0; lia).
      assert (Ei : i = j0) by (unfold j0; lia).
      subst lane i. reflexivity.
    - right. rewrite dstore_neq, store_neq by auto. reflexivity. }
  apply (loop_writes obs) with (i0 := lane0); [unfold lane0; lia| |].
  - intros acc. unfold postquant_write2d. cbv zeta.
    apply (loop_writes obs) with (i0 := j0); [unfold j0; lia| |].
    + intros acc'. rewrite EX, EY.
      destruct (Nat.ltb_spec (BIX * 16 + (x - BIX * 16)) dimx); [|lia].
      destruct (Nat.ltb_spec (BIY * 16 + (y - BIY * 16) / 8 * 8 + j0 - 1) dimy);
        [|unfold j0 in *; lia].
      cbn [andb]. unfold obs, out_at. cbn [g_data g_quant].
      replace ((BIY * 16 + (y - BIY * 16) / 8 * 8 + (j0 - 1)) * stridey
               + (BIX * 16 + (x - BIX * 16))) with (lin x y)
        by (unfold lin2, j0; f_equal; [f_equal|]; lia).
      rewrite dstore_eq, store_eq. reflexivity.
    + intros i acc' Hi. apply Hstep. lia.
  - intros lane acc _. unfold postquant_write2d. cbv zeta.
    apply (loop_writes_only obs). intros i acc' Hi. apply Hstep. lia.
Qed.

Lemma postquant_write2d_frame (center : regfile) (g : Global) (p : ptr)
    (id : nat) :
  p <> outlier \/ (forall x y, in_block x y -> id <> lin x y) ->
  (let g' := for_loop 0 32 (fun lane g =>
               postquant_write2d bits (center lane) outlier dimx dimy stridey
                 radius (gix lane) (giy_base lane) g) g in
   g_data g' p id = g_data g p id /\
   (p <> outlier \/ g_quant g' id = g_quant g id)).
Proof.
  intros Hout. cbv zeta.
  set (obs := fun g : Global =>
                (g_data g p id, if Nat.eqb p outlier then g_quant g id else 0%Z)).
  match goal with
  | |- g_data ?G p id = _ /\ _ => assert (H : obs G = obs g)
  end.
  { apply (loop_preserves obs). intros lane acc Hlane.
    unfold postquant_write2d. cbv zeta.
    apply (loop_preserves obs). intros i acc' Hi.
    destruct (Nat.ltb_spec (gix lane) dimx) as [Gx|Gx]; [|reflexivity].
    destruct (Nat.ltb_spec (giy_base lane + i - 1) dimy) as [Gy|Gy];
      [|reflexivity].
    cbn [andb]. unfold obs. cbn [g_data g_quant].
    destruct (Nat.eqb_spec p outlier) as [E|E].
    - destruct Hout as [Hout|Hout]; [contradiction|].
      assert (Hne : id <> lin (gix lane) (giy_base lane + (i - 1))).
      { apply Hout. unfold in_block2, lane_TIX, lane_TIY in *.
        pose proof (Nat.div_mod_eq lane 16).
        pose proof (Nat.mod_upper_bound lane 16 ltac:(lia)). lia. }
      unfold lin2 in Hne. rewrite dstore_neq, store_neq by auto. reflexivity.
    - rewrite dstore_neq by auto. reflexivity. }
  unfold obs in H. injection H as H1 H2. split; [exact H1|].
  destruct (Nat.eqb_spec p outlier); [right; exact H2|now left].
Qed.

(** One thread block. *)
Lemma c_lorenzo_2d1l_block_spec (g : Global) (s : mem Q) (x y : nat) :
  (forall x' y', in_block x' y' -> g_data g data (lin x' y') = s (lin x' y')) ->
  in_block x y ->
  out_at outlier (lin x y)
    (c_lorenzo_2d1l_block bits data outlier dimx dimy stridey radius ebx2_r
       BIX BIY g)
  = postquant bits radius (lorenzo_delta2d (prequant2 s stridey ebx2_r) x y).
Proof.
  intros Hs Hin. unfold c_lorenzo_2d1l_block. cbv zeta.
  rewrite postquant_write2d_phase by assumption. f_equal.
  pose proof Hin as [(Bx & By) (Rx & Ry)].
  assert (Hq : (y - BIY * 16) / 8 < 2) by (apply Nat.Div0.div_lt_upper_bound; lia).
  pose proof (Nat.div_mod_eq (y - BIY * 16) 8) as Hdm.
  pose proof (Nat.mod_upper_bound (y - BIY * 16) 8 ltac:(lia)) as Hmb.
  rewrite (@c_lorenzo_2d1l_center dimx dimy ebx2_r BIX BIY (g_data g data))
    by lia.
  replace (BIX * 16 + (x - BIX * 16)) with x by lia.
  replace (BIY * 16 + (y - BIY * 16) / 8 * 8 + ((y - BIY * 16) mod 8 + 1) - 1)
    with y by lia.
  apply lorenzo_delta2d_ext with (dimx := dimx) (dimy := dimy) (BIX := BIX)
                                 (BIY := BIY); [|assumption].
  intros x' y' Hin'. unfold prequant2. fold (lin x' y').
  rewrite Hs by assumption. reflexivity.
Qed.

Lemma c_lorenzo_2d1l_block_frame (g : Global) (p : ptr) (id : nat) :
  p <> outlier \/ (forall x y, in_block x y -> id <> lin x y) ->
  let g' := c_lorenzo_2d1l_block bits data outlier dimx dimy stridey radius
              ebx2_r BIX BIY g in
  g_data g' p id = g_data g p id /\
  (p <> outlier \/ g_quant g' id = g_quant g id).
Proof.
  intros Hout. unfold c_lorenzo_2d1l_block. cbv zeta.
  now apply postquant_write2d_frame.
Qed.

End Kernel2DBlock.

Section Kernel2DGrid.

Variable bits : Z.
Variables dimx dimy : nat.
Variables (data outlier : ptr) (radius : Z) (ebx2_r : Q).
Variables gridDim_x gridDim_y : nat.

Lemma c_lorenzo_2d1l_spec (g : Global) (x y : nat) :
  x < dimx -> y < dimy -> x < gridDim_x * 16 -> y < gridDim_y * 16 ->
  out_at outlier (lin2 dimx x y)
    (c_lorenzo_2d1l bits gridDim_x gridDim_y data outlier dimx dimy dimx
       radius ebx2_r g)
  = postquant bits radius
      (lorenzo_delta2d (prequant2 (g_data g data) dimx ebx2_r) x y).
Proof.
  intros Rx Ry Gx Gy.
  set (bx := x / 16). set (by_ := y / 16).
  assert (Hin : in_block2 dimx dimy bx by_ x y).
  { unfold in_block2, bx, by_.
    pose proof (Nat.div_mod_eq x 16). pose proof (Nat.mod_upper_bound x 16).
    pose proof (Nat.div_mod_eq y 16). pose proof (Nat.mod_upper_bound y 16).
    lia. }
  set (Inv := fun acc : Global =>
    forall x' y', in_block2 dimx dimy bx by_ x' y' ->
      g_data acc data (lin2 dimx x' y') = g_data g data (lin2 dimx x' y')).
  unfold c_lorenzo_2d1l.
  apply (@nest2_writes_at _ _ (out_at outlier (lin2 dimx x y)) Inv
           gridDim_x gridDim_y
           (fun i j s =>
              c_lorenzo_2d1l_block bits data outlier dimx dimy dimx radius
                ebx2_r i j s)
           bx by_).
  - destruct Hin as [(Bx & _) _]. lia.
  - destruct Hin as [(_ & By) _]. lia.
  - intros x' y' _. reflexivity.
  - intros i j Hne acc. split.
    + intros Hacc x' y' Hin'.
      rewrite <- (Hacc x' y' Hin').
      apply (@c_lorenzo_2d1l_block_frame bits dimx dimy data outlier radius
               ebx2_r i j acc data (lin2 dimx x' y')).
      right. intros x'' y'' Hin''.
      apply (in_block2_disjoint Hin' Hin''). intuition congruence.
    + unfold out_at.
      destruct (@c_lorenzo_2d1l_block_frame bits dimx dimy data outlier radius
                  ebx2_r i j acc outlier (lin2 dimx x y)) as [E1 [E2|E2]].
      * right. intros x'' y'' Hin''.
        apply (in_block2_disjoint Hin Hin''). intuition congruence.
      * contradiction.
      * rewrite E1, E2. reflexivity.
  - intros acc Hacc.
    apply (@c_lorenzo_2d1l_block_spec bits dimx dimy data outlier radius ebx2_r
             bx by_ acc (g_data g data) x y Hacc Hin).
Qed.

End Kernel2DGrid.

(* ================================================================== *)
(** ** The compress-time 3D kernel *)

Lemma store3_eq (m : shmem3) (z y x : nat) (v : Q) : store3 m z y x v z y x = v.
Proof. unfold store3. rewrite !Nat.eqb_refl. reflexivity. Qed.

Lemma store3_neq (m : shmem3) (z y x z' y' x' : nat) (v : Q) :
  z' <> z \/ y' <> y \/ x' <> x -> store3 m z y x v z' y' x' = m z' y' x'.
Proof.
  intros H. unfold store3.
  destruct (Nat.eqb_spec z' z), (Nat.eqb_spec y' y), (Nat.eqb_spec x' x);
    cbn [andb]; try reflexivity.
  exfalso. destruct H as [H|[H|H]]; contradiction.
Qed.

(** Row-major numbering of grid points is one to one. *)
Lemma lin3_inj (dimx dimy x y z x' y' z' : nat) :
  x < dimx -> x' < dimx -> y < dimy -> y' < dimy ->
  x + y * dimx + z * (dimx * dimy) = x' + y' * dimx + z' * (dimx * dimy) ->
  x = x' /\ y = y' /\ z = z'.
Proof.
  intros Hx Hx' Hy Hy' E.
  assert (E1 : dimx * (y + z * dimy) + x = dimx * (y' + z' * dimy) + x') by nia.
  destruct (Nat.div_mod_unique dimx _ _ _ _ Hx Hx' E1) as [E2 E3].
  assert (E4 : dimy * z + y = dimy * z' + y') by nia.
  destruct (Nat.div_mod_unique dimy _ _ _ _ Hy Hy' E4) as [E5 E6].
  auto.
Qed.

Section Kernel3DFacts.

Variable bits : Z.
Variable shmem3_0 : shmem3.
Variables dimx dimy dimz : nat.

(** The strides of a dense array. *)
Local Abbreviation stridey := dimx.
Local Abbreviation stridez := (dimx * dimy).

Variables (data outlier : ptr) (radius : Z) (ebx2_r : Q).
Variables BIX BIY BIZ : nat.

Lemma c_lorenzo_3d1l_load_phase (s : mem Q) (sh0 : shmem3) (tz ty tx : nat) :
  tz < 8 -> ty < 8 -> tx < 32 ->
  BIX * 32 + tx < dimx -> BIY * 8 + ty < dimy -> BIZ * 8 + tz < dimz ->
  for_threads_3d
    (c_lorenzo_3d1l_load s dimx dimy dimz stridey stridez ebx2_r BIX BIY BIZ)
    sh0 tz ty tx
  = prequant3 s stridey stridez ebx2_r (BIX * 32 + tx) (BIY * 8 + ty)
      (BIZ * 8 + tz).
Proof.
  intros Htz Hty Htx Hx Hy Hz.
  set (v := prequant3 s stridey stridez ebx2_r (BIX * 32 + tx) (BIY * 8 + ty)
              (BIZ * 8 + tz)).
  set (obs := fun sh : shmem3 => sh tz ty tx).
  assert (Hstep : forall TIX TIZ y (acc : shmem3),
    obs (if BIY * 8 + y <? dimy
         then store3 acc TIZ y TIX
                (c_round (s (BIX * (8 * 4) + TIX + BIY * 8 * stridey
                             + (BIZ * 8 + TIZ) * stridez + y * stridey)
                          * ebx2_r))
         else acc) = v \/
    obs (if BIY * 8 + y <? dimy
         then store3 acc TIZ y TIX
                (c_round (s (BIX * (8 * 4) + TIX + BIY * 8 * stridey
                             + (BIZ * 8 + TIZ) * stridez + y * stridey)
                          * ebx2_r))
         else acc) = obs acc).
  { intros TIX TIZ y acc. destruct (BIY * 8 + y <? dimy); [|now right].
    unfold obs.
    destruct (Nat.eq_dec tz TIZ) as [<-|Hne1];
      [destruct (Nat.eq_dec ty y) as [<-|Hne2];
       [destruct (Nat.eq_dec tx TIX) as [<-|Hne3]|]|].
    - left. rewrite store3_eq. unfold v, prequant3. f_equal. f_equal. f_equal.
      nia.
    - right. apply store3_neq. auto.
    - right. apply store3_neq. auto.
    - right. apply store3_neq. auto. }
  assert (Hthread : forall TIX TIZ (acc : shmem3),
    obs (c_lorenzo_3d1l_load s dimx dimy dimz stridey stridez ebx2_r
           BIX BIY BIZ TIX TIZ acc) = v \/
    obs (c_lorenzo_3d1l_load s dimx dimy dimz stridey stridez ebx2_r
           BIX BIY BIZ TIX TIZ acc) = obs acc).
  { intros TIX TIZ acc. unfold c_lorenzo_3d1l_load. cbv zeta.
    destruct ((BIX * (8 * 4) + TIX <? dimx) && (BIZ * 8 + TIZ <? dimz));
      [|now right].
    apply (loop_writes_only obs). intros y acc' _. apply Hstep. }
  unfold for_threads_3d.
  apply (loop_writes obs) with (i0 := tz); [lia| |].
  - intros acc. apply (loop_writes obs) with (i0 := tx); [lia| |].
    + intros acc'. unfold c_lorenzo_3d1l_load. cbv zeta.
      destruct (Nat.ltb_spec (BIX * (8 * 4) + tx) dimx); [|lia].
      destruct (Nat.ltb_spec (BIZ * 8 + tz) dimz); [|lia]. cbn [andb].
      apply (loop_writes obs) with (i0 := ty); [lia| |].
      * intros acc''. destruct (Nat.ltb_spec (BIY * 8 + ty) dimy); [|lia].
        unfold obs. rewrite store3_eq. unfold v, prequant3.
        f_equal. f_equal. f_equal. nia.
      * intros y acc'' _. apply Hstep.
    + intros TIX acc' _. apply Hthread.
  - intros TIZ acc _. apply (loop_writes_only obs). intros TIX acc' _.
    apply Hthread.
Qed.

Lemma mod8_of_tile (B t : nat) : t < 8 -> (B * 8 + t) mod 8 = t.
Proof. intros H. symmetry. apply Nat.mod_unique with (q := B); lia. Qed.

Lemma mod8_of_block32 (B t : nat) : (B * 32 + t) mod 8 = t mod 8.
Proof.
  replace (B * 32 + t) with (t + (B * 4) * 8) by lia.
  apply Nat.Div0.mod_add.
Qed.

(** The residual a thread computes from the loaded tile. *)
Lemma c_lorenzo_3d1l_delta_spec (shmem : shmem3)
    (p : nat -> nat -> nat -> Q) (tz ty tx : nat) :
  tz < 8 -> ty < 8 -> tx < 32 ->
  BIX * 32 + tx < dimx -> BIY * 8 + ty < dimy -> BIZ * 8 + tz < dimz ->
  (forall a b c, a < 8 -> b < 8 -> c < 32 ->
     BIX * 32 + c < dimx -> BIY * 8 + b < dimy -> BIZ * 8 + a < dimz ->
     shmem a b c = p (BIX * 32 + c) (BIY * 8 + b) (BIZ * 8 + a)) ->
  c_lorenzo_3d1l_delta shmem tz ty tx
  = lorenzo_delta3d p (BIX * 32 + tx) (BIY * 8 + ty) (BIZ * 8 + tz).
Proof.
  intros Htz Hty Htx Hx Hy Hz Hagree.
  unfold c_lorenzo_3d1l_delta, lorenzo_delta3d. cbv zeta.
  rewrite mod8_of_block32, !mod8_of_tile by assumption.
  pose proof (Nat.Div0.mod_le tx 8) as Hle.
  destruct (Nat.ltb_spec 0 tz) as [Pz|Pz];
    destruct (Nat.ltb_spec 0 ty) as [Py|Py];
    destruct (Nat.ltb_spec 0 (tx mod 8)) as [Px|Px]; cbn [andb];
    repeat match goal with
           | |- context [shmem ?a ?b ?c] => rewrite (Hagree a b c) by lia
           end;
    repeat (f_equal; try lia).
Qed.

Local Abbreviation in_block := (in_block3 dimx dimy dimz BIX BIY BIZ).
Local Abbreviation lin := (lin3 dimx dimy).

Lemma c_lorenzo_3d1l_write_id (TIX TIZ y : nat) :
  BIX * (8 * 4) + TIX + BIY * 8 * stridey + (BIZ * 8 + TIZ) * stridez
  + y * stridey
  = lin (BIX * 32 + TIX) (BIY * 8 + y) (BIZ * 8 + TIZ).
Proof. unfold lin3. nia. Qed.

Lemma c_lorenzo_3d1l_write_phase (shmem : shmem3) (g : Global) (x y z : nat) :
  in_block x y z ->
  out_at outlier (lin x y z)
    (for_threads_3d
       (c_lorenzo_3d1l_write bits shmem outlier dimx dimy dimz stridey stridez
          radius BIX BIY BIZ) g)
  = postquant bits radius
      (c_lorenzo_3d1l_delta shmem (z - BIZ * 8) (y - BIY * 8) (x - BIX * 32)).
Proof.
  intros [(Bx & By & Bz) (Rx & Ry & Rz)].
  set (v := postquant bits radius
              (c_lorenzo_3d1l_delta shmem (z - BIZ * 8) (y - BIY * 8)
                 (x - BIX * 32))).
  set (obs := out_at outlier (lin x y z)).
  assert (Hstep : forall TIX TIZ y' (acc : Global),
    let id := BIX * (8 * 4) + TIX + BIY * 8 * stridey
              + (BIZ * 8 + TIZ) * stridez + y' * stridey in
    let delta := c_lorenzo_3d1l_delta shmem TIZ y' TIX in
    let acc' :=
      if (BIX * (8 * 4) + TIX <? dimx) && (BIY * 8 + y' <? dimy)
         && (BIZ * 8 + TIZ <? dimz)
      then mkGlobal (dstore (g_data acc) outlier id
                       (postquant_outlier radius delta))
                    (store (g_quant acc) id (postquant_quant bits radius delta))
      else acc in
    obs acc' = v \/ obs acc' = obs acc).
  { intros TIX TIZ y' acc. cbv zeta. rewrite c_lorenzo_3d1l_write_id.
    destruct (Nat.ltb_spec (BIX * (8 * 4) + TIX) dimx) as [Gx|Gx];
      [|now right].
    destruct (Nat.ltb_spec (BIY * 8 + y') dimy) as [Gy|Gy]; [|now right].
    destruct (Nat.ltb_spec (BIZ * 8 + TIZ) dimz) as [Gz|Gz]; [|now right].
    cbn [andb]. unfold obs, out_at. cbn [g_data g_quant].
    destruct (Nat.eq_dec (lin x y z)
                (lin (BIX * 32 + TIX) (BIY * 8 + y') (BIZ * 8 + TIZ)))
      as [E|Hne].
    - left. rewrite E, dstore_eq, store_eq.
      unfold lin3 in E.
      destruct (@lin3_inj dimx dimy x y z (BIX * 32 + TIX) (BIY * 8 + y')
                  (BIZ * 8 + TIZ) Rx ltac:(lia) Ry Gy E) as (Ex & Ey & Ez).
      unfold v, postquant. subst x y z.
      replace (BIZ * 8 + TIZ - BIZ * 8) with TIZ by lia.
      replace (BIY * 8 + y' - BIY * 8) with y' by lia.
      replace (BIX * 32 + TIX - BIX * 32) with TIX by lia. reflexivity.
    - right. rewrite dstore_neq, store_neq by auto. reflexivity. }
  unfold for_threads_3d.
  apply (loop_writes obs) with (i0 := z - BIZ * 8); [lia| |].
  - intros acc. apply (loop_writes obs) with (i0 := x - BIX * 32); [lia| |].
    + intros acc'. unfold c_lorenzo_3d1l_write.
      apply (loop_writes obs) with (i0 := y - BIY * 8); [lia| |].
      * intros acc''. rewrite c_lorenzo_3d1l_write_id.
        replace (BIX * (8 * 4) + (x - BIX * 32)) with x by lia.
        replace (BIX * 32 + (x - BIX * 32)) with x by lia.
        replace (BIY * 8 + (y - BIY * 8)) with y by lia.
        replace (BIZ * 8 + (z - BIZ * 8)) with z by lia.
        destruct (Nat.ltb_spec x dimx); [|lia].
        destruct (Nat.ltb_spec y dimy); [|lia].
        destruct (Nat.ltb_spec z dimz); [|lia]. cbn [andb].
        unfold obs, out_at. cbn [g_data g_quant].
        rewrite dstore_eq, store_eq. reflexivity.
      * intros y' acc'' _. apply Hstep.
    + intros TIX acc' _. unfold c_lorenzo_3d1l_write.
      apply (loop_writes_only obs). intros y' acc'' _. apply Hstep.
  - intros TIZ acc _. apply (loop_writes_only obs). intros TIX acc' _.
    unfold c_lorenzo_3d1l_write.
    apply (loop_writes_only obs). intros y' acc'' _. apply Hstep.
Qed.

Lemma c_lorenzo_3d1l_write_frame (shmem : shmem3) (g : Global) (p : ptr)
    (id : nat) :
  p <> outlier \/ (forall x y z, in_block x y z -> id <> lin x y z) ->
  (let g' := for_threads_3d
               (c_lorenzo_3d1l_write bits shmem outlier dimx dimy dimz stridey
                  stridez radius BIX BIY BIZ) g in
   g_data g' p id = g_data g p id /\
   (p <> outlier \/ g_quant g' id = g_quant g id)).
Proof.
  intros Hout. cbv zeta.
  set (obs := fun g : Global =>
                (g_data g p id, if Nat.eqb p outlier then g_quant g id else 0%Z)).
  assert (H : obs (for_threads_3d
                     (c_lorenzo_3d1l_write bits shmem outlier dimx dimy dimz
                        stridey stridez radius BIX BIY BIZ) g) = obs g).
  { unfold for_threads_3d.
    apply (loop_preserves obs). intros TIZ acc HTIZ.
    apply (loop_preserves obs). intros TIX acc' HTIX.
    unfold c_lorenzo_3d1l_write.
    apply (loop_preserves obs). intros y acc'' Hy. cbv zeta.
    rewrite c_lorenzo_3d1l_write_id.
    destruct (Nat.ltb_spec (BIX * (8 * 4) + TIX) dimx) as [Gx|Gx];
      [|reflexivity].
    destruct (Nat.ltb_spec (BIY * 8 + y) dimy) as [Gy|Gy]; [|reflexivity].
    destruct (Nat.ltb_spec (BIZ * 8 + TIZ) dimz) as [Gz|Gz]; [|reflexivity].
    cbn [andb]. unfold obs. cbn [g_data g_quant].
    destruct (Nat.eqb_spec p outlier) as [E|E].
    - destruct Hout as [Hout|Hout]; [contradiction|].
      assert (Hne : id <> lin (BIX * 32 + TIX) (BIY * 8 + y) (BIZ * 8 + TIZ)).
      { apply Hout. unfold in_block3. lia. }
      rewrite dstore_neq, store_neq by auto. reflexivity.
    - rewrite dstore_neq by auto. reflexivity. }
  unfold obs in H. injection H as H1 H2. split; [exact H1|].
  destruct (Nat.eqb_spec p outlier); [right; exact H2|now left].
Qed.

(** One thread block. *)
Lemma c_lorenzo_3d1l_block_spec (g : Global) (s : mem Q) :
  (forall x y z, in_block x y z -> g_data g data (lin x y z) = s (lin x y z)) ->
  let g' := c_lorenzo_3d1l_block bits shmem3_0 data outlier dimx dimy dimz
              stridey stridez radius ebx2_r BIX BIY BIZ g in
  forall x y z, in_block x y z ->
    out_at outlier (lin x y z) g'
    = postquant bits radius
        (lorenzo_delta3d (prequant3 s stridey stridez ebx2_r) x y z).
Proof.
  intros Hs g' x y z Hin. subst g'. unfold c_lorenzo_3d1l_block. cbv zeta.
  rewrite c_lorenzo_3d1l_write_phase by assumption.
  destruct Hin as [(Bx & By & Bz) (Rx & Ry & Rz)].
  f_equal.
  rewrite (@c_lorenzo_3d1l_delta_spec _ (prequant3 s stridey stridez ebx2_r))
    by (try lia;
        intros a b c Ha Hb Hc Hx Hy Hz;
        rewrite c_lorenzo_3d1l_load_phase by assumption;
        unfold prequant3; fold (lin (BIX * 32 + c) (BIY * 8 + b) (BIZ * 8 + a));
        rewrite Hs by (unfold in_block3; lia); reflexivity).
  f_equal; lia.
Qed.

Lemma c_lorenzo_3d1l_block_frame (g : Global) (p : ptr) (id : nat) :
  p <> outlier \/ (forall x y z, in_block x y z -> id <> lin x y z) ->
  let g' := c_lorenzo_3d1l_block bits shmem3_0 data outlier dimx dimy dimz
              stridey stridez radius ebx2_r BIX BIY BIZ g in
  g_data g' p id = g_data g p id /\
  (p <> outlier \/ g_quant g' id = g_quant g id).
Proof.
  intros Hout. unfold c_lorenzo_3d1l_block. cbv zeta.
  now apply c_lorenzo_3d1l_write_frame.
Qed.

End Kernel3DFacts.

Lemma in_block3_disjoint (dimx dimy dimz i j k i' j' k' x y z x' y' z' : nat) :
  in_block3 dimx dimy dimz i j k x y z ->
  in_block3 dimx dimy dimz i' j' k' x' y' z' ->
  i <> i' \/ j <> j' \/ k <> k' ->
  lin3 dimx dimy x y z <> lin3 dimx dimy x' y' z'.
Proof.
  intros [(Bx & By & Bz) (Rx & Ry & Rz)] [(Bx' & By' & Bz') (Rx' & Ry' & Rz')]
    Hne E.
  destruct (@lin3_inj dimx dimy x y z x' y' z' Rx Rx' Ry Ry' E) as (Ex & Ey & Ez).
  lia.
Qed.

Section Kernel3DGrid.

Variable bits : Z.
Variable shmem3_0 : shmem3.
Variables dimx dimy dimz : nat.
Variables (data outlier : ptr) (radius : Z) (ebx2_r : Q).
Variables gridDim_x gridDim_y gridDim_z : nat.

(** The whole grid: every in-range point covered by the grid gets the
    post-quantization of its residual over the input as it was at kernel
    entry (the two buffers may be the same allocation). *)
Lemma c_lorenzo_3d1l_spec (g : Global) (x y z : nat) :
  x < dimx -> y < dimy -> z < dimz ->
  x < gridDim_x * 32 -> y < gridDim_y * 8 -> z < gridDim_z * 8 ->
  out_at outlier (lin3 dimx dimy x y z)
    (c_lorenzo_3d1l bits shmem3_0 gridDim_x gridDim_y gridDim_z data outlier
       dimx dimy dimz dimx (dimx * dimy) radius ebx2_r g)
  = postquant bits radius
      (lorenzo_delta3d (prequant3 (g_data g data) dimx (dimx * dimy) ebx2_r)
         x y z).
Proof.
  intros Rx Ry Rz Gx Gy Gz.
  set (bx := x / 32). set (by_ := y / 8). set (bz := z / 8).
  assert (Hin : in_block3 dimx dimy dimz bx by_ bz x y z).
  { unfold in_block3, bx, by_, bz.
    pose proof (Nat.div_mod_eq x 32). pose proof (Nat.mod_upper_bound x 32).
    pose proof (Nat.div_mod_eq y 8). pose proof (Nat.mod_upper_bound y 8).
    pose proof (Nat.div_mod_eq z 8). pose proof (Nat.mod_upper_bound z 8).
    lia. }
  set (Inv := fun acc : Global =>
    forall x' y' z', in_block3 dimx dimy dimz bx by_ bz x' y' z' ->
      g_data acc data (lin3 dimx dimy x' y' z')
      = g_data g data (lin3 dimx dimy x' y' z')).
  unfold c_lorenzo_3d1l.
  apply (@nest3_writes_at _ _ (out_at outlier (lin3 dimx dimy x y z)) Inv
           gridDim_x gridDim_y gridDim_z
           (fun i j k s =>
              c_lorenzo_3d1l_block bits shmem3_0 data outlier dimx dimy dimz
                dimx (dimx * dimy) radius ebx2_r i j k s)
           bx by_ bz).
  - destruct Hin as [(Bx & _) _]. lia.
  - destruct Hin as [(_ & By & _) _]. lia.
  - destruct Hin as [(_ & _ & Bz) _]. lia.
  - intros x' y' z' _. reflexivity.
  - intros i j k Hne acc. split.
    + intros Hacc x' y' z' Hin'.
      rewrite <- (Hacc x' y' z' Hin').
      apply (@c_lorenzo_3d1l_block_frame bits shmem3_0 dimx dimy dimz data
               outlier radius ebx2_r i j k acc data
               (lin3 dimx dimy x' y' z')).
      right. intros x'' y'' z'' Hin''.
      apply (in_block3_disjoint Hin' Hin''). intuition congruence.
    + unfold out_at.
      destruct (@c_lorenzo_3d1l_block_frame bits shmem3_0 dimx dimy dimz data
                  outlier radius ebx2_r i j k acc outlier
                  (lin3 dimx dimy x y z)) as [E1 [E2|E2]].
      * right. intros x'' y'' z'' Hin''.
        apply (in_block3_disjoint Hin Hin''). intuition congruence.
      * contradiction.
      * rewrite E1, E2. reflexivity.
  - intros acc Hacc.
    apply (@c_lorenzo_3d1l_block_spec bits shmem3_0 dimx dimy dimz data outlier
             radius ebx2_r bx by_ bz acc (g_data g data) Hacc x y z Hin).
Qed.

End Kernel3DGrid.

(* ================================================================== *)
(** ** The forward predictor, sample by sample *)

Section Lorenzo1DClaims.

Variable bits : Z.
Variables BLOCK SEQ : nat.
Hypothesis SEQ_pos : 0 < SEQ.
Hypothesis BLOCK_pos : 0 < BLOCK.
Hypothesis SEQ_divides : BLOCK mod SEQ = 0.
Variables (shmem_data0 : mem Q) (shmem_quant0 : mem Z).

Lemma c_lorenzo_1d1l_out (gridDim : nat) (data outlier : ptr) (dimx : nat)
    (radius : Z) (ebx2_r : Q) (g : Global) (id : nat) :
  id < gridDim * BLOCK -> id < dimx ->
  let delta := lorenzo_delta1d BLOCK (prequant (g_data g data) ebx2_r) id in
  let g' := c_lorenzo_1d1l bits BLOCK SEQ shmem_data0 shmem_quant0
              gridDim data outlier dimx radius ebx2_r g in
  g_data g' outlier id = postquant_outlier radius delta /\
  g_quant g' id = postquant_quant bits radius delta.
Proof.
  intros Hg Hd delta g'.
  destruct (c_lorenzo_1d1l_spec bits SEQ_pos BLOCK_pos SEQ_divides
              shmem_data0 shmem_quant0 gridDim data outlier dimx radius ebx2_r g)
    as [Hout _].
  specialize (Hout id Hg Hd). unfold out_at, postquant in Hout.
  injection Hout as H1 H2. split; assumption.
Qed.

End Lorenzo1DClaims.

(** *** Residuals are whole numbers *)

Lemma integral_c_round (x : Q) : integral (c_round x).
Proof. exists (round_half_away x). reflexivity. Qed.

Lemma integral_0 : integral 0.
Proof. exists 0%Z. reflexivity. Qed.

Lemma integral_plus (a b : Q) : integral a -> integral b -> integral (a + b).
Proof.
  intros [x Hx] [y Hy]. exists (x + y)%Z.
  rewrite Hx, Hy, inject_Z_plus. reflexivity.
Qed.

Lemma integral_minus (a b : Q) : integral a -> integral b -> integral (a - b).
Proof.
  intros [x Hx] [y Hy]. exists (x + - y)%Z.
  rewrite Hx, Hy, inject_Z_plus, inject_Z_opp. reflexivity.
Qed.

Lemma integral_Qeq (a b : Q) : (a == b)%Q -> integral a -> integral b.
Proof. intros E [x Hx]. exists x. rewrite <- E. exact Hx. Qed.

Lemma lorenzo_delta2d_integral (s : mem Q) (stridey : nat) (ebx2_r : Q)
    (x y : nat) :
  integral (lorenzo_delta2d (prequant2 s stridey ebx2_r) x y).
Proof.
  unfold lorenzo_delta2d, prequant2. cbv zeta beta.
  destruct (0 <? x mod 16), (0 <? y mod 16);
    repeat first [apply integral_minus | apply integral_c_round
                 | apply integral_0].
Qed.

Lemma lorenzo_delta3d_integral (s : mem Q) (stridey stridez : nat)
    (ebx2_r : Q) (x y z : nat) :
  integral (lorenzo_delta3d (prequant3 s stridey stridez ebx2_r) x y z).
Proof.
  unfold lorenzo_delta3d, prequant3. cbv zeta beta.
  destruct (0 <? x mod 8), (0 <? y mod 8), (0 <? z mod 8); cbn [andb];
    repeat first [apply integral_minus | apply integral_plus
                 | apply integral_c_round | apply integral_0].
Qed.


(** *** The two rules, for the scalar statements *)



Lemma postquant_zero_slot_rule (bits radius : Z) (delta : Q) :
  integral delta ->
  zero_slot_rule bits radius delta (postquant_quant bits radius delta)
    (postquant_outlier radius delta).
Proof.
  intros [d Hint]. split; [|split].
  - destruct (Qlt_le_dec (Qabs delta) (inject_Z radius)) as [H|H].
    + right. now destruct (postquant_quantizable_case bits Hint H).
    + left. apply Qle_not_lt in H.
      now destruct (@postquant_outlier_case bits radius delta H).
  - intros E.
    assert (H : ~ (Qabs delta < inject_Z radius)%Q).
    { intros H. apply Qabs_Qlt_condition in H. rewrite E in H.
      destruct H as [H _]. now apply Qlt_irrefl in H. }
    destruct (@postquant_outlier_case bits radius delta H) as [E1 E2].
    split; [assumption|]. rewrite E2, E. ring.
  - intros Hfit Hq Ho.
    destruct (Qlt_le_dec (Qabs delta) (inject_Z radius)) as [H|H].
    + destruct (postquant_quantizable_fit bits Hfit Hint H) as [E1 _].
      pose proof (quantizable_range Hint H). lia.
    + apply Qle_not_lt in H.
      destruct (@postquant_outlier_case bits radius delta H) as [_ E2].
      rewrite E2 in Ho. lra.
Qed.

(** The outputs of one sample, for each of the three kernels. *)
Lemma out_at_postquant (bits radius : Z) (outlier : ptr) (id : nat)
    (g' : Global) (delta : Q) :
  out_at outlier id g' = postquant bits radius delta ->
  g_quant g' id = postquant_quant bits radius delta /\
  g_data g' outlier id = postquant_outlier radius delta.
Proof.
  unfold out_at, postquant. intros H. injection H as H1 H2. auto.
Qed.


(** C3, as amended: after the 1D, 2D or 3D compress-time kernel at least
    one of [Q[i] == 0] and [O[i] == 0] holds for every sample; both hold
    when [delta = -radius], and, provided the alphabet fits the quant-code
    type, only then. *)
Theorem c_lorenzo_zero_slots (bits radius : Z) (data outlier : ptr)
    (ebx2_r : Q) (g : Global) :
  (forall BLOCK SEQ shmem_data0 shmem_quant0 gridDim dimx id,
     0 < SEQ -> 0 < BLOCK -> BLOCK mod SEQ = 0 ->
     id < gridDim * BLOCK -> id < dimx ->
     let s' := prequant (g_data g data) ebx2_r in
     let g' := c_lorenzo_1d1l bits BLOCK SEQ shmem_data0 shmem_quant0
                 gridDim data outlier dimx radius ebx2_r g in
     zero_slot_rule bits radius (lorenzo_delta1d BLOCK s' id)
       (g_quant g' id) (g_data g' outlier id)) /\
  (forall gridDim_x gridDim_y dimx dimy x y,
     x < dimx -> y < dimy -> x < gridDim_x * 16 -> y < gridDim_y * 16 ->
     let s' := prequant2 (g_data g data) dimx ebx2_r in
     let g' := c_lorenzo_2d1l bits gridDim_x gridDim_y data outlier
                 dimx dimy dimx radius ebx2_r g in
     let id := lin2 dimx x y in
     zero_slot_rule bits radius (lorenzo_delta2d s' x y)
       (g_quant g' id) (g_data g' outlier id)) /\
  (forall shmem3_0 gridDim_x gridDim_y gridDim_z dimx dimy dimz x y z,
     x < dimx -> y < dimy -> z < dimz ->
     x < gridDim_x * 32 -> y < gridDim_y * 8 -> z < gridDim_z * 8 ->
     let s' := prequant3 (g_data g data) dimx (dimx * dimy) ebx2_r in
     let g' := c_lorenzo_3d1l bits shmem3_0 gridDim_x gridDim_y gridDim_z
                 data outlier dimx dimy dimz dimx (dimx * dimy) radius
                 ebx2_r g in
     let id := lin3 dimx dimy x y z in
     zero_slot_rule bits radius (lorenzo_delta3d s' x y z)
       (g_quant g' id) (g_data g' outlier id)).
Proof.
  split; [|split].
  - intros BLOCK SEQ shmem_data0 shmem_quant0 gridDim dimx id
      HS HB Hdiv Hg Hd s' g'.
    destruct (@c_lorenzo_1d1l_out bits BLOCK SEQ HS HB Hdiv shmem_data0
                shmem_quant0 gridDim data outlier dimx radius ebx2_r g id
                Hg Hd) as [HO HQ].
    fold s' in HO, HQ. fold g' in HO, HQ. rewrite HO, HQ.
    apply postquant_zero_slot_rule. apply lorenzo_delta1d_integral.
  - intros gridDim_x gridDim_y dimx dimy x y Rx Ry Gx Gy s' g' id.
    destruct (out_at_postquant
                (@c_lorenzo_2d1l_spec bits dimx dimy data outlier radius
                   ebx2_r gridDim_x gridDim_y g x y Rx Ry Gx Gy))
      as [HQ HO].
    fold s' in HO, HQ. fold g' in HO, HQ. fold id in HO, HQ. rewrite HO, HQ.
    apply postquant_zero_slot_rule. apply lorenzo_delta2d_integral.
  - intros shmem3_0 gridDim_x gridDim_y gridDim_z dimx dimy dimz x y z
      Rx Ry Rz Gx Gy Gz s' g' id.
    destruct (out_at_postquant
                (@c_lorenzo_3d1l_spec bits shmem3_0 dimx dimy dimz data
                   outlier radius ebx2_r gridDim_x gridDim_y gridDim_z g
                   x y z Rx Ry Rz Gx Gy Gz))
      as [HQ HO].
    fold s' in HO, HQ. fold g' in HO, HQ. fold id in HO, HQ. rewrite HO, HQ.
    apply postquant_zero_slot_rule. apply lorenzo_delta3d_integral.
Qed.

(* ================================================================== *)
(** ** The inverse predictor and the round trip *)

Lemma prefix_sum_Qeq (f g : mem Q) (k : nat) :
  (forall j, j <= k -> (f j == g j)%Q) ->
  (prefix_sum f k == prefix_sum g k)%Q.
Proof.
  induction k as [|k IH]; intros H; cbn [prefix_sum].
  - apply H. lia.
  - rewrite IH by (intros; apply H; lia). rewrite (H (S k)) by lia.
    reflexivity.
Qed.

(** The running sum of the residuals of a tile gives the samples back. *)
Lemma tile_prefix_sum_delta (BLOCK : nat) (s' : mem Q) (id : nat) :
  0 < BLOCK ->
  (tile_prefix_sum BLOCK (lorenzo_delta1d BLOCK s') id == s' id)%Q.
Proof.
  intros HB. unfold tile_prefix_sum.
  pose proof (Nat.div_mod_eq id BLOCK) as E.
  pose proof (Nat.mod_upper_bound id BLOCK ltac:(lia)) as Hlt.
  set (base := id / BLOCK * BLOCK).
  assert (Hid : id = base + id mod BLOCK) by (unfold base; lia).
  rewrite Hid at 2.
  generalize (id mod BLOCK) Hlt. clear E Hid Hlt.
  intros k. induction k as [|k IH]; intros Hk; cbn [prefix_sum].
  - unfold lorenzo_delta1d.
    replace ((base + 0) mod BLOCK) with 0.
    2:{ apply Nat.mod_unique with (q := id / BLOCK); unfold base; lia. }
    cbn [Nat.eqb]. ring.
  - rewrite IH by lia. unfold lorenzo_delta1d.
    replace ((base + S k) mod BLOCK) with (S k).
    2:{ apply Nat.mod_unique with (q := id / BLOCK); unfold base; lia. }
    cbn [Nat.eqb].
    replace (base + S k - 1) with (base + k) by lia. ring.
Qed.

Lemma grid_covers (BLOCK dimx id : nat) :
  0 < BLOCK -> id < dimx -> id < (dimx + BLOCK - 1) / BLOCK * BLOCK.
Proof.
  intros HB Hid.
  pose proof (Nat.div_mod_eq (dimx + BLOCK - 1) BLOCK) as E.
  pose proof (Nat.mod_upper_bound (dimx + BLOCK - 1) BLOCK ltac:(lia)) as Hlt.
  lia.
Qed.

Lemma tile_base_le (BLOCK id j : nat) :
  0 < BLOCK -> j <= id mod BLOCK -> id / BLOCK * BLOCK + j <= id.
Proof.
  intros HB Hj. pose proof (Nat.div_mod_eq id BLOCK). lia.
Qed.

(* ================================================================== *)
(** ** The decompress-time 2D kernel *)

Lemma Qeq_of_eq (a b : Q) : a = b -> (a == b)%Q.
Proof. intros ->. reflexivity. Qed.

(** A loop whose round [i] only rewrites item [i]. *)
Lemma loop_pointwise (lo hi : nat) (body : nat -> mem Q -> mem Q)
    (h : nat -> Q -> Q) (t : mem Q) (i : nat) :
  (forall k ts, body k ts k = h k (ts k)) ->
  (forall k ts j, j <> k -> body k ts j = ts j) ->
  lo <= hi ->
  for_loop lo hi body t i
  = if (lo <=? i) && (i <? hi) then h i (t i) else t i.
Proof.
  intros Hat Hoff Hle.
  apply (@for_loop_ind _ (fun n ts =>
           forall j, ts j = if (lo <=? j) && (j <? n) then h j (t j) else t j));
    [exact Hle| |].
  - intros j. destruct (Nat.leb_spec lo j), (Nat.ltb_spec j lo);
      cbn [andb]; try reflexivity; lia.
  - intros k acc Hk IH j. destruct (Nat.eq_dec j k) as [->|Hne].
    + rewrite Hat, IH.
      destruct (Nat.leb_spec lo k), (Nat.ltb_spec k k), (Nat.ltb_spec k (S k));
        cbn [andb]; try reflexivity; lia.
    + rewrite Hoff, IH by assumption.
      destruct (Nat.leb_spec lo j), (Nat.ltb_spec j k), (Nat.ltb_spec j (S k));
        cbn [andb]; try reflexivity; lia.
Qed.

(** The sequential running sum of a thread's items. *)
Lemma running_sum_loop (n : nat) (t : mem Q) (i : nat) :
  1 <= n -> i < n ->
  (for_loop 1 n (fun i ts => store ts i (ts i + ts (i - 1)%nat)%Q) t i
   == prefix_sum t i)%Q.
Proof.
  intros Hn Hi.
  set (body := fun i ts => store ts i (ts i + ts (i - 1)%nat)%Q).
  assert (H : forall j, (j < n -> (for_loop 1 n body t j == prefix_sum t j)%Q)
                        /\ (n <= j -> for_loop 1 n body t j = t j)).
  { apply (@for_loop_ind _ (fun n ts =>
             forall j, (j < n -> (ts j == prefix_sum t j)%Q)
                       /\ (n <= j -> ts j = t j))); [exact Hn| |].
    - intros j. split; [|reflexivity]. intros Hj.
      replace j with 0 by lia. reflexivity.
    - intros k acc Hk IH j. unfold body. split; intros Hj.
      + destruct (Nat.eq_dec j k) as [->|Hne].
        * rewrite store_eq. rewrite (proj2 (IH k)) by lia.
          rewrite (proj1 (IH (k - 1))) by lia.
          destruct k as [|k']; [lia|].
          replace (S k' - 1) with k' by lia. cbn [prefix_sum]. ring.
        * rewrite store_neq by assumption. apply IH. lia.
      + rewrite store_neq by lia. apply IH. lia. }
  now apply H.
Qed.

(** Splitting a running sum. *)
Lemma prefix_sum_split (f : mem Q) (n m : nat) :
  (prefix_sum f (n + 1 + m)
   == prefix_sum f n + prefix_sum (fun k => f (n + 1 + k)%nat) m)%Q.
Proof.
  induction m as [|m IH].
  - replace (n + 1 + 0) with (S n) by lia. cbn [prefix_sum].
    replace (n + 1 + 0) with (S n) by lia. reflexivity.
  - replace (n + 1 + S m) with (S (n + 1 + m)) by lia. cbn [prefix_sum].
    rewrite IH. replace (n + 1 + S m) with (S (n + 1 + m)) by lia. ring.
Qed.

Lemma for_doubling_16 (S : Type) (body : nat -> S -> S) (s : S) :
  for_doubling 16 1 16 body s = body 8 (body 4 (body 2 (body 1 s))).
Proof. reflexivity. Qed.

Lemma x_lorenzo_2d1l_round_other (i d : nat) (ts : regfile) (lane j : nat) :
  j <> i -> x_lorenzo_2d1l_round i d ts lane j = ts lane j.
Proof.
  intros H. unfold x_lorenzo_2d1l_round. cbv zeta.
  destruct (d <=? lane_TIX lane); [now rewrite store_neq|reflexivity].
Qed.

(** One round of the in-warp sum doubles the window each lane has summed:
    before the round with distance [w], lane [t] of a 16-lane segment holds
    the sum of the [min t (w - 1) + 1] items ending at its own. *)
Lemma x_lorenzo_2d1l_round_window (i w : nat) (ts : regfile) (v0 : mem Q)
    (q : nat) :
  1 <= w ->
  (forall t, t < 16 ->
     (ts (t + 16 * q)%nat i
      == prefix_sum (fun k => v0 (16 * q + (t - Nat.min t (w - 1)) + k)%nat)
           (Nat.min t (w - 1)))%Q) ->
  forall t, t < 16 ->
    (x_lorenzo_2d1l_round i w ts (t + 16 * q)%nat i
     == prefix_sum (fun k => v0 (16 * q + (t - Nat.min t (2 * w - 1)) + k)%nat)
          (Nat.min t (2 * w - 1)))%Q.
Proof.
  intros Hw H t Ht. unfold x_lorenzo_2d1l_round. cbv zeta.
  rewrite lane_TIX_of by assumption.
  destruct (Nat.leb_spec w t) as [Hwt|Hwt].
  - rewrite store_eq. unfold shfl_up_sync.
    replace ((t + 16 * q) mod 16) with t
      by (apply Nat.mod_unique with (q := q); lia).
    destruct (Nat.ltb_spec t w); [lia|].
    replace (t + 16 * q - w) with (t - w + 16 * q) by lia.
    rewrite (H t Ht), (H (t - w)) by lia.
    set (m' := Nat.min (t - w) (w - 1)).
    replace (Nat.min t (w - 1)) with (w - 1) by lia.
    replace (Nat.min t (2 * w - 1)) with (m' + 1 + (w - 1)) by (unfold m'; lia).
    rewrite prefix_sum_split.
    rewrite Qplus_comm. apply Qplus_comp.
    + apply Qeq_of_eq. apply prefix_sum_ext. intros k Hk. f_equal. lia.
    + apply Qeq_of_eq. apply prefix_sum_ext. intros k Hk. f_equal. lia.
  - rewrite (H t Ht).
    replace (Nat.min t (w - 1)) with t by lia.
    replace (Nat.min t (2 * w - 1)) with t by lia. reflexivity.
Qed.

Lemma x_lorenzo_2d1l_scan_row (i : nat) (ts : regfile) (q t : nat) :
  t < 16 ->
  (for_doubling 16 1 16 (x_lorenzo_2d1l_round i) ts (t + 16 * q)%nat i
   == prefix_sum (fun k => ts (16 * q + k)%nat i) t)%Q.
Proof.
  intros Ht. rewrite for_doubling_16.
  set (v0 := fun l => ts l i).
  assert (H1 : forall t, t < 16 ->
            (ts (t + 16 * q)%nat i
             == prefix_sum
                  (fun k => v0 (16 * q + (t - Nat.min t (1 - 1)) + k)%nat)
                  (Nat.min t (1 - 1)))%Q).
  { intros t' _. replace (Nat.min t' (1 - 1)) with 0 by lia.
    cbn [prefix_sum]. unfold v0. apply Qeq_of_eq. f_equal. lia. }
  pose proof (@x_lorenzo_2d1l_round_window i 1 _ v0 q ltac:(lia) H1) as H2.
  pose proof (@x_lorenzo_2d1l_round_window i 2 _ v0 q ltac:(lia) H2) as H4.
  pose proof (@x_lorenzo_2d1l_round_window i 4 _ v0 q ltac:(lia) H4) as H8.
  pose proof (@x_lorenzo_2d1l_round_window i 8 _ v0 q ltac:(lia) H8) as H16.
  rewrite (H16 t Ht).
  replace (Nat.min t (2 * 8 - 1)) with t by lia.
  apply Qeq_of_eq. apply prefix_sum_ext. intros k _. unfold v0. f_equal. lia.
Qed.

Lemma x_lorenzo_2d1l_scan_row_other (i : nat) (ts : regfile) (lane j : nat) :
  j <> i ->
  for_doubling 16 1 16 (x_lorenzo_2d1l_round i) ts lane j = ts lane j.
Proof.
  intros H. rewrite for_doubling_16.
  now rewrite !x_lorenzo_2d1l_round_other by assumption.
Qed.

(** The in-warp sums of all rows, with the scaling. *)
Lemma x_lorenzo_2d1l_sum_x_spec (ebx2 : Q) (ts : regfile) (i q t : nat) :
  i < 8 -> t < 16 ->
  (x_lorenzo_2d1l_sum_x 16 8 ebx2 ts (t + 16 * q)%nat i
   == prefix_sum (fun k => ts (16 * q + k)%nat i) t * ebx2)%Q.
Proof.
  intros Hi Ht. unfold x_lorenzo_2d1l_sum_x.
  set (P := fun n (acc : regfile) =>
    forall j,
      (j < n -> forall q t, t < 16 ->
         (acc (t + 16 * q)%nat j
          == prefix_sum (fun k => ts (16 * q + k)%nat j) t * ebx2)%Q) /\
      (n <= j -> forall lane, acc lane j = ts lane j)).
  match goal with
  | |- (for_loop 0 8 ?body ts _ _ == _)%Q =>
      assert (H : P 8 (for_loop 0 8 body ts))
  end.
  { apply (@for_loop_ind _ P); [lia| |].
    - intros j. split; [lia|reflexivity].
    - intros k acc Hk IH j. cbv zeta. split.
      + intros Hj q' t' Ht'. destruct (Nat.eq_dec j k) as [->|Hne].
        * rewrite store_eq. rewrite x_lorenzo_2d1l_scan_row by assumption.
          apply Qmult_comp; [|reflexivity].
          apply Qeq_of_eq. apply prefix_sum_ext. intros m _.
          apply (proj2 (IH k)). lia.
        * rewrite store_neq by assumption.
          rewrite x_lorenzo_2d1l_scan_row_other by assumption.
          apply (proj1 (IH j)); [lia|assumption].
      + intros Hj lane. rewrite store_neq by lia.
        rewrite x_lorenzo_2d1l_scan_row_other by lia.
        apply (proj2 (IH j)). lia. }
  apply (proj1 (H i)); assumption.
Qed.

Lemma fuse_loop (guard : nat -> bool) (a : nat -> Q) (t0 : mem Q) (i : nat) :
  i < 8 ->
  for_loop 0 8 (fun i ts => if guard i then store ts i (a i)
                            else store ts i 0%Q) t0 i
  = if guard i then a i else 0%Q.
Proof.
  intros Hi.
  rewrite (@loop_pointwise 0 8 _ (fun k _ => if guard k then a k else 0%Q));
    [|intros k ts; destruct (guard k); apply store_eq
     |intros k ts j Hj; destruct (guard k); now apply store_neq
     |lia].
  destruct (Nat.leb_spec 0 i); [|lia]. destruct (Nat.ltb_spec i 8); [|lia].
  reflexivity.
Qed.

Lemma update_loop (tmp : Q) (t0 : mem Q) (i : nat) :
  i < 8 ->
  for_loop 0 8 (fun i ts => store ts i (ts i + tmp)%Q) t0 i = (t0 i + tmp)%Q.
Proof.
  intros Hi.
  rewrite (@loop_pointwise 0 8 _ (fun _ v => (v + tmp)%Q));
    [|intros k ts; apply store_eq
     |intros k ts j Hj; now apply store_neq
     |lia].
  destruct (Nat.leb_spec 0 i); [|lia]. destruct (Nat.ltb_spec i 8); [|lia].
  reflexivity.
Qed.

Lemma intermediate_loop (v : nat -> Q) (sh0 : mem Q) (t : nat) :
  t < 16 ->
  for_loop 0 32 (fun lane sh =>
    if lane_TIY lane =? 0 then store sh (lane_TIX lane) (v lane) else sh) sh0 t
  = v t.
Proof.
  intros Ht.
  apply (loop_writes (fun sh : mem Q => sh t)) with (i0 := t); [lia| |].
  - intros acc. unfold lane_TIY, lane_TIX.
    rewrite Nat.div_small, Nat.mod_small by lia. cbn [Nat.eqb].
    apply store_eq.
  - intros lane acc Hl. unfold lane_TIY, lane_TIX.
    destruct (Nat.eqb_spec (lane / 16) 0) as [E|E]; [|now right].
    destruct (Nat.eq_dec t (lane mod 16)) as [E'|E'].
    + left. pose proof (Nat.div_mod_eq lane 16).
      replace lane with t at 2 by lia. rewrite E'. apply store_eq.
    + right. now apply store_neq.
Qed.

(** The column sums: after the update across the two halves, row [i] of
    thread ([k], [q]) holds the running sum of its column of the tile. *)
Lemma x_lorenzo_2d1l_column (intermediate0 : mem Q) (fused : regfile)
    (Fc : mem Q) (k q i : nat) :
  k < 16 -> q < 2 -> i < 8 ->
  (forall q' i', q' < 2 -> i' < 8 -> 8 * q' + i' <= 8 * q + i ->
     fused (k + 16 * q') i' = Fc (8 * q' + i')) ->
  (x_lorenzo_2d1l_two_pass intermediate0 8 (x_lorenzo_2d1l_sum_y 8 fused)
     (k + 16 * q)%nat i
   == prefix_sum Fc (8 * q + i))%Q.
Proof.
  intros Hk Hq Hi Hf.
  assert (Hsum : forall q' i', q' < 2 -> i' < 8 -> 8 * q' + i' <= 8 * q + i ->
            (x_lorenzo_2d1l_sum_y 8 fused (k + 16 * q')%nat i'
             == prefix_sum (fun m => Fc (8 * q' + m)%nat) i')%Q).
  { intros q' i' Hq' Hi' Hle. unfold x_lorenzo_2d1l_sum_y.
    rewrite running_sum_loop by lia.
    apply Qeq_of_eq. apply prefix_sum_ext. intros m Hm. apply Hf; lia. }
  unfold x_lorenzo_2d1l_two_pass. cbv zeta.
  rewrite lane_TIY_of, lane_TIX_of by assumption.
  destruct (Nat.eq_dec q 0) as [->|Hq0].
  - cbn [Nat.eqb]. rewrite (Hsum 0 i) by lia.
    apply Qeq_of_eq. apply prefix_sum_ext. intros m _. f_equal.
  - assert (q = 1) by lia. subst q. cbn [Nat.eqb].
    rewrite update_loop by assumption.
    rewrite intermediate_loop by assumption.
    change (8 - 1) with 7.
    rewrite (Hsum 1 i) by lia.
    replace (x_lorenzo_2d1l_sum_y 8 fused k 7)
      with (x_lorenzo_2d1l_sum_y 8 fused (k + 16 * 0) 7) by (f_equal; lia).
    rewrite (Hsum 0 7) by lia.
    replace (8 * 1 + i) with (7 + 1 + i) by lia.
    rewrite prefix_sum_split. rewrite Qplus_comm. apply Qplus_comp.
    + apply Qeq_of_eq. apply prefix_sum_ext. intros m _. f_equal.
    + apply Qeq_of_eq. apply prefix_sum_ext. intros m _. f_equal.
Qed.

Section KernelX2DFacts.

Variables (intermediate0 : mem Q) (thread_scope0 : regfile).
Variables dimx dimy : nat.
Local Abbreviation stridey := dimx.
Variables (outlier xdata : ptr) (radius : Z) (ebx2 : Q).
Variables BIX BIY : nat.

Local Abbreviation gix lane := (BIX * 16 + lane_TIX lane).
Local Abbreviation giy_base lane := (BIY * 16 + lane_TIY lane * 8).
Local Abbreviation in_block := (in_block2 dimx dimy BIX BIY).
Local Abbreviation lin := (lin2 dimx).

Lemma x_lorenzo_2d1l_write_phase (scanned : regfile) (gd : dmem) (x y : nat) :
  in_block x y ->
  x_lorenzo_2d1l_write 8 xdata dimx dimy stridey (fun lane => gix lane)
    (fun lane => giy_base lane) scanned gd xdata (lin x y)
  = scanned (x - BIX * 16 + 16 * ((y - BIY * 16) / 8)) ((y - BIY * 16) mod 8).
Proof.
  intros [(Bx & By) (Rx & Ry)]. unfold x_lorenzo_2d1l_write. cbv beta zeta.
  set (lane0 := x - BIX * 16 + 16 * ((y - BIY * 16) / 8)).
  set (i0 := (y - BIY * 16) mod 8).
  set (obs := fun gd : dmem => gd xdata (lin x y)).
  assert (Hq : (y - BIY * 16) / 8 < 2) by (apply Nat.Div0.div_lt_upper_bound; lia).
  pose proof (Nat.div_mod_eq (y - BIY * 16) 8) as Hdm.
  pose proof (Nat.mod_upper_bound (y - BIY * 16) 8 ltac:(lia)) as Hmb.
  assert (EX : lane_TIX lane0 = x - BIX * 16) by (apply lane_TIX_of; lia).
  assert (EY : lane_TIY lane0 = (y - BIY * 16) / 8) by (apply lane_TIY_of; lia).
  assert (Hstep : forall lane i (acc : dmem),
    i < 8 ->
    let acc' :=
      if (gix lane <? dimx) && (giy_base lane + i <? dimy)
      then dstore acc xdata ((giy_base lane + i) * stridey + gix lane)
             (scanned lane i)
      else acc in
    obs acc' = scanned lane0 i0 \/ obs acc' = obs acc).
  { intros lane i acc Hi. cbv zeta.
    destruct (Nat.ltb_spec (gix lane) dimx) as [Gx|Gx]; [|now right].
    destruct (Nat.ltb_spec (giy_base lane + i) dimy) as [Gy|Gy]; [|now right].
    cbn [andb]. unfold obs.
    destruct (Nat.eq_dec (lin x y) ((giy_base lane + i) * stridey + gix lane))
      as [E|Hne].
    - left. rewrite E, dstore_eq.
      destruct (@lin2_inj dimx x y (gix lane) (giy_base lane + i) Rx Gx E)
        as (Ex & Ey).
      unfold lane_TIX, lane_TIY in Ex, Ey.
      pose proof (Nat.div_mod_eq lane 16).
      pose proof (Nat.mod_upper_bound lane 16 ltac:(lia)).
      assert (El : lane = lane0) by (unfold lane0; lia).
      assert (Ei : i = i0) by (unfold i0; lia).
      subst lane i. reflexivity.
    - right. rewrite dstore_neq by auto. reflexivity. }
  apply (loop_writes obs) with (i0 := lane0); [unfold lane0; lia| |].
  - intros acc.
    apply (loop_writes obs) with (i0 := i0); [unfold i0; lia| |].
    + intros acc'. rewrite EX, EY.
      destruct (Nat.ltb_spec (BIX * 16 + (x - BIX * 16)) dimx); [|lia].
      destruct (Nat.ltb_spec (BIY * 16 + (y - BIY * 16) / 8 * 8 + i0) dimy);
        [|unfold i0 in *; lia].
      cbn [andb]. unfold obs.
      replace ((BIY * 16 + (y - BIY * 16) / 8 * 8 + i0) * stridey
               + (BIX * 16 + (x - BIX * 16))) with (lin x y)
        by (unfold lin2, i0; f_equal; [f_equal|]; lia).
      rewrite dstore_eq. reflexivity.
    + intros i acc' Hi. apply Hstep. lia.
  - intros lane acc _.
    apply (loop_writes_only obs). intros i acc' Hi. apply Hstep. lia.
Qed.

Lemma x_lorenzo_2d1l_write_frame (scanned : regfile) (gd : dmem) (p : ptr)
    (id : nat) :
  p <> xdata \/ (forall x y, in_block x y -> id <> lin x y) ->
  x_lorenzo_2d1l_write 8 xdata dimx dimy stridey (fun lane => gix lane)
    (fun lane => giy_base lane) scanned gd p id
  = gd p id.
Proof.
  intros Hout. unfold x_lorenzo_2d1l_write. cbv beta zeta.
  apply (loop_preserves (fun gd : dmem => gd p id)). intros lane acc Hlane.
  apply (loop_preserves (fun gd : dmem => gd p id)). intros i acc' Hi.
  destruct (Nat.ltb_spec (gix lane) dimx) as [Gx|Gx]; [|reflexivity].
  destruct (Nat.ltb_spec (giy_base lane + i) dimy) as [Gy|Gy]; [|reflexivity].
  cbn [andb]. apply dstore_neq.
  destruct Hout as [Hout|Hout]; [now left|right].
  apply (Hout (gix lane) (giy_base lane + i)).
  unfold in_block2, lane_TIX, lane_TIY in *.
  pose proof (Nat.div_mod_eq lane 16).
  pose proof (Nat.mod_upper_bound lane 16 ltac:(lia)). lia.
Qed.

(** One thread block. *)
Lemma x_lorenzo_2d1l_block_spec (g : Global) (O : mem Q) (Qc : mem Z)
    (x y : nat) :
  (forall x' y', in_block x' y' ->
     g_data g outlier (lin x' y') = O (lin x' y') /\
     g_quant g (lin x' y') = Qc (lin x' y')) ->
  in_block x y ->
  (g_data (x_lorenzo_2d1l_block intermediate0 thread_scope0 outlier xdata
             dimx dimy stridey radius ebx2 BIX BIY g) xdata (lin x y)
   == tile_prefix_sum2 (fun x' y' => fuse O Qc radius (lin x' y')) x y
      * ebx2)%Q.
Proof.
  intros Hs Hin. unfold x_lorenzo_2d1l_block. cbv zeta.
  change (16 / 2) with 8. cbn [g_data].
  rewrite x_lorenzo_2d1l_write_phase by assumption.
  destruct Hin as [(Bx & By) (Rx & Ry)].
  assert (Hq : (y - BIY * 16) / 8 < 2) by (apply Nat.Div0.div_lt_upper_bound; lia).
  pose proof (Nat.div_mod_eq (y - BIY * 16) 8) as Hdm.
  pose proof (Nat.mod_upper_bound (y - BIY * 16) 8 ltac:(lia)) as Hmb.
  set (q := (y - BIY * 16) / 8) in *. set (i := (y - BIY * 16) mod 8) in *.
  rewrite x_lorenzo_2d1l_sum_x_spec by lia.
  apply Qmult_comp; [|reflexivity].
  unfold tile_prefix_sum2.
  assert (Ex : x / 16 = BIX)
    by (symmetry; apply Nat.div_unique with (r := x - BIX * 16); lia).
  assert (Ey : y / 16 = BIY)
    by (symmetry; apply Nat.div_unique with (r := y - BIY * 16); lia).
  assert (Emx : x mod 16 = x - BIX * 16)
    by (symmetry; apply Nat.mod_unique with (q := BIX); lia).
  assert (Emy : y mod 16 = 8 * q + i)
    by (symmetry; apply Nat.mod_unique with (q := BIY); lia).
  rewrite Ex, Ey, Emx, Emy.
  apply prefix_sum_Qeq. intros k Hk.
  replace (16 * q + k) with (k + 16 * q) by lia.
  apply x_lorenzo_2d1l_column; [lia|lia|lia|].
  intros q' i' Hq' Hi' Hle.
  unfold x_lorenzo_2d1l_fuse. cbv beta zeta.
  rewrite fuse_loop by assumption.
  rewrite lane_TIX_of, lane_TIY_of by lia.
  destruct (Nat.ltb_spec (BIX * 16 + k) dimx); [|lia].
  destruct (Nat.ltb_spec (BIY * 16 + q' * 8 + i') dimy); [|lia].
  cbn [andb]. unfold fuse.
  replace ((BIY * 16 + q' * 8 + i') * stridey + (BIX * 16 + k))
    with (lin (BIX * 16 + k) (BIY * 16 + (8 * q' + i')))
    by (unfold lin2; f_equal; f_equal; lia).
  destruct (Hs (BIX * 16 + k) (BIY * 16 + (8 * q' + i'))) as [E1 E2];
    [unfold in_block2; lia|].
  rewrite E1, E2. reflexivity.
Qed.

Lemma x_lorenzo_2d1l_block_frame (g : Global) (p : ptr) (id : nat) :
  let g' := x_lorenzo_2d1l_block intermediate0 thread_scope0 outlier xdata
              dimx dimy stridey radius ebx2 BIX BIY g in
  g_quant g' = g_quant g /\
  (p <> xdata \/ (forall x y, in_block x y -> id <> lin x y) ->
   g_data g' p id = g_data g p id).
Proof.
  unfold x_lorenzo_2d1l_block. cbv zeta. change (16 / 2) with 8.
  cbn [g_data g_quant]. split; [reflexivity|].
  apply x_lorenzo_2d1l_write_frame.
Qed.

End KernelX2DFacts.

Section KernelX2DGrid.

Variables (intermediate0 : mem Q) (thread_scope0 : regfile).
Variables dimx dimy : nat.
Variables (outlier xdata : ptr) (radius : Z) (ebx2 : Q).
Variables gridDim_x gridDim_y : nat.

(** The whole grid: every in-range point covered by the grid gets the
    running sum, along both axes of its tile, of the residuals restored
    from the input as it was at kernel entry, times [ebx2]. *)
Lemma x_lorenzo_2d1l_spec (g : Global) (x y : nat) :
  x < dimx -> y < dimy -> x < gridDim_x * 16 -> y < gridDim_y * 16 ->
  (g_data (x_lorenzo_2d1l intermediate0 thread_scope0 gridDim_x gridDim_y
             outlier xdata dimx dimy dimx radius ebx2 g) xdata (lin2 dimx x y)
   == tile_prefix_sum2
        (fun x' y' => fuse (g_data g outlier) (g_quant g) radius
                        (lin2 dimx x' y')) x y
      * ebx2)%Q.
Proof.
  intros Rx Ry Gx Gy.
  set (bx := x / 16). set (by_ := y / 16).
  assert (Hin : in_block2 dimx dimy bx by_ x y).
  { unfold in_block2, bx, by_.
    pose proof (Nat.div_mod_eq x 16). pose proof (Nat.mod_upper_bound x 16).
    pose proof (Nat.div_mod_eq y 16). pose proof (Nat.mod_upper_bound y 16).
    lia. }
  set (Inv := fun acc : Global =>
    forall x' y', in_block2 dimx dimy bx by_ x' y' ->
      g_data acc outlier (lin2 dimx x' y') = g_data g outlier (lin2 dimx x' y')
      /\ g_quant acc (lin2 dimx x' y') = g_quant g (lin2 dimx x' y')).
  unfold x_lorenzo_2d1l.
  apply (@nest2_sets_at _ _ (fun acc : Global => g_data acc xdata (lin2 dimx x y))
           Inv gridDim_x gridDim_y
           (fun i j s =>
              x_lorenzo_2d1l_block intermediate0 thread_scope0 outlier xdata
                dimx dimy dimx radius ebx2 i j s)
           bx by_
           (fun v => (v == tile_prefix_sum2
                            (fun x' y' => fuse (g_data g outlier) (g_quant g)
                                            radius (lin2 dimx x' y')) x y
                          * ebx2)%Q)).
  - destruct Hin as [(Bx & _) _]. lia.
  - destruct Hin as [(_ & By) _]. lia.
  - intros x' y' _. split; reflexivity.
  - intros i j Hne acc. split.
    + intros Hacc x' y' Hin'.
      destruct (@x_lorenzo_2d1l_block_frame intermediate0 thread_scope0 dimx
                  dimy outlier xdata radius ebx2 i j acc outlier
                  (lin2 dimx x' y')) as [Eq Hd].
      cbv zeta in Eq, Hd. rewrite Eq, Hd; [apply Hacc; assumption|].
      right. intros x'' y'' Hin''.
      apply (in_block2_disjoint Hin' Hin''). intuition congruence.
    + destruct (@x_lorenzo_2d1l_block_frame intermediate0 thread_scope0 dimx
                  dimy outlier xdata radius ebx2 i j acc xdata
                  (lin2 dimx x y)) as [_ Hd].
      apply Hd. right. intros x'' y'' Hin''.
      apply (in_block2_disjoint Hin Hin''). intuition congruence.
  - intros acc Hacc.
    apply (@x_lorenzo_2d1l_block_spec intermediate0 thread_scope0 dimx dimy
             outlier xdata radius ebx2 bx by_ acc (g_data g outlier)
             (g_quant g) x y Hacc Hin).
Qed.

End KernelX2DGrid.

Section InverseClaims.

Variables BLOCK SEQ : nat.
Hypothesis SEQ_pos : 0 < SEQ.
Hypothesis BLOCK_pos : 0 < BLOCK.
Hypothesis SEQ_divides : BLOCK mod SEQ = 0.

Lemma x_lorenzo_1d1l_out (gridDim : nat) (outlier xdata : ptr)
    (dimx : nat) (radius : Z) (ebx2 : Q) (g : Global) (id : nat) :
  id < gridDim * BLOCK -> id < dimx ->
  g_data (x_lorenzo_1d1l BLOCK SEQ gridDim outlier xdata dimx radius ebx2 g)
    xdata id
  = (tile_prefix_sum BLOCK (fuse (g_data g outlier) (g_quant g) radius) id
     * ebx2)%Q.
Proof.
  intros Hg Hd.
  destruct (x_lorenzo_1d1l_spec SEQ_pos BLOCK_pos SEQ_divides
              gridDim outlier xdata dimx radius ebx2 g) as (_ & Hx & _).
  rewrite Hx by assumption. f_equal.
  unfold tile_prefix_sum. apply prefix_sum_ext. intros j Hj.
  unfold fuse_guarded.
  pose proof (@tile_base_le BLOCK id j BLOCK_pos Hj).
  destruct (Nat.ltb_spec (id / BLOCK * BLOCK + j) dimx); [reflexivity|lia].
Qed.

End InverseClaims.

(** C4, as amended: for all arrays [Q] and [O] the 1D and 2D inverse
    kernels restore [delta = O[i] + Q[i] - radius] for every sample (not
    a choice between [O[i]] and [Q[i] - radius]), recover [s'] as the
    inclusive running sum of [delta] along each axis inside the tile of
    the sample, and write [s' * ebx2]. *)
Theorem x_lorenzo_restores (radius : Z) (outlier xdata : ptr) (ebx2 : Q)
    (g : Global) :
  let delta := fuse (g_data g outlier) (g_quant g) radius in
  (forall BLOCK SEQ gridDim dimx id,
     0 < SEQ -> 0 < BLOCK -> BLOCK mod SEQ = 0 ->
     id < gridDim * BLOCK -> id < dimx ->
     let g' := x_lorenzo_1d1l BLOCK SEQ gridDim outlier xdata dimx radius
                 ebx2 g in
     g_data g' xdata id = (tile_prefix_sum BLOCK delta id * ebx2)%Q) /\
  (forall intermediate0 thread_scope0 gridDim_x gridDim_y dimx dimy x y,
     x < dimx -> y < dimy -> x < gridDim_x * 16 -> y < gridDim_y * 16 ->
     let g' := x_lorenzo_2d1l intermediate0 thread_scope0 gridDim_x
                 gridDim_y outlier xdata dimx dimy dimx radius ebx2 g in
     (g_data g' xdata (lin2 dimx x y)
      == tile_prefix_sum2 (fun x' y' => delta (lin2 dimx x' y')) x y
         * ebx2)%Q).
Proof.
  intros delta. split.
  - intros BLOCK SEQ gridDim dimx id HS HB Hdiv Hg Hd g'.
    apply (@x_lorenzo_1d1l_out BLOCK SEQ HS HB Hdiv gridDim outlier xdata
             dimx radius ebx2 g id Hg Hd).
  - intros intermediate0 thread_scope0 gridDim_x gridDim_y dimx dimy x y
      Rx Ry Gx Gy g'.
    apply (@x_lorenzo_2d1l_spec intermediate0 thread_scope0 dimx dimy
             outlier xdata radius ebx2 gridDim_x gridDim_y g x y Rx Ry
             Gx Gy).
Qed.


Section RoundTrip1D.

Variable bits : Z.
Variables BLOCK SEQ_c SEQ_x : nat.
Hypothesis BLOCK_pos : 0 < BLOCK.
Hypothesis SEQ_c_pos : 0 < SEQ_c.
Hypothesis SEQ_c_divides : BLOCK mod SEQ_c = 0.
Hypothesis SEQ_x_pos : 0 < SEQ_x.
Hypothesis SEQ_x_divides : BLOCK mod SEQ_x = 0.
Variables (shmem_data0 : mem Q) (shmem_quant0 : mem Z).


End RoundTrip1D.

(* ================================================================== *)
(** ** The orchestrator *)

Section OrchestratorClaims.

Variable Blob : Type.
Variable predictor : Predictor.
Variable spreducer : SpReducer Blob.
Variable codec : Codec Blob.
Variable fb_codec : Codec Blob.
Variables (data_size_x data_size_y data_size_z : Z).
Variable sizeof_T : Z.

Local Abbreviation compress' :=
  (compress predictor spreducer codec fb_codec
     data_size_x data_size_y data_size_z sizeof_T).
Local Abbreviation decompress' :=
  (decompress predictor spreducer codec fb_codec).

Lemma encode_with_fallback_codec_eq (c : Compressor) (tr : list event)
    (q : mem Z) (len radius sublen pardeg : Z) :
  encode_with_fallback_codec fb_codec c tr q len radius sublen pardeg
  = let r := encode fb_codec q len (radius * 2) sublen pardeg in
    (mkCompressor true true (header c) (reserved_nbyte c),
     (tr ++ (if fallback_codec_allocated c then []
             else [EvAllocFallback len (radius * 2) pardeg]))
     ++ [EvEncode 8 q len (radius * 2) sublen pardeg
           (match r with Ok _ => true | Throw _ => false end)],
     r).
Proof.
  unfold encode_with_fallback_codec.
  cbn [fallback_codec_allocated use_fallback_codec header reserved_nbyte].
  destruct (fallback_codec_allocated c); cbn [negb];
    [rewrite app_nil_r|]; reflexivity.
Qed.



(** Both [decompress] and a [compress] call that returns leave
    [use_fallback_codec] clear, as the constructor does. *)
Lemma new_Compressor_clear : use_fallback_codec new_Compressor = false.
Proof. reflexivity. Qed.

Lemma decompress_clear (c : Compressor) (g : Global)
    (in_compressed : Archive Blob) (header_arg : option cuszHEADER)
    (out_decompressed : ptr) :
  use_fallback_codec
    (o_self (decompress' c g in_compressed header_arg out_decompressed))
  = false.
Proof.
  unfold decompress.
  cbn [use_fallback_codec fallback_codec_allocated header reserved_nbyte].
  destruct (negb _); [reflexivity|].
  destruct (negb _); reflexivity.
Qed.

(** The result of the encode step does not depend on the object. *)
Lemma codec_do_result (c : Compressor) (tr : list event) (force : bool)
    (q : mem Z) (len radius sublen pardeg : Z) :
  snd (codec_do_with_exception codec fb_codec c tr force q len radius sublen
         pardeg)
  = encoded codec fb_codec force q len radius sublen pardeg.
Proof.
  unfold encoded, codec_do_with_exception.
  destruct force; cbn [negb].
  - rewrite !encode_with_fallback_codec_eq. reflexivity.
  - destruct (encode codec q len (radius * 2) sublen pardeg) as [out|[|]];
      try reflexivity.
    rewrite !encode_with_fallback_codec_eq. reflexivity.
Qed.

Lemma codec_do_reserved (c : Compressor) (tr : list event) (force : bool)
    (q : mem Z) (len radius sublen pardeg : Z) :
  let r := codec_do_with_exception codec fb_codec c tr force q len radius
             sublen pardeg in
  reserved_nbyte (fst (fst r)) = reserved_nbyte c /\
  header (fst (fst r)) = header c /\
  exists tr', snd (fst r) = tr ++ tr' /\
              forallb is_codec_event tr' = true.
Proof.
  unfold codec_do_with_exception.
  destruct force; cbn [negb].
  - rewrite encode_with_fallback_codec_eq. cbn. repeat split.
    rewrite <- app_assoc. eexists. split; [reflexivity|].
    destruct (fallback_codec_allocated c); reflexivity.
  - destruct (encode codec q len (radius * 2) sublen pardeg) as [out|[|]].
    + cbn. repeat split. eexists. split; reflexivity.
    + rewrite encode_with_fallback_codec_eq. cbn. repeat split.
      rewrite <- !app_assoc. eexists. split; [reflexivity|].
      destruct (fallback_codec_allocated c); reflexivity.
    + cbn. repeat split. eexists. split; reflexivity.
Qed.

Lemma subfile_entry_values (nbyte e : mem Z) :
  let t := subfile_entry nbyte e in
  t 0 = 0%Z /\
  t 1 = uint32 (nbyte 0 + 0) /\
  t 2 = uint32 (nbyte 1 + t 1) /\
  t 3 = uint32 (nbyte 2 + t 2) /\
  t 4 = uint32 (nbyte 3 + t 3).
Proof.
  cbv [subfile_entry for_loop HEADER_END].
  cbn [Nat.add Nat.sub seq fold_left]. unfold store. cbn [Nat.eqb Nat.sub].
  repeat split; reflexivity.
Qed.

Lemma uint32_small (z : Z) : (0 <= z < 2 ^ 32)%Z -> uint32 z = z.
Proof. intros H. unfold uint32. now apply Z.mod_small. Qed.

(** The entry table when the sizes add up without wrapping. *)
Lemma subfile_entry_nowrap (codec_out_len spfmt_out_len : Z) (e : mem Z) :
  let a := (sizeof_T * get_anchor_len predictor)%Z in
  (0 <= a)%Z -> (0 <= codec_out_len)%Z -> (0 <= spfmt_out_len)%Z ->
  (128 + a + codec_out_len + spfmt_out_len < 2 ^ 32)%Z ->
  let nbyte := subfile_nbyte predictor sizeof_T codec_out_len spfmt_out_len in
  let t := subfile_entry nbyte e in
  (nbyte 0 = 128%Z /\ nbyte 1 = a /\ nbyte 2 = codec_out_len
   /\ nbyte 3 = spfmt_out_len) /\
  (t 0 = 0%Z /\ t 1 = 128%Z /\ t 2 = (128 + a)%Z
   /\ t 3 = (128 + a + codec_out_len)%Z
   /\ t 4 = (128 + a + codec_out_len + spfmt_out_len)%Z).
Proof.
  intros a Ha Hc Hs Hsum nbyte t.
  assert (Hn : nbyte 0 = 128%Z /\ nbyte 1 = a /\ nbyte 2 = codec_out_len
               /\ nbyte 3 = spfmt_out_len).
  { unfold nbyte.
    cbv [subfile_nbyte store HEADER_HEADER HEADER_ANCHOR HEADER_VLE HEADER_SPFMT].
    cbn [Nat.eqb]. fold a. rewrite !Z.mul_1_l.
    rewrite !uint32_small by lia. repeat split; reflexivity. }
  split; [exact Hn|].
  destruct Hn as (N0 & N1 & N2 & N3).
  destruct (subfile_entry_values nbyte e) as (T0 & T1 & T2 & T3 & T4).
  fold t in T0, T1, T2, T3, T4.
  rewrite N0 in T1. rewrite uint32_small in T1 by lia.
  rewrite N1, T1 in T2. rewrite uint32_small in T2 by lia.
  rewrite N2, T2 in T3. rewrite uint32_small in T3 by lia.
  rewrite N3, T3 in T4. rewrite uint32_small in T4 by lia.
  repeat split; try assumption; lia.
Qed.

(** A [compress] call whose gatherer and codec succeed. *)
Lemma compress_ok (c : Compressor) (g : Global) (uncompressed : ptr) (eb : Q)
    (radius pardeg codecs_in_use nz_density_factor : Z) (force : bool)
    (d_spfmt d_codec_out : Blob) (spfmt_out_len codec_out_len : Z) :
  let g1 := construct predictor uncompressed eb radius g in
  let N := get_data_len predictor in
  let m := get_square_size N in
  gather spreducer (g_data g1 uncompressed) (m * m)
  = Ok (d_spfmt, spfmt_out_len) ->
  encoded codec fb_codec force (g_quant g1) (get_quant_len predictor) radius
    (get_npart N pardeg) pardeg = Ok (d_codec_out, codec_out_len) ->
  let out := compress' c g uncompressed eb radius pardeg codecs_in_use
               nz_density_factor force in
  let h := header (o_self out) in
  let nbyte := subfile_nbyte predictor sizeof_T codec_out_len spfmt_out_len in
  h_entry h = subfile_entry nbyte (h_entry (header c)) /\
  reserved_nbyte (o_self out) = reserved_nbyte c /\
  o_ret out = Ok (mkArchive h d_codec_out d_spfmt, h_entry h HEADER_END) /\
  exists tr',
    forallb is_codec_event tr' = true /\
    o_trace out
    = [EvConstruct uncompressed N; EvGather uncompressed (m * m)] ++ tr'
      ++ [EvWriteReserved 0 sizeof_HEADER;
          EvWriteReserved (h_entry h HEADER_ANCHOR) (nbyte HEADER_ANCHOR);
          EvWriteReserved (h_entry h HEADER_VLE) (nbyte HEADER_VLE);
          EvWriteReserved (h_entry h HEADER_SPFMT) (nbyte HEADER_SPFMT)].
Proof.
  intros g1 N m Hg He out h nbyte. subst h out. unfold compress.
  fold g1 N m. rewrite Hg.
  pose proof (codec_do_result (set_codecs c codecs_in_use nz_density_factor)
                [EvConstruct uncompressed N; EvGather uncompressed (m * m)]
                force (g_quant g1) (get_quant_len predictor) radius
                (get_npart N pardeg) pardeg) as Hr.
  pose proof (codec_do_reserved (set_codecs c codecs_in_use nz_density_factor)
                [EvConstruct uncompressed N; EvGather uncompressed (m * m)]
                force (g_quant g1) (get_quant_len predictor) radius
                (get_npart N pardeg) pardeg) as (Hres & Hhdr & tr' & Htr & Hev).
  cbn [app] in *.
  destruct (codec_do_with_exception codec fb_codec
              (set_codecs c codecs_in_use nz_density_factor)
              [EvConstruct uncompressed N; EvGather uncompressed (m * m)]
              force (g_quant g1) (get_quant_len predictor) radius
              (get_npart N pardeg) pardeg) as [[c' tr''] r].
  cbn [fst snd] in *. rewrite He in Hr. subst r tr''.
  unfold subfile_collect, update_header, file_size.
  cbn [o_self o_ret o_trace header reserved_nbyte clear_use_fallback
       h_entry use_fallback_codec fallback_codec_allocated].
  rewrite Hhdr, Hres. cbn [set_codecs header reserved_nbyte h_entry].
  repeat split. exists tr'. split; [exact Hev|]. reflexivity.
Qed.

(** The trace of any [compress] call starts with the two reads of the
    input buffer and holds no other read. *)
Lemma compress_trace (c : Compressor) (g : Global) (uncompressed : ptr)
    (eb : Q) (radius pardeg codecs_in_use nz_density_factor : Z)
    (force : bool) :
  let N := get_data_len predictor in
  let m := get_square_size N in
  exists rest,
    o_trace (compress' c g uncompressed eb radius pardeg codecs_in_use
               nz_density_factor force)
    = EvConstruct uncompressed N :: EvGather uncompressed (m * m) :: rest /\
    Forall (fun e => forall buf alloc_len, read_in_bounds buf alloc_len e) rest.
Proof.
  intros N m. unfold compress. fold N m.
  set (g1 := construct predictor uncompressed eb radius g).
  destruct (gather spreducer (g_data g1 uncompressed) (m * m))
    as [[d_spfmt spfmt_out_len]|e].
  2:{ exists []. split; [reflexivity|constructor]. }
  pose proof (codec_do_reserved (set_codecs c codecs_in_use nz_density_factor)
                [EvConstruct uncompressed N; EvGather uncompressed (m * m)]
                force (g_quant g1) (get_quant_len predictor) radius
                (get_npart N pardeg) pardeg) as (_ & _ & tr' & Htr & Hev).
  cbn [app] in *.
  assert (Hcodec : Forall (fun e => forall buf alloc_len,
                             read_in_bounds buf alloc_len e) tr').
  { apply Forall_forall. intros e He buf alloc_len.
    rewrite forallb_forall in Hev. specialize (Hev e He).
    destruct e; try discriminate Hev; exact I. }
  destruct (codec_do_with_exception codec fb_codec
              (set_codecs c codecs_in_use nz_density_factor)
              [EvConstruct uncompressed N; EvGather uncompressed (m * m)]
              force (g_quant g1) (get_quant_len predictor) radius
              (get_npart N pardeg) pardeg) as [[c' tr''] r].
  cbn [fst snd] in Htr. subst tr''.
  destruct r as [[d_codec_out codec_out_len]|e].
  - unfold subfile_collect. cbn [o_trace].
    eexists. split; [cbn [app]; reflexivity|].
    apply Forall_app. split; [exact Hcodec|].
    repeat constructor.
  - cbn [o_trace]. exists tr'. split; [reflexivity|exact Hcodec].
Qed.

Lemma get_square_size_spec (N : Z) :
  (0 <= N)%Z ->
  let m := get_square_size N in
  (0 <= m /\ N <= m * m /\ (0 < N -> (m - 1) * (m - 1) < N))%Z.
Proof.
  intros HN. cbv zeta. unfold get_square_size.
  pose proof (Z.sqrt_spec N HN) as Hs. pose proof (Z.sqrt_nonneg N) as Hr.
  unfold Z.succ in Hs. set (r := Z.sqrt N) in *.
  destruct (Z.eqb_spec (r * r) N) as [E|E]; repeat split; try lia; nia.
Qed.

(** C10: a [compress] call hands the input buffer to the predictor for
    [N] elements and to the gatherer for [m * m] elements,
    [m = ceil(sqrt(N))]; those are all its reads of that buffer, so they
    stay inside an allocation of [alloc_len] elements exactly when
    [m * m <= alloc_len].  [m * m] is at least [N], [m] is the least such
    number, and [m * m] exceeds [N] for [N = 5]. *)
Theorem compress_reads_square (c : Compressor) (g : Global)
    (uncompressed : ptr) (eb : Q)
    (radius pardeg codecs_in_use nz_density_factor : Z) (force : bool)
    (alloc_len : Z) :
  let N := get_data_len predictor in
  let m := get_square_size N in
  let out := compress' c g uncompressed eb radius pardeg codecs_in_use
               nz_density_factor force in
  (0 <= N)%Z ->
  In (EvGather uncompressed (m * m)) (o_trace out) /\
  (Forall (read_in_bounds uncompressed alloc_len) (o_trace out)
   <-> (m * m <= alloc_len)%Z) /\
  (N <= m * m)%Z /\
  (0 < N -> (m - 1) * (m - 1) < N)%Z /\
  (5 < get_square_size 5 * get_square_size 5)%Z.
Proof.
  intros N m out HN.
  destruct (compress_trace c g uncompressed eb radius pardeg codecs_in_use
              nz_density_factor force) as (rest & Htr & Hrest).
  fold N m out in Htr.
  destruct (get_square_size_spec HN) as (Hm0 & Hm1 & Hm2). fold m in Hm0, Hm1, Hm2.
  rewrite Htr. split; [right; left; reflexivity|].
  split; [|split; [exact Hm1|split; [exact Hm2|reflexivity]]].
  split.
  - intros H. inversion H as [|? ? _ H']; subst.
    inversion H' as [|? ? Hgat _]; subst. now apply Hgat.
  - intros H.
    constructor; [intros _; cbn; lia|].
    constructor; [intros _; exact H|].
    eapply Forall_impl; [|exact Hrest]. intros e He. apply He.
Qed.

(** C7, as amended: when the subfile sizes add up to less than [2 ^ 32]
    the entry table of the archive that [compress] returns is monotone
    non-decreasing, and [entry[END]] is both the reported compressed
    length and the sum [128 + anchor + vle + spfmt] of the subfile
    sizes. *)
Theorem compress_entry_table (c : Compressor) (g : Global)
    (uncompressed : ptr) (eb : Q)
    (radius pardeg codecs_in_use nz_density_factor : Z) (force : bool)
    (d_spfmt d_codec_out : Blob) (spfmt_out_len codec_out_len : Z) :
  let g1 := construct predictor uncompressed eb radius g in
  let N := get_data_len predictor in
  let m := get_square_size N in
  let a := (sizeof_T * get_anchor_len predictor)%Z in
  gather spreducer (g_data g1 uncompressed) (m * m)
  = Ok (d_spfmt, spfmt_out_len) ->
  encoded codec fb_codec force (g_quant g1) (get_quant_len predictor) radius
    (get_npart N pardeg) pardeg = Ok (d_codec_out, codec_out_len) ->
  (0 <= a)%Z -> (0 <= codec_out_len)%Z -> (0 <= spfmt_out_len)%Z ->
  (128 + a + codec_out_len + spfmt_out_len < 2 ^ 32)%Z ->
  let out := compress' c g uncompressed eb radius pardeg codecs_in_use
               nz_density_factor force in
  let h := header (o_self out) in
  (forall k, k < HEADER_END -> (h_entry h k <= h_entry h (S k))%Z) /\
  o_ret out = Ok (mkArchive h d_codec_out d_spfmt, h_entry h HEADER_END) /\
  h_entry h HEADER_END = (128 + a + codec_out_len + spfmt_out_len)%Z.
Proof.
  intros g1 N m a Hg He Ha Hc Hs Hsum out h.
  destruct (compress_ok c g uncompressed eb radius pardeg codecs_in_use
              nz_density_factor force Hg He) as (Hent & _ & Hret & _).
  fold out h in Hent, Hret.
  destruct (subfile_entry_nowrap (h_entry (header c)) Ha Hc Hs Hsum)
    as (_ & T0 & T1 & T2 & T3 & T4).
  rewrite <- Hent in T0, T1, T2, T3, T4.
  split; [|split; [exact Hret|exact T4]].
  intros k Hk. unfold HEADER_END in Hk.
  destruct k as [|[|[|[|k]]]]; try lia;
    rewrite ?T0, ?T1, ?T2, ?T3, ?T4; fold a; lia.
Qed.


(** The only effect of [compress] on device memory is the predictor's. *)
Lemma compress_mem (c : Compressor) (g : Global) (uncompressed : ptr)
    (eb : Q) (radius pardeg codecs_in_use nz_density_factor : Z)
    (force : bool) :
  o_mem (compress' c g uncompressed eb radius pardeg codecs_in_use
           nz_density_factor force)
  = construct predictor uncompressed eb radius g.
Proof.
  unfold compress.
  destruct (gather spreducer _ _) as [[d_spfmt spfmt_out_len]|e];
    [|reflexivity].
  destruct (codec_do_with_exception _ _ _ _ _ _ _ _ _ _) as [[c' tr'] r].
  destruct r as [[d_codec_out codec_out_len]|e]; reflexivity.
Qed.



End OrchestratorClaims.

(* ================================================================== *)
(** ** The pipeline with the 1D Lorenzo predictor *)

Section PipelineClaims.

Variable bits : Z.
Variables BLOCK SEQ_c SEQ_x : nat.
Hypothesis BLOCK_pos : 0 < BLOCK.
Hypothesis SEQ_c_pos : 0 < SEQ_c.
Hypothesis SEQ_c_divides : BLOCK mod SEQ_c = 0.
Hypothesis SEQ_x_pos : 0 < SEQ_x.
Hypothesis SEQ_x_divides : BLOCK mod SEQ_x = 0.
Variables (shmem_data0 : mem Q) (shmem_quant0 : mem Z).
Variable dimx : nat.

Variable Blob : Type.
Variable spreducer : SpReducer Blob.
Variable codec : Codec Blob.
Variable fb_codec : Codec Blob.
Variables (data_size_x data_size_y data_size_z : Z).
Variable sizeof_T : Z.

Local Abbreviation lorenzo :=
  (PredictorLorenzo bits BLOCK SEQ_c SEQ_x shmem_data0 shmem_quant0 dimx).
Local Abbreviation compress' :=
  (compress lorenzo spreducer codec fb_codec
     data_size_x data_size_y data_size_z sizeof_T).
Local Abbreviation decompress' :=
  (decompress lorenzo spreducer codec fb_codec).

(** C5, as amended: [compress] overwrites the caller's input buffer: after
    the call its first [N] elements hold the dense outlier array [O] (zero
    where the sample was quantizable, [delta + radius] elsewhere); the
    elements from [N] on and all other buffers are as before. *)
Theorem compress_overwrites_input (c : Compressor) (g : Global)
    (uncompressed : ptr) (eb : Q)
    (radius pardeg codecs_in_use nz_density_factor : Z) (force : bool) :
  let out := compress' c g uncompressed eb radius pardeg codecs_in_use
               nz_density_factor force in
  let s' := prequant (g_data g uncompressed) (1 / (eb * 2)) in
  (forall i, i < dimx ->
     g_data (o_mem out) uncompressed i
     = postquant_outlier radius (lorenzo_delta1d BLOCK s' i)) /\
  (forall i, dimx <= i ->
     g_data (o_mem out) uncompressed i = g_data g uncompressed i) /\
  (forall p i, p <> uncompressed -> g_data (o_mem out) p i = g_data g p i).
Proof.
  intros out s'. subst out. rewrite compress_mem.
  cbn [construct PredictorLorenzo]. unfold PredictorLorenzo_construct.
  destruct (c_lorenzo_1d1l_spec bits SEQ_c_pos BLOCK_pos SEQ_c_divides
              shmem_data0 shmem_quant0 ((dimx + BLOCK - 1) / BLOCK)
              uncompressed uncompressed dimx radius (1 / (eb * 2))%Q g)
    as [Hout Hframe].
  split; [|split].
  - intros i Hi.
    pose proof (@grid_covers BLOCK dimx i BLOCK_pos Hi) as Hcov.
    specialize (Hout i Hcov Hi). unfold out_at, postquant in Hout.
    now injection Hout.
  - intros i Hi. apply Hframe. auto.
  - intros p i Hp. apply Hframe. auto.
Qed.


End PipelineClaims.

(* ================================================================== *)
(** ** Executions: the forward predictor *)



(** [radius = 8], [eb = 1/2], input [-8]: the residual is [-radius], and
    both the code and the outlier slot are zero. *)
Lemma both_slots_zero :
  let g' := c_lorenzo_1d1l 16 256 4 zero_shmem_data zero_shmem_quant
              1 0 0 1 8 1 (global_of [-8]%Q) in
  let delta :=
    lorenzo_delta1d 256 (prequant (g_data (global_of [-8]%Q) 0) 1) 0 in
  let code := g_quant g' 0 in
  let slot := g_data g' 0 0 in
  (delta == - inject_Z 8)%Q /\
  ~ exactly_one (code = 0%Z) (slot == 0)%Q.
Proof.
  intros g' delta code slot. split; [vm_compute; reflexivity|].
  assert (Hq : code = 0%Z) by (vm_compute; reflexivity).
  assert (Ho : (slot == 0)%Q) by (vm_compute; reflexivity).
  intros [[_ H]|[H _]]; [apply H; exact Ho|apply H; exact Hq].
Qed.

Lemma c_lorenzo_zero_slots_witness :
  (let g := global_of [-8]%Q in
   let s' := prequant (g_data g 0) 1 in
   let g' := c_lorenzo_1d1l 16 256 4 zero_shmem_data zero_shmem_quant
               1 0 0 1 8 1 g in
   zero_slot_rule 16 8 (lorenzo_delta1d 256 s' 0)
     (g_quant g' 0) (g_data g' 0 0)) /\
  (let g := global_of scenario_grid in
   let s' := prequant2 (g_data g 0) 3 1 in
   let g' := c_lorenzo_2d1l 16 1 1 0 0 3 3 3 8 1 g in
   zero_slot_rule 16 8 (lorenzo_delta2d s' 1 2)
     (g_quant g' (lin2 3 1 2)) (g_data g' 0 (lin2 3 1 2))) /\
  (let g := global_of scenario_grid in
   let s' := prequant3 (g_data g 0) 3 (3 * 3) 1 in
   let g' := c_lorenzo_3d1l 16 zero_shmem3 1 1 1 0 0 3 3 1 3 (3 * 3) 8 1 g in
   zero_slot_rule 16 8 (lorenzo_delta3d s' 1 2 0)
     (g_quant g' (lin3 3 3 1 2 0)) (g_data g' 0 (lin3 3 3 1 2 0))).
Proof.
  destruct (@c_lorenzo_zero_slots 16 8 0 0 1%Q (global_of [-8]%Q))
    as (H1 & _ & _).
  destruct (@c_lorenzo_zero_slots 16 8 0 0 1%Q (global_of scenario_grid))
    as (_ & H2 & H3).
  split; [|split].
  - apply (H1 256 4 zero_shmem_data zero_shmem_quant 1 1 0);
      [lia|lia|reflexivity|lia|lia].
  - apply (H2 1 1 3 3 1 2); lia.
  - apply (H3 zero_shmem3 1 1 1 3 3 1 1 2 0); lia.
Defined.

(** The 2D kernel on the [3 x 3] grid, [eb = 1/2], [radius = 8]: the
    last row starts with residuals [17] and [-20], both outliers.  The 3D
    kernel gives the same on the grid taken as one plane. *)
Lemma c_lorenzo_2d1l_on_grid :
  let g' := c_lorenzo_2d1l 16 1 1 0 0 3 3 3 8 1 (global_of scenario_grid) in
  map (g_quant g') (seq 0 9) = [9; 9; 10; 10; 9; 10; 0; 0; 9]%Z /\
  map (fun k => Qred (g_data g' 0 k)) (seq 0 9)
  = [0; 0; 0; 0; 0; 0; 25; -12; 0]%Q.
Proof. lazy. split; reflexivity. Qed.

Lemma c_lorenzo_3d1l_on_grid :
  let g' := c_lorenzo_3d1l 16 zero_shmem3 1 1 1 0 0 3 3 1 3 (3 * 3) 8 1
              (global_of scenario_grid) in
  map (g_quant g') (seq 0 9) = [9; 9; 10; 10; 9; 10; 0; 0; 9]%Z /\
  map (fun k => Qred (g_data g' 0 k)) (seq 0 9)
  = [0; 0; 0; 0; 0; 0; 25; -12; 0]%Q.
Proof. lazy. split; reflexivity. Qed.

(* ================================================================== *)
(** ** Executions: the inverse predictor *)

(** The 2D inverse kernel gives the grid back from the output of the 2D
    forward kernel ([eb = 1/2], so the samples are their own
    prequantization). *)
Lemma x_lorenzo_2d1l_on_grid :
  let g1 := c_lorenzo_2d1l 16 1 1 0 0 3 3 3 8 1 (global_of scenario_grid) in
  let g2 := x_lorenzo_2d1l zero_shmem_data zero_thread_scope 1 1 0 0 3 3 3 8
              1 g1 in
  map (fun k => Qred (g_data g2 0 k)) (seq 0 9) = scenario_grid.
Proof. lazy. reflexivity. Qed.


(** The spike scenario, [eb = 1/10], [radius = 8].  Sample 2 is an
    outlier ([Q = 0], [O = 50008]).  The kernel gives back [10000]; the
    running sum of the residual as the specification words it would give
    [50008 / 5]. *)
Lemma restored_delta_is_a_sum :
  let g1 := PredictorLorenzo_construct 16 256 4 zero_shmem_data
              zero_shmem_quant 0 5 (1 # 10) 8 (global_of scenario_spike) in
  let g3 := x_lorenzo_1d1l 256 8 1 0 0 5 8 (1 # 5) g1 in
  let xdata := g_data g3 0 2 in
  let worded := tile_prefix_sum 256
                  (spec_restored_delta (g_data g1 0) (g_quant g1) 8) 2 in
  g_quant g1 2 = 0%Z /\
  (xdata == 10000)%Q /\
  ~ (xdata == worded * (1 # 5))%Q.
Proof.
  cbv zeta. split; [vm_compute; reflexivity|].
  split; [vm_compute; reflexivity|].
  intros H. vm_compute in H. discriminate H.
Qed.

Lemma x_lorenzo_restores_witness :
  let g1 := PredictorLorenzo_construct 16 256 4 zero_shmem_data
              zero_shmem_quant 0 5 (1 # 10) 8 (global_of scenario_spike) in
  let delta := fuse (g_data g1 0) (g_quant g1) 8 in
  let g2 := x_lorenzo_2d1l zero_shmem_data zero_thread_scope 1 1 0 0 3 3 3 8
              (1 # 5) g1 in
  let sum2 := tile_prefix_sum2 (fun x' y' => delta (lin2 3 x' y')) 1 1 in
  let xdata2 := g_data g2 0 (lin2 3 1 1) in
  g_data (x_lorenzo_1d1l 256 8 1 0 0 5 8 (1 # 5) g1) 0 2
  = (tile_prefix_sum 256 delta 2 * (1 # 5))%Q /\
  (xdata2 == sum2 * (1 # 5))%Q.
Proof.
  intros g1 delta g2 sum2 xdata2.
  destruct (@x_lorenzo_restores 8 0 0 (1 # 5) g1) as [H1 H2].
  split.
  - apply (H1 256 8 1 5 2); [lia|lia|reflexivity|lia|lia].
  - apply (H2 zero_shmem_data zero_thread_scope 1 1 3 3 1 1); lia.
Defined.

(* ================================================================== *)
(** ** Executions: the pipeline *)





(** [eb = 1/2], [radius = 512], input [1/4]: [compress] returns, and the
    input buffer then holds [0]. *)
Lemma input_buffer_overwritten :
  let out := run_compress 16 (plain_codec 4) (plain_codec 8) new_Compressor
               [1 # 4]%Q (1 # 2) 512 false in
  let before := g_data (global_of [1 # 4]%Q) 0 0 in
  let after := g_data (o_mem out) 0 0 in
  o_ret out = Ok (returned out) /\ ~ (after == before)%Q.
Proof.
  cbv zeta. split; [vm_compute; reflexivity|].
  intros H. vm_compute in H. discriminate H.
Qed.

Lemma compress_overwrites_input_witness :
  0 < 256 /\ 0 < 4 /\ 256 mod 4 = 0 /\
  let out := spike_compress (plain_codec 4) in
  let s' := prequant (g_data (global_of scenario_spike) 0) (1 / ((1 # 10) * 2)) in
  (forall i, i < 5 ->
     g_data (o_mem out) 0 i
     = postquant_outlier 8 (lorenzo_delta1d 256 s' i)) /\
  (forall i, 5 <= i ->
     g_data (o_mem out) 0 i = g_data (global_of scenario_spike) 0 i) /\
  (forall p i, p <> 0 ->
     g_data (o_mem out) p i = g_data (global_of scenario_spike) p i).
Proof.
  assert (H1 : 0 < 256) by lia.
  assert (H2 : 0 < 4) by lia.
  assert (H3 : 256 mod 4 = 0) by reflexivity.
  repeat (split; [assumption|]).
  exact (@compress_overwrites_input 16 256 4 8 H1 H2 H3 zero_shmem_data
           zero_shmem_quant 5 SampleBlob dense_spreducer (plain_codec 4)
           (plain_codec 8) 5 1 1 4 new_Compressor (global_of scenario_spike)
           0 (1 # 10) 8 1 1 4 false).
Defined.

(* ================================================================== *)
(** ** Executions: the orchestrator *)


(** Three billion samples whose Huffman stream takes [2 ^ 32 - 100] bytes
    and whose sparse blob takes 1000: the archive fits the reserved
    [N * 4 / 2] bytes, [compress] returns, and [entry[SPFMT]] is below
    [entry[VLE]]. *)
Lemma entry_table_wraps :
  let out := compress (idle_predictor 3000000000) (sized_spreducer 1000)
               (sized_codec (2 ^ 32 - 100)) (sized_codec 0)
               3000000000 1 1 4 new_Compressor (global_of []) 0 (1 # 2) 512
               1 1 4 false in
  let entry := h_entry (ar_header (fst (returned out))) in
  o_ret out = Ok (returned out) /\
  (128 + (2 ^ 32 - 100) + 1000 <= 3000000000 * 4 / 2)%Z /\
  ~ (entry HEADER_VLE <= entry HEADER_SPFMT)%Z.
Proof.
  cbv zeta. split; [vm_compute; reflexivity|].
  split; [vm_compute; discriminate|].
  intros H. vm_compute in H. apply H. reflexivity.
Qed.

Lemma compress_entry_table_witness :
  gather dense_spreducer (g_data spike_predicted 0)
    (get_square_size 5 * get_square_size 5)
  = Ok (fst spike_gathered, snd spike_gathered) /\
  encoded (plain_codec 4) (plain_codec 8) false (g_quant spike_predicted) 5 8
    (get_npart 5 1) 1
  = Ok (fst (spike_encoded (plain_codec 4)),
        snd (spike_encoded (plain_codec 4))) /\
  (0 <= 4 * 0)%Z /\ (0 <= snd (spike_encoded (plain_codec 4)))%Z /\
  (0 <= snd spike_gathered)%Z /\
  (128 + 4 * 0 + snd (spike_encoded (plain_codec 4)) + snd spike_gathered
   < 2 ^ 32)%Z /\
  let out := spike_compress (plain_codec 4) in
  let h := header (o_self out) in
  (forall k, k < HEADER_END -> (h_entry h k <= h_entry h (S k))%Z) /\
  o_ret out
  = Ok (mkArchive h (fst (spike_encoded (plain_codec 4))) (fst spike_gathered),
        h_entry h HEADER_END) /\
  h_entry h HEADER_END
  = (128 + 4 * 0 + snd (spike_encoded (plain_codec 4)) + snd spike_gathered)%Z.
Proof.
  assert (H1 : gather dense_spreducer (g_data spike_predicted 0)
                 (get_square_size 5 * get_square_size 5)
               = Ok (fst spike_gathered, snd spike_gathered)) by reflexivity.
  assert (H2 : encoded (plain_codec 4) (plain_codec 8) false
                 (g_quant spike_predicted) 5 8 (get_npart 5 1) 1
               = Ok (fst (spike_encoded (plain_codec 4)),
                     snd (spike_encoded (plain_codec 4)))) by reflexivity.
  assert (H3 : (0 <= 4 * 0)%Z) by lia.
  assert (H4 : (0 <= snd (spike_encoded (plain_codec 4)))%Z)
    by (vm_compute; discriminate).
  assert (H5 : (0 <= snd spike_gathered)%Z) by (vm_compute; discriminate).
  assert (H6 : (128 + 4 * 0 + snd (spike_encoded (plain_codec 4))
                + snd spike_gathered < 2 ^ 32)%Z) by (vm_compute; reflexivity).
  repeat (split; [assumption|]).
  exact (@compress_entry_table SampleBlob (run_lorenzo 16 5) dense_spreducer
           (plain_codec 4) (plain_codec 8) 5 1 1 4 new_Compressor
           (global_of scenario_spike) 0 (1 # 10) 8 1 1 4 false
           (fst spike_gathered) (fst (spike_encoded (plain_codec 4)))
           (snd spike_gathered) (snd (spike_encoded (plain_codec 4)))
           H1 H2 H3 H4 H5 H6).
Defined.



(** Five samples: the gatherer is handed nine elements of the input
    buffer. *)
Lemma compress_reads_square_witness :
  (0 <= 5)%Z /\
  let out := spike_compress (plain_codec 4) in
  In (EvGather 0 (3 * 3)) (o_trace out) /\
  (Forall (read_in_bounds 0 5) (o_trace out) <-> (3 * 3 <= 5)%Z).
Proof.
  assert (H1 : (0 <= 5)%Z) by lia.
  split; [assumption|].
  pose proof (@compress_reads_square SampleBlob (run_lorenzo 16 5)
                dense_spreducer (plain_codec 4) (plain_codec 8) 5 1 1 4
                new_Compressor (global_of scenario_spike) 0 (1 # 10) 8 1 1 4
                false 5 H1) as (Hin & Hiff & _).
  split; [exact Hin|exact Hiff].
Defined.

(* ================================================================== *)
(** * Further properties of the kernels *)

(** ** Running sums *)

Lemma prefix_sum_minus (f h : mem Q) (n : nat) :
  (prefix_sum (fun k => f k - h k) n == prefix_sum f n - prefix_sum h n)%Q.
Proof.
  induction n as [|n IH]; cbn [prefix_sum]; [reflexivity|].
  rewrite IH. ring.
Qed.

(** A running sum of differences telescopes. *)
Lemma prefix_sum_telescope (a : mem Q) (n : nat) :
  (prefix_sum (fun k => a k - (if 0 <? k then a (k - 1)%nat else 0)) n
   == a n)%Q.
Proof.
  induction n as [|n IH]; cbn [prefix_sum].
  - cbn [Nat.ltb Nat.leb]. ring.
  - rewrite IH. replace (S n - 1) with n by lia.
    destruct (Nat.ltb_spec 0 (S n)); [ring|lia].
Qed.

Lemma tile16_base (x k : nat) :
  k <= x mod 16 -> (x / 16 * 16 + k) mod 16 = k /\ x / 16 * 16 + k <= x.
Proof.
  intros Hk. pose proof (Nat.div_mod_eq x 16).
  pose proof (Nat.mod_upper_bound x 16 ltac:(lia)).
  split; [|lia]. symmetry. apply Nat.mod_unique with (q := x / 16); lia.
Qed.

(** The running sum of the 2D residuals along both axes of a tile gives
    the samples back. *)
Lemma tile_prefix_sum2_delta (p : nat -> nat -> Q) (x y : nat) :
  (tile_prefix_sum2 (lorenzo_delta2d p) x y == p x y)%Q.
Proof.
  unfold tile_prefix_sum2.
  set (x0 := x / 16 * 16). set (y0 := y / 16 * 16).
  assert (Hy : y0 + y mod 16 = y)
    by (unfold y0; pose proof (Nat.div_mod_eq y 16); lia).
  assert (Hx : x0 + x mod 16 = x)
    by (unfold x0; pose proof (Nat.div_mod_eq x 16); lia).
  (* the inner sums, one column at a time *)
  assert (Hcol : forall c,
            (prefix_sum
               (fun j => p c (y0 + j)%nat
                         - (if 0 <? j then p c (y0 + j - 1)%nat else 0))
               (y mod 16) == p c y)%Q).
  { intros c.
    rewrite <- Hy at 2.
    rewrite <- (prefix_sum_telescope (fun j => p c (y0 + j)%nat) (y mod 16)).
    apply prefix_sum_Qeq. intros j Hj.
    destruct (Nat.ltb_spec 0 j); [|reflexivity].
    replace (y0 + (j - 1)) with (y0 + j - 1) by lia. reflexivity. }
  assert (Hin : forall i, i <= x mod 16 ->
            (prefix_sum (fun j => lorenzo_delta2d p (x0 + i) (y0 + j))
               (y mod 16)
             == p (x0 + i)%nat y
                - (if 0 <? i then p (x0 + i - 1)%nat y else 0))%Q).
  { intros i Hi. destruct (tile16_base x Hi) as [Hmi _]. fold x0 in Hmi.
    destruct (Nat.ltb_spec 0 i) as [Hpos|Hzero].
    - rewrite <- (Hcol (x0 + i)), <- (Hcol (x0 + i - 1)).
      rewrite <- prefix_sum_minus. apply prefix_sum_Qeq. intros j Hj.
      destruct (tile16_base y Hj) as [Hmj _]. fold y0 in Hmj.
      unfold lorenzo_delta2d. cbv zeta beta. rewrite Hmi, Hmj.
      destruct (Nat.ltb_spec 0 i); [|lia]. reflexivity.
    - rewrite <- (Hcol (x0 + i)).
      setoid_replace (prefix_sum
         (fun j => p (x0 + i)%nat (y0 + j)%nat
                   - (if 0 <? j then p (x0 + i)%nat (y0 + j - 1)%nat else 0))
         (y mod 16) - 0)%Q
        with (prefix_sum
         (fun j => p (x0 + i)%nat (y0 + j)%nat
                   - (if 0 <? j then p (x0 + i)%nat (y0 + j - 1)%nat else 0))
         (y mod 16))%Q by ring.
      apply prefix_sum_Qeq. intros j Hj.
      destruct (tile16_base y Hj) as [Hmj _]. fold y0 in Hmj.
      unfold lorenzo_delta2d. cbv zeta beta. rewrite Hmi, Hmj.
      destruct (Nat.ltb_spec 0 i); [lia|]. reflexivity. }
  rewrite <- Hx at 2.
  rewrite <- (prefix_sum_telescope (fun i => p (x0 + i)%nat y) (x mod 16)).
  apply prefix_sum_Qeq. intros i Hi. rewrite (Hin i Hi).
  destruct (Nat.ltb_spec 0 i); [|reflexivity].
  replace (x0 + (i - 1)) with (x0 + i - 1) by lia. reflexivity.
Qed.

Lemma tile_prefix_sum2_Qeq (f h : nat -> nat -> Q) (x y : nat) :
  (forall x' y', x / 16 * 16 <= x' <= x -> y / 16 * 16 <= y' <= y ->
     (f x' y' == h x' y')%Q) ->
  (tile_prefix_sum2 f x y == tile_prefix_sum2 h x y)%Q.
Proof.
  intros H. unfold tile_prefix_sum2.
  apply prefix_sum_Qeq. intros i Hi. apply prefix_sum_Qeq. intros j Hj.
  destruct (tile16_base x Hi) as [_ Hx]. destruct (tile16_base y Hj) as [_ Hy].
  apply H; lia.
Qed.

Section RoundTrip2D.

Variable bits : Z.
Variables (intermediate0 : mem Q) (thread_scope0 : regfile).
Variables dimx dimy gridDim_x gridDim_y : nat.
Variables data outlier xdata : ptr.


End RoundTrip2D.

(** ** Where the compress-time kernels write *)

Lemma lin2_lt (dimx dimy x y : nat) :
  x < dimx -> y < dimy -> lin2 dimx x y < dimx * dimy.
Proof. unfold lin2. nia. Qed.

Lemma lin3_lt (dimx dimy dimz x y z : nat) :
  x < dimx -> y < dimy -> z < dimz -> lin3 dimx dimy x y z < dimx * dimy * dimz.
Proof.
  intros Hx Hy Hz. unfold lin3.
  assert (H1 : x + y * dimx < dimx * dimy) by nia.
  assert (H2 : (z + 1) * (dimx * dimy) <= dimx * dimy * dimz) by nia.
  lia.
Qed.

Lemma c_lorenzo_2d1l_frame (bits : Z) (gridDim_x gridDim_y : nat)
    (data outlier : ptr) (dimx dimy : nat) (radius : Z) (ebx2_r : Q)
    (g : Global) (p : ptr) (id : nat) :
  p <> outlier \/
  (forall x y, x < dimx -> y < dimy -> x < gridDim_x * 16 ->
     y < gridDim_y * 16 -> id <> lin2 dimx x y) ->
  let g' := c_lorenzo_2d1l bits gridDim_x gridDim_y data outlier dimx dimy
              dimx radius ebx2_r g in
  g_data g' p id = g_data g p id /\
  (p <> outlier \/ g_quant g' id = g_quant g id).
Proof.
  intros Hout. cbv zeta.
  set (obs := fun g : Global =>
                (g_data g p id, if Nat.eqb p outlier then g_quant g id else 0%Z)).
  assert (H : obs (c_lorenzo_2d1l bits gridDim_x gridDim_y data outlier dimx
                     dimy dimx radius ebx2_r g) = obs g).
  { unfold c_lorenzo_2d1l.
    apply (loop_preserves obs). intros j acc Hj.
    apply (loop_preserves obs). intros i acc' Hi.
    destruct (@c_lorenzo_2d1l_block_frame bits dimx dimy data outlier radius
                ebx2_r i j acc' p id) as [E1 E2].
    { destruct Hout as [Hout|Hout]; [now left|right].
      intros x y [(Bx & By) (Rx & Ry)]. apply Hout; lia. }
    unfold obs. rewrite E1.
    destruct (Nat.eqb_spec p outlier) as [E|E]; [|reflexivity].
    destruct E2 as [E2|E2]; [contradiction|]. now rewrite E2. }
  unfold obs in H. injection H as H1 H2. split; [exact H1|].
  destruct (Nat.eqb_spec p outlier); [right; exact H2|now left].
Qed.

Lemma c_lorenzo_3d1l_frame (bits : Z) (shmem3_0 : shmem3)
    (gridDim_x gridDim_y gridDim_z : nat) (data outlier : ptr)
    (dimx dimy dimz : nat) (radius : Z) (ebx2_r : Q) (g : Global) (p : ptr)
    (id : nat) :
  p <> outlier \/
  (forall x y z, x < dimx -> y < dimy -> z < dimz ->
     x < gridDim_x * 32 -> y < gridDim_y * 8 -> z < gridDim_z * 8 ->
     id <> lin3 dimx dimy x y z) ->
  let g' := c_lorenzo_3d1l bits shmem3_0 gridDim_x gridDim_y gridDim_z data
              outlier dimx dimy dimz dimx (dimx * dimy) radius ebx2_r g in
  g_data g' p id = g_data g p id /\
  (p <> outlier \/ g_quant g' id = g_quant g id).
Proof.
  intros Hout. cbv zeta.
  set (obs := fun g : Global =>
                (g_data g p id, if Nat.eqb p outlier then g_quant g id else 0%Z)).
  assert (H : obs (c_lorenzo_3d1l bits shmem3_0 gridDim_x gridDim_y gridDim_z
                     data outlier dimx dimy dimz dimx (dimx * dimy) radius
                     ebx2_r g) = obs g).
  { unfold c_lorenzo_3d1l.
    apply (loop_preserves obs). intros k acc Hk.
    apply (loop_preserves obs). intros j acc' Hj.
    apply (loop_preserves obs). intros i acc'' Hi.
    destruct (@c_lorenzo_3d1l_block_frame bits shmem3_0 dimx dimy dimz data
                outlier radius ebx2_r i j k acc'' p id) as [E1 E2].
    { destruct Hout as [Hout|Hout]; [now left|right].
      intros x y z [(Bx & By & Bz) (Rx & Ry & Rz)]. apply Hout; lia. }
    unfold obs. rewrite E1.
    destruct (Nat.eqb_spec p outlier) as [E|E]; [|reflexivity].
    destruct E2 as [E2|E2]; [contradiction|]. now rewrite E2. }
  unfold obs in H. injection H as H1 H2. split; [exact H1|].
  destruct (Nat.eqb_spec p outlier); [right; exact H2|now left].
Qed.

Lemma x_lorenzo_2d1l_frame (intermediate0 : mem Q) (thread_scope0 : regfile)
    (gridDim_x gridDim_y : nat) (outlier xdata : ptr) (dimx dimy : nat)
    (radius : Z) (ebx2 : Q) (g : Global) :
  let g' := x_lorenzo_2d1l intermediate0 thread_scope0 gridDim_x gridDim_y
              outlier xdata dimx dimy dimx radius ebx2 g in
  g_quant g' = g_quant g /\
  (forall p id,
     p <> xdata \/
     (forall x y, x < dimx -> y < dimy -> x < gridDim_x * 16 ->
        y < gridDim_y * 16 -> id <> lin2 dimx x y) ->
     g_data g' p id = g_data g p id).
Proof.
  cbv zeta. split.
  - unfold x_lorenzo_2d1l.
    apply (loop_preserves g_quant). intros j acc Hj.
    apply (loop_preserves g_quant). intros i acc' Hi.
    apply (@x_lorenzo_2d1l_block_frame intermediate0 thread_scope0 dimx dimy
             outlier xdata radius ebx2 i j acc' 0 0).
  - intros p id Hout. unfold x_lorenzo_2d1l.
    apply (loop_preserves (fun g : Global => g_data g p id)). intros j acc Hj.
    apply (loop_preserves (fun g : Global => g_data g p id)). intros i acc' Hi.
    apply (@x_lorenzo_2d1l_block_frame intermediate0 thread_scope0 dimx dimy
             outlier xdata radius ebx2 i j acc' p id).
    destruct Hout as [Hout|Hout]; [now left|right].
    intros x y [(Bx & By) (Rx & Ry)]. apply Hout; lia.
Qed.

(** ** The range of the quant codes *)

Lemma postquant_quant_range (bits radius : Z) (delta : Q) :
  (0 < radius)%Z -> (2 * radius <= 2 ^ bits)%Z -> integral delta ->
  (0 <= postquant_quant bits radius delta < 2 * radius)%Z.
Proof.
  intros Hr Hfit [d Hint].
  destruct (Qlt_le_dec (Qabs delta) (inject_Z radius)) as [H|H].
  - destruct (postquant_quantizable_fit bits Hfit Hint H) as [E _].
    pose proof (quantizable_range Hint H). lia.
  - apply Qle_not_lt in H.
    destruct (@postquant_outlier_case bits radius delta H) as [E _]. lia.
Qed.

(** X1: the compress-time kernels write [O] and [Q] only at the indices of
    samples: elements past the end of the array (and, in 1D, past the
    grid) keep their values, and so does every buffer other than
    [outlier], the input included when it is a separate buffer. *)
Theorem c_lorenzo_writes_in_range (bits radius : Z) (data outlier : ptr)
    (ebx2_r : Q) (g : Global) :
  (forall BLOCK SEQ shmem_data0 shmem_quant0 gridDim dimx,
     0 < SEQ -> 0 < BLOCK -> BLOCK mod SEQ = 0 ->
     let g' := c_lorenzo_1d1l bits BLOCK SEQ shmem_data0 shmem_quant0
                 gridDim data outlier dimx radius ebx2_r g in
     (forall id, dimx <= id \/ gridDim * BLOCK <= id ->
        g_quant g' id = g_quant g id /\
        g_data g' outlier id = g_data g outlier id) /\
     (forall p id, p <> outlier -> g_data g' p id = g_data g p id)) /\
  (forall gridDim_x gridDim_y dimx dimy,
     let g' := c_lorenzo_2d1l bits gridDim_x gridDim_y data outlier
                 dimx dimy dimx radius ebx2_r g in
     (forall id, dimx * dimy <= id ->
        g_quant g' id = g_quant g id /\
        g_data g' outlier id = g_data g outlier id) /\
     (forall p id, p <> outlier -> g_data g' p id = g_data g p id)) /\
  (forall shmem3_0 gridDim_x gridDim_y gridDim_z dimx dimy dimz,
     let g' := c_lorenzo_3d1l bits shmem3_0 gridDim_x gridDim_y gridDim_z
                 data outlier dimx dimy dimz dimx (dimx * dimy) radius
                 ebx2_r g in
     (forall id, dimx * dimy * dimz <= id ->
        g_quant g' id = g_quant g id /\
        g_data g' outlier id = g_data g outlier id) /\
     (forall p id, p <> outlier -> g_data g' p id = g_data g p id)).
Proof.
  split; [|split].
  - intros BLOCK SEQ shmem_data0 shmem_quant0 gridDim dimx HS HB Hdiv g'.
    destruct (@c_lorenzo_1d1l_spec bits BLOCK SEQ HS HB Hdiv shmem_data0
                shmem_quant0 gridDim data outlier dimx radius ebx2_r g)
      as [_ Hframe].
    fold g' in Hframe. split.
    + intros id Hid.
      destruct (Hframe outlier id) as [E1 [E2|E2]]; [lia|congruence|auto].
    + intros p id Hp. apply Hframe. now left.
  - intros gridDim_x gridDim_y dimx dimy g'. split.
    + intros id Hid.
      destruct (@c_lorenzo_2d1l_frame bits gridDim_x gridDim_y data outlier
                  dimx dimy radius ebx2_r g outlier id) as [E1 [E2|E2]];
        [|congruence|auto].
      right. intros x y Rx Ry _ _ E.
      pose proof (@lin2_lt dimx dimy x y Rx Ry). lia.
    + intros p id Hp.
      apply (@c_lorenzo_2d1l_frame bits gridDim_x gridDim_y data outlier
               dimx dimy radius ebx2_r g p id). now left.
  - intros shmem3_0 gridDim_x gridDim_y gridDim_z dimx dimy dimz g'. split.
    + intros id Hid.
      destruct (@c_lorenzo_3d1l_frame bits shmem3_0 gridDim_x gridDim_y
                  gridDim_z data outlier dimx dimy dimz radius ebx2_r g
                  outlier id) as [E1 [E2|E2]]; [|congruence|auto].
      right. intros x y z Rx Ry Rz _ _ _ E.
      pose proof (@lin3_lt dimx dimy dimz x y z Rx Ry Rz). lia.
    + intros p id Hp.
      apply (@c_lorenzo_3d1l_frame bits shmem3_0 gridDim_x gridDim_y
               gridDim_z data outlier dimx dimy dimz radius ebx2_r g p id).
      now left.
Qed.

Lemma c_lorenzo_writes_in_range_witness :
  let g := global_of scenario_grid in
  (let g' := c_lorenzo_1d1l 16 256 4 zero_shmem_data zero_shmem_quant
               1 0 1 9 8 1 g in
   g_quant g' 9 = g_quant g 9 /\ g_data g' 1 9 = g_data g 1 9 /\
   g_data g' 0 4 = g_data g 0 4) /\
  (let g' := c_lorenzo_2d1l 16 1 1 0 1 3 3 3 8 1 g in
   g_quant g' 9 = g_quant g 9 /\ g_data g' 1 9 = g_data g 1 9 /\
   g_data g' 0 4 = g_data g 0 4) /\
  (let g' := c_lorenzo_3d1l 16 zero_shmem3 1 1 1 0 1 3 3 1 3 (3 * 3) 8 1 g in
   g_quant g' 9 = g_quant g 9 /\ g_data g' 1 9 = g_data g 1 9 /\
   g_data g' 0 4 = g_data g 0 4).
Proof.
  intros g.
  destruct (@c_lorenzo_writes_in_range 16 8 0 1 1%Q g) as (H1 & H2 & H3).
  split; [|split].
  - destruct (H1 256 4 zero_shmem_data zero_shmem_quant 1 9
                ltac:(lia) ltac:(lia) ltac:(reflexivity)) as [Ha Hb].
    destruct (Ha 9 ltac:(lia)) as [E1 E2].
    split; [exact E1|split; [exact E2|apply Hb; lia]].
  - destruct (H2 1 1 3 3) as [Ha Hb].
    destruct (Ha 9 ltac:(lia)) as [E1 E2].
    split; [exact E1|split; [exact E2|apply Hb; lia]].
  - destruct (H3 zero_shmem3 1 1 1 3 3 1) as [Ha Hb].
    destruct (Ha 9 ltac:(lia)) as [E1 E2].
    split; [exact E1|split; [exact E2|apply Hb; lia]].
Defined.

(** X2: the compress-time kernels can run in place.  With [outlier]
    aliased to the input they leave, at every sample, the same quant code
    and the same outlier value as with a separate [outlier] buffer. *)
Theorem c_lorenzo_in_place (bits radius : Z) (data outlier : ptr)
    (ebx2_r : Q) (g : Global) :
  (forall BLOCK SEQ shmem_data0 shmem_quant0 gridDim dimx id,
     0 < SEQ -> 0 < BLOCK -> BLOCK mod SEQ = 0 ->
     id < gridDim * BLOCK -> id < dimx ->
     let run o := c_lorenzo_1d1l bits BLOCK SEQ shmem_data0 shmem_quant0
                    gridDim data o dimx radius ebx2_r g in
     g_quant (run data) id = g_quant (run outlier) id /\
     g_data (run data) data id = g_data (run outlier) outlier id) /\
  (forall gridDim_x gridDim_y dimx dimy x y,
     x < dimx -> y < dimy -> x < gridDim_x * 16 -> y < gridDim_y * 16 ->
     let run o := c_lorenzo_2d1l bits gridDim_x gridDim_y data o dimx dimy
                    dimx radius ebx2_r g in
     let id := lin2 dimx x y in
     g_quant (run data) id = g_quant (run outlier) id /\
     g_data (run data) data id = g_data (run outlier) outlier id) /\
  (forall shmem3_0 gridDim_x gridDim_y gridDim_z dimx dimy dimz x y z,
     x < dimx -> y < dimy -> z < dimz ->
     x < gridDim_x * 32 -> y < gridDim_y * 8 -> z < gridDim_z * 8 ->
     let run o := c_lorenzo_3d1l bits shmem3_0 gridDim_x gridDim_y gridDim_z
                    data o dimx dimy dimz dimx (dimx * dimy) radius ebx2_r
                    g in
     let id := lin3 dimx dimy x y z in
     g_quant (run data) id = g_quant (run outlier) id /\
     g_data (run data) data id = g_data (run outlier) outlier id).
Proof.
  split; [|split].
  - intros BLOCK SEQ shmem_data0 shmem_quant0 gridDim dimx id HS HB Hdiv
      Hg Hd run.
    destruct (@c_lorenzo_1d1l_out bits BLOCK SEQ HS HB Hdiv shmem_data0
                shmem_quant0 gridDim data data dimx radius ebx2_r g id Hg Hd)
      as [HO HQ].
    destruct (@c_lorenzo_1d1l_out bits BLOCK SEQ HS HB Hdiv shmem_data0
                shmem_quant0 gridDim data outlier dimx radius ebx2_r g id
                Hg Hd) as [HO' HQ'].
    unfold run. rewrite HO, HQ, HO', HQ'. split; reflexivity.
  - intros gridDim_x gridDim_y dimx dimy x y Rx Ry Gx Gy run id.
    destruct (out_at_postquant
                (@c_lorenzo_2d1l_spec bits dimx dimy data data radius ebx2_r
                   gridDim_x gridDim_y g x y Rx Ry Gx Gy)) as [HQ HO].
    destruct (out_at_postquant
                (@c_lorenzo_2d1l_spec bits dimx dimy data outlier radius
                   ebx2_r gridDim_x gridDim_y g x y Rx Ry Gx Gy))
      as [HQ' HO'].
    unfold run, id. rewrite HO, HQ, HO', HQ'. split; reflexivity.
  - intros shmem3_0 gridDim_x gridDim_y gridDim_z dimx dimy dimz x y z
      Rx Ry Rz Gx Gy Gz run id.
    destruct (out_at_postquant
                (@c_lorenzo_3d1l_spec bits shmem3_0 dimx dimy dimz data data
                   radius ebx2_r gridDim_x gridDim_y gridDim_z g x y z
                   Rx Ry Rz Gx Gy Gz)) as [HQ HO].
    destruct (out_at_postquant
                (@c_lorenzo_3d1l_spec bits shmem3_0 dimx dimy dimz data
                   outlier radius ebx2_r gridDim_x gridDim_y gridDim_z g
                   x y z Rx Ry Rz Gx Gy Gz)) as [HQ' HO'].
    unfold run, id. rewrite HO, HQ, HO', HQ'. split; reflexivity.
Qed.

Lemma c_lorenzo_in_place_witness :
  let g := global_of scenario_grid in
  (let run o := c_lorenzo_1d1l 16 256 4 zero_shmem_data zero_shmem_quant
                  1 0 o 9 8 1 g in
   g_quant (run 0) 7 = g_quant (run 1) 7 /\
   g_data (run 0) 0 7 = g_data (run 1) 1 7) /\
  (let run o := c_lorenzo_2d1l 16 1 1 0 o 3 3 3 8 1 g in
   g_quant (run 0) (lin2 3 1 2) = g_quant (run 1) (lin2 3 1 2) /\
   g_data (run 0) 0 (lin2 3 1 2) = g_data (run 1) 1 (lin2 3 1 2)) /\
  (let run o := c_lorenzo_3d1l 16 zero_shmem3 1 1 1 0 o 3 3 1 3 (3 * 3) 8 1
                  g in
   g_quant (run 0) (lin3 3 3 1 2 0) = g_quant (run 1) (lin3 3 3 1 2 0) /\
   g_data (run 0) 0 (lin3 3 3 1 2 0) = g_data (run 1) 1 (lin3 3 3 1 2 0)).
Proof.
  intros g.
  destruct (@c_lorenzo_in_place 16 8 0 1 1%Q g) as (H1 & H2 & H3).
  split; [|split].
  - apply (H1 256 4 zero_shmem_data zero_shmem_quant 1 9 7);
      [lia|lia|reflexivity|lia|lia].
  - apply (H2 1 1 3 3 1 2); lia.
  - apply (H3 zero_shmem3 1 1 1 3 3 1 1 2 0); lia.
Defined.

(** X3: every quant code the compress-time kernels write is a symbol of
    the code book of [2 * radius] entries, provided [radius] is positive
    and the alphabet fits the quant-code type. *)
Theorem c_lorenzo_code_range (bits radius : Z) (data outlier : ptr)
    (ebx2_r : Q) (g : Global) :
  (0 < radius)%Z -> (2 * radius <= 2 ^ bits)%Z ->
  (forall BLOCK SEQ shmem_data0 shmem_quant0 gridDim dimx id,
     0 < SEQ -> 0 < BLOCK -> BLOCK mod SEQ = 0 ->
     id < gridDim * BLOCK -> id < dimx ->
     let g' := c_lorenzo_1d1l bits BLOCK SEQ shmem_data0 shmem_quant0
                 gridDim data outlier dimx radius ebx2_r g in
     (0 <= g_quant g' id < 2 * radius)%Z) /\
  (forall gridDim_x gridDim_y dimx dimy x y,
     x < dimx -> y < dimy -> x < gridDim_x * 16 -> y < gridDim_y * 16 ->
     let g' := c_lorenzo_2d1l bits gridDim_x gridDim_y data outlier
                 dimx dimy dimx radius ebx2_r g in
     (0 <= g_quant g' (lin2 dimx x y) < 2 * radius)%Z) /\
  (forall shmem3_0 gridDim_x gridDim_y gridDim_z dimx dimy dimz x y z,
     x < dimx -> y < dimy -> z < dimz ->
     x < gridDim_x * 32 -> y < gridDim_y * 8 -> z < gridDim_z * 8 ->
     let g' := c_lorenzo_3d1l bits shmem3_0 gridDim_x gridDim_y gridDim_z
                 data outlier dimx dimy dimz dimx (dimx * dimy) radius
                 ebx2_r g in
     (0 <= g_quant g' (lin3 dimx dimy x y z) < 2 * radius)%Z).
Proof.
  intros Hr Hfit. split; [|split].
  - intros BLOCK SEQ shmem_data0 shmem_quant0 gridDim dimx id HS HB Hdiv
      Hg Hd g'.
    destruct (@c_lorenzo_1d1l_out bits BLOCK SEQ HS HB Hdiv shmem_data0
                shmem_quant0 gridDim data outlier dimx radius ebx2_r g id
                Hg Hd) as [_ HQ].
    fold g' in HQ. rewrite HQ.
    apply postquant_quant_range; [assumption|assumption|].
    apply lorenzo_delta1d_integral.
  - intros gridDim_x gridDim_y dimx dimy x y Rx Ry Gx Gy g'.
    destruct (out_at_postquant
                (@c_lorenzo_2d1l_spec bits dimx dimy data outlier radius
                   ebx2_r gridDim_x gridDim_y g x y Rx Ry Gx Gy)) as [HQ _].
    fold g' in HQ. rewrite HQ.
    apply postquant_quant_range; [assumption|assumption|].
    apply lorenzo_delta2d_integral.
  - intros shmem3_0 gridDim_x gridDim_y gridDim_z dimx dimy dimz x y z
      Rx Ry Rz Gx Gy Gz g'.
    destruct (out_at_postquant
                (@c_lorenzo_3d1l_spec bits shmem3_0 dimx dimy dimz data
                   outlier radius ebx2_r gridDim_x gridDim_y gridDim_z g
                   x y z Rx Ry Rz Gx Gy Gz)) as [HQ _].
    fold g' in HQ. rewrite HQ.
    apply postquant_quant_range; [assumption|assumption|].
    apply lorenzo_delta3d_integral.
Qed.

Lemma c_lorenzo_code_range_witness :
  (0 < 8)%Z /\ (2 * 8 <= 2 ^ 16)%Z /\
  let g := global_of scenario_grid in
  (let g' := c_lorenzo_1d1l 16 256 4 zero_shmem_data zero_shmem_quant
               1 0 0 9 8 1 g in
   let code := g_quant g' 7 in (0 <= code < 2 * 8)%Z) /\
  (let g' := c_lorenzo_2d1l 16 1 1 0 0 3 3 3 8 1 g in
   let code := g_quant g' (lin2 3 1 2) in (0 <= code < 2 * 8)%Z) /\
  (let g' := c_lorenzo_3d1l 16 zero_shmem3 1 1 1 0 0 3 3 1 3 (3 * 3) 8 1 g in
   let code := g_quant g' (lin3 3 3 1 2 0) in (0 <= code < 2 * 8)%Z).
Proof.
  assert (Hr : (0 < 8)%Z) by lia.
  assert (Hfit : (2 * 8 <= 2 ^ 16)%Z) by (vm_compute; discriminate).
  split; [exact Hr|]. split; [exact Hfit|]. intros g.
  destruct (@c_lorenzo_code_range 16 8 0 0 1%Q g Hr Hfit) as (H1 & H2 & H3).
  split; [|split].
  - apply (H1 256 4 zero_shmem_data zero_shmem_quant 1 9 7);
      [lia|lia|reflexivity|lia|lia].
  - apply (H2 1 1 3 3 1 2); lia.
  - apply (H3 zero_shmem3 1 1 1 3 3 1 1 2 0); lia.
Defined.

(* ================================================================== *)
(** ** The decompress-time 3D kernels *)

Lemma for_doubling_8 (S : Type) (body : nat -> S -> S) (s : S) :
  for_doubling 8 1 8 body s = body 4 (body 2 (body 1 s)).
Proof. reflexivity. Qed.

Lemma seg8_mod (s a : nat) : a < 8 -> (a + 8 * s) mod 8 = a.
Proof. intros H. symmetry. apply Nat.mod_unique with (q := s); lia. Qed.

Lemma seg8_div (s a : nat) : a < 8 -> (a + 8 * s) / 8 = s.
Proof. intros H. symmetry. apply Nat.div_unique with (r := a); lia. Qed.

(** One round of the in-warp sum doubles the window each lane of a
    segment has summed. *)
Lemma x_lorenzo_3d1l_round_window (w : nat) (val : regs3) (v0 : mem Q)
    (TIZ s : nat) :
  1 <= w ->
  (forall a, a < 8 ->
     (val TIZ (a + 8 * s)%nat
      == prefix_sum (fun k => v0 (8 * s + (a - Nat.min a (w - 1)) + k)%nat)
           (Nat.min a (w - 1)))%Q) ->
  forall a, a < 8 ->
    (x_lorenzo_3d1l_round w val TIZ (a + 8 * s)%nat
     == prefix_sum (fun k => v0 (8 * s + (a - Nat.min a (2 * w - 1)) + k)%nat)
          (Nat.min a (2 * w - 1)))%Q.
Proof.
  intros Hw H a Ha. unfold x_lorenzo_3d1l_round. cbv zeta.
  rewrite seg8_mod by assumption.
  destruct (Nat.leb_spec w a) as [Hwa|Hwa].
  - unfold shfl_up_sync. rewrite seg8_mod by assumption.
    destruct (Nat.ltb_spec a w); [lia|].
    replace (a + 8 * s - w) with (a - w + 8 * s) by lia.
    rewrite (H a Ha), (H (a - w)) by lia.
    set (m' := Nat.min (a - w) (w - 1)).
    replace (Nat.min a (w - 1)) with (w - 1) by lia.
    replace (Nat.min a (2 * w - 1)) with (m' + 1 + (w - 1)) by (unfold m'; lia).
    rewrite prefix_sum_split.
    rewrite Qplus_comm. apply Qplus_comp.
    + apply Qeq_of_eq. apply prefix_sum_ext. intros k Hk. f_equal. lia.
    + apply Qeq_of_eq. apply prefix_sum_ext. intros k Hk. f_equal. lia.
  - rewrite (H a Ha).
    replace (Nat.min a (w - 1)) with a by lia.
    replace (Nat.min a (2 * w - 1)) with a by lia. reflexivity.
Qed.

(** The in-warp sum: each lane ends with the sum of the values of its
    segment up to its own. *)
Lemma x_lorenzo_3d1l_scan_spec (val : regs3) (TIZ s a : nat) :
  a < 8 ->
  (x_lorenzo_3d1l_scan 8 val TIZ (a + 8 * s)%nat
   == prefix_sum (fun k => val TIZ (k + 8 * s)%nat) a)%Q.
Proof.
  intros Ha. unfold x_lorenzo_3d1l_scan. rewrite for_doubling_8.
  set (v0 := val TIZ).
  assert (H1 : forall a, a < 8 ->
            (val TIZ (a + 8 * s)%nat
             == prefix_sum
                  (fun k => v0 (8 * s + (a - Nat.min a (1 - 1)) + k)%nat)
                  (Nat.min a (1 - 1)))%Q).
  { intros a' _. replace (Nat.min a' (1 - 1)) with 0 by lia.
    cbn [prefix_sum]. unfold v0. apply Qeq_of_eq. f_equal. lia. }
  pose proof (@x_lorenzo_3d1l_round_window 1 _ v0 TIZ s ltac:(lia) H1) as H2.
  pose proof (@x_lorenzo_3d1l_round_window 2 _ v0 TIZ s ltac:(lia) H2) as H4.
  pose proof (@x_lorenzo_3d1l_round_window 4 _ v0 TIZ s ltac:(lia) H4) as H8.
  rewrite (H8 a Ha).
  replace (Nat.min a (2 * 4 - 1)) with a by lia.
  apply Qeq_of_eq. apply prefix_sum_ext. intros k _. unfold v0. f_equal. lia.
Qed.

(** The transpose: thread ([a] of segment [s], [z]) gets the value of
    thread ([z] of segment [s], [a]). *)
Lemma x_lorenzo_3d1l_transpose_spec (sh : shmem3) (val : regs3) (z s a : nat) :
  z < 8 -> s < 4 -> a < 8 ->
  snd (x_lorenzo_3d1l_transpose (sh, val)) z (a + 8 * s)
  = val a (z + 8 * s).
Proof.
  intros Hz Hs Ha. unfold x_lorenzo_3d1l_transpose. cbn [fst snd].
  rewrite seg8_mod, seg8_div by assumption.
  set (obs := fun sh : shmem3 => sh a s z).
  unfold for_threads_3d.
  assert (Hstep : forall TIX TIZ (acc : shmem3),
            obs (store3 acc TIZ (TIX / 8) (TIX mod 8) (val TIZ TIX))
            = val a (z + 8 * s) \/
            obs (store3 acc TIZ (TIX / 8) (TIX mod 8) (val TIZ TIX))
            = obs acc).
  { intros TIX TIZ acc. unfold obs.
    destruct (Nat.eq_dec a TIZ) as [<-|Hne1];
      [destruct (Nat.eq_dec s (TIX / 8)) as [E2|Hne2];
       [destruct (Nat.eq_dec z (TIX mod 8)) as [E3|Hne3]|]|].
    - left. rewrite E2, E3, store3_eq. f_equal.
      pose proof (Nat.div_mod_eq TIX 8). lia.
    - right. apply store3_neq. auto.
    - right. apply store3_neq. auto.
    - right. apply store3_neq. auto. }
  apply (loop_writes obs) with (i0 := a); [lia| |].
  - intros acc. apply (loop_writes obs) with (i0 := z + 8 * s); [lia| |].
    + intros acc'. unfold obs.
      replace ((z + 8 * s) / 8) with s by (symmetry; now apply seg8_div).
      replace ((z + 8 * s) mod 8) with z by (symmetry; now apply seg8_mod).
      apply store3_eq.
    + intros TIX acc' _. apply Hstep.
  - intros TIZ acc _. apply (loop_writes_only obs). intros TIX acc' _.
    apply Hstep.
Qed.

(** The partial sums along x and z. *)
Lemma x_lorenzo_3d1l_sum_xz_spec (sh : shmem3) (val : regs3) (z s a : nat) :
  z < 8 -> s < 4 -> a < 8 ->
  (snd (x_lorenzo_3d1l_sum_xz 8 (sh, val)) z (a + 8 * s)%nat
   == prefix_sum
        (fun k => prefix_sum (fun i => val k (i + 8 * s)%nat) a) z)%Q.
Proof.
  intros Hz Hs Ha. unfold x_lorenzo_3d1l_sum_xz. cbn [fst snd].
  match goal with
  | |- (snd (x_lorenzo_3d1l_transpose ?st) _ _ == _)%Q =>
      rewrite (surjective_pairing st)
  end.
  rewrite x_lorenzo_3d1l_transpose_spec by assumption. cbn [fst snd].
  rewrite x_lorenzo_3d1l_scan_spec by assumption.
  apply prefix_sum_Qeq. intros k Hk.
  match goal with
  | |- (snd (x_lorenzo_3d1l_transpose ?st) _ _ == _)%Q =>
      rewrite (surjective_pairing st)
  end.
  rewrite x_lorenzo_3d1l_transpose_spec by lia. cbn [fst snd].
  apply x_lorenzo_3d1l_scan_spec. assumption.
Qed.

(** All rows: row [i] of each thread ends as the sum along x and z of the
    rows [i] of its tile. *)
Lemma x_lorenzo_3d1l_rows_spec (intermediate3_0 : shmem3) (ts : regfile3)
    (i z s a : nat) :
  i < 8 -> z < 8 -> s < 4 -> a < 8 ->
  (snd (x_lorenzo_3d1l_rows intermediate3_0 8 ts) z (a + 8 * s)%nat i
   == prefix_sum
        (fun k => prefix_sum (fun c => ts k (c + 8 * s)%nat i) a) z)%Q.
Proof.
  intros Hi Hz Hs Ha. unfold x_lorenzo_3d1l_rows.
  set (P := fun n (st : shmem3 * regfile3) =>
    forall j,
      (j < n -> forall z s a, z < 8 -> s < 4 -> a < 8 ->
         (snd st z (a + 8 * s)%nat j
          == prefix_sum
               (fun k => prefix_sum (fun c => ts k (c + 8 * s)%nat j) a) z)%Q)
      /\ (n <= j -> forall TIZ TIX, snd st TIZ TIX j = ts TIZ TIX j)).
  match goal with
  | |- (snd (for_loop 0 8 ?body ?st0) _ _ _ == _)%Q =>
      assert (H : P 8 (for_loop 0 8 body st0))
  end.
  { apply (@for_loop_ind _ P); [lia| |].
    - intros j. split; [lia|reflexivity].
    - intros n st Hn IH j. cbv zeta. cbn [snd]. split.
      + intros Hj z' s' a' Hz' Hs' Ha'.
        destruct (Nat.eq_dec j n) as [->|Hne].
        * rewrite store_eq.
          rewrite x_lorenzo_3d1l_sum_xz_spec by assumption.
          apply prefix_sum_Qeq. intros k _.
          apply Qeq_of_eq. apply prefix_sum_ext. intros c _.
          apply (proj2 (IH n)). lia.
        * rewrite store_neq by assumption.
          apply (proj1 (IH j)); [lia|assumption..].
      + intros Hj TIZ TIX. rewrite store_neq by lia.
        apply (proj2 (IH j)). lia. }
  apply (proj1 (H i)); assumption.
Qed.

Section KernelX3DFacts.

Variables (intermediate3_0 : shmem3) (thread_scope3_0 : regfile3).
Variables dimx dimy dimz : nat.
Local Abbreviation stridey := dimx.
Local Abbreviation stridez := (dimx * dimy).
Variables (outlier xdata : ptr) (radius : Z) (ebx2 : Q).
Variables BIX BIY BIZ : nat.

Local Abbreviation gix TIX := (BIX * (4 * 8) + TIX).
Local Abbreviation giy_base := (BIY * 8).
Local Abbreviation giz TIZ := (BIZ * 8 + TIZ).
Local Abbreviation in_block := (in_block3 dimx dimy dimz BIX BIY BIZ).
Local Abbreviation lin := (lin3 dimx dimy).

Lemma x_lorenzo_3d1l_gid (TIZ TIX y : nat) :
  giz TIZ * stridez + (giy_base + y) * stridey + gix TIX
  = lin (BIX * 32 + TIX) (BIY * 8 + y) (BIZ * 8 + TIZ).
Proof. unfold lin3. nia. Qed.

Lemma x_lorenzo_3d1l_write_phase (scanned : regfile3) (gd : dmem)
    (x y z : nat) :
  in_block x y z ->
  x_lorenzo_3d1l_write 8 xdata dimx dimy dimz stridey stridez ebx2
    (fun TIX => gix TIX) giy_base (fun TIZ => giz TIZ) scanned gd
    xdata (lin x y z)
  = (scanned (z - BIZ * 8)%nat (x - BIX * 32)%nat (y - BIY * 8)%nat * ebx2)%Q.
Proof.
  intros [(Bx & By & Bz) (Rx & Ry & Rz)].
  unfold x_lorenzo_3d1l_write. cbv beta zeta.
  set (v := (scanned (z - BIZ * 8)%nat (x - BIX * 32)%nat (y - BIY * 8)%nat
             * ebx2)%Q).
  set (obs := fun gd : dmem => gd xdata (lin x y z)).
  assert (Hstep : forall TIX TIZ y' (acc : dmem),
    let acc' :=
      if (gix TIX <? dimx) && (giy_base + y' <? dimy) && (giz TIZ <? dimz)
      then dstore acc xdata
             (giz TIZ * stridez + (giy_base + y') * stridey + gix TIX)
             (scanned TIZ TIX y' * ebx2)%Q
      else acc in
    obs acc' = v \/ obs acc' = obs acc).
  { intros TIX TIZ y' acc. cbv zeta. rewrite x_lorenzo_3d1l_gid.
    destruct (Nat.ltb_spec (gix TIX) dimx) as [Gx|Gx]; [|now right].
    destruct (Nat.ltb_spec (giy_base + y') dimy) as [Gy|Gy]; [|now right].
    destruct (Nat.ltb_spec (giz TIZ) dimz) as [Gz|Gz]; [|now right].
    cbn [andb]. unfold obs.
    destruct (Nat.eq_dec (lin x y z)
                (lin (BIX * 32 + TIX) (BIY * 8 + y') (BIZ * 8 + TIZ)))
      as [E|Hne].
    - left. rewrite E, dstore_eq. unfold lin3 in E.
      destruct (@lin3_inj dimx dimy x y z (BIX * 32 + TIX) (BIY * 8 + y')
                  (BIZ * 8 + TIZ) Rx ltac:(lia) Ry Gy E) as (Ex & Ey & Ez).
      unfold v. subst x y z.
      replace (BIZ * 8 + TIZ - BIZ * 8) with TIZ by lia.
      replace (BIY * 8 + y' - BIY * 8) with y' by lia.
      replace (BIX * 32 + TIX - BIX * 32) with TIX by lia. reflexivity.
    - right. rewrite dstore_neq by auto. reflexivity. }
  unfold for_threads_3d.
  apply (loop_writes obs) with (i0 := z - BIZ * 8); [lia| |].
  - intros acc. apply (loop_writes obs) with (i0 := x - BIX * 32); [lia| |].
    + intros acc'.
      apply (loop_writes obs) with (i0 := y - BIY * 8); [lia| |].
      * intros acc''. rewrite x_lorenzo_3d1l_gid.
        replace (BIX * (4 * 8) + (x - BIX * 32)) with x by lia.
        replace (BIX * 32 + (x - BIX * 32)) with x by lia.
        replace (BIY * 8 + (y - BIY * 8)) with y by lia.
        replace (BIZ * 8 + (z - BIZ * 8)) with z by lia.
        destruct (Nat.ltb_spec x dimx); [|lia].
        destruct (Nat.ltb_spec y dimy); [|lia].
        destruct (Nat.ltb_spec z dimz); [|lia]. cbn [andb].
        unfold obs. rewrite dstore_eq. reflexivity.
      * intros y' acc'' _. apply Hstep.
    + intros TIX acc' _.
      apply (loop_writes_only obs). intros y' acc'' _. apply Hstep.
  - intros TIZ acc _. apply (loop_writes_only obs). intros TIX acc' _.
    apply (loop_writes_only obs). intros y' acc'' _. apply Hstep.
Qed.

Lemma x_lorenzo_3d1l_write_frame (scanned : regfile3) (gd : dmem) (p : ptr)
    (id : nat) :
  p <> xdata \/ (forall x y z, in_block x y z -> id <> lin x y z) ->
  x_lorenzo_3d1l_write 8 xdata dimx dimy dimz stridey stridez ebx2
    (fun TIX => gix TIX) giy_base (fun TIZ => giz TIZ) scanned gd p id
  = gd p id.
Proof.
  intros Hout. unfold x_lorenzo_3d1l_write. cbv beta zeta.
  unfold for_threads_3d.
  apply (loop_preserves (fun gd : dmem => gd p id)). intros TIZ acc HTIZ.
  apply (loop_preserves (fun gd : dmem => gd p id)). intros TIX acc' HTIX.
  apply (loop_preserves (fun gd : dmem => gd p id)). intros y acc'' Hy.
  rewrite x_lorenzo_3d1l_gid.
  destruct (Nat.ltb_spec (gix TIX) dimx) as [Gx|Gx]; [|reflexivity].
  destruct (Nat.ltb_spec (giy_base + y) dimy) as [Gy|Gy]; [|reflexivity].
  destruct (Nat.ltb_spec (giz TIZ) dimz) as [Gz|Gz]; [|reflexivity].
  cbn [andb]. apply dstore_neq.
  destruct Hout as [Hout|Hout]; [now left|right].
  apply Hout. unfold in_block3. lia.
Qed.

(** The sums along y that a thread holds before the rows are summed
    along x and z. *)
Lemma x_lorenzo_3d1l_sum_y_spec (g : Global) (O : mem Q) (Qc : mem Z)
    (TIZ TIX y : nat) :
  TIZ < 8 -> TIX < 32 -> y < 8 ->
  BIX * 32 + TIX < dimx -> BIY * 8 + y < dimy -> BIZ * 8 + TIZ < dimz ->
  (forall x' y' z', in_block x' y' z' ->
     g_data g outlier (lin x' y' z') = O (lin x' y' z') /\
     g_quant g (lin x' y' z') = Qc (lin x' y' z')) ->
  (x_lorenzo_3d1l_sum_y 8
     (x_lorenzo_3d1l_fuse thread_scope3_0 8 g outlier dimx dimy dimz stridey
        stridez radius (fun TIX => gix TIX) giy_base (fun TIZ => giz TIZ))
     TIZ TIX y
   == prefix_sum
        (fun j => fuse O Qc radius
                    (lin (BIX * 32 + TIX) (BIY * 8 + j) (BIZ * 8 + TIZ))) y)%Q.
Proof.
  intros HZ HX Hy Rx Ry Rz Hs. unfold x_lorenzo_3d1l_sum_y.
  rewrite running_sum_loop by lia.
  apply Qeq_of_eq. apply prefix_sum_ext. intros j Hj.
  unfold x_lorenzo_3d1l_fuse. cbv beta zeta.
  rewrite fuse_loop by lia.
  destruct (Nat.ltb_spec (gix TIX) dimx); [|lia].
  destruct (Nat.ltb_spec (giy_base + j) dimy); [|lia].
  destruct (Nat.ltb_spec (giz TIZ) dimz); [|lia].
  cbn [andb]. rewrite x_lorenzo_3d1l_gid. unfold fuse.
  destruct (Hs (BIX * 32 + TIX) (BIY * 8 + j) (BIZ * 8 + TIZ)) as [E1 E2];
    [unfold in_block3; lia|].
  rewrite E1, E2. reflexivity.
Qed.

(** One thread block. *)
Lemma x_lorenzo_3d1l_block_spec (g : Global) (O : mem Q) (Qc : mem Z)
    (x y z : nat) :
  (forall x' y' z', in_block x' y' z' ->
     g_data g outlier (lin x' y' z') = O (lin x' y' z') /\
     g_quant g (lin x' y' z') = Qc (lin x' y' z')) ->
  in_block x y z ->
  (g_data (x_lorenzo_3d1l_block intermediate3_0 thread_scope3_0 outlier xdata
             dimx dimy dimz stridey stridez radius ebx2 BIX BIY BIZ g)
     xdata (lin x y z)
   == tile_prefix_sum3 (fun x' y' z' => fuse O Qc radius (lin x' y' z')) x y z
      * ebx2)%Q.
Proof.
  intros Hs Hin. unfold x_lorenzo_3d1l_block. cbv zeta. cbn [g_data].
  rewrite x_lorenzo_3d1l_write_phase by assumption.
  destruct Hin as [(Bx & By & Bz) (Rx & Ry & Rz)].
  apply Qmult_comp; [|reflexivity].
  set (tx := x - BIX * 32). set (ty := y - BIY * 8). set (tz := z - BIZ * 8).
  pose proof (Nat.div_mod_eq tx 8) as Hdm.
  pose proof (Nat.mod_upper_bound tx 8 ltac:(lia)) as Hmb.
  assert (Hs4 : tx / 8 < 4)
    by (apply Nat.Div0.div_lt_upper_bound; unfold tx; lia).
  set (s := tx / 8) in *. set (a := tx mod 8) in *.
  replace tx with (a + 8 * s) by lia.
  rewrite x_lorenzo_3d1l_rows_spec by (unfold ty, tz; lia).
  unfold tile_prefix_sum3.
  assert (Ex : x / 8 * 8 = BIX * 32 + 8 * s).
  { assert (x / 8 = BIX * 4 + s).
    { symmetry. apply Nat.div_unique with (r := a); unfold tx in *; lia. }
    lia. }
  assert (Emx : x mod 8 = a).
  { symmetry. apply Nat.mod_unique with (q := BIX * 4 + s);
      unfold tx in *; lia. }
  assert (Ey : y / 8 * 8 = BIY * 8).
  { assert (y / 8 = BIY)
      by (symmetry; apply Nat.div_unique with (r := ty); unfold ty; lia).
    lia. }
  assert (Emy : y mod 8 = ty)
    by (symmetry; apply Nat.mod_unique with (q := BIY); unfold ty; lia).
  assert (Ez : z / 8 * 8 = BIZ * 8).
  { assert (z / 8 = BIZ)
      by (symmetry; apply Nat.div_unique with (r := tz); unfold tz; lia).
    lia. }
  assert (Emz : z mod 8 = tz)
    by (symmetry; apply Nat.mod_unique with (q := BIZ); unfold tz; lia).
  rewrite Ex, Emx, Ey, Emy, Ez, Emz.
  apply prefix_sum_Qeq. intros k Hk. apply prefix_sum_Qeq. intros c Hc.
  rewrite x_lorenzo_3d1l_sum_y_spec with (O := O) (Qc := Qc);
    [|unfold tx, ty, tz in *; lia..|assumption].
  apply Qeq_of_eq. apply prefix_sum_ext. intros j Hj.
  f_equal. f_equal; lia.
Qed.

Lemma x_lorenzo_3d1l_block_frame (g : Global) (p : ptr) (id : nat) :
  let g' := x_lorenzo_3d1l_block intermediate3_0 thread_scope3_0 outlier
              xdata dimx dimy dimz stridey stridez radius ebx2 BIX BIY BIZ
              g in
  g_quant g' = g_quant g /\
  (p <> xdata \/ (forall x y z, in_block x y z -> id <> lin x y z) ->
   g_data g' p id = g_data g p id).
Proof.
  unfold x_lorenzo_3d1l_block. cbv zeta. cbn [g_data g_quant].
  split; [reflexivity|]. apply x_lorenzo_3d1l_write_frame.
Qed.

End KernelX3DFacts.

Section Grids3.

Variables (S V : Type) (get : S -> V) (Inv : S -> Prop).

Lemma nest3_sets_at (gx gy gz : nat) (body : nat -> nat -> nat -> S -> S)
    (bx by_ bz : nat) (Pv : V -> Prop) (s : S) :
  bx < gx -> by_ < gy -> bz < gz -> Inv s ->
  (forall i j k, i <> bx \/ j <> by_ \/ k <> bz ->
     preserving get Inv (body i j k)) ->
  (forall acc, Inv acc -> Pv (get (body bx by_ bz acc))) ->
  Pv (get (for_loop 0 gz (fun k s =>
             for_loop 0 gy (fun j s =>
               for_loop 0 gx (fun i s => body i j k s) s) s) s)).
Proof.
  intros Hbx Hby Hbz Hs Hother Hthis.
  apply loop_sets_at with (Inv := Inv) (i0 := bz); [lia|exact Hs| |].
  - intros k _ Hk. apply loop_preserving. intros j _.
    apply loop_preserving. intros i _. apply Hother. auto.
  - intros acc Hacc.
    apply loop_sets_at with (Inv := Inv) (i0 := by_); [lia|exact Hacc| |].
    + intros j _ Hj. apply loop_preserving. intros i _. apply Hother. auto.
    + intros acc' Hacc'.
      apply loop_sets_at with (Inv := Inv) (i0 := bx); [lia|exact Hacc'| |].
      * intros i _ Hi. apply Hother. auto.
      * exact Hthis.
Qed.

End Grids3.

Lemma in_block3_of (dimx dimy dimz x y z : nat) :
  x < dimx -> y < dimy -> z < dimz ->
  in_block3 dimx dimy dimz (x / 32) (y / 8) (z / 8) x y z.
Proof.
  intros Rx Ry Rz. unfold in_block3.
  pose proof (Nat.div_mod_eq x 32). pose proof (Nat.mod_upper_bound x 32).
  pose proof (Nat.div_mod_eq y 8). pose proof (Nat.mod_upper_bound y 8).
  pose proof (Nat.div_mod_eq z 8). pose proof (Nat.mod_upper_bound z 8).
  lia.
Qed.

Section KernelX3DGrid.

Variables (intermediate3_0 : shmem3) (thread_scope3_0 : regfile3).
Variables dimx dimy dimz : nat.
Variables (outlier xdata : ptr) (radius : Z) (ebx2 : Q).
Variables gridDim_x gridDim_y gridDim_z : nat.

(** A grid of blocks that each satisfy the block specification and frame
    satisfies the grid specification. *)
Lemma x_lorenzo_3d_grid (block : nat -> nat -> nat -> Global -> Global)
    (g : Global) (x y z : nat) :
  (forall i j k acc O Qc x y z,
     (forall x' y' z', in_block3 dimx dimy dimz i j k x' y' z' ->
        g_data acc outlier (lin3 dimx dimy x' y' z') = O (lin3 dimx dimy x' y' z')
        /\ g_quant acc (lin3 dimx dimy x' y' z') = Qc (lin3 dimx dimy x' y' z')) ->
     in_block3 dimx dimy dimz i j k x y z ->
     (g_data (block i j k acc) xdata (lin3 dimx dimy x y z)
      == tile_prefix_sum3
           (fun x' y' z' => fuse O Qc radius (lin3 dimx dimy x' y' z')) x y z
         * ebx2)%Q) ->
  (forall i j k acc,
     g_quant (block i j k acc) = g_quant acc /\
     forall p id,
       p <> xdata \/
       (forall x y z, in_block3 dimx dimy dimz i j k x y z ->
          id <> lin3 dimx dimy x y z) ->
       g_data (block i j k acc) p id = g_data acc p id) ->
  x < dimx -> y < dimy -> z < dimz ->
  x < gridDim_x * 32 -> y < gridDim_y * 8 -> z < gridDim_z * 8 ->
  (g_data
     (for_loop 0 gridDim_z (fun BIZ g =>
        for_loop 0 gridDim_y (fun BIY g =>
          for_loop 0 gridDim_x (fun BIX g => block BIX BIY BIZ g) g) g) g)
     xdata (lin3 dimx dimy x y z)
   == tile_prefix_sum3
        (fun x' y' z' => fuse (g_data g outlier) (g_quant g) radius
                           (lin3 dimx dimy x' y' z')) x y z
      * ebx2)%Q.
Proof.
  intros Hspec Hframe Rx Ry Rz Gx Gy Gz.
  pose proof (in_block3_of Rx Ry Rz) as Hin.
  set (bx := x / 32) in *. set (by_ := y / 8) in *. set (bz := z / 8) in *.
  set (Inv := fun acc : Global =>
    forall x' y' z', in_block3 dimx dimy dimz bx by_ bz x' y' z' ->
      g_data acc outlier (lin3 dimx dimy x' y' z')
      = g_data g outlier (lin3 dimx dimy x' y' z')
      /\ g_quant acc (lin3 dimx dimy x' y' z')
         = g_quant g (lin3 dimx dimy x' y' z')).
  apply (@nest3_sets_at _ _
           (fun acc : Global => g_data acc xdata (lin3 dimx dimy x y z))
           Inv gridDim_x gridDim_y gridDim_z block bx by_ bz
           (fun v => (v == tile_prefix_sum3
                            (fun x' y' z' =>
                               fuse (g_data g outlier) (g_quant g) radius
                                 (lin3 dimx dimy x' y' z')) x y z
                          * ebx2)%Q)).
  - destruct Hin as [(Bx & _) _]. lia.
  - destruct Hin as [(_ & By & _) _]. lia.
  - destruct Hin as [(_ & _ & Bz) _]. lia.
  - intros x' y' z' _. split; reflexivity.
  - intros i j k Hne acc. destruct (Hframe i j k acc) as [Eq Hd]. split.
    + intros Hacc x' y' z' Hin'.
      rewrite Eq, Hd; [apply Hacc; assumption|].
      right. intros x'' y'' z'' Hin''.
      apply (in_block3_disjoint Hin' Hin''). intuition congruence.
    + apply Hd. right. intros x'' y'' z'' Hin''.
      apply (in_block3_disjoint Hin Hin''). intuition congruence.
  - intros acc Hacc. apply Hspec; assumption.
Qed.

Lemma x_lorenzo_3d_grid_frame (block : nat -> nat -> nat -> Global -> Global)
    (g : Global) :
  (forall i j k acc,
     g_quant (block i j k acc) = g_quant acc /\
     forall p id,
       p <> xdata \/
       (forall x y z, in_block3 dimx dimy dimz i j k x y z ->
          id <> lin3 dimx dimy x y z) ->
       g_data (block i j k acc) p id = g_data acc p id) ->
  let g' := for_loop 0 gridDim_z (fun BIZ g =>
              for_loop 0 gridDim_y (fun BIY g =>
                for_loop 0 gridDim_x (fun BIX g => block BIX BIY BIZ g) g) g)
              g in
  g_quant g' = g_quant g /\
  (forall p id,
     p <> xdata \/
     (forall x y z, x < dimx -> y < dimy -> z < dimz ->
        x < gridDim_x * 32 -> y < gridDim_y * 8 -> z < gridDim_z * 8 ->
        id <> lin3 dimx dimy x y z) ->
     g_data g' p id = g_data g p id).
Proof.
  intros Hframe. cbv zeta. split.
  - apply (loop_preserves g_quant). intros k acc Hk.
    apply (loop_preserves g_quant). intros j acc' Hj.
    apply (loop_preserves g_quant). intros i acc'' Hi.
    apply Hframe.
  - intros p id Hout.
    apply (loop_preserves (fun g : Global => g_data g p id)). intros k acc Hk.
    apply (loop_preserves (fun g : Global => g_data g p id)). intros j acc' Hj.
    apply (loop_preserves (fun g : Global => g_data g p id)).
    intros i acc'' Hi.
    apply Hframe.
    destruct Hout as [Hout|Hout]; [now left|right].
    intros x y z [(Bx & By & Bz) (Rx & Ry & Rz)]. apply Hout; lia.
Qed.

Lemma x_lorenzo_3d1l_block_ok (i j k : nat) (acc : Global) :
  g_quant (x_lorenzo_3d1l_block intermediate3_0 thread_scope3_0 outlier xdata
             dimx dimy dimz dimx (dimx * dimy) radius ebx2 i j k acc)
  = g_quant acc /\
  forall p id,
    p <> xdata \/
    (forall x y z, in_block3 dimx dimy dimz i j k x y z ->
       id <> lin3 dimx dimy x y z) ->
    g_data (x_lorenzo_3d1l_block intermediate3_0 thread_scope3_0 outlier xdata
              dimx dimy dimz dimx (dimx * dimy) radius ebx2 i j k acc) p id
    = g_data acc p id.
Proof.
  split.
  - apply (@x_lorenzo_3d1l_block_frame intermediate3_0 thread_scope3_0 dimx
             dimy dimz outlier xdata radius ebx2 i j k acc 0 0).
  - intros p id. 
    apply (@x_lorenzo_3d1l_block_frame intermediate3_0 thread_scope3_0 dimx
             dimy dimz outlier xdata radius ebx2 i j k acc p id).
Qed.

(** The whole grid of the 3D inverse kernel. *)
Lemma x_lorenzo_3d1l_spec (g : Global) (x y z : nat) :
  x < dimx -> y < dimy -> z < dimz ->
  x < gridDim_x * 32 -> y < gridDim_y * 8 -> z < gridDim_z * 8 ->
  (g_data (x_lorenzo_3d1l intermediate3_0 thread_scope3_0 gridDim_x gridDim_y
             gridDim_z outlier xdata dimx dimy dimz dimx (dimx * dimy)
             radius ebx2 g) xdata (lin3 dimx dimy x y z)
   == tile_prefix_sum3
        (fun x' y' z' => fuse (g_data g outlier) (g_quant g) radius
                           (lin3 dimx dimy x' y' z')) x y z
      * ebx2)%Q.
Proof.
  unfold x_lorenzo_3d1l.
  apply (@x_lorenzo_3d_grid
           (fun i j k acc =>
              x_lorenzo_3d1l_block intermediate3_0 thread_scope3_0 outlier
                xdata dimx dimy dimz dimx (dimx * dimy) radius ebx2 i j k acc)).
  - intros i j k acc O Qc x' y' z' Hs Hin.
    apply (@x_lorenzo_3d1l_block_spec intermediate3_0 thread_scope3_0 dimx
             dimy dimz outlier xdata radius ebx2 i j k acc O Qc x' y' z' Hs
             Hin).
  - intros i j k acc. apply x_lorenzo_3d1l_block_ok.
Qed.

End KernelX3DGrid.

Section KernelX3DVarFacts.

Variable intermediate3_0 : shmem3.
Variables dimx dimy dimz : nat.
Local Abbreviation stridey := dimx.
Local Abbreviation stridez := (dimx * dimy).
Variables (outlier xdata : ptr) (radius : Z) (ebx2 : Q).
Variables BIX BIY BIZ : nat.

Local Abbreviation gix TIX := (BIX * (4 * 8) + TIX).
Local Abbreviation giy_base := (BIY * 8).
Local Abbreviation giz TIZ := (BIZ * 8 + TIZ).
Local Abbreviation in_block := (in_block3 dimx dimy dimz BIX BIY BIZ).
Local Abbreviation lin := (lin3 dimx dimy).

(** The running sum over a tile, in the coordinates of the block. *)
Lemma tile_prefix_sum3_in_block (f : nat -> nat -> nat -> Q) (x y z : nat) :
  in_block x y z ->
  let tx := x - BIX * 32 in
  tile_prefix_sum3 f x y z
  = prefix_sum
      (fun k =>
         prefix_sum
           (fun c =>
              prefix_sum
                (fun j => f (BIX * 32 + (c + 8 * (tx / 8)))%nat
                            (BIY * 8 + j)%nat (BIZ * 8 + k)%nat)
                (y - BIY * 8))
           (tx mod 8))
      (z - BIZ * 8).
Proof.
  intros [(Bx & By & Bz) (Rx & Ry & Rz)] tx.
  pose proof (Nat.div_mod_eq tx 8) as Hdm.
  pose proof (Nat.mod_upper_bound tx 8 ltac:(lia)) as Hmb.
  unfold tile_prefix_sum3.
  assert (Ex : x / 8 * 8 = BIX * 32 + 8 * (tx / 8)).
  { assert (x / 8 = BIX * 4 + tx / 8).
    { symmetry. apply Nat.div_unique with (r := tx mod 8); unfold tx in *; lia. }
    lia. }
  assert (Emx : x mod 8 = tx mod 8).
  { symmetry. apply Nat.mod_unique with (q := BIX * 4 + tx / 8);
      unfold tx in *; lia. }
  assert (Ey : y / 8 * 8 = BIY * 8).
  { assert (y / 8 = BIY)
      by (symmetry; apply Nat.div_unique with (r := y - BIY * 8); lia).
    lia. }
  assert (Emy : y mod 8 = y - BIY * 8)
    by (symmetry; apply Nat.mod_unique with (q := BIY); lia).
  assert (Ez : z / 8 * 8 = BIZ * 8).
  { assert (z / 8 = BIZ)
      by (symmetry; apply Nat.div_unique with (r := z - BIZ * 8); lia).
    lia. }
  assert (Emz : z mod 8 = z - BIZ * 8)
    by (symmetry; apply Nat.mod_unique with (q := BIZ); lia).
  rewrite Ex, Emx, Ey, Emy, Ez, Emz.
  apply prefix_sum_ext. intros k _. apply prefix_sum_ext. intros c _.
  apply prefix_sum_ext. intros j _. f_equal. lia.
Qed.

(** The store of one row by all threads. *)
Lemma x_lorenzo_3d1lvar_write_row (val : regs3) (gd : dmem) (n : nat) :
  n < 8 ->
  let gd' :=
    for_threads_3d (fun TIX TIZ gd =>
      if (gix TIX <? dimx) && (giy_base + n <? dimy) && (giz TIZ <? dimz)
      then dstore gd xdata
             (giz TIZ * stridez + (giy_base + n) * stridey + gix TIX)
             (val TIZ TIX * ebx2)%Q
      else gd) gd in
  (forall x z, in_block x (BIY * 8 + n) z ->
     gd' xdata (lin x (BIY * 8 + n) z)
     = (val (z - BIZ * 8)%nat (x - BIX * 32)%nat * ebx2)%Q) /\
  (forall p id,
     p <> xdata \/
     (forall x z, in_block x (BIY * 8 + n) z -> id <> lin x (BIY * 8 + n) z) ->
     gd' p id = gd p id).
Proof.
  intros Hn. cbv zeta. split.
  - intros x z [(Bx & By & Bz) (Rx & Ry & Rz)].
    set (v := (val (z - BIZ * 8)%nat (x - BIX * 32)%nat * ebx2)%Q).
    set (obs := fun gd : dmem => gd xdata (lin x (BIY * 8 + n) z)).
    assert (Hstep : forall TIX TIZ (acc : dmem),
      let acc' :=
        if (gix TIX <? dimx) && (giy_base + n <? dimy) && (giz TIZ <? dimz)
        then dstore acc xdata
               (giz TIZ * stridez + (giy_base + n) * stridey + gix TIX)
               (val TIZ TIX * ebx2)%Q
        else acc in
      obs acc' = v \/ obs acc' = obs acc).
    { intros TIX TIZ acc. cbv zeta.
      rewrite (@x_lorenzo_3d1l_gid dimx dimy BIX BIY BIZ).
      destruct (Nat.ltb_spec (gix TIX) dimx) as [Gx|Gx]; [|now right].
      destruct (Nat.ltb_spec (giy_base + n) dimy) as [Gy|Gy]; [|now right].
      destruct (Nat.ltb_spec (giz TIZ) dimz) as [Gz|Gz]; [|now right].
      cbn [andb]. unfold obs.
      destruct (Nat.eq_dec (lin x (BIY * 8 + n) z)
                  (lin (BIX * 32 + TIX) (BIY * 8 + n) (BIZ * 8 + TIZ)))
        as [E|Hne].
      - left. rewrite E, dstore_eq. unfold lin3 in E.
        destruct (@lin3_inj dimx dimy x (BIY * 8 + n) z (BIX * 32 + TIX)
                    (BIY * 8 + n) (BIZ * 8 + TIZ) Rx ltac:(lia) Ry Gy E)
          as (Ex & _ & Ez).
        unfold v. subst x z.
        replace (BIZ * 8 + TIZ - BIZ * 8) with TIZ by lia.
        replace (BIX * 32 + TIX - BIX * 32) with TIX by lia. reflexivity.
      - right. rewrite dstore_neq by auto. reflexivity. }
    unfold for_threads_3d.
    apply (loop_writes obs) with (i0 := z - BIZ * 8); [lia| |].
    + intros acc. apply (loop_writes obs) with (i0 := x - BIX * 32); [lia| |].
      * intros acc'. rewrite (@x_lorenzo_3d1l_gid dimx dimy BIX BIY BIZ).
        replace (BIX * (4 * 8) + (x - BIX * 32)) with x by lia.
        replace (BIX * 32 + (x - BIX * 32)) with x by lia.
        replace (BIZ * 8 + (z - BIZ * 8)) with z by lia.
        destruct (Nat.ltb_spec x dimx); [|lia].
        destruct (Nat.ltb_spec (BIY * 8 + n) dimy); [|lia].
        destruct (Nat.ltb_spec z dimz); [|lia]. cbn [andb].
        unfold obs. rewrite dstore_eq. reflexivity.
      * intros TIX acc' _. apply Hstep.
    + intros TIZ acc _. apply (loop_writes_only obs). intros TIX acc' _.
      apply Hstep.
  - intros p id Hout. unfold for_threads_3d.
    apply (loop_preserves (fun gd : dmem => gd p id)). intros TIZ acc HTIZ.
    apply (loop_preserves (fun gd : dmem => gd p id)). intros TIX acc' HTIX.
    rewrite (@x_lorenzo_3d1l_gid dimx dimy BIX BIY BIZ).
    destruct (Nat.ltb_spec (gix TIX) dimx) as [Gx|Gx]; [|reflexivity].
    destruct (Nat.ltb_spec (giy_base + n) dimy) as [Gy|Gy]; [|reflexivity].
    destruct (Nat.ltb_spec (giz TIZ) dimz) as [Gz|Gz]; [|reflexivity].
    cbn [andb]. apply dstore_neq.
    destruct Hout as [Hout|Hout]; [now left|right].
    apply Hout. unfold in_block3. lia.
Qed.

End KernelX3DVarFacts.

Section KernelX3DVarBlock.

Variable intermediate3_0 : shmem3.
Variables dimx dimy dimz : nat.
Local Abbreviation stridey := dimx.
Local Abbreviation stridez := (dimx * dimy).
Variables (outlier xdata : ptr) (radius : Z) (ebx2 : Q).
Variables BIX BIY BIZ : nat.

Local Abbreviation gix TIX := (BIX * (4 * 8) + TIX).
Local Abbreviation giy_base := (BIY * 8).
Local Abbreviation giz TIZ := (BIZ * 8 + TIZ).
Local Abbreviation in_block := (in_block3 dimx dimy dimz BIX BIY BIZ).
Local Abbreviation lin := (lin3 dimx dimy).

(** One thread block of the variant. *)
Lemma x_lorenzo_3d1lvar_block_inv (g : Global) (O : mem Q) (Qc : mem Z) :
  (forall x' y' z', in_block x' y' z' ->
     g_data g outlier (lin x' y' z') = O (lin x' y' z') /\
     g_quant g (lin x' y' z') = Qc (lin x' y' z')) ->
  let g' := x_lorenzo_3d1lvar_block intermediate3_0 outlier xdata dimx dimy
              dimz stridey stridez radius ebx2 BIX BIY BIZ g in
  g_quant g' = g_quant g /\
  (forall x y z, in_block x y z ->
     (g_data g' xdata (lin x y z)
      == tile_prefix_sum3 (fun x' y' z' => fuse O Qc radius (lin x' y' z'))
           x y z * ebx2)%Q) /\
  (forall p id,
     p <> xdata \/ (forall x y z, in_block x y z -> id <> lin x y z) ->
     g_data g' p id = g_data g p id).
Proof.
  intros Hs. cbv zeta. unfold x_lorenzo_3d1lvar_block. cbv zeta.
  set (F := fun TIZ TIX j =>
              fuse O Qc radius
                (lin (BIX * 32 + TIX) (BIY * 8 + j) (BIZ * 8 + TIZ))).
  set (P := fun n (st : shmem3 * regs3 * Global) =>
    (forall TIZ TIX, TIZ < 8 -> TIX < 32 ->
       BIX * 32 + TIX < dimx -> BIZ * 8 + TIZ < dimz -> BIY * 8 + n <= dimy ->
       (n = 0 -> (snd (fst st) TIZ TIX == 0)%Q) /\
       (forall m, n = S m ->
          (snd (fst st) TIZ TIX == prefix_sum (F TIZ TIX) m)%Q)) /\
    g_quant (snd st) = g_quant g /\
    (forall x y z, in_block x y z -> n <= y - BIY * 8 ->
       g_data (snd st) outlier (lin x y z) = g_data g outlier (lin x y z)) /\
    (forall x y z, in_block x y z -> y - BIY * 8 < n ->
       (g_data (snd st) xdata (lin x y z)
        == tile_prefix_sum3 (fun x' y' z' => fuse O Qc radius (lin x' y' z'))
             x y z * ebx2)%Q) /\
    (forall p id,
       p <> xdata \/ (forall x y z, in_block x y z -> id <> lin x y z) ->
       g_data (snd st) p id = g_data g p id)).
  match goal with
  | |- g_quant (snd (for_loop 0 8 ?body ?st0)) = _ /\ _ =>
      assert (H : P 8 (for_loop 0 8 body st0))
  end.
  { apply (@for_loop_ind _ P); [lia| |].
    - (* entry *)
      unfold P. cbn [fst snd]. split; [|split; [|split; [|split]]].
      + intros TIZ TIX _ _ _ _ _. split; [reflexivity|discriminate].
      + reflexivity.
      + reflexivity.
      + intros x y z _ Hy. lia.
      + reflexivity.
    - (* one round of the y loop *)
      intros n st Hn (Ha & Hb & Hc & Hd & He).
      unfold P. cbn [fst snd g_data g_quant]. unfold regs3 in *.
      match goal with
      | |- context [x_lorenzo_3d1l_sum_xz 8 (fst (fst st), ?f)] =>
          set (ts' := f)
      end.
      (* the scalar of each in-range thread after the update *)
      assert (Ha' : forall TIZ TIX, TIZ < 8 -> TIX < 32 ->
                BIX * 32 + TIX < dimx -> BIZ * 8 + TIZ < dimz ->
                BIY * 8 + S n <= dimy ->
                (ts' TIZ TIX == prefix_sum (F TIZ TIX) n)%Q).
      { intros TIZ TIX HZ HX Rx Rz Ry. unfold ts'.
        destruct (Nat.ltb_spec (gix TIX) dimx); [|lia].
        destruct (Nat.ltb_spec (giy_base + n) dimy); [|lia].
        destruct (Nat.ltb_spec (giz TIZ) dimz); [|lia]. cbn [andb].
        rewrite (@x_lorenzo_3d1l_gid dimx dimy BIX BIY BIZ).
        assert (Hin : in_block (BIX * 32 + TIX) (BIY * 8 + n) (BIZ * 8 + TIZ))
          by (unfold in_block3; lia).
        rewrite (Hc _ _ _ Hin) by lia. rewrite Hb.
        destruct (Hs _ _ _ Hin) as [E1 E2]. rewrite E1, E2.
        change (O (lin (BIX * 32 + TIX) (BIY * 8 + n) (BIZ * 8 + TIZ))
                + inject_Z (Qc (lin (BIX * 32 + TIX) (BIY * 8 + n)
                                  (BIZ * 8 + TIZ)))
                - inject_Z radius)%Q with (F TIZ TIX n).
        destruct (Ha TIZ TIX HZ HX Rx Rz ltac:(lia)) as [Hzero Hsucc].
        destruct n as [|m].
        - rewrite (Hzero eq_refl). cbn [prefix_sum]. ring.
        - rewrite (Hsucc m eq_refl). cbn [prefix_sum]. reflexivity. }
      destruct (@x_lorenzo_3d1lvar_write_row dimx dimy dimz xdata ebx2 BIX BIY
                  BIZ (snd (x_lorenzo_3d1l_sum_xz 8 (fst (fst st), ts')))
                  (g_data (snd st)) n ltac:(lia)) as [Hrow Hrest].
      cbv zeta in Hrow, Hrest. unfold regs3 in Hrow, Hrest.
      split; [|split; [|split; [|split]]].
      + intros TIZ TIX HZ HX Rx Rz Ry. split; [discriminate|].
        intros m Hm. injection Hm as <-. now apply Ha'.
      + exact Hb.
      + intros x y z Hin Hy.
        rewrite Hrest; [apply Hc; [assumption|lia]|].
        right. intros x' z' Hin' E.
        destruct Hin as [_ (Rx & Ry & Rz)].
        destruct Hin' as [_ (Rx' & Ry' & Rz')].
        destruct (@lin3_inj dimx dimy x y z x' (BIY * 8 + n) z' Rx Rx' Ry Ry' E)
          as (_ & Ey & _).
        lia.
      + intros x y z Hin Hy.
        destruct (Nat.eq_dec (y - BIY * 8) n) as [Hrow_n|Hrow_lt].
        * pose proof Hin as [(Bx & By & Bz) (Rx & Ry & Rz)].
          assert (Ey : y = BIY * 8 + n) by lia. subst y.
          rewrite (Hrow x z Hin).
          apply Qmult_comp; [|reflexivity].
          set (tx := x - BIX * 32).
          pose proof (Nat.div_mod_eq tx 8) as Hdm.
          pose proof (Nat.mod_upper_bound tx 8 ltac:(lia)) as Hmb.
          assert (Hs4 : tx / 8 < 4)
            by (apply Nat.Div0.div_lt_upper_bound; unfold tx; lia).
          replace tx with (tx mod 8 + 8 * (tx / 8)) at 1 by lia.
          rewrite x_lorenzo_3d1l_sum_xz_spec by lia.
          rewrite (@tile_prefix_sum3_in_block dimx dimy dimz BIX BIY BIZ _ x
                     (BIY * 8 + n) z Hin).
          cbv zeta. fold tx.
          replace (BIY * 8 + n - BIY * 8) with n by lia.
          apply prefix_sum_Qeq. intros k Hk.
          apply prefix_sum_Qeq. intros c Hc'.
          rewrite Ha' by (unfold tx in *; lia). reflexivity.
        * rewrite Hrest; [apply Hd; [assumption|lia]|].
          right. intros x' z' Hin' E.
          destruct Hin as [(_ & By & _) (Rx & Ry & Rz)].
          destruct Hin' as [_ (Rx' & Ry' & Rz')].
          destruct (@lin3_inj dimx dimy x y z x' (BIY * 8 + n) z' Rx Rx' Ry
                      Ry' E) as (_ & Ey & _).
          lia.
      + intros p id Hout. rewrite Hrest; [now apply He|].
        destruct Hout as [Hout|Hout]; [now left|right].
        intros x z Hin. now apply Hout. }
  destruct H as (_ & Hb & _ & Hd & He).
  split; [exact Hb|]. split; [|exact He].
  intros x y z Hin. apply Hd; [assumption|].
  destruct Hin as [(_ & By & _) _]. lia.
Qed.

End KernelX3DVarBlock.

(** ** The running sum of the 3D residuals *)

Lemma prefix_sum_zero (n : nat) : (prefix_sum (fun _ => 0) n == 0)%Q.
Proof. induction n as [|n IH]; cbn [prefix_sum]; [reflexivity|]. rewrite IH. ring. Qed.

Lemma tile8_base (x k : nat) :
  k <= x mod 8 -> (x / 8 * 8 + k) mod 8 = k /\ x / 8 * 8 + k <= x.
Proof.
  intros Hk. pose proof (Nat.div_mod_eq x 8).
  pose proof (Nat.mod_upper_bound x 8 ltac:(lia)).
  split; [|lia]. symmetry. apply Nat.mod_unique with (q := x / 8); lia.
Qed.






(* ================================================================== *)
(** ** The grids of the 3D inverse kernels, and the round trips *)

Section KernelX3DVarGrid.

Variable intermediate3_0 : shmem3.
Variables dimx dimy dimz : nat.
Variables (outlier xdata : ptr) (radius : Z) (ebx2 : Q).
Variables gridDim_x gridDim_y gridDim_z : nat.

Lemma x_lorenzo_3d1lvar_block_ok (i j k : nat) (acc : Global) :
  g_quant (x_lorenzo_3d1lvar_block intermediate3_0 outlier xdata dimx dimy
             dimz dimx (dimx * dimy) radius ebx2 i j k acc)
  = g_quant acc /\
  forall p id,
    p <> xdata \/
    (forall x y z, in_block3 dimx dimy dimz i j k x y z ->
       id <> lin3 dimx dimy x y z) ->
    g_data (x_lorenzo_3d1lvar_block intermediate3_0 outlier xdata dimx dimy
              dimz dimx (dimx * dimy) radius ebx2 i j k acc) p id
    = g_data acc p id.
Proof.
  destruct (@x_lorenzo_3d1lvar_block_inv intermediate3_0 dimx dimy dimz
              outlier xdata radius ebx2 i j k acc (g_data acc outlier)
              (g_quant acc)) as (Hq & _ & Hf).
  { intros; split; reflexivity. }
  split; assumption.
Qed.

(** The whole grid of the variant. *)
Lemma x_lorenzo_3d1lvar_spec (g : Global) (x y z : nat) :
  x < dimx -> y < dimy -> z < dimz ->
  x < gridDim_x * 32 -> y < gridDim_y * 8 -> z < gridDim_z * 8 ->
  (g_data (x_lorenzo_3d1lvar intermediate3_0 gridDim_x gridDim_y gridDim_z
             outlier xdata dimx dimy dimz dimx (dimx * dimy) radius ebx2 g)
     xdata (lin3 dimx dimy x y z)
   == tile_prefix_sum3
        (fun x' y' z' => fuse (g_data g outlier) (g_quant g) radius
                           (lin3 dimx dimy x' y' z')) x y z
      * ebx2)%Q.
Proof.
  unfold x_lorenzo_3d1lvar.
  apply (@x_lorenzo_3d_grid dimx dimy dimz outlier xdata radius ebx2
           gridDim_x gridDim_y gridDim_z
           (fun i j k acc =>
              x_lorenzo_3d1lvar_block intermediate3_0 outlier xdata dimx dimy
                dimz dimx (dimx * dimy) radius ebx2 i j k acc)).
  - intros i j k acc O Qc x' y' z' Hs Hin.
    destruct (@x_lorenzo_3d1lvar_block_inv intermediate3_0 dimx dimy dimz
                outlier xdata radius ebx2 i j k acc O Qc Hs) as (_ & Hd & _).
    apply Hd. exact Hin.
  - intros i j k acc. apply x_lorenzo_3d1lvar_block_ok.
Qed.

End KernelX3DVarGrid.

Lemma tile_prefix_sum3_Qeq (f h : nat -> nat -> nat -> Q) (x y z : nat) :
  (forall x' y' z', x / 8 * 8 <= x' <= x -> y / 8 * 8 <= y' <= y ->
     z / 8 * 8 <= z' <= z -> (f x' y' z' == h x' y' z')%Q) ->
  (tile_prefix_sum3 f x y z == tile_prefix_sum3 h x y z)%Q.
Proof.
  intros H. unfold tile_prefix_sum3.
  apply prefix_sum_Qeq. intros k Hk. apply prefix_sum_Qeq. intros i Hi.
  apply prefix_sum_Qeq. intros j Hj.
  destruct (tile8_base x Hi) as [_ Hx]. destruct (tile8_base y Hj) as [_ Hy].
  destruct (tile8_base z Hk) as [_ Hz].
  apply H; lia.
Qed.



Lemma x_lorenzo_3d1l_frame (intermediate3_0 : shmem3)
    (thread_scope3_0 : regfile3) (gridDim_x gridDim_y gridDim_z : nat)
    (outlier xdata : ptr) (dimx dimy dimz : nat) (radius : Z) (ebx2 : Q)
    (g : Global) :
  let g' := x_lorenzo_3d1l intermediate3_0 thread_scope3_0 gridDim_x
              gridDim_y gridDim_z outlier xdata dimx dimy dimz dimx
              (dimx * dimy) radius ebx2 g in
  g_quant g' = g_quant g /\
  (forall p id,
     p <> xdata \/
     (forall x y z, x < dimx -> y < dimy -> z < dimz ->
        x < gridDim_x * 32 -> y < gridDim_y * 8 -> z < gridDim_z * 8 ->
        id <> lin3 dimx dimy x y z) ->
     g_data g' p id = g_data g p id).
Proof.
  unfold x_lorenzo_3d1l.
  apply (@x_lorenzo_3d_grid_frame dimx dimy dimz xdata gridDim_x gridDim_y
           gridDim_z
           (fun i j k acc =>
              x_lorenzo_3d1l_block intermediate3_0 thread_scope3_0 outlier
                xdata dimx dimy dimz dimx (dimx * dimy) radius ebx2 i j k acc)).
  intros i j k acc. apply x_lorenzo_3d1l_block_ok.
Qed.

Lemma x_lorenzo_3d1lvar_frame (intermediate3_0 : shmem3)
    (gridDim_x gridDim_y gridDim_z : nat)
    (outlier xdata : ptr) (dimx dimy dimz : nat) (radius : Z) (ebx2 : Q)
    (g : Global) :
  let g' := x_lorenzo_3d1lvar intermediate3_0 gridDim_x gridDim_y gridDim_z
              outlier xdata dimx dimy dimz dimx (dimx * dimy) radius ebx2 g in
  g_quant g' = g_quant g /\
  (forall p id,
     p <> xdata \/
     (forall x y z, x < dimx -> y < dimy -> z < dimz ->
        x < gridDim_x * 32 -> y < gridDim_y * 8 -> z < gridDim_z * 8 ->
        id <> lin3 dimx dimy x y z) ->
     g_data g' p id = g_data g p id).
Proof.
  unfold x_lorenzo_3d1lvar.
  apply (@x_lorenzo_3d_grid_frame dimx dimy dimz xdata gridDim_x gridDim_y
           gridDim_z
           (fun i j k acc =>
              x_lorenzo_3d1lvar_block intermediate3_0 outlier xdata dimx dimy
                dimz dimx (dimx * dimy) radius ebx2 i j k acc)).
  intros i j k acc. apply x_lorenzo_3d1lvar_block_ok.
Qed.

(** ** Properties of the decompress-time kernels *)

(** X4: the 3D inverse kernel and its variant restore
    [delta = O[i] + Q[i] - radius] for every sample, take the inclusive
    running sum of [delta] along the three axes inside the 8x8x8 tile of
    the sample, and write that sum times [ebx2]; the two kernels compute
    the same value. *)
Theorem x_lorenzo_3d_restores (radius : Z) (outlier xdata : ptr) (ebx2 : Q)
    (g : Global) (intermediate3_0 : shmem3) (thread_scope3_0 : regfile3)
    (gridDim_x gridDim_y gridDim_z dimx dimy dimz x y z : nat) :
  x < dimx -> y < dimy -> z < dimz ->
  x < gridDim_x * 32 -> y < gridDim_y * 8 -> z < gridDim_z * 8 ->
  let delta := fuse (g_data g outlier) (g_quant g) radius in
  let g' := x_lorenzo_3d1l intermediate3_0 thread_scope3_0 gridDim_x
              gridDim_y gridDim_z outlier xdata dimx dimy dimz dimx
              (dimx * dimy) radius ebx2 g in
  let g'' := x_lorenzo_3d1lvar intermediate3_0 gridDim_x gridDim_y gridDim_z
               outlier xdata dimx dimy dimz dimx (dimx * dimy) radius ebx2 g in
  let id := lin3 dimx dimy x y z in
  (g_data g' xdata id
   == tile_prefix_sum3 (fun x' y' z' => delta (lin3 dimx dimy x' y' z')) x y z
      * ebx2)%Q /\
  (g_data g'' xdata id == g_data g' xdata id)%Q.
Proof.
  intros Rx Ry Rz Gx Gy Gz delta g' g'' id.
  pose proof (@x_lorenzo_3d1l_spec intermediate3_0 thread_scope3_0 dimx dimy
                dimz outlier xdata radius ebx2 gridDim_x gridDim_y gridDim_z
                g x y z Rx Ry Rz Gx Gy Gz) as H1.
  pose proof (@x_lorenzo_3d1lvar_spec intermediate3_0 dimx dimy dimz outlier
                xdata radius ebx2 gridDim_x gridDim_y gridDim_z
                g x y z Rx Ry Rz Gx Gy Gz) as H2.
  fold g' id in H1. fold g'' id in H2. fold delta in H1, H2.
  split; [exact H1|]. rewrite H1, H2. reflexivity.
Qed.

Lemma x_lorenzo_3d_restores_witness :
  let g := global_of scenario_grid in
  let delta := fuse (g_data g 0) (g_quant g) 8 in
  let g' := x_lorenzo_3d1l zero_shmem3 zero_regfile3 1 1 1 0 1 3 3 1 3
              (3 * 3) 8 (1 # 2) g in
  let g'' := x_lorenzo_3d1lvar zero_shmem3 1 1 1 0 1 3 3 1 3 (3 * 3) 8
               (1 # 2) g in
  let id := lin3 3 3 2 1 0 in
  let v := g_data g' 1 id in
  let v' := g_data g'' 1 id in
  let s := tile_prefix_sum3 (fun x' y' z' => delta (lin3 3 3 x' y' z'))
             2 1 0 in
  (v == s * (1 # 2))%Q /\ (v' == v)%Q.
Proof.
  apply (@x_lorenzo_3d_restores 8 0 1 (1 # 2) (global_of scenario_grid)
           zero_shmem3 zero_regfile3 1 1 1 3 3 1 2 1 0); lia.
Defined.

(** X5: the decompress-time kernels never write a quant code, write no
    buffer other than [xdata], and write [xdata] only at the indices of
    samples (in 1D: of the grid). *)
Theorem x_lorenzo_writes_in_range (radius : Z) (outlier xdata : ptr)
    (ebx2 : Q) (g : Global) :
  (forall BLOCK SEQ gridDim dimx,
     0 < SEQ -> 0 < BLOCK -> BLOCK mod SEQ = 0 ->
     let g' := x_lorenzo_1d1l BLOCK SEQ gridDim outlier xdata dimx radius
                 ebx2 g in
     g_quant g' = g_quant g /\
     (forall p id, p <> xdata \/ gridDim * BLOCK <= id ->
        g_data g' p id = g_data g p id)) /\
  (forall intermediate0 thread_scope0 gridDim_x gridDim_y dimx dimy,
     let g' := x_lorenzo_2d1l intermediate0 thread_scope0 gridDim_x
                 gridDim_y outlier xdata dimx dimy dimx radius ebx2 g in
     g_quant g' = g_quant g /\
     (forall p id, p <> xdata \/ dimx * dimy <= id ->
        g_data g' p id = g_data g p id)) /\
  (forall intermediate3_0 thread_scope3_0 gridDim_x gridDim_y gridDim_z
          dimx dimy dimz,
     let g' := x_lorenzo_3d1l intermediate3_0 thread_scope3_0 gridDim_x
                 gridDim_y gridDim_z outlier xdata dimx dimy dimz dimx
                 (dimx * dimy) radius ebx2 g in
     let g'' := x_lorenzo_3d1lvar intermediate3_0 gridDim_x gridDim_y
                  gridDim_z outlier xdata dimx dimy dimz dimx (dimx * dimy)
                  radius ebx2 g in
     g_quant g' = g_quant g /\ g_quant g'' = g_quant g /\
     (forall p id, p <> xdata \/ dimx * dimy * dimz <= id ->
        g_data g' p id = g_data g p id /\
        g_data g'' p id = g_data g p id)).
Proof.
  split; [|split].
  - intros BLOCK SEQ gridDim dimx HS HB Hdiv g'.
    destruct (@x_lorenzo_1d1l_spec BLOCK SEQ HS HB Hdiv gridDim outlier xdata
                dimx radius ebx2 g) as (Hq & _ & Hf).
    split; assumption.
  - intros intermediate0 thread_scope0 gridDim_x gridDim_y dimx dimy g'.
    destruct (@x_lorenzo_2d1l_frame intermediate0 thread_scope0 gridDim_x
                gridDim_y outlier xdata dimx dimy radius ebx2 g) as [Hq Hf].
    split; [exact Hq|]. intros p id Hout. apply Hf.
    destruct Hout as [Hout|Hout]; [now left|right].
    intros x y Rx Ry _ _ E.
    pose proof (@lin2_lt dimx dimy x y Rx Ry). lia.
  - intros intermediate3_0 thread_scope3_0 gridDim_x gridDim_y gridDim_z
      dimx dimy dimz g' g''.
    destruct (@x_lorenzo_3d1l_frame intermediate3_0 thread_scope3_0 gridDim_x
                gridDim_y gridDim_z outlier xdata dimx dimy dimz radius ebx2
                g) as [Hq Hf].
    destruct (@x_lorenzo_3d1lvar_frame intermediate3_0 gridDim_x
                gridDim_y gridDim_z outlier xdata dimx dimy dimz radius ebx2
                g) as [Hq' Hf'].
    split; [exact Hq|]. split; [exact Hq'|].
    intros p id Hout.
    assert (Hout' : p <> xdata \/
              (forall x y z, x < dimx -> y < dimy -> z < dimz ->
                 x < gridDim_x * 32 -> y < gridDim_y * 8 ->
                 z < gridDim_z * 8 -> id <> lin3 dimx dimy x y z)).
    { destruct Hout as [Hout|Hout]; [now left|right].
      intros x y z Rx Ry Rz _ _ _ E.
      pose proof (@lin3_lt dimx dimy dimz x y z Rx Ry Rz). lia. }
    split; [apply Hf|apply Hf']; exact Hout'.
Qed.

Lemma x_lorenzo_writes_in_range_witness :
  let g := global_of scenario_grid in
  let g' := x_lorenzo_1d1l 256 8 1 0 1 9 8 (1 # 2) g in
  g_quant g' = g_quant g /\
  (forall p id, p <> 1 \/ 1 * 256 <= id -> g_data g' p id = g_data g p id).
Proof.
  apply (proj1 (@x_lorenzo_writes_in_range 8 0 1 (1 # 2)
                  (global_of scenario_grid)) 256 8 1 9);
    [lia|lia|reflexivity].
Defined.

(** ** Round trips through the kernels *)





(* ================================================================== *)
(** ** Tiles *)

Lemma pred_same_tile (B x : nat) : 0 < x mod B -> (x - 1) / B = x / B.
Proof.
  intros H. destruct B as [|B]; [reflexivity|].
  pose proof (Nat.div_mod_eq x (S B)) as E.
  pose proof (Nat.mod_upper_bound x (S B) ltac:(lia)) as Hlt.
  symmetry. apply Nat.div_unique with (r := x mod S B - 1); lia.
Qed.

Lemma same_tile_of_base (B x x' : nat) :
  0 < B -> x / B * B <= x' <= x -> x' / B = x / B.
Proof.
  intros HB H.
  pose proof (Nat.div_mod_eq x B) as E.
  pose proof (Nat.mod_upper_bound x B ltac:(lia)) as Hlt.
  symmetry. apply Nat.div_unique with (r := x' - x / B * B); lia.
Qed.

(** X12: the 1D inverse kernel stores whole tiles.  Past the last sample
    it writes every element of [xdata] up to the end of the grid: the
    value of the last sample in the tile that holds it, zero in the tiles
    behind. *)
Theorem x_lorenzo_1d1l_stores_whole_tiles (BLOCK SEQ gridDim : nat)
    (outlier xdata : ptr) (dimx : nat) (radius : Z) (ebx2 : Q) (g : Global)
    (id : nat) :
  0 < SEQ -> 0 < BLOCK -> BLOCK mod SEQ = 0 ->
  dimx <= id -> id < gridDim * BLOCK ->
  let g' := x_lorenzo_1d1l BLOCK SEQ gridDim outlier xdata dimx radius ebx2 g in
  let last := g_data g' xdata (dimx - 1) in
  let v := g_data g' xdata id in
  (v == if id / BLOCK * BLOCK <? dimx then last else 0)%Q.
Proof.
  intros HS HB Hdiv Hid Hg g' last v.
  destruct (@x_lorenzo_1d1l_spec BLOCK SEQ HS HB Hdiv gridDim outlier xdata
              dimx radius ebx2 g) as (_ & Hx & _).
  fold g' in Hx.
  pose proof (Nat.div_mod_eq id BLOCK) as E.
  pose proof (Nat.mod_upper_bound id BLOCK ltac:(lia)) as Hlt.
  set (f := fuse_guarded (g_data g outlier) (g_quant g) radius dimx) in *.
  assert (Hzero : forall j, dimx <= j -> f j = 0%Q).
  { intros j Hj. unfold f, fuse_guarded.
    destruct (Nat.ltb_spec j dimx); [lia|reflexivity]. }
  unfold v. rewrite (Hx id Hg). unfold tile_prefix_sum.
  set (base := id / BLOCK * BLOCK) in *.
  destruct (Nat.ltb_spec base dimx) as [Hb|Hb].
  - set (k0 := dimx - 1 - base).
    assert (Hq : (dimx - 1) / BLOCK = id / BLOCK).
    { symmetry. apply Nat.div_unique with (r := k0); unfold k0; lia. }
    assert (Hm : (dimx - 1) mod BLOCK = k0).
    { symmetry. apply Nat.mod_unique with (q := id / BLOCK); unfold k0; lia. }
    unfold last. rewrite (Hx (dimx - 1)) by lia. unfold tile_prefix_sum.
    rewrite Hq, Hm. fold base.
    replace (id mod BLOCK) with (k0 + 1 + (id mod BLOCK - k0 - 1))
      by (unfold k0; lia).
    rewrite prefix_sum_split.
    set (m := id mod BLOCK - k0 - 1).
    set (rest := prefix_sum (fun k => f (base + (k0 + 1 + k))) m).
    assert (Hrest : (rest == 0)%Q).
    { unfold rest.
      rewrite (@prefix_sum_Qeq _ (fun _ => 0%Q)); [apply prefix_sum_zero|].
      intros j Hj. cbv beta. rewrite Hzero by (unfold k0; lia). reflexivity. }
    rewrite Hrest. ring.
  - rewrite (@prefix_sum_Qeq _ (fun _ => 0%Q)).
    + rewrite prefix_sum_zero. ring.
    + intros j Hj. cbv beta. rewrite Hzero by lia. reflexivity.
Qed.

Lemma x_lorenzo_1d1l_stores_whole_tiles_witness :
  let g' := x_lorenzo_1d1l 256 8 1 0 1 9 8 (1 # 2) (global_of scenario_grid) in
  let last := g_data g' 1 (9 - 1) in
  let v := g_data g' 1 200 in
  (v == if 200 / 256 * 256 <? 9 then last else 0)%Q.
Proof.
  apply (@x_lorenzo_1d1l_stores_whole_tiles 256 8 1 0 1 9 8 (1 # 2)
           (global_of scenario_grid) 200);
    [lia|lia|reflexivity|lia|lia].
Defined.

(** X13: the compress-time kernels work tile by tile.  The quant code
    and the outlier value of a sample depend on the input only through the
    samples of its own tile ([BLOCK] wide in 1D, [16 x 16] in 2D,
    [8 x 8 x 8] in 3D): two inputs that agree on the samples of that tile
    give the same two outputs. *)
Theorem c_lorenzo_tile_local (bits radius : Z) (data outlier : ptr)
    (ebx2_r : Q) (g h : Global) :
  (forall BLOCK SEQ shmem_data0 shmem_quant0 gridDim dimx id,
     0 < SEQ -> 0 < BLOCK -> BLOCK mod SEQ = 0 ->
     id < gridDim * BLOCK -> id < dimx ->
     (forall id', id' < dimx -> id' / BLOCK = id / BLOCK ->
        g_data g data id' = g_data h data id') ->
     let run g := c_lorenzo_1d1l bits BLOCK SEQ shmem_data0 shmem_quant0
                    gridDim data outlier dimx radius ebx2_r g in
     out_at outlier id (run g) = out_at outlier id (run h)) /\
  (forall gridDim_x gridDim_y dimx dimy x y,
     x < dimx -> y < dimy -> x < gridDim_x * 16 -> y < gridDim_y * 16 ->
     (forall x' y', x' < dimx -> y' < dimy ->
        x' / 16 = x / 16 -> y' / 16 = y / 16 ->
        g_data g data (lin2 dimx x' y') = g_data h data (lin2 dimx x' y')) ->
     let run g := c_lorenzo_2d1l bits gridDim_x gridDim_y data outlier
                    dimx dimy dimx radius ebx2_r g in
     out_at outlier (lin2 dimx x y) (run g)
     = out_at outlier (lin2 dimx x y) (run h)) /\
  (forall shmem3_0 gridDim_x gridDim_y gridDim_z dimx dimy dimz x y z,
     x < dimx -> y < dimy -> z < dimz ->
     x < gridDim_x * 32 -> y < gridDim_y * 8 -> z < gridDim_z * 8 ->
     (forall x' y' z', x' < dimx -> y' < dimy -> z' < dimz ->
        x' / 8 = x / 8 -> y' / 8 = y / 8 -> z' / 8 = z / 8 ->
        g_data g data (lin3 dimx dimy x' y' z')
        = g_data h data (lin3 dimx dimy x' y' z')) ->
     let run g := c_lorenzo_3d1l bits shmem3_0 gridDim_x gridDim_y gridDim_z
                    data outlier dimx dimy dimz dimx (dimx * dimy) radius
                    ebx2_r g in
     out_at outlier (lin3 dimx dimy x y z) (run g)
     = out_at outlier (lin3 dimx dimy x y z) (run h)).
Proof.
  split; [|split].
  - intros BLOCK SEQ shmem_data0 shmem_quant0 gridDim dimx id HS HB Hdiv
      Hg Hd Hagree run.
    destruct (@c_lorenzo_1d1l_spec bits BLOCK SEQ HS HB Hdiv shmem_data0
                shmem_quant0 gridDim data outlier dimx radius ebx2_r g)
      as [Hout _].
    destruct (@c_lorenzo_1d1l_spec bits BLOCK SEQ HS HB Hdiv shmem_data0
                shmem_quant0 gridDim data outlier dimx radius ebx2_r h)
      as [Hout' _].
    unfold run. rewrite (Hout id Hg Hd), (Hout' id Hg Hd). f_equal.
    unfold lorenzo_delta1d, prequant.
    rewrite (Hagree id Hd eq_refl).
    destruct (Nat.eqb_spec (id mod BLOCK) 0) as [E|E]; [reflexivity|].
    rewrite (Hagree (id - 1)) by (try apply pred_same_tile; lia).
    reflexivity.
  - intros gridDim_x gridDim_y dimx dimy x y Rx Ry Gx Gy Hagree run.
    unfold run.
    rewrite (@c_lorenzo_2d1l_spec bits dimx dimy data outlier radius ebx2_r
               gridDim_x gridDim_y g x y Rx Ry Gx Gy).
    rewrite (@c_lorenzo_2d1l_spec bits dimx dimy data outlier radius ebx2_r
               gridDim_x gridDim_y h x y Rx Ry Gx Gy).
    f_equal. unfold lorenzo_delta2d, prequant2. cbv zeta beta.
    assert (A : forall x' y', x' <= x -> y' <= y ->
              x' / 16 = x / 16 -> y' / 16 = y / 16 ->
              g_data g data (y' * dimx + x') = g_data h data (y' * dimx + x')).
    { intros x' y' Lx Ly Tx Ty. apply (Hagree x' y'); [lia|lia|exact Tx|exact Ty]. }
    destruct (Nat.ltb_spec 0 (x mod 16)) as [Hx|Hx];
      destruct (Nat.ltb_spec 0 (y mod 16)) as [Hy|Hy];
      repeat match goal with
             | |- context [g_data g data (?b * dimx + ?a)] =>
                 rewrite (A a b)
                   by first [lia | reflexivity | apply pred_same_tile; assumption]
             end;
      reflexivity.
  - intros shmem3_0 gridDim_x gridDim_y gridDim_z dimx dimy dimz x y z
      Rx Ry Rz Gx Gy Gz Hagree run.
    unfold run.
    rewrite (@c_lorenzo_3d1l_spec bits shmem3_0 dimx dimy dimz data outlier
               radius ebx2_r gridDim_x gridDim_y gridDim_z g x y z
               Rx Ry Rz Gx Gy Gz).
    rewrite (@c_lorenzo_3d1l_spec bits shmem3_0 dimx dimy dimz data outlier
               radius ebx2_r gridDim_x gridDim_y gridDim_z h x y z
               Rx Ry Rz Gx Gy Gz).
    f_equal. unfold lorenzo_delta3d, prequant3. cbv zeta beta.
    assert (A : forall x' y' z', x' <= x -> y' <= y -> z' <= z ->
              x' / 8 = x / 8 -> y' / 8 = y / 8 -> z' / 8 = z / 8 ->
              g_data g data (x' + y' * dimx + z' * (dimx * dimy))
              = g_data h data (x' + y' * dimx + z' * (dimx * dimy))).
    { intros x' y' z' Lx Ly Lz Tx Ty Tz.
      apply (Hagree x' y' z'); [lia|lia|lia|exact Tx|exact Ty|exact Tz]. }
    destruct (Nat.ltb_spec 0 (x mod 8)) as [Hx|Hx];
      destruct (Nat.ltb_spec 0 (y mod 8)) as [Hy|Hy];
      destruct (Nat.ltb_spec 0 (z mod 8)) as [Hz|Hz]; cbn [andb];
      repeat match goal with
             | |- context [g_data g data (?a + ?b * dimx + ?c * (dimx * dimy))] =>
                 rewrite (A a b c)
                   by first [lia | reflexivity | apply pred_same_tile; assumption]
             end;
      reflexivity.
Qed.

(** Nine samples in tiles of four: the last sample changes, the outputs
    of the tile before it do not. *)
Lemma c_lorenzo_tile_local_witness :
  let g := global_of scenario_grid in
  let h := global_of [1; 2; 4; 3; 5; 9; 20; 2; 99]%Q in
  let run g := c_lorenzo_1d1l 16 4 2 zero_shmem_data zero_shmem_quant 3 0 1
                 9 8 1 g in
  out_at 1 5 (run g) = out_at 1 5 (run h).
Proof.
  intros g h.
  apply (proj1 (@c_lorenzo_tile_local 16 8 0 1 1%Q g h) 4 2 zero_shmem_data
           zero_shmem_quant 3 9 5); [lia|lia|reflexivity|lia|lia|].
  intros id' Hlt Htile.
  do 8 (destruct id' as [|id']; [reflexivity|]).
  exfalso. destruct id' as [|id']; [discriminate Htile|lia].
Defined.

(** X14: the decompress-time kernels work tile by tile as well.  The
    value written for a sample depends on [Q] and [O] only through the
    samples of its own tile: two inputs that agree on the samples of that
    tile give the same value. *)
Theorem x_lorenzo_tile_local (radius : Z) (outlier xdata : ptr) (ebx2 : Q)
    (g h : Global) :
  (forall BLOCK SEQ gridDim dimx id,
     0 < SEQ -> 0 < BLOCK -> BLOCK mod SEQ = 0 ->
     id < gridDim * BLOCK -> id < dimx ->
     (forall id', id' < dimx -> id' / BLOCK = id / BLOCK ->
        g_data g outlier id' = g_data h outlier id' /\
        g_quant g id' = g_quant h id') ->
     let run g := x_lorenzo_1d1l BLOCK SEQ gridDim outlier xdata dimx radius
                    ebx2 g in
     g_data (run g) xdata id = g_data (run h) xdata id) /\
  (forall intermediate0 thread_scope0 gridDim_x gridDim_y dimx dimy x y,
     x < dimx -> y < dimy -> x < gridDim_x * 16 -> y < gridDim_y * 16 ->
     (forall x' y', x' < dimx -> y' < dimy ->
        x' / 16 = x / 16 -> y' / 16 = y / 16 ->
        g_data g outlier (lin2 dimx x' y') = g_data h outlier (lin2 dimx x' y')
        /\ g_quant g (lin2 dimx x' y') = g_quant h (lin2 dimx x' y')) ->
     let run g := x_lorenzo_2d1l intermediate0 thread_scope0 gridDim_x
                    gridDim_y outlier xdata dimx dimy dimx radius ebx2 g in
     (g_data (run g) xdata (lin2 dimx x y)
      == g_data (run h) xdata (lin2 dimx x y))%Q) /\
  (forall intermediate3_0 thread_scope3_0 gridDim_x gridDim_y gridDim_z
          dimx dimy dimz x y z,
     x < dimx -> y < dimy -> z < dimz ->
     x < gridDim_x * 32 -> y < gridDim_y * 8 -> z < gridDim_z * 8 ->
     (forall x' y' z', x' < dimx -> y' < dimy -> z' < dimz ->
        x' / 8 = x / 8 -> y' / 8 = y / 8 -> z' / 8 = z / 8 ->
        g_data g outlier (lin3 dimx dimy x' y' z')
        = g_data h outlier (lin3 dimx dimy x' y' z') /\
        g_quant g (lin3 dimx dimy x' y' z')
        = g_quant h (lin3 dimx dimy x' y' z')) ->
     let run g := x_lorenzo_3d1l intermediate3_0 thread_scope3_0 gridDim_x
                    gridDim_y gridDim_z outlier xdata dimx dimy dimz dimx
                    (dimx * dimy) radius ebx2 g in
     let run' g := x_lorenzo_3d1lvar intermediate3_0 gridDim_x gridDim_y
                     gridDim_z outlier xdata dimx dimy dimz dimx
                     (dimx * dimy) radius ebx2 g in
     (g_data (run g) xdata (lin3 dimx dimy x y z)
      == g_data (run h) xdata (lin3 dimx dimy x y z))%Q /\
     (g_data (run' g) xdata (lin3 dimx dimy x y z)
      == g_data (run' h) xdata (lin3 dimx dimy x y z))%Q).
Proof.
  split; [|split].
  - intros BLOCK SEQ gridDim dimx id HS HB Hdiv Hg Hd Hagree run.
    unfold run.
    rewrite !(x_lorenzo_1d1l_out HS HB Hdiv) by assumption.
    f_equal. unfold tile_prefix_sum. apply prefix_sum_ext. intros j Hj.
    pose proof (@tile_base_le BLOCK id j HB Hj) as Hle.
    unfold fuse.
    destruct (Hagree (id / BLOCK * BLOCK + j)) as [E1 E2];
      [lia|apply same_tile_of_base; lia|].
    rewrite E1, E2. reflexivity.
  - intros intermediate0 thread_scope0 gridDim_x gridDim_y dimx dimy x y
      Rx Ry Gx Gy Hagree run.
    unfold run.
    rewrite !(@x_lorenzo_2d1l_spec intermediate0 thread_scope0 dimx dimy
                outlier xdata radius ebx2 gridDim_x gridDim_y _ x y Rx Ry
                Gx Gy).
    apply Qmult_comp; [|reflexivity].
    apply tile_prefix_sum2_Qeq. intros x' y' Hx' Hy'.
    unfold fuse.
    destruct (Hagree x' y') as [E1 E2];
      [lia|lia|apply same_tile_of_base; lia|apply same_tile_of_base; lia|].
    rewrite E1, E2. reflexivity.
  - intros intermediate3_0 thread_scope3_0 gridDim_x gridDim_y gridDim_z
      dimx dimy dimz x y z Rx Ry Rz Gx Gy Gz Hagree run run'.
    assert (Hsum : (tile_prefix_sum3
                      (fun x' y' z' => fuse (g_data g outlier) (g_quant g)
                                         radius (lin3 dimx dimy x' y' z'))
                      x y z
                    == tile_prefix_sum3
                         (fun x' y' z' => fuse (g_data h outlier) (g_quant h)
                                            radius (lin3 dimx dimy x' y' z'))
                         x y z)%Q).
    { apply tile_prefix_sum3_Qeq. intros x' y' z' Hx' Hy' Hz'.
      unfold fuse.
      destruct (Hagree x' y' z') as [E1 E2];
        [lia|lia|lia|apply same_tile_of_base; lia
        |apply same_tile_of_base; lia|apply same_tile_of_base; lia|].
      rewrite E1, E2. reflexivity. }
    unfold run, run'. split.
    + rewrite !(@x_lorenzo_3d1l_spec intermediate3_0 thread_scope3_0 dimx
                  dimy dimz outlier xdata radius ebx2 gridDim_x gridDim_y
                  gridDim_z _ x y z Rx Ry Rz Gx Gy Gz).
      rewrite Hsum. reflexivity.
    + rewrite !(@x_lorenzo_3d1lvar_spec intermediate3_0 dimx
                  dimy dimz outlier xdata radius ebx2 gridDim_x gridDim_y
                  gridDim_z _ x y z Rx Ry Rz Gx Gy Gz).
      rewrite Hsum. reflexivity.
Qed.

(** Nine samples in tiles of four: the outlier of the last sample
    changes, the values restored in the tile before it do not. *)
Lemma x_lorenzo_tile_local_witness :
  let g := global_of scenario_grid in
  let h := global_of [1; 2; 4; 3; 5; 9; 20; 2; 99]%Q in
  let run g := x_lorenzo_1d1l 4 2 3 0 1 9 8 (1 # 2) g in
  g_data (run g) 1 5 = g_data (run h) 1 5.
Proof.
  intros g h.
  apply (proj1 (@x_lorenzo_tile_local 8 0 1 (1 # 2) g h) 4 2 3 9 5);
    [lia|lia|reflexivity|lia|lia|].
  intros id' Hlt Htile.
  do 8 (destruct id' as [|id']; [split; reflexivity|]).
  exfalso. destruct id' as [|id']; [discriminate Htile|lia].
Defined.

(* ================================================================== *)
(** ** Further properties of the orchestrator *)

Lemma codec_events_no_write (tr : list event) :
  forallb is_codec_event tr = true -> filter is_reserved_write tr = [].
Proof.
  induction tr as [|ev tr IH]; [reflexivity|].
  cbn [forallb filter]. intros H. apply andb_true_iff in H as [H1 H2].
  destruct ev; try discriminate H1; cbn; apply IH, H2.
Qed.

Section OrchestratorFurther.

Variable Blob : Type.
Variable predictor : Predictor.
Variable spreducer : SpReducer Blob.
Variable codec : Codec Blob.
Variable fb_codec : Codec Blob.
Variables (data_size_x data_size_y data_size_z : Z).
Variable sizeof_T : Z.

Local Abbreviation compress' :=
  (compress predictor spreducer codec fb_codec
     data_size_x data_size_y data_size_z sizeof_T).
Local Abbreviation decompress' :=
  (decompress predictor spreducer codec fb_codec).

(** What the encode step leaves in the object when the fallback encoder
    runs. *)
Lemma codec_do_fallback_flag (c : Compressor) (tr : list event)
    (force : bool) (q : mem Z) (len radius sublen pardeg : Z) :
  force = true \/
  encode codec q len (radius * 2) sublen pardeg = Throw runtime_error ->
  let r := codec_do_with_exception codec fb_codec c tr force q len radius
             sublen pardeg in
  use_fallback_codec (fst (fst r)) = true /\
  snd r = encode fb_codec q len (radius * 2) sublen pardeg.
Proof.
  intros H. unfold codec_do_with_exception.
  destruct force; cbn [negb].
  - unfold encode_with_fallback_codec.
    cbn [fallback_codec_allocated use_fallback_codec header reserved_nbyte].
    destruct (negb (fallback_codec_allocated c)); cbn; split; reflexivity.
  - destruct H as [H|H]; [discriminate|]. rewrite H.
    unfold encode_with_fallback_codec.
    cbn [fallback_codec_allocated use_fallback_codec header reserved_nbyte].
    destruct (negb (fallback_codec_allocated c)); cbn; split; reflexivity.
Qed.

(** X8: [use_fallback_codec] is cleared only when [compress] returns.
    When the fallback encoder throws, the exception leaves [compress] with
    the flag still set; if the object is used again and the 4-byte
    encoding then succeeds, the 4-byte codec alone has run, yet the
    archive is labelled [byte_vle = 8], and [decompress] decodes it with
    the 8-byte codec. *)
Theorem compress_stale_fallback_flag (c : Compressor) (g : Global)
    (uncompressed : ptr) (eb : Q) (radius pardeg cu nz : Z) (force : bool)
    (sp : Blob * Z) (e : exn)
    (g' : Global) (uncompressed' : ptr) (eb' : Q) (radius' pardeg' cu' nz' : Z)
    (sp' : Blob * Z) (vle : Blob) (n : Z) :
  let N := get_data_len predictor in
  let m := get_square_size N in
  let len := get_quant_len predictor in
  let g1 := construct predictor uncompressed eb radius g in
  let g1' := construct predictor uncompressed' eb' radius' g' in
  gather spreducer (g_data g1 uncompressed) (m * m) = Ok sp ->
  force = true \/
  encode codec (g_quant g1) len (radius * 2) (get_npart N pardeg) pardeg
  = Throw runtime_error ->
  encode fb_codec (g_quant g1) len (radius * 2) (get_npart N pardeg) pardeg
  = Throw e ->
  gather spreducer (g_data g1' uncompressed') (m * m) = Ok sp' ->
  encode codec (g_quant g1') len (radius' * 2) (get_npart N pardeg') pardeg'
  = Ok (vle, n) ->
  let out1 := compress' c g uncompressed eb radius pardeg cu nz force in
  let out2 := compress' (o_self out1) g' uncompressed' eb' radius' pardeg'
                cu' nz' false in
  o_ret out1 = Throw e /\
  use_fallback_codec (o_self out1) = true /\
  filter is_codec_event (o_trace out2)
  = [EvEncode 4 (g_quant g1') len (radius' * 2) (get_npart N pardeg')
       pardeg' true] /\
  h_byte_vle (header (o_self out2)) = 8%Z /\
  use_fallback_codec (o_self out2) = false /\
  exists k,
    o_ret out2 = Ok (mkArchive (header (o_self out2)) vle (fst sp'), k) /\
    forall c3 g3 out_decompressed,
      filter is_codec_event
        (o_trace (decompress' c3 g3
                    (mkArchive (header (o_self out2)) vle (fst sp')) None
                    out_decompressed))
      = (if fallback_codec_allocated c3 then []
         else [EvAllocFallback len (radius' * 2) pardeg'])
        ++ [EvDecode 8].
Proof.
  intros N m len g1 g1' Hg Hthrow Hfb Hg' Henc out1 out2.
  assert (H1 : o_ret out1 = Throw e /\ use_fallback_codec (o_self out1) = true).
  { unfold out1, compress. fold N m len g1. rewrite Hg.
    destruct sp as [d_spfmt spfmt_out_len].
    pose proof (@codec_do_fallback_flag (set_codecs c cu nz)
                  ([EvConstruct uncompressed N]
                   ++ [EvGather uncompressed (m * m)])
                  force (g_quant g1) len radius (get_npart N pardeg) pardeg
                  Hthrow) as [Hflag Hres].
    destruct (codec_do_with_exception codec fb_codec (set_codecs c cu nz)
                ([EvConstruct uncompressed N]
                 ++ [EvGather uncompressed (m * m)])
                force (g_quant g1) len radius (get_npart N pardeg) pardeg)
      as [[c' tr'] r].
    cbn [fst snd] in Hflag, Hres. rewrite Hfb in Hres. subst r.
    cbn [o_ret o_self]. split; [reflexivity|exact Hflag]. }
  destruct H1 as [Hret Hflag].
  split; [exact Hret|]. split; [exact Hflag|].
  unfold out2, compress. fold N m len g1'. rewrite Hg'.
  destruct sp' as [d_spfmt' spfmt_out_len'].
  unfold codec_do_with_exception. cbn [negb]. rewrite Henc.
  unfold subfile_collect, update_header, set_codecs, clear_use_fallback.
  cbn [o_self o_ret o_trace header reserved_nbyte use_fallback_codec
       fallback_codec_allocated h_byte_vle fst snd].
  rewrite Hflag.
  split.
  { rewrite !filter_app. cbn. reflexivity. }
  split; [reflexivity|]. split; [reflexivity|].
  eexists. split; [reflexivity|].
  intros c3 g3 out_decompressed. unfold decompress.
  cbn [ar_header h_byte_vle h_radius h_vle_pardeg Z.eqb Pos.eqb
       use_fallback_codec fallback_codec_allocated negb header
       reserved_nbyte].
  destruct (fallback_codec_allocated c3); cbn [negb];
    cbn [o_trace]; rewrite ?filter_app; cbn; reflexivity.
Qed.

(** X9: a [compress] call that throws has already run the predictor on
    the caller's buffer, has written nothing to the reserved buffer, and
    has changed the header only in the two fields set on entry. *)
Theorem compress_throw_effects (c : Compressor) (g : Global)
    (uncompressed : ptr) (eb : Q) (radius pardeg cu nz : Z) (force : bool)
    (e : exn) :
  let out := compress' c g uncompressed eb radius pardeg cu nz force in
  o_ret out = Throw e ->
  o_mem out = construct predictor uncompressed eb radius g /\
  header (o_self out) = header (set_codecs c cu nz) /\
  reserved_nbyte (o_self out) = reserved_nbyte c /\
  filter is_reserved_write (o_trace out) = [].
Proof.
  intros out Hret. subst out. unfold compress in *.
  set (g1 := construct predictor uncompressed eb radius g) in *.
  set (N := get_data_len predictor) in *.
  set (m := get_square_size N) in *.
  destruct (gather spreducer (g_data g1 uncompressed) (m * m))
    as [[d_spfmt spfmt_out_len]|e'].
  - pose proof (@codec_do_reserved Blob codec fb_codec (set_codecs c cu nz)
                  ([EvConstruct uncompressed N]
                   ++ [EvGather uncompressed (m * m)])
                  force (g_quant g1) (get_quant_len predictor) radius
                  (get_npart N pardeg) pardeg)
      as (Hres & Hhdr & tr' & Htr & Hev).
    destruct (codec_do_with_exception codec fb_codec (set_codecs c cu nz)
                ([EvConstruct uncompressed N]
                 ++ [EvGather uncompressed (m * m)])
                force (g_quant g1) (get_quant_len predictor) radius
                (get_npart N pardeg) pardeg) as [[c' tr''] r].
    cbn [fst snd] in Hres, Hhdr, Htr.
    destruct r as [[d_codec_out codec_out_len]|e''].
    + unfold subfile_collect in Hret. cbn in Hret. discriminate Hret.
    + cbn [o_mem o_self o_trace]. split; [reflexivity|].
      split; [exact Hhdr|]. split; [exact Hres|].
      subst tr''. rewrite !filter_app. cbn [filter is_reserved_write app].
      apply codec_events_no_write, Hev.
  - cbn [o_mem o_self o_trace]. repeat split.
Qed.

(** X10: once the fallback codec has been allocated (by
    [allocate_workspace] with bit [0b10], or lazily), it stays allocated
    and no later [allocate_workspace], [compress] or [decompress]
    allocates it lazily again. *)
Theorem fallback_codec_allocated_once (c : Compressor) :
  fallback_codec_allocated c = true ->
  (forall codec_config c',
     allocate_workspace predictor sizeof_T c codec_config = Ok c' ->
     fallback_codec_allocated c' = true) /\
  (forall g uncompressed eb radius pardeg cu nz force,
     let out := compress' c g uncompressed eb radius pardeg cu nz force in
     fallback_codec_allocated (o_self out) = true /\
     filter is_fallback_alloc (o_trace out) = []) /\
  (forall g in_compressed header_arg out_decompressed,
     let out := decompress' c g in_compressed header_arg out_decompressed in
     fallback_codec_allocated (o_self out) = true /\
     filter is_fallback_alloc (o_trace out) = []).
Proof.
  intros Hc. split; [|split].
  - intros codec_config c' H. unfold allocate_workspace in H.
    destruct (codec_config =? 0)%Z; [discriminate|].
    injection H as <-. cbn [fallback_codec_allocated]. rewrite Hc.
    destruct (Z.land codec_config 2 =? 0)%Z; reflexivity.
  - intros g uncompressed eb radius pardeg cu nz force out. subst out.
    unfold compress.
    destruct (gather spreducer _ _) as [[d_spfmt spfmt_out_len]|e'];
      [|cbn; split; [exact Hc|reflexivity]].
    unfold codec_do_with_exception, encode_with_fallback_codec.
    cbn [set_codecs fallback_codec_allocated use_fallback_codec header
         reserved_nbyte].
    rewrite Hc. cbn [negb].
    destruct force; cbn [negb].
    + destruct (encode fb_codec _ _ _ _ _) as [[d_codec_out codec_out_len]|e'];
        cbn; rewrite ?filter_app; cbn; split; try exact Hc; reflexivity.
    + destruct (encode codec _ _ _ _ _)
        as [[d_codec_out codec_out_len]|[|]];
        [cbn; rewrite ?filter_app; cbn; split; try exact Hc; reflexivity
        | |cbn; rewrite ?filter_app; cbn; split; try exact Hc; reflexivity].
      destruct (encode fb_codec _ _ _ _ _) as [[d_codec_out codec_out_len]|e'];
        cbn; rewrite ?filter_app; cbn; split; try exact Hc; reflexivity.
  - intros g in_compressed header_arg out_decompressed out. subst out.
    unfold decompress.
    cbn [fallback_codec_allocated use_fallback_codec header reserved_nbyte].
    rewrite Hc. cbn [negb].
    destruct (negb _); cbn; split; try exact Hc; reflexivity.
Qed.

(** X15: the archive that [compress] returns, when the subfile sizes add
    up to less than [2 ^ 32]: the header, the anchor, the Huffman stream
    and the sparse blob are written back to back from offset 0, in that
    order, and the header records the dimensions and the parameters of
    the call. *)
Theorem compress_archive_layout (c : Compressor) (g : Global)
    (uncompressed : ptr) (eb : Q) (radius pardeg cu nz : Z) (force : bool)
    (d_spfmt d_codec_out : Blob) (spfmt_out_len codec_out_len : Z) :
  let g1 := construct predictor uncompressed eb radius g in
  let N := get_data_len predictor in
  let m := get_square_size N in
  let a := (sizeof_T * get_anchor_len predictor)%Z in
  gather spreducer (g_data g1 uncompressed) (m * m)
  = Ok (d_spfmt, spfmt_out_len) ->
  encoded codec fb_codec force (g_quant g1) (get_quant_len predictor) radius
    (get_npart N pardeg) pardeg = Ok (d_codec_out, codec_out_len) ->
  (0 <= a)%Z -> (0 <= codec_out_len)%Z -> (0 <= spfmt_out_len)%Z ->
  (128 + a + codec_out_len + spfmt_out_len < 2 ^ 32)%Z ->
  let out := compress' c g uncompressed eb radius pardeg cu nz force in
  let h := header (o_self out) in
  filter is_reserved_write (o_trace out)
  = [EvWriteReserved 0 128;
     EvWriteReserved 128 a;
     EvWriteReserved (128 + a) codec_out_len;
     EvWriteReserved (128 + a + codec_out_len) spfmt_out_len] /\
  o_ret out = Ok (mkArchive h d_codec_out d_spfmt,
                  (128 + a + codec_out_len + spfmt_out_len)%Z) /\
  (h_x h, h_y h, h_z h) = (data_size_x, data_size_y, data_size_z) /\
  h_eb h = eb /\ h_radius h = radius /\ h_vle_pardeg h = pardeg /\
  h_codecs_in_use h = cu /\ h_nz_density_factor h = nz /\
  h_header_nbyte h = 128%Z.
Proof.
  intros g1 N m a Hg He Ha Hc Hs Hsum out h.
  destruct (@compress_ok Blob predictor spreducer codec fb_codec data_size_x
              data_size_y data_size_z sizeof_T c g uncompressed eb radius
              pardeg cu nz force d_spfmt d_codec_out spfmt_out_len
              codec_out_len Hg He) as (Hent & _ & Hret & tr' & Hev & Htr).
  fold out h in Hent, Hret, Htr.
  destruct (@subfile_entry_nowrap predictor sizeof_T codec_out_len
              spfmt_out_len (h_entry (header c)) Ha Hc Hs Hsum)
    as ((N0 & N1 & N2 & N3) & T0 & T1 & T2 & T3 & T4).
  rewrite <- Hent in T0, T1, T2, T3, T4.
  split; [|split].
  - rewrite Htr, !filter_app, (codec_events_no_write _ Hev).
    cbn [filter is_reserved_write app].
    unfold HEADER_ANCHOR, HEADER_VLE, HEADER_SPFMT.
    rewrite T1, T2, T3, N1, N2, N3. reflexivity.
  - rewrite Hret. unfold HEADER_END. rewrite T4. reflexivity.
  - subst h out. unfold compress. fold g1 N m. rewrite Hg.
    pose proof (@codec_do_result Blob codec fb_codec (set_codecs c cu nz)
                  ([EvConstruct uncompressed N]
                   ++ [EvGather uncompressed (m * m)])
                  force (g_quant g1) (get_quant_len predictor) radius
                  (get_npart N pardeg) pardeg) as Hr.
    pose proof (@codec_do_reserved Blob codec fb_codec (set_codecs c cu nz)
                  ([EvConstruct uncompressed N]
                   ++ [EvGather uncompressed (m * m)])
                  force (g_quant g1) (get_quant_len predictor) radius
                  (get_npart N pardeg) pardeg) as (_ & Hhdr & _).
    destruct (codec_do_with_exception codec fb_codec (set_codecs c cu nz)
                ([EvConstruct uncompressed N]
                 ++ [EvGather uncompressed (m * m)])
                force (g_quant g1) (get_quant_len predictor) radius
                (get_npart N pardeg) pardeg) as [[c' tr''] r].
    cbn [fst snd] in Hr, Hhdr. rewrite He in Hr. subst r.
    unfold subfile_collect, update_header, clear_use_fallback.
    cbn [o_self header h_x h_y h_z h_eb h_radius h_vle_pardeg
         h_codecs_in_use h_nz_density_factor h_header_nbyte
         use_fallback_codec fallback_codec_allocated reserved_nbyte].
    rewrite Hhdr. unfold set_codecs.
    cbn [header h_codecs_in_use h_nz_density_factor].
    repeat split.
Qed.

End OrchestratorFurther.

(** X11: the destructor of an object whose four components are allocated
    (as the constructor leaves them: non-null and pairwise distinct)
    deletes [codec] twice and never deletes [fb_codec]; the other two
    components are deleted once. *)
Theorem destructor_deletes_codec_twice (m : Members) :
  m_predictor m <> 0 -> m_spreducer m <> 0 -> m_codec m <> 0 ->
  m_fb_codec m <> 0 ->
  NoDup [m_predictor m; m_spreducer m; m_codec m; m_fb_codec m] ->
  count_occ Nat.eq_dec (destructor m) (m_codec m) = 2 /\
  count_occ Nat.eq_dec (destructor m) (m_fb_codec m) = 0 /\
  count_occ Nat.eq_dec (destructor m) (m_spreducer m) = 1 /\
  count_occ Nat.eq_dec (destructor m) (m_predictor m) = 1.
Proof.
  intros Hp Hs Hc Hf Hnd. unfold destructor.
  destruct (Nat.eqb_spec (m_spreducer m) 0); [contradiction|].
  destruct (Nat.eqb_spec (m_codec m) 0); [contradiction|].
  destruct (Nat.eqb_spec (m_fb_codec m) 0); [contradiction|].
  destruct (Nat.eqb_spec (m_predictor m) 0); [contradiction|].
  inversion Hnd as [|? ? N1 Hnd1]; subst.
  inversion Hnd1 as [|? ? N2 Hnd2]; subst.
  inversion Hnd2 as [|? ? N3 _]; subst.
  cbn [In] in N1, N2, N3. cbn [app count_occ].
  repeat match goal with
         | |- context [Nat.eq_dec ?a ?b] =>
             destruct (Nat.eq_dec a b); try congruence
         end;
    try (exfalso; intuition congruence); repeat split; reflexivity.
Qed.

(** The spike scenario with codecs whose code book holds 16 entries:
    with [radius = 512] both encoders throw; the object is then used with
    [radius = 8]. *)
Lemma compress_stale_fallback_flag_witness :
  let cdc := bounded_codec 4 16 in
  let fb := bounded_codec 8 16 in
  let out1 := run_compress 16 cdc fb new_Compressor scenario_spike (1 # 10)
                512 false in
  let out2 := run_compress 16 cdc fb (o_self out1) scenario_spike (1 # 10)
                8 false in
  o_ret out1 = Throw runtime_error /\
  use_fallback_codec (o_self out1) = true /\
  filter is_codec_event (o_trace out2)
  = [EvEncode 4 (g_quant spike_predicted) 5 (8 * 2) (get_npart 5 1) 1 true] /\
  h_byte_vle (header (o_self out2)) = 8%Z.
Proof.
  intros cdc fb out1 out2.
  set (g1 := construct (run_lorenzo 16 5) 0 (1 # 10) 512
               (global_of scenario_spike)).
  set (sp := ok_or (SpBlob [], 0%Z)
               (gather dense_spreducer (g_data g1 0)
                  (get_square_size 5 * get_square_size 5))).
  assert (H1 : gather dense_spreducer (g_data g1 0)
                 (get_square_size 5 * get_square_size 5) = Ok sp)
    by reflexivity.
  assert (H2 : false = true \/
               encode cdc (g_quant g1) 5 (512 * 2) (get_npart 5 1) 1
               = Throw runtime_error) by (right; reflexivity).
  assert (H3 : encode fb (g_quant g1) 5 (512 * 2) (get_npart 5 1) 1
               = Throw runtime_error) by reflexivity.
  assert (H4 : gather dense_spreducer (g_data spike_predicted 0)
                 (get_square_size 5 * get_square_size 5) = Ok spike_gathered)
    by reflexivity.
  assert (H5 : encode cdc (g_quant spike_predicted) 5 (8 * 2) (get_npart 5 1)
                 1 = Ok (spike_encoded (plain_codec 4))) by reflexivity.
  destruct (@compress_stale_fallback_flag SampleBlob (run_lorenzo 16 5)
              dense_spreducer cdc fb 5 1 1 4 new_Compressor
              (global_of scenario_spike) 0 (1 # 10) 512 1 1 4 false sp
              runtime_error (global_of scenario_spike) 0 (1 # 10) 8 1 1 4
              spike_gathered (fst (spike_encoded (plain_codec 4)))
              (snd (spike_encoded (plain_codec 4))) H1 H2 H3 H4 H5)
    as (R1 & R2 & R3 & R4 & _).
  split; [exact R1|]. split; [exact R2|]. split; [exact R3|exact R4].
Defined.

(** The spike scenario with two codecs that throw. *)
Lemma compress_throw_effects_witness :
  let out := run_compress 16 overflowing_codec overflowing_codec
               new_Compressor scenario_spike (1 # 10) 8 false in
  o_ret out = Throw runtime_error /\
  o_mem out = spike_predicted /\
  filter is_reserved_write (o_trace out) = [].
Proof.
  intros out.
  assert (H : o_ret out = Throw runtime_error) by reflexivity.
  split; [exact H|].
  destruct (@compress_throw_effects SampleBlob (run_lorenzo 16 5)
              dense_spreducer overflowing_codec overflowing_codec 5 1 1 4
              new_Compressor (global_of scenario_spike) 0 (1 # 10) 8 1 1 4
              false runtime_error H) as (R1 & _ & _ & R4).
  split; [exact R1|exact R4].
Defined.

(** Both codecs pre-allocated ([codec_config = 0b11]), then a forced
    fallback. *)
Lemma fallback_codec_allocated_once_witness :
  let c := ok_or new_Compressor
             (allocate_workspace (run_lorenzo 16 5) 4 new_Compressor 3) in
  let out := run_compress 16 (plain_codec 4) (plain_codec 8) c scenario_spike
               (1 # 10) 8 true in
  fallback_codec_allocated c = true /\
  fallback_codec_allocated (o_self out) = true /\
  filter is_fallback_alloc (o_trace out) = [].
Proof.
  intros c out.
  assert (H : fallback_codec_allocated c = true) by reflexivity.
  split; [exact H|].
  exact (proj1 (proj2 (@fallback_codec_allocated_once SampleBlob
                         (run_lorenzo 16 5) dense_spreducer (plain_codec 4)
                         (plain_codec 8) 5 1 1 4 c H))
           (global_of scenario_spike) 0 (1 # 10)%Q 8%Z 1%Z 1%Z 4%Z true).
Defined.

Lemma destructor_deletes_codec_twice_witness :
  let m := mkMembers 1 2 3 4 in
  count_occ Nat.eq_dec (destructor m) (m_codec m) = 2 /\
  count_occ Nat.eq_dec (destructor m) (m_fb_codec m) = 0 /\
  count_occ Nat.eq_dec (destructor m) (m_spreducer m) = 1 /\
  count_occ Nat.eq_dec (destructor m) (m_predictor m) = 1.
Proof.
  apply (@destructor_deletes_codec_twice (mkMembers 1 2 3 4));
    cbn [m_predictor m_spreducer m_codec m_fb_codec];
    try discriminate.
  repeat constructor; cbn [In]; lia.
Defined.

Lemma compress_archive_layout_witness :
  let out := spike_compress (plain_codec 4) in
  let h := header (o_self out) in
  filter is_reserved_write (o_trace out)
  = [EvWriteReserved 0 128;
     EvWriteReserved 128 (4 * 0);
     EvWriteReserved (128 + 4 * 0) (snd (spike_encoded (plain_codec 4)));
     EvWriteReserved (128 + 4 * 0 + snd (spike_encoded (plain_codec 4)))
       (snd spike_gathered)] /\
  h_eb h = (1 # 10)%Q /\ h_radius h = 8%Z.
Proof.
  assert (H1 : gather dense_spreducer (g_data spike_predicted 0)
                 (get_square_size 5 * get_square_size 5)
               = Ok (fst spike_gathered, snd spike_gathered)) by reflexivity.
  assert (H2 : encoded (plain_codec 4) (plain_codec 8) false
                 (g_quant spike_predicted) 5 8 (get_npart 5 1) 1
               = Ok (fst (spike_encoded (plain_codec 4)),
                     snd (spike_encoded (plain_codec 4)))) by reflexivity.
  assert (H3 : (0 <= 4 * 0)%Z) by lia.
  assert (H4 : (0 <= snd (spike_encoded (plain_codec 4)))%Z)
    by (vm_compute; discriminate).
  assert (H5 : (0 <= snd spike_gathered)%Z) by (vm_compute; discriminate).
  assert (H6 : (128 + 4 * 0 + snd (spike_encoded (plain_codec 4))
                + snd spike_gathered < 2 ^ 32)%Z) by (vm_compute; reflexivity).
  destruct (@compress_archive_layout SampleBlob (run_lorenzo 16 5)
              dense_spreducer (plain_codec 4) (plain_codec 8) 5 1 1 4
              new_Compressor (global_of scenario_spike) 0 (1 # 10) 8 1 1 4
              false (fst spike_gathered) (fst (spike_encoded (plain_codec 4)))
              (snd spike_gathered) (snd (spike_encoded (plain_codec 4)))
              H1 H2 H3 H4 H5 H6) as (R1 & _ & _ & R2 & R3 & _).
  intros out h. split; [exact R1|]. split; [exact R2|exact R3].
Defined.

(* ================================================================== *)
(** ** Reusing a compressor *)


Section OrchestratorReuse.

Variable Blob : Type.
Variable predictor : Predictor.
Variable spreducer : SpReducer Blob.
Variable codec : Codec Blob.
Variable fb_codec : Codec Blob.
Variables (data_size_x data_size_y data_size_z : Z).
Variable sizeof_T : Z.

Local Abbreviation compress' :=
  (compress predictor spreducer codec fb_codec
     data_size_x data_size_y data_size_z sizeof_T).


End OrchestratorReuse.


(* ================================================================== *)
(** ** Compressing what was decompressed *)











(* ================================================================== *)
(** ** The compress-time kernels with delayed post-quantization *)

Section Kernel1DDelayFacts.

Variables BLOCK SEQ : nat.
Hypothesis SEQ_pos : 0 < SEQ.
Hypothesis BLOCK_pos : 0 < BLOCK.
Hypothesis SEQ_divides : BLOCK mod SEQ = 0.

Local Abbreviation NT := (NTHREAD BLOCK SEQ).

Lemma pred1d_delay_first_at (ts : mem Q) (fls : Q) (t : nat) (sh : mem Q)
    (k : nat) :
  pred1d_delay_postquant SEQ true ts fls t sh k
  = if k =? t * SEQ then (ts 0%nat - fls)%Q else sh k.
Proof.
  unfold pred1d_delay_postquant.
  destruct (Nat.eqb_spec k (t * SEQ)) as [->|Hne].
  - now rewrite store_eq.
  - now rewrite store_neq by lia.
Qed.

Lemma pred1d_delay_rest_at (ts : mem Q) (fls : Q) (t : nat) (sh : mem Q)
    (k : nat) :
  pred1d_delay_postquant SEQ false ts fls t sh k
  = if (t * SEQ <? k) && (k <? t * SEQ + SEQ)
    then (ts (k - t * SEQ)%nat - ts (k - t * SEQ - 1)%nat)%Q
    else sh k.
Proof.
  unfold pred1d_delay_postquant.
  destruct (Nat.ltb_spec (t * SEQ) k) as [H1|H1];
    [destruct (Nat.ltb_spec k (t * SEQ + SEQ)) as [H2|H2]|]; cbn [andb].
  - apply (loop_writes (fun m : mem Q => m k)) with (i0 := k - t * SEQ).
    + lia.
    + intros acc. replace (k - t * SEQ + t * SEQ) with k by lia.
      now rewrite store_eq.
    + intros i acc Hi.
      destruct (Nat.eq_dec k (i + t * SEQ)) as [->|Hne].
      * left. rewrite store_eq.
        now replace (i + t * SEQ - t * SEQ) with i by lia.
      * right. now rewrite store_neq by lia.
  - apply (loop_preserves (fun m : mem Q => m k)). intros i acc Hi.
    now rewrite store_neq by lia.
  - apply (loop_preserves (fun m : mem Q => m k)). intros i acc Hi.
    now rewrite store_neq by lia.
Qed.

Lemma pred1d_delay_thread_at (sh1 : mem Q) (t : nat) (sh : mem Q) (k : nat) :
  pred1d_delay_postquant SEQ false (load1d_thread_scope SEQ sh1 t) 0%Q t
    (pred1d_delay_postquant SEQ true (load1d_thread_scope SEQ sh1 t)
       (load1d_from_last_stripe SEQ sh1 t) t sh) k
  = if (t * SEQ <=? k) && (k <? t * SEQ + SEQ) then delta1d sh1 k else sh k.
Proof.
  rewrite pred1d_delay_rest_at, pred1d_delay_first_at.
  unfold load1d_thread_scope, load1d_from_last_stripe, delta1d.
  destruct (Nat.ltb_spec (t * SEQ) k) as [H1|H1];
    destruct (Nat.ltb_spec k (t * SEQ + SEQ)) as [H2|H2];
    destruct (Nat.leb_spec (t * SEQ) k) as [H3|H3];
    destruct (Nat.eqb_spec k (t * SEQ)) as [H4|H4];
    cbn [andb]; try lia; try reflexivity.
  - destruct (Nat.eqb_spec k 0) as [H5|H5]; [lia|].
    replace (t * SEQ + (k - t * SEQ)) with k by lia.
    replace (t * SEQ + (k - t * SEQ - 1)) with (k - 1) by lia. reflexivity.
  - subst k. rewrite Nat.add_0_r.
    destruct (Nat.ltb_spec 0 t) as [H5|H5];
      destruct (Nat.eqb_spec (t * SEQ) 0) as [H6|H6]; try reflexivity; try nia.
Qed.

Lemma pred1d_delay_phase (sh1 : mem Q) (k : nat) :
  k < BLOCK ->
  for_loop 0 NT (fun TIX sh =>
    pred1d_delay_postquant SEQ false (load1d_thread_scope SEQ sh1 TIX) 0%Q TIX
      (pred1d_delay_postquant SEQ true (load1d_thread_scope SEQ sh1 TIX)
         (load1d_from_last_stripe SEQ sh1 TIX) TIX sh)) sh1 k
  = delta1d sh1 k.
Proof.
  intros Hk.
  destruct (split_blocked SEQ_pos BLOCK_pos SEQ_divides Hk) as (Ht & Hi & Hsum).
  apply (loop_writes (fun m : mem Q => m k)) with (i0 := k / SEQ).
  - lia.
  - intros acc. rewrite pred1d_delay_thread_at.
    destruct (Nat.leb_spec (k / SEQ * SEQ) k); [|lia].
    destruct (Nat.ltb_spec k (k / SEQ * SEQ + SEQ)); [|lia]. reflexivity.
  - intros t acc _. rewrite pred1d_delay_thread_at.
    destruct ((t * SEQ <=? k) && (k <? t * SEQ + SEQ)); auto.
Qed.

Lemma write1d_delay_phase (shd : mem Q) (outlier : ptr)
    (dimx id_base : nat) (g : Global) (id : nat) :
  id_base <= id < id_base + BLOCK -> id < dimx ->
  g_data (for_loop 0 NT (write1d_delay BLOCK SEQ shd outlier dimx id_base) g)
    outlier id
  = shd (id - id_base).
Proof.
  intros Hid Hd.
  assert (Hk : id - id_base < BLOCK) by lia.
  destruct (split_striped SEQ_pos BLOCK_pos SEQ_divides Hk) as (Ht & Hi & Hsum).
  set (v := shd (id - id_base)).
  set (obs := fun g : Global => g_data g outlier id).
  assert (Hstep : forall t i (acc : Global),
    obs (if id_base + t + i * NT <? dimx
         then mkGlobal (dstore (g_data acc) outlier (id_base + t + i * NT)
                          (shd (t + i * NT))) (g_quant acc)
         else acc) = v \/
    obs (if id_base + t + i * NT <? dimx
         then mkGlobal (dstore (g_data acc) outlier (id_base + t + i * NT)
                          (shd (t + i * NT))) (g_quant acc)
         else acc) = obs acc).
  { intros t i acc. destruct (id_base + t + i * NT <? dimx); [|now right].
    unfold obs. cbn [g_data].
    destruct (Nat.eq_dec id (id_base + t + i * NT)) as [E|Hne].
    - left. rewrite E, dstore_eq. unfold v.
      now replace (id - id_base) with (t + i * NT) by lia.
    - right. rewrite dstore_neq by auto. reflexivity. }
  apply (loop_writes obs) with (i0 := (id - id_base) mod NT).
  - lia.
  - intros acc. unfold write1d_delay.
    apply (loop_writes obs) with (i0 := (id - id_base) / NT).
    + lia.
    + intros acc'.
      replace (id_base + (id - id_base) mod NT + (id - id_base) / NT * NT)
        with id by lia.
      destruct (Nat.ltb_spec id dimx); [|lia].
      unfold obs. cbn [g_data]. rewrite dstore_eq, Hsum. reflexivity.
    + intros i acc' _. apply Hstep.
  - intros t acc _. unfold write1d_delay.
    apply (loop_writes_only obs). intros i acc' _. apply Hstep.
Qed.

Lemma write1d_delay_frame (shd : mem Q) (outlier : ptr)
    (dimx id_base : nat) (g : Global) :
  let g' := for_loop 0 NT (write1d_delay BLOCK SEQ shd outlier dimx id_base)
              g in
  g_quant g' = g_quant g /\
  forall p id,
    p <> outlier \/ id < id_base \/ id_base + BLOCK <= id \/ dimx <= id ->
    g_data g' p id = g_data g p id.
Proof.
  cbv zeta. split.
  - apply (loop_preserves g_quant). intros t acc Ht. unfold write1d_delay.
    apply (loop_preserves g_quant). intros i acc' Hi.
    destruct (id_base + t + i * NT <? dimx); reflexivity.
  - intros p id Hout.
    apply (loop_preserves (fun g : Global => g_data g p id)).
    intros t acc Ht. unfold write1d_delay.
    apply (loop_preserves (fun g : Global => g_data g p id)).
    intros i acc' Hi.
    pose proof (@write1d_step_bound BLOCK SEQ SEQ_pos BLOCK_pos SEQ_divides t i) as Hb.
    destruct (Nat.ltb_spec (id_base + t + i * NT) dimx) as [Hlt|Hge];
      [|reflexivity].
    cbn [g_data]. rewrite dstore_neq by lia. reflexivity.
Qed.

Variable shmem_data0 : mem Q.

Lemma c_lorenzo_1d1l_delay_block_spec (data outlier : ptr) (dimx : nat)
    (radius : Z) (ebx2_r : Q) (BIX : nat) (g : Global) (s : mem Q) :
  (forall id, BIX * BLOCK <= id < BIX * BLOCK + BLOCK -> id < dimx ->
     g_data g data id = s id) ->
  let g' := c_lorenzo_1d1l_delay_block BLOCK SEQ shmem_data0 data outlier
              dimx radius ebx2_r BIX g in
  (forall id, BIX * BLOCK <= id < BIX * BLOCK + BLOCK -> id < dimx ->
     g_data g' outlier id = lorenzo_delta1d BLOCK (prequant s ebx2_r) id) /\
  g_quant g' = g_quant g /\
  (forall p id,
     p <> outlier \/ id < BIX * BLOCK \/ BIX * BLOCK + BLOCK <= id \/ dimx <= id ->
     g_data g' p id = g_data g p id).
Proof.
  intros Hs g'. subst g'. unfold c_lorenzo_1d1l_delay_block. cbv zeta.
  split; [|apply write1d_delay_frame].
  intros id Hid Hd.
  rewrite write1d_delay_phase by assumption.
  set (sh1 := for_loop 0 NT _ shmem_data0).
  assert (Hk : id - BIX * BLOCK < BLOCK) by lia.
  rewrite (pred1d_delay_phase sh1 Hk).
  assert (Hsh : forall k, k < BLOCK -> BIX * BLOCK + k < dimx ->
                  sh1 k = prequant s ebx2_r (BIX * BLOCK + k)).
  { intros k Hk' Hd'. unfold sh1.
    rewrite (load1d_phase SEQ_pos BLOCK_pos SEQ_divides) by assumption.
    unfold prequant. rewrite Hs by lia. reflexivity. }
  unfold delta1d, lorenzo_delta1d.
  rewrite Hsh by lia.
  replace (BIX * BLOCK + (id - BIX * BLOCK)) with id by lia.
  replace (id mod BLOCK) with (id - BIX * BLOCK).
  2:{ apply Nat.mod_unique with (q := BIX); lia. }
  destruct (Nat.eqb_spec (id - BIX * BLOCK) 0) as [E|E]; [reflexivity|].
  rewrite Hsh by lia.
  replace (BIX * BLOCK + (id - BIX * BLOCK - 1)) with (id - 1) by lia.
  reflexivity.
Qed.

Lemma c_lorenzo_1d1l_delay_spec (gridDim : nat) (data outlier : ptr)
    (dimx : nat) (radius : Z) (ebx2_r : Q) (g : Global) :
  let s := g_data g data in
  let g' := c_lorenzo_1d1l_delay BLOCK SEQ shmem_data0 gridDim data outlier
              dimx radius ebx2_r g in
  (forall id, id < gridDim * BLOCK -> id < dimx ->
     g_data g' outlier id = lorenzo_delta1d BLOCK (prequant s ebx2_r) id) /\
  g_quant g' = g_quant g /\
  (forall p id, p <> outlier \/ gridDim * BLOCK <= id \/ dimx <= id ->
     g_data g' p id = g_data g p id).
Proof.
  intros s g'. subst g'. unfold c_lorenzo_1d1l_delay.
  apply (for_loop_ind (fun b acc =>
    (forall id, id < b * BLOCK -> id < dimx ->
       g_data acc outlier id = lorenzo_delta1d BLOCK (prequant s ebx2_r) id) /\
    g_quant acc = g_quant g /\
    (forall p id, p <> outlier \/ b * BLOCK <= id \/ dimx <= id ->
       g_data acc p id = g_data g p id))).
  - lia.
  - split; [intros; lia|]. split; reflexivity.
  - intros b acc Hb (Hdone & Hq & Hrest).
    assert (Hin : forall id, b * BLOCK <= id < b * BLOCK + BLOCK -> id < dimx ->
                    g_data acc data id = s id).
    { intros id Hid Hd. apply Hrest. lia. }
    destruct (@c_lorenzo_1d1l_delay_block_spec data outlier dimx radius ebx2_r
                b acc s Hin) as (Hnew & Hq' & Hframe).
    split; [|split].
    + intros id Hid Hd.
      destruct (le_lt_dec (b * BLOCK) id) as [Hge|Hlt].
      * apply Hnew; lia.
      * rewrite Hframe by lia. apply Hdone; lia.
    + congruence.
    + intros p id Hout. rewrite Hframe by lia. apply Hrest. lia.
Qed.

End Kernel1DDelayFacts.

Section Kernel2DDelayBlock.

Variables dimx dimy : nat.
Local Abbreviation stridey := dimx.
Variables (data outlier : ptr) (radius : Z) (ebx2_r : Q).
Variables BIX BIY : nat.

Local Abbreviation gix lane := (BIX * 16 + lane_TIX lane).
Local Abbreviation giy_base lane := (BIY * 16 + lane_TIY lane * 8).
Local Abbreviation in_block := (in_block2 dimx dimy BIX BIY).
Local Abbreviation lin := (lin2 dimx).

Lemma postquant_write2d_delay_phase (center : regfile) (g : Global)
    (x y : nat) :
  in_block x y ->
  g_data
    (for_loop 0 32 (fun lane g =>
       postquant_write2d_delay (center lane) outlier dimx dimy stridey radius
         (gix lane) (giy_base lane) g) g) outlier (lin x y)
  = center (x - BIX * 16 + 16 * ((y - BIY * 16) / 8))
           ((y - BIY * 16) mod 8 + 1).
Proof.
  intros [(Bx & By) (Rx & Ry)].
  set (lane0 := x - BIX * 16 + 16 * ((y - BIY * 16) / 8)).
  set (j0 := (y - BIY * 16) mod 8 + 1).
  set (v := center lane0 j0).
  set (obs := fun g : Global => g_data g outlier (lin x y)).
  assert (Hq : (y - BIY * 16) / 8 < 2) by (apply Nat.Div0.div_lt_upper_bound; lia).
  pose proof (Nat.div_mod_eq (y - BIY * 16) 8) as Hdm.
  pose proof (Nat.mod_upper_bound (y - BIY * 16) 8 ltac:(lia)) as Hmb.
  assert (EX : lane_TIX lane0 = x - BIX * 16) by (apply lane_TIX_of; lia).
  assert (EY : lane_TIY lane0 = (y - BIY * 16) / 8) by (apply lane_TIY_of; lia).
  assert (Hstep : forall lane i (acc : Global),
    1 <= i <= 8 ->
    let gid := (giy_base lane + (i - 1)) * stridey + gix lane in
    let acc' :=
      if (gix lane <? dimx) && (giy_base lane + i - 1 <? dimy)
      then mkGlobal (dstore (g_data acc) outlier gid (center lane i))
                    (g_quant acc)
      else acc in
    obs acc' = v \/ obs acc' = obs acc).
  { intros lane i acc Hi. cbv zeta.
    destruct (Nat.ltb_spec (gix lane) dimx) as [Gx|Gx]; [|now right].
    destruct (Nat.ltb_spec (giy_base lane + i - 1) dimy) as [Gy|Gy];
      [|now right].
    cbn [andb]. unfold obs. cbn [g_data].
    destruct (Nat.eq_dec (lin x y)
                ((giy_base lane + (i - 1)) * stridey + gix lane)) as [E|Hne].
    - left. rewrite E, dstore_eq.
      destruct (@lin2_inj dimx x y (gix lane) (giy_base lane + (i - 1)) Rx Gx E)
        as (Ex & Ey).
      unfold lane_TIX, lane_TIY in Ex, Ey.
      pose proof (Nat.div_mod_eq lane 16).
      pose proof (Nat.mod_upper_bound lane 16 ltac:(lia)).
      assert (El : lane = lane0) by (unfold lane0; lia).
      assert (Ei : i = j0) by (unfold j0; lia).
      subst lane i. reflexivity.
    - right. rewrite dstore_neq by auto. reflexivity. }
  apply (loop_writes obs) with (i0 := lane0); [unfold lane0; lia| |].
  - intros acc. unfold postquant_write2d_delay. cbv zeta.
    apply (loop_writes obs) with (i0 := j0); [unfold j0; lia| |].
    + intros acc'. rewrite EX, EY.
      destruct (Nat.ltb_spec (BIX * 16 + (x - BIX * 16)) dimx); [|lia].
      destruct (Nat.ltb_spec (BIY * 16 + (y - BIY * 16) / 8 * 8 + j0 - 1) dimy);
        [|unfold j0 in *; lia].
      cbn [andb]. unfold obs. cbn [g_data].
      replace ((BIY * 16 + (y - BIY * 16) / 8 * 8 + (j0 - 1)) * stridey
               + (BIX * 16 + (x - BIX * 16))) with (lin x y)
        by (unfold lin2, j0; f_equal; [f_equal|]; lia).
      rewrite dstore_eq. reflexivity.
    + intros i acc' Hi. apply Hstep. lia.
  - intros lane acc _. unfold postquant_write2d_delay. cbv zeta.
    apply (loop_writes_only obs). intros i acc' Hi. apply Hstep. lia.
Qed.

Lemma postquant_write2d_delay_frame (center : regfile) (g : Global) :
  let g' := for_loop 0 32 (fun lane g =>
              postquant_write2d_delay (center lane) outlier dimx dimy stridey
                radius (gix lane) (giy_base lane) g) g in
  g_quant g' = g_quant g /\
  forall p id,
    p <> outlier \/ (forall x y, in_block x y -> id <> lin x y) ->
    g_data g' p id = g_data g p id.
Proof.
  cbv zeta. split.
  - apply (loop_preserves g_quant). intros lane acc Hlane.
    unfold postquant_write2d_delay. cbv zeta.
    apply (loop_preserves g_quant). intros i acc' Hi.
    destruct ((gix lane <? dimx) && (giy_base lane + i - 1 <? dimy));
      reflexivity.
  - intros p id Hout.
    apply (loop_preserves (fun g : Global => g_data g p id)).
    intros lane acc Hlane.
    unfold postquant_write2d_delay. cbv zeta.
    apply (loop_preserves (fun g : Global => g_data g p id)).
    intros i acc' Hi.
    destruct (Nat.ltb_spec (gix lane) dimx) as [Gx|Gx]; [|reflexivity].
    destruct (Nat.ltb_spec (giy_base lane + i - 1) dimy) as [Gy|Gy];
      [|reflexivity].
    cbn [andb g_data].
    destruct Hout as [Hout|Hout]; [rewrite dstore_neq by auto; reflexivity|].
    assert (Hne : id <> lin (gix lane) (giy_base lane + (i - 1))).
    { apply Hout. unfold in_block2, lane_TIX, lane_TIY in *.
      pose proof (Nat.div_mod_eq lane 16).
      pose proof (Nat.mod_upper_bound lane 16 ltac:(lia)). lia. }
    unfold lin2 in Hne. rewrite dstore_neq by auto. reflexivity.
Qed.

Lemma c_lorenzo_2d1l_delay_block_spec (g : Global) (s : mem Q) (x y : nat) :
  (forall x' y', in_block x' y' -> g_data g data (lin x' y') = s (lin x' y')) ->
  in_block x y ->
  g_data (c_lorenzo_2d1l_delay_block data outlier dimx dimy stridey radius
            ebx2_r BIX BIY g) outlier (lin x y)
  = lorenzo_delta2d (prequant2 s stridey ebx2_r) x y.
Proof.
  intros Hs Hin. unfold c_lorenzo_2d1l_delay_block. cbv zeta.
  rewrite postquant_write2d_delay_phase by assumption.
  pose proof Hin as [(Bx & By) (Rx & Ry)].
  assert (Hq : (y - BIY * 16) / 8 < 2) by (apply Nat.Div0.div_lt_upper_bound; lia).
  pose proof (Nat.div_mod_eq (y - BIY * 16) 8) as Hdm.
  pose proof (Nat.mod_upper_bound (y - BIY * 16) 8 ltac:(lia)) as Hmb.
  rewrite (@c_lorenzo_2d1l_center dimx dimy ebx2_r BIX BIY (g_data g data))
    by lia.
  replace (BIX * 16 + (x - BIX * 16)) with x by lia.
  replace (BIY * 16 + (y - BIY * 16) / 8 * 8 + ((y - BIY * 16) mod 8 + 1) - 1)
    with y by lia.
  apply lorenzo_delta2d_ext with (dimx := dimx) (dimy := dimy) (BIX := BIX)
                                 (BIY := BIY); [|assumption].
  intros x' y' Hin'. unfold prequant2. fold (lin x' y').
  rewrite Hs by assumption. reflexivity.
Qed.

Lemma c_lorenzo_2d1l_delay_block_frame (g : Global) :
  let g' := c_lorenzo_2d1l_delay_block data outlier dimx dimy stridey radius
              ebx2_r BIX BIY g in
  g_quant g' = g_quant g /\
  forall p id,
    p <> outlier \/ (forall x y, in_block x y -> id <> lin x y) ->
    g_data g' p id = g_data g p id.
Proof.
  unfold c_lorenzo_2d1l_delay_block. cbv zeta.
  apply postquant_write2d_delay_frame.
Qed.

End Kernel2DDelayBlock.

Section Kernel2DDelayGrid.

Variables dimx dimy : nat.
Variables (data outlier : ptr) (radius : Z) (ebx2_r : Q).
Variables gridDim_x gridDim_y : nat.

Lemma c_lorenzo_2d1l_delay_spec (g : Global) (x y : nat) :
  x < dimx -> y < dimy -> x < gridDim_x * 16 -> y < gridDim_y * 16 ->
  g_data (c_lorenzo_2d1l_delay gridDim_x gridDim_y data outlier dimx dimy
            dimx radius ebx2_r g) outlier (lin2 dimx x y)
  = lorenzo_delta2d (prequant2 (g_data g data) dimx ebx2_r) x y.
Proof.
  intros Rx Ry Gx Gy.
  set (bx := x / 16). set (by_ := y / 16).
  assert (Hin : in_block2 dimx dimy bx by_ x y).
  { unfold in_block2, bx, by_.
    pose proof (Nat.div_mod_eq x 16). pose proof (Nat.mod_upper_bound x 16).
    pose proof (Nat.div_mod_eq y 16). pose proof (Nat.mod_upper_bound y 16).
    lia. }
  set (Inv := fun acc : Global =>
    forall x' y', in_block2 dimx dimy bx by_ x' y' ->
      g_data acc data (lin2 dimx x' y') = g_data g data (lin2 dimx x' y')).
  unfold c_lorenzo_2d1l_delay.
  apply (@nest2_writes_at _ _
           (fun acc : Global => g_data acc outlier (lin2 dimx x y)) Inv
           gridDim_x gridDim_y
           (fun i j s =>
              c_lorenzo_2d1l_delay_block data outlier dimx dimy dimx radius
                ebx2_r i j s)
           bx by_).
  - destruct Hin as [(Bx & _) _]. lia.
  - destruct Hin as [(_ & By) _]. lia.
  - intros x' y' _. reflexivity.
  - intros i j Hne acc.
    destruct (@c_lorenzo_2d1l_delay_block_frame dimx dimy data outlier radius
                ebx2_r i j acc) as [_ Hf].
    split.
    + intros Hacc x' y' Hin'.
      rewrite <- (Hacc x' y' Hin'). apply Hf.
      right. intros x'' y'' Hin''.
      apply (in_block2_disjoint Hin' Hin''). intuition congruence.
    + apply Hf. right. intros x'' y'' Hin''.
      apply (in_block2_disjoint Hin Hin''). intuition congruence.
  - intros acc Hacc.
    apply (@c_lorenzo_2d1l_delay_block_spec dimx dimy data outlier radius
             ebx2_r bx by_ acc (g_data g data) x y Hacc Hin).
Qed.

Lemma c_lorenzo_2d1l_delay_quant (g : Global) :
  g_quant (c_lorenzo_2d1l_delay gridDim_x gridDim_y data outlier dimx dimy
             dimx radius ebx2_r g) = g_quant g.
Proof.
  unfold c_lorenzo_2d1l_delay.
  apply (loop_preserves g_quant). intros j acc Hj.
  apply (loop_preserves g_quant). intros i acc' Hi.
  apply (@c_lorenzo_2d1l_delay_block_frame dimx dimy data outlier radius
           ebx2_r i j acc').
Qed.

End Kernel2DDelayGrid.

(** X18: with [DELAY_POSTQUANT] the 1D and 2D compress-time kernels store
    the residual itself in [outlier] and never write a quant code; the
    inclusive running sum of what they store gives back the prequantized
    sample, whatever [radius] is. *)
Theorem c_lorenzo_delay_postquant (data outlier : ptr) (radius : Z)
    (ebx2_r : Q) (g : Global) :
  (forall BLOCK SEQ shmem_data0 gridDim dimx id,
     0 < SEQ -> 0 < BLOCK -> BLOCK mod SEQ = 0 ->
     id < gridDim * BLOCK -> id < dimx ->
     let s' := prequant (g_data g data) ebx2_r in
     let g' := c_lorenzo_1d1l_delay BLOCK SEQ shmem_data0 gridDim data
                 outlier dimx radius ebx2_r g in
     g_data g' outlier id = lorenzo_delta1d BLOCK s' id /\
     g_quant g' = g_quant g /\
     (tile_prefix_sum BLOCK (g_data g' outlier) id == s' id)%Q) /\
  (forall gridDim_x gridDim_y dimx dimy x y,
     x < dimx -> y < dimy -> x < gridDim_x * 16 -> y < gridDim_y * 16 ->
     let s' := prequant2 (g_data g data) dimx ebx2_r in
     let g' := c_lorenzo_2d1l_delay gridDim_x gridDim_y data outlier dimx
                 dimy dimx radius ebx2_r g in
     g_data g' outlier (lin2 dimx x y) = lorenzo_delta2d s' x y /\
     g_quant g' = g_quant g /\
     (tile_prefix_sum2 (fun x' y' => g_data g' outlier (lin2 dimx x' y')) x y
      == s' x y)%Q).
Proof.
  split.
  - intros BLOCK SEQ shmem_data0 gridDim dimx id HS HB Hdiv Hg Hd s' g'.
    destruct (@c_lorenzo_1d1l_delay_spec BLOCK SEQ HS HB Hdiv shmem_data0
                gridDim data outlier dimx radius ebx2_r g) as (Hout & Hq & _).
    fold s' g' in Hout, Hq.
    split; [apply Hout; assumption|]. split; [exact Hq|].
    rewrite <- (tile_prefix_sum_delta s' id HB).
    unfold tile_prefix_sum. apply prefix_sum_Qeq. intros j Hj.
    pose proof (@tile_base_le BLOCK id j HB Hj) as Hle.
    rewrite Hout by lia. reflexivity.
  - intros gridDim_x gridDim_y dimx dimy x y Rx Ry Gx Gy s' g'.
    split; [|split].
    + apply c_lorenzo_2d1l_delay_spec; assumption.
    + apply c_lorenzo_2d1l_delay_quant.
    + rewrite <- (tile_prefix_sum2_delta s' x y).
      apply tile_prefix_sum2_Qeq. intros x' y' Hx' Hy'.
      unfold g', s'.
      rewrite (@c_lorenzo_2d1l_delay_spec dimx dimy data outlier radius ebx2_r
                 gridDim_x gridDim_y g x' y') by lia.
      reflexivity.
Qed.

Lemma c_lorenzo_delay_postquant_witness :
  let g := global_of scenario_grid in
  let s' := prequant2 (g_data g 0) 3 1 in
  let g' := c_lorenzo_2d1l_delay 1 1 0 1 3 3 3 8 1 g in
  let v := g_data g' 1 (lin2 3 2 1) in
  let d := lorenzo_delta2d s' 2 1 in
  v = d /\ g_quant g' = g_quant g.
Proof.
  intros g s' g' v d.
  destruct (proj2 (@c_lorenzo_delay_postquant 0 1 8 1%Q g) 1 1 3 3 2 1)
    as (H1 & H2 & _); try lia.
  split; [exact H1|exact H2].
Defined.
